(** * dbghelp: the DWARF 2 reader of dlls/dbghelp/dwarf.c

    A shallow embedding of the reader and the properties its specification
    states about it.

    Conventions of the embedding.
    - The code targets i386 (see the register table of
      [dwarf2_map_register] and the little-endian remark in
      [dwarf2_parse_udt_member]): [int], [long] and pointers are 32 bits
      wide, the host is little-endian.  A C integer is a [Z] holding its
      mathematical value; every place where C truncates is written out
      with [uint32], [sint32] and their narrower variants.
    - A pointer is the address it holds.  The bytes the reader is given
      live in a [memory], a list of mapped regions; a read outside every
      region has no value ([None]).
    - Functions that write through a pointer argument take the former
      content of the pointee and return the new one. *)

From Stdlib Require Import ZArith List Lia Bool String Ascii DecimalString.
From stdpp Require Import base option list gmap.
Import ListNotations.
Open Scope Z_scope.

(* ================================================================== *)
(** * Machine integers *)

Definition uint8 (z : Z) : Z := z mod 2 ^ 8.
Definition uint16 (z : Z) : Z := z mod 2 ^ 16.
Definition uint32 (z : Z) : Z := z mod 2 ^ 32.
Definition sint8 (z : Z) : Z := (z + 2 ^ 7) mod 2 ^ 8 - 2 ^ 7.
Definition sint16 (z : Z) : Z := (z + 2 ^ 15) mod 2 ^ 16 - 2 ^ 15.
Definition sint32 (z : Z) : Z := (z + 2 ^ 31) mod 2 ^ 32 - 2 ^ 31.

(** [x << count] on [int].  The i386 shift instruction uses the low five
    bits of the count; a result that does not fit wraps around. *)
Definition int_shl (x count : Z) : Z := sint32 (Z.shiftl x (count mod 32)).

(* ================================================================== *)
(** * Memory and the byte cursor *)

Record region := { r_base : Z; r_bytes : list Z }.

Definition memory := list region.

(** The bytes from address [p] to the end of the region that holds [p]. *)
Fixpoint bytes_at (m : memory) (p : Z) : list Z :=
  match m with
  | [] => []
  | r :: m' =>
      if (r_base r <=? p) && (p <? r_base r + Z.of_nat (length (r_bytes r)))
      then map uint8 (drop (Z.to_nat (p - r_base r)) (r_bytes r))
      else bytes_at m' p
  end.

Record dwarf2_traverse_context_t := {
  data : Z;
  start_data : Z;
  end_data : Z;
  word_size : Z
}.

Definition set_data (ctx : dwarf2_traverse_context_t) (p : Z) :=
  {| data := p; start_data := start_data ctx;
     end_data := end_data ctx; word_size := word_size ctx |}.

Definition set_end_data (ctx : dwarf2_traverse_context_t) (p : Z) :=
  {| data := data ctx; start_data := start_data ctx;
     end_data := p; word_size := word_size ctx |}.

Definition dwarf2_get_byte (m : memory) (ptr : Z) : option Z :=
  head (bytes_at m ptr).

Definition dwarf2_parse_byte (m : memory) (ctx : dwarf2_traverse_context_t)
  : option (Z * dwarf2_traverse_context_t) :=
  uvalue ← dwarf2_get_byte m (data ctx);
  Some (uvalue, set_data ctx (data ctx + 1)).

Definition dwarf2_get_u2 (m : memory) (ptr : Z) : option Z :=
  b0 ← dwarf2_get_byte m ptr;
  b1 ← dwarf2_get_byte m (ptr + 1);
  Some (b0 + 2 ^ 8 * b1).

Definition dwarf2_parse_u2 (m : memory) (ctx : dwarf2_traverse_context_t)
  : option (Z * dwarf2_traverse_context_t) :=
  uvalue ← dwarf2_get_u2 m (data ctx);
  Some (uvalue, set_data ctx (data ctx + 2)).

Definition dwarf2_get_u4 (m : memory) (ptr : Z) : option Z :=
  b0 ← dwarf2_get_byte m ptr;
  b1 ← dwarf2_get_byte m (ptr + 1);
  b2 ← dwarf2_get_byte m (ptr + 2);
  b3 ← dwarf2_get_byte m (ptr + 3);
  Some (b0 + 2 ^ 8 * b1 + 2 ^ 16 * b2 + 2 ^ 24 * b3).

Definition dwarf2_parse_u4 (m : memory) (ctx : dwarf2_traverse_context_t)
  : option (Z * dwarf2_traverse_context_t) :=
  uvalue ← dwarf2_get_u4 m (data ctx);
  Some (uvalue, set_data ctx (data ctx + 4)).

(** The [do ... while (byte & 0x80)] loop of [dwarf2_get_leb128_as_unsigned]
    over the bytes that follow [ptr]; [n] counts the bytes consumed, so
    that [ptr + n] is the final [ptr]. *)
Fixpoint leb128_as_unsigned_loop (bs : list Z) (ret shift n : Z)
  : option (Z * Z) :=
  match bs with
  | [] => None
  | byte :: bs' =>
      let ret := Z.lor ret (uint32 (int_shl (Z.land byte 0x7f) shift)) in
      let shift := uint32 (shift + 7) in
      if Z.land byte 0x80 =? 0 then Some (ret, n + 1)
      else leb128_as_unsigned_loop bs' ret shift (n + 1)
  end.

(** Returns the value and what the code stores in [*end]. *)
Definition dwarf2_get_leb128_as_unsigned (m : memory) (ptr : Z)
  : option (Z * Z) :=
  '(ret, n) ← leb128_as_unsigned_loop (bytes_at m ptr) 0 0 0;
  Some (ret, ptr + n).

Definition dwarf2_leb128_as_unsigned (m : memory)
  (ctx : dwarf2_traverse_context_t)
  : option (Z * dwarf2_traverse_context_t) :=
  '(ret, e) ← dwarf2_get_leb128_as_unsigned m (data ctx);
  Some (ret, set_data ctx e).

(** The loop of [dwarf2_get_leb128_as_signed]; it also hands back the
    last byte and the final shift, which the sign extension needs. *)
Fixpoint leb128_as_signed_loop (bs : list Z) (ret shift n : Z)
  : option (Z * Z * Z * Z) :=
  match bs with
  | [] => None
  | byte :: bs' =>
      let ret := Z.lor ret (int_shl (Z.land byte 0x7f) shift) in
      let shift := uint32 (shift + 7) in
      if Z.land byte 0x80 =? 0 then Some (ret, byte, shift, n + 1)
      else leb128_as_signed_loop bs' ret shift (n + 1)
  end.

(** [if ((shift < size) && (byte & 0x40)) ret |= - (1 << shift);] with
    [size = sizeof(int) * 8]. *)
Definition leb128_sign_extend (ret byte shift : Z) : Z :=
  if (shift <? 4 * 8) && negb (Z.land byte 0x40 =? 0)
  then Z.lor ret (sint32 (- int_shl 1 shift))
  else ret.

Definition dwarf2_get_leb128_as_signed (m : memory) (ptr : Z)
  : option (Z * Z) :=
  '(ret, byte, shift, n) ← leb128_as_signed_loop (bytes_at m ptr) 0 0 0;
  Some (leb128_sign_extend ret byte shift, ptr + n).

Definition dwarf2_leb128_as_signed (m : memory)
  (ctx : dwarf2_traverse_context_t)
  : option (Z * dwarf2_traverse_context_t) :=
  '(ret, e) ← dwarf2_get_leb128_as_signed m (data ctx);
  Some (ret, set_data ctx e).

(** [for (ret = 0; ctx->data[ret] & 0x80; ret++);] *)
Fixpoint leb128_length_loop (bs : list Z) (ret : Z) : option Z :=
  match bs with
  | [] => None
  | byte :: bs' =>
      if Z.land byte 0x80 =? 0 then Some ret
      else leb128_length_loop bs' (ret + 1)
  end.

Definition dwarf2_leb128_length (m : memory) (ctx : dwarf2_traverse_context_t)
  : option Z :=
  ret ← leb128_length_loop (bytes_at m (data ctx)) 0;
  Some (ret + 1).

(** The [default] branch only logs and yields 0; it reads nothing. *)
Definition dwarf2_get_addr (m : memory) (ptr : Z) (word_size : Z)
  : option Z :=
  if word_size =? 4 then dwarf2_get_u4 m ptr else Some 0.

Definition dwarf2_parse_addr (m : memory) (ctx : dwarf2_traverse_context_t)
  : option (Z * dwarf2_traverse_context_t) :=
  ret ← dwarf2_get_addr m (data ctx) (word_size ctx);
  Some (ret, set_data ctx (data ctx + word_size ctx)).

(** [strlen]: the bytes before the first NUL. *)
Fixpoint strlen_loop (bs : list Z) (n : Z) : option Z :=
  match bs with
  | [] => None
  | byte :: bs' => if byte =? 0 then Some n else strlen_loop bs' (n + 1)
  end.

Definition strlen (m : memory) (p : Z) : option Z :=
  strlen_loop (bytes_at m p) 0.

(* ================================================================== *)
(** * Constants of dwarf.h and cvconst.h

    Modelled from the spec: the headers dwarf.h, cvconst.h and
    dbghelp_private.h are not among the sources.  The tags, attribute
    kinds, forms and opcodes below carry the values the DWARF 2 standard
    assigns to them ([DW_ATE_void] is the reader's own addition, 0); no
    property proved here depends on the numeric values beyond the
    constants being pairwise distinct where the code switches on them. *)

Definition DW_TAG_array_type := 0x01.
Definition DW_TAG_class_type := 0x02.
Definition DW_TAG_enumeration_type := 0x04.
Definition DW_TAG_formal_parameter := 0x05.
Definition DW_TAG_label := 0x0a.
Definition DW_TAG_lexical_block := 0x0b.
Definition DW_TAG_member := 0x0d.
Definition DW_TAG_pointer_type := 0x0f.
Definition DW_TAG_reference_type := 0x10.
Definition DW_TAG_compile_unit := 0x11.
Definition DW_TAG_structure_type := 0x13.
Definition DW_TAG_subroutine_type := 0x15.
Definition DW_TAG_typedef := 0x16.
Definition DW_TAG_union_type := 0x17.
Definition DW_TAG_unspecified_parameters := 0x18.
Definition DW_TAG_inlined_subroutine := 0x1d.
Definition DW_TAG_subrange_type := 0x21.
Definition DW_TAG_base_type := 0x24.
Definition DW_TAG_const_type := 0x26.
Definition DW_TAG_enumerator := 0x28.
Definition DW_TAG_subprogram := 0x2e.
Definition DW_TAG_variable := 0x34.
Definition DW_TAG_volatile_type := 0x35.

Definition DW_AT_sibling := 0x01.
Definition DW_AT_location := 0x02.
Definition DW_AT_name := 0x03.
Definition DW_AT_byte_size := 0x0b.
Definition DW_AT_bit_offset := 0x0c.
Definition DW_AT_bit_size := 0x0d.
Definition DW_AT_stmt_list := 0x10.
Definition DW_AT_low_pc := 0x11.
Definition DW_AT_high_pc := 0x12.
Definition DW_AT_comp_dir := 0x1b.
Definition DW_AT_const_value := 0x1c.
Definition DW_AT_inline := 0x20.
Definition DW_AT_lower_bound := 0x22.
Definition DW_AT_upper_bound := 0x2f.
Definition DW_AT_count := 0x37.
Definition DW_AT_data_member_location := 0x38.
Definition DW_AT_declaration := 0x3c.
Definition DW_AT_encoding := 0x3e.
Definition DW_AT_external := 0x3f.
Definition DW_AT_frame_base := 0x40.
Definition DW_AT_type := 0x49.

Definition DW_FORM_addr := 0x01.
Definition DW_FORM_block2 := 0x03.
Definition DW_FORM_block4 := 0x04.
Definition DW_FORM_data2 := 0x05.
Definition DW_FORM_data4 := 0x06.
Definition DW_FORM_data8 := 0x07.
Definition DW_FORM_string := 0x08.
Definition DW_FORM_block := 0x09.
Definition DW_FORM_block1 := 0x0a.
Definition DW_FORM_data1 := 0x0b.
Definition DW_FORM_flag := 0x0c.
Definition DW_FORM_sdata := 0x0d.
Definition DW_FORM_strp := 0x0e.
Definition DW_FORM_udata := 0x0f.
Definition DW_FORM_ref_addr := 0x10.
Definition DW_FORM_ref1 := 0x11.
Definition DW_FORM_ref2 := 0x12.
Definition DW_FORM_ref4 := 0x13.
Definition DW_FORM_ref8 := 0x14.
Definition DW_FORM_ref_udata := 0x15.

Definition DW_OP_addr := 0x03.
Definition DW_OP_const1u := 0x08.
Definition DW_OP_const1s := 0x09.
Definition DW_OP_const2u := 0x0a.
Definition DW_OP_const2s := 0x0b.
Definition DW_OP_const4u := 0x0c.
Definition DW_OP_const4s := 0x0d.
Definition DW_OP_constu := 0x10.
Definition DW_OP_consts := 0x11.
Definition DW_OP_plus_uconst := 0x23.
Definition DW_OP_reg0 := 0x50.
Definition DW_OP_reg31 := 0x6f.
Definition DW_OP_breg0 := 0x70.
Definition DW_OP_breg31 := 0x8f.
Definition DW_OP_fbreg := 0x91.
Definition DW_OP_piece := 0x93.

Definition DW_ATE_void := 0x0.
Definition DW_ATE_address := 0x1.
Definition DW_ATE_boolean := 0x2.
Definition DW_ATE_complex_float := 0x3.
Definition DW_ATE_float := 0x4.
Definition DW_ATE_signed := 0x5.
Definition DW_ATE_signed_char := 0x6.
Definition DW_ATE_unsigned := 0x7.
Definition DW_ATE_unsigned_char := 0x8.

Definition DW_LNS_extended_op := 0x00.
Definition DW_LNS_copy := 0x01.
Definition DW_LNS_advance_pc := 0x02.
Definition DW_LNS_advance_line := 0x03.
Definition DW_LNS_set_file := 0x04.
Definition DW_LNS_set_column := 0x05.
Definition DW_LNS_negate_stmt := 0x06.
Definition DW_LNS_set_basic_block := 0x07.
Definition DW_LNS_const_add_pc := 0x08.
Definition DW_LNS_fixed_advance_pc := 0x09.

Definition DW_LNE_end_sequence := 0x01.
Definition DW_LNE_set_address := 0x02.
Definition DW_LNE_define_file := 0x03.

Inductive BasicType :=
  btNoType | btVoid | btChar | btInt | btUInt | btFloat | btBool | btULong
| btComplex.

Inductive UdtKind := UdtStruct | UdtClass | UdtUnion.

Inductive DataKind := DataIsLocal | DataIsParam.

Inductive SymTagEnum := SymTagFunction | SymTagLabel.

Definition CV_CALL_FAR_C := 0x01.

Definition CV_REG_EAX := 17.
Definition CV_REG_ECX := 18.
Definition CV_REG_EDX := 19.
Definition CV_REG_EBX := 20.
Definition CV_REG_ESP := 21.
Definition CV_REG_EBP := 22.
Definition CV_REG_ESI := 23.
Definition CV_REG_EDI := 24.
Definition CV_REG_ES := 25.
Definition CV_REG_CS := 26.
Definition CV_REG_SS := 27.
Definition CV_REG_DS := 28.
Definition CV_REG_FS := 29.
Definition CV_REG_GS := 30.
Definition CV_REG_EIP := 33.
Definition CV_REG_EFLAGS := 34.
Definition CV_REG_ST0 := 128.
Definition CV_REG_CTRL := 136.
Definition CV_REG_STAT := 137.
Definition CV_REG_TAG := 138.
Definition CV_REG_XMM0 := 154.
Definition CV_REG_MXCSR := 211.

Definition Wine_DW_no_register := 0x7FFFFFFF.
Definition Wine_DW_frame_register := 0x7FFFFFFE.
Definition Wine_DW_register_deref := 0x80000000.

Definition NO_MAP := 0xffffffff.

(* ================================================================== *)
(** * The structures of the reader *)

(** One node of the [attrs] list of an abbreviation; the list itself
    stands for the [next] links. *)
Record dwarf2_abbrev_entry_attr_t := { attribute : Z; form : Z }.

Record dwarf2_abbrev_entry_t := {
  entry_code : Z;
  tag : Z;
  have_child : Z;
  num_attr : Z;
  attrs : list dwarf2_abbrev_entry_attr_t
}.

(** [struct attribute].  The union [u] is two 32-bit words: [uvalue],
    [svalue], [string] and [block.size] all sit in the first one,
    [block.ptr] in the second. *)
Record struct_attribute := { a_form : Z; u_word0 : Z; u_word1 : Z }.

Definition u_uvalue (a : struct_attribute) : Z := u_word0 a.
Definition u_svalue (a : struct_attribute) : Z := sint32 (u_word0 a).
Definition u_string (a : struct_attribute) : Z := u_word0 a.
Definition u_block_size (a : struct_attribute) : Z := u_word0 a.
Definition u_block_ptr (a : struct_attribute) : Z := u_word1 a.

Definition set_form (a : struct_attribute) (f : Z) : struct_attribute :=
  {| a_form := f; u_word0 := u_word0 a; u_word1 := u_word1 a |}.
Definition set_uvalue (a : struct_attribute) (v : Z) : struct_attribute :=
  {| a_form := a_form a; u_word0 := uint32 v; u_word1 := u_word1 a |}.
Definition set_svalue (a : struct_attribute) (v : Z) : struct_attribute :=
  {| a_form := a_form a; u_word0 := uint32 v; u_word1 := u_word1 a |}.
Definition set_string (a : struct_attribute) (p : Z) : struct_attribute :=
  {| a_form := a_form a; u_word0 := p; u_word1 := u_word1 a |}.
Definition set_block (a : struct_attribute) (sz p : Z) : struct_attribute :=
  {| a_form := a_form a; u_word0 := uint32 sz; u_word1 := p |}.

(** [struct symt*]: the position of the symbol in the module, [None] for
    the null pointer. *)
Definition symt_ptr := option nat.

(** A debug-info entry.  [children] holds, for each child, the key under
    which the child sits in [debug_info_table]: the vector of the code
    holds pointers into that table. *)
Record dwarf2_debug_info_t := {
  abbrev : dwarf2_abbrev_entry_t;
  symt : symt_ptr;
  di_data : list Z;
  children : list Z
}.

Definition set_symt (di : dwarf2_debug_info_t) (s : symt_ptr) :=
  {| abbrev := abbrev di; symt := s; di_data := di_data di;
     children := children di |}.

Definition set_children (di : dwarf2_debug_info_t) (c : list Z) :=
  {| abbrev := abbrev di; symt := symt di; di_data := di_data di;
     children := c |}.

Record dwarf2_section_t := { address : Z; size : Z }.

Inductive dwarf2_sections :=
  section_debug | section_string | section_abbrev | section_line.

(* ================================================================== *)
(** * The module and its symbol table

    Modelled from the spec: the symbol-table interface of dbghelp
    ([symt_new_basic], [symt_add_udt_element], [source_new], ..., declared
    in dbghelp_private.h and defined in type.c, symbol.c and source.c) and
    the pool allocator are not among the sources.  The module is modelled
    by the sequence of the calls the reader makes to that interface, each
    with its arguments.  A call that creates a symbol creates a new object;
    the object is identified by the position of the call that created it.
    A name is the text found at the pointer handed over ([None] for a null
    pointer or one that points to no text). *)

Inductive symt_call :=
| symt_new_basic (bt : BasicType) (typename : option string) (size : Z)
| symt_new_typedef (ref : symt_ptr) (name : option string)
| symt_new_pointer (ref_type : symt_ptr)
| symt_new_array (min max : Z) (base idx : symt_ptr)
| symt_new_udt (typename : option string) (size : Z) (kind : UdtKind)
| symt_add_udt_element (udt_type : symt_ptr) (name : option string)
    (elt_type : symt_ptr) (offset size : Z)
| symt_new_enum (typename : option string)
| symt_add_enum_element (enum_type : symt_ptr) (name : option string)
    (value : Z)
| symt_new_function_signature (ret_type : symt_ptr) (call_conv : Z)
| symt_add_function_signature_parameter (sig param : symt_ptr)
| symt_new_function (compiland : symt_ptr) (name : option string)
    (addr size : Z) (sig_type : symt_ptr)
| symt_add_func_local (func : symt_ptr) (dt : DataKind) (regno regrel : Z)
    (offset : Z) (block type : symt_ptr) (name : option string)
| symt_open_func_block (func parent : symt_ptr) (pc len : Z)
| symt_close_func_block (func block : symt_ptr) (pc : Z)
| symt_add_function_point (func : symt_ptr) (point : SymTagEnum)
    (address : Z) (name : option string)
| symt_normalize_function (func : symt_ptr)
| symt_new_global_variable (compiland : symt_ptr) (name : option string)
    (is_static : bool) (addr size : Z) (type : symt_ptr)
| symt_new_compiland (source : Z)
| source_new (dir name : option string)
| symt_add_func_line (func : symt_ptr) (source_idx line_num offset : Z).

Record module_t := {
  BaseOfImage : Z;
  calls : list symt_call;
  SymType : Z;
  CVSig : Z;
  LineNumbers : bool;
  GlobalSymbols : bool;
  TypeInfo : bool;
  SourceIndexed : bool;
  Publics : bool
}.

Definition set_calls (md : module_t) (l : list symt_call) : module_t :=
  {| BaseOfImage := BaseOfImage md; calls := l; SymType := SymType md;
     CVSig := CVSig md; LineNumbers := LineNumbers md;
     GlobalSymbols := GlobalSymbols md; TypeInfo := TypeInfo md;
     SourceIndexed := SourceIndexed md; Publics := Publics md |}.

(** [func->type] and [func->address] of a function symbol. *)
Definition function_type (md : module_t) (func : nat) : symt_ptr :=
  match calls md !! func with
  | Some (symt_new_function _ _ _ _ t) => t
  | _ => None
  end.

Definition function_address (md : module_t) (func : nat) : option Z :=
  match calls md !! func with
  | Some (symt_new_function _ _ a _ _) => Some a
  | _ => None
  end.

(** The pool: where the next allocation goes and the texts written into
    the allocations so far. *)
Record pool_t := { pool_next : Z; pool_strings : list (Z * string) }.

(** The parse context.  Besides the fields of the C structure it carries
    the memory the section pointers point into ([mem]) and the
    function-static counter of [dwarf2_find_name] ([index]), which are
    global in the code.  The table of thunks is only ever handed to
    [elf_is_in_thunk_area]. *)
Record dwarf2_parse_context_t := {
  mem : memory;
  sections : dwarf2_sections -> dwarf2_section_t;
  section : dwarf2_sections;
  pool : pool_t;
  module : module_t;
  abbrev_table : gmap Z dwarf2_abbrev_entry_t;
  debug_info_table : gmap Z dwarf2_debug_info_t;
  ref_offset : Z;
  ctx_word_size : Z;
  index : Z
}.

Definition set_pool (ctx : dwarf2_parse_context_t) (p : pool_t) :=
  {| mem := mem ctx; sections := sections ctx; section := section ctx;
     pool := p; module := module ctx; abbrev_table := abbrev_table ctx;
     debug_info_table := debug_info_table ctx; ref_offset := ref_offset ctx;
     ctx_word_size := ctx_word_size ctx; index := index ctx |}.

Definition set_module (ctx : dwarf2_parse_context_t) (md : module_t) :=
  {| mem := mem ctx; sections := sections ctx; section := section ctx;
     pool := pool ctx; module := md; abbrev_table := abbrev_table ctx;
     debug_info_table := debug_info_table ctx; ref_offset := ref_offset ctx;
     ctx_word_size := ctx_word_size ctx; index := index ctx |}.

Definition set_abbrev_table (ctx : dwarf2_parse_context_t)
  (t : gmap Z dwarf2_abbrev_entry_t) :=
  {| mem := mem ctx; sections := sections ctx; section := section ctx;
     pool := pool ctx; module := module ctx; abbrev_table := t;
     debug_info_table := debug_info_table ctx; ref_offset := ref_offset ctx;
     ctx_word_size := ctx_word_size ctx; index := index ctx |}.

Definition set_debug_info_table (ctx : dwarf2_parse_context_t)
  (t : gmap Z dwarf2_debug_info_t) :=
  {| mem := mem ctx; sections := sections ctx; section := section ctx;
     pool := pool ctx; module := module ctx; abbrev_table := abbrev_table ctx;
     debug_info_table := t; ref_offset := ref_offset ctx;
     ctx_word_size := ctx_word_size ctx; index := index ctx |}.

Definition set_index (ctx : dwarf2_parse_context_t) (i : Z) :=
  {| mem := mem ctx; sections := sections ctx; section := section ctx;
     pool := pool ctx; module := module ctx; abbrev_table := abbrev_table ctx;
     debug_info_table := debug_info_table ctx; ref_offset := ref_offset ctx;
     ctx_word_size := ctx_word_size ctx; index := i |}.

(** ** Texts *)

Definition ascii_of_byte (b : Z) : ascii := ascii_of_N (Z.to_N b).

(** The text before the first NUL. *)
Fixpoint cstring_of_bytes (bs : list Z) : option string :=
  match bs with
  | [] => None
  | b :: bs' =>
      if b =? 0 then Some EmptyString
      else s ← cstring_of_bytes bs'; Some (String (ascii_of_byte b) s)
  end.

Fixpoint pool_lookup (l : list (Z * string)) (p : Z) : option string :=
  match l with
  | [] => None
  | (a, s) :: l' => if a =? p then Some s else pool_lookup l' p
  end.

(** The text a [const char*] points to. *)
Definition string_at (ctx : dwarf2_parse_context_t) (p : Z) : option string :=
  if p =? 0 then None
  else match pool_lookup (pool_strings (pool ctx)) p with
       | Some s => Some s
       | None => cstring_of_bytes (bytes_at (mem ctx) p)
       end.

(** [%d] of [sprintf]. *)
Definition decimal (z : Z) : string := NilZero.string_of_int (Z.to_int z).

(* ================================================================== *)
(** * The monad of the reader

    A computation runs on the parse context and either finishes with a
    result and a new context, or faults (a read outside the mapped memory,
    a null or dangling entry pointer dereferenced, a failed [assert], a
    division by zero), or runs out of the fuel that bounds its
    recursion. *)

Inductive outcome (A : Type) : Type :=
| Done (a : A) (ctx : dwarf2_parse_context_t)
| Fault
| OutOfFuel.

Arguments Done {A} a ctx.
Arguments Fault {A}.
Arguments OutOfFuel {A}.

Definition M (A : Type) : Type := dwarf2_parse_context_t -> outcome A.

Definition ret {A : Type} (a : A) : M A := fun ctx => Done a ctx.

Definition bind {A B : Type} (c : M A) (k : A -> M B) : M B :=
  fun ctx =>
    match c ctx with
    | Done a ctx' => k a ctx'
    | Fault => Fault
    | OutOfFuel => OutOfFuel
    end.

Notation "'let*' x ':=' c 'in' k" := (bind c (fun x => k))
  (at level 10, x name, c at level 100, k at level 200, only parsing).
Notation "'let*' ' p ':=' c 'in' k" := (bind c (fun p => k))
  (at level 10, p pattern, c at level 100, k at level 200, only parsing).
Notation "'do*' c 'in' k" := (bind c (fun _ => k))
  (at level 10, c at level 100, k at level 200, only parsing).

Definition get_ctx : M dwarf2_parse_context_t := fun ctx => Done ctx ctx.

Definition fault {A : Type} : M A := fun _ => Fault.

Definition out_of_fuel {A : Type} : M A := fun _ => OutOfFuel.

(** A read of the memory inside a computation. *)
Definition lift {A : Type} (o : option A) : M A :=
  match o with
  | Some a => ret a
  | None => fault
  end.

Fixpoint for_each {A : Type} (l : list A) (f : A -> M unit) : M unit :=
  match l with
  | [] => ret tt
  | x :: l' => do* f x in for_each l' f
  end.

(** [*di] for an entry pointer. *)
Definition get_di (di : Z) : M dwarf2_debug_info_t :=
  fun ctx =>
    match debug_info_table ctx !! di with
    | Some e => Done e ctx
    | None => Fault
    end.

(** [di->symt = s]. *)
Definition set_di_symt (di : Z) (s : symt_ptr) : M unit :=
  fun ctx =>
    match debug_info_table ctx !! di with
    | Some e =>
        Done tt (set_debug_info_table ctx
                   (<[di := set_symt e s]> (debug_info_table ctx)))
    | None => Fault
    end.

(** A call into the symbol table that hands back a new object. *)
Definition call_new (c : symt_call) : M symt_ptr :=
  fun ctx =>
    Done (Some (length (calls (module ctx))))
         (set_module ctx (set_calls (module ctx) (calls (module ctx) ++ [c]))).

(** A call into the symbol table whose result is not used. *)
Definition call (c : symt_call) : M unit :=
  fun ctx =>
    Done tt
         (set_module ctx (set_calls (module ctx) (calls (module ctx) ++ [c]))).

(** [pool_alloc] of [size] bytes, then the text written there. *)
Definition pool_alloc_text (size : Z) (s : string) : M Z :=
  fun ctx =>
    let p := pool_next (pool ctx) in
    Done p (set_pool ctx {| pool_next := p + size;
                            pool_strings := (p, s) :: pool_strings (pool ctx) |}).

(* ================================================================== *)
(** * The reader *)

Definition TRUE : Z := 1.
Definition FALSE : Z := 0.

(** [dwarf2_subprogram_t] without its [ctx], which every function of the
    reader receives anyway. *)
Record dwarf2_subprogram_t := {
  compiland : symt_ptr;
  func : symt_ptr;
  frame_offset : Z;
  frame_reg : Z
}.

Definition dwarf2_map_register (regno : Z) : Z :=
  if regno =? Wine_DW_no_register then 0
  else if regno =? Wine_DW_frame_register then 0
  else if regno =? 0 then CV_REG_EAX
  else if regno =? 1 then CV_REG_ECX
  else if regno =? 2 then CV_REG_EDX
  else if regno =? 3 then CV_REG_EBX
  else if regno =? 4 then CV_REG_ESP
  else if regno =? 5 then CV_REG_EBP
  else if regno =? 6 then CV_REG_ESI
  else if regno =? 7 then CV_REG_EDI
  else if regno =? 8 then CV_REG_EIP
  else if regno =? 9 then CV_REG_EFLAGS
  else if regno =? 10 then CV_REG_CS
  else if regno =? 11 then CV_REG_SS
  else if regno =? 12 then CV_REG_DS
  else if regno =? 13 then CV_REG_ES
  else if regno =? 14 then CV_REG_FS
  else if regno =? 15 then CV_REG_GS
  else if (16 <=? regno) && (regno <=? 23) then CV_REG_ST0 + regno - 16
  else if regno =? 24 then CV_REG_CTRL
  else if regno =? 25 then CV_REG_STAT
  else if regno =? 26 then CV_REG_TAG
  else if (32 <=? regno) && (regno <=? 39) then CV_REG_XMM0 + regno - 32
  else if regno =? 40 then CV_REG_MXCSR
  else 0.

Section Reader.

(** What an automatic variable holds before its first assignment. *)
Variable junk : Z.

(** Modelled from the spec: [elf_is_in_thunk_area], applied to the table
    of thunks of the module, is not among the sources; it answers a
    non-negative index for an address inside a thunk area. *)
Variable elf_is_in_thunk_area : Z -> Z.

(** Modelled from the spec: [symt_get_info (type, TI_GET_LENGTH, &size)]
    is not among the sources; [Some size] when it succeeds. *)
Variable symt_get_info_length : module_t -> symt_ptr -> option Z.

(** Modelled from the spec: [symt_find_nearest] and the address-sorted
    index [module->addr_sorttab] are not among the sources; the first
    answers the position in the index of the nearest symbol at or before
    an address, or -1. *)
Variable symt_find_nearest : module_t -> Z -> Z.
Variable addr_sorttab : module_t -> Z -> symt_ptr.

(** Where [pool_init] places a new pool. *)
Variable pool_arena : Z.

Definition uninitialized : struct_attribute :=
  {| a_form := junk; u_word0 := junk; u_word1 := junk |}.

(** ** Attributes *)

(** The [switch (attr->form)] of [dwarf2_find_attribute], on the value at
    [p = di->data[i]]. *)
Definition find_attribute_form (ctx : dwarf2_parse_context_t) (p : Z)
  (attr : struct_attribute) : option struct_attribute :=
  let m := mem ctx in
  let f := a_form attr in
  if (f =? DW_FORM_ref_addr) || (f =? DW_FORM_addr) then
    v ← dwarf2_get_addr m p (ctx_word_size ctx); Some (set_uvalue attr v)
  else if f =? DW_FORM_flag then
    v ← dwarf2_get_byte m p; Some (set_uvalue attr v)
  else if f =? DW_FORM_data1 then
    v ← dwarf2_get_byte m p; Some (set_uvalue attr v)
  else if f =? DW_FORM_data2 then
    v ← dwarf2_get_u2 m p; Some (set_uvalue attr v)
  else if f =? DW_FORM_data4 then
    v ← dwarf2_get_u4 m p; Some (set_uvalue attr v)
  else if f =? DW_FORM_data8 then Some attr
  else if f =? DW_FORM_ref1 then
    v ← dwarf2_get_byte m p; Some (set_uvalue attr (ref_offset ctx + v))
  else if f =? DW_FORM_ref2 then
    v ← dwarf2_get_u2 m p; Some (set_uvalue attr (ref_offset ctx + v))
  else if f =? DW_FORM_ref4 then
    v ← dwarf2_get_u4 m p; Some (set_uvalue attr (ref_offset ctx + v))
  else if f =? DW_FORM_ref8 then Some attr
  else if f =? DW_FORM_sdata then
    '(v, _) ← dwarf2_get_leb128_as_signed m p; Some (set_svalue attr v)
  else if f =? DW_FORM_ref_udata then
    '(v, _) ← dwarf2_get_leb128_as_unsigned m p; Some (set_uvalue attr v)
  else if f =? DW_FORM_udata then
    '(v, _) ← dwarf2_get_leb128_as_unsigned m p; Some (set_uvalue attr v)
  else if f =? DW_FORM_string then Some (set_string attr p)
  else if f =? DW_FORM_strp then
    offset ← dwarf2_get_u4 m p;
    Some (set_string attr (address (sections ctx section_string) + offset))
  else if f =? DW_FORM_block then
    '(sz, e) ← dwarf2_get_leb128_as_unsigned m p; Some (set_block attr sz e)
  else if f =? DW_FORM_block1 then
    sz ← dwarf2_get_byte m p; Some (set_block attr sz (p + 1))
  else if f =? DW_FORM_block2 then
    sz ← dwarf2_get_u2 m p; Some (set_block attr sz (p + 2))
  else if f =? DW_FORM_block4 then
    sz ← dwarf2_get_u4 m p; Some (set_block attr sz (p + 4))
  else Some attr.

(** The [for] loop of [dwarf2_find_attribute]: [i] runs along [di->data]
    as [abbrev_attrs] runs along the list of the abbreviation. *)
Fixpoint find_attribute_loop (ctx : dwarf2_parse_context_t)
  (di : dwarf2_debug_info_t) (at_ : Z) (attr : struct_attribute) (i : nat)
  (abbrev_attrs : list dwarf2_abbrev_entry_attr_t)
  : option (bool * struct_attribute) :=
  match abbrev_attrs with
  | [] => Some (false, attr)
  | abbrev_attr :: next =>
      if attribute abbrev_attr =? at_ then
        p ← di_data di !! i;
        attr ← find_attribute_form ctx p (set_form attr (form abbrev_attr));
        Some (true, attr)
      else find_attribute_loop ctx di at_ attr (S i) next
  end.

(** Takes the former content of [*attr], returns the result and the new
    content. *)
Definition dwarf2_find_attribute (ctx : dwarf2_parse_context_t)
  (di : dwarf2_debug_info_t) (at_ : Z) (attr : struct_attribute)
  : option (bool * struct_attribute) :=
  find_attribute_loop ctx di at_ attr 0 (attrs (abbrev di)).

(** The recurring
    [if (!dwarf2_find_attribute (ctx, di, at, &attr)) attr.u.uvalue = dflt;] *)
Definition find_attribute_or (di : dwarf2_debug_info_t) (at_ : Z)
  (attr : struct_attribute) (dflt : Z) : M struct_attribute :=
  let* ctx := get_ctx in
  let* '(found, attr) := lift (dwarf2_find_attribute ctx di at_ attr) in
  ret (if found : bool then attr else set_uvalue attr dflt).

Definition dwarf2_find_name (di : dwarf2_debug_info_t)
  (attr : struct_attribute) (pfx : string) : M struct_attribute :=
  let* ctx := get_ctx in
  let* '(found, attr) := lift (dwarf2_find_attribute ctx di DW_AT_name attr) in
  if found : bool then ret attr
  else
    let* tmp :=
      pool_alloc_text (Z.of_nat (String.length pfx) + 16)
        (String.append pfx (String.append "_" (decimal (index ctx)))) in
    do* (fun c => Done tt (set_index c (sint32 (index c + 1)))) in
    ret (set_string attr tmp).

(** The text of [name.u.string] at the time of a call. *)
Definition name_of (attr : struct_attribute) : M (option string) :=
  let* ctx := get_ctx in ret (string_at ctx (u_string attr)).

(** ** Location expressions *)

(** One turn of the loop of [dwarf2_compute_location] either goes on with
    a new cursor, stack, [*in_register] and [piece_found], or leaves the
    function through [return loc[stk]]. *)
Inductive location_step :=
| LocNext (lctx : dwarf2_traverse_context_t) (loc : list Z)
    (in_register : option Z) (piece_found : bool)
| LocReturn (v : Z) (in_register : option Z).

(** [loc[++stk] = v]; the array has 64 cells, the top of the stack is the
    head of the list. *)
Definition loc_push (loc : list Z) (v : Z) : option (list Z) :=
  if Z.of_nat (length loc) <? 64 then Some (uint32 v :: loc) else None.

Definition loc_top (loc : list Z) : Z := hd 0 loc.

Definition compute_location_op (m : memory)
  (lctx : dwarf2_traverse_context_t) (loc : list Z) (in_register : option Z)
  (piece_found : bool) (op : Z) : option location_step :=
  if op =? DW_OP_addr then
    '(v, lctx) ← dwarf2_parse_addr m lctx; loc ← loc_push loc v;
    Some (LocNext lctx loc in_register piece_found)
  else if op =? DW_OP_const1u then
    '(v, lctx) ← dwarf2_parse_byte m lctx; loc ← loc_push loc v;
    Some (LocNext lctx loc in_register piece_found)
  else if op =? DW_OP_const1s then
    '(v, lctx) ← dwarf2_parse_byte m lctx; loc ← loc_push loc (sint8 v);
    Some (LocNext lctx loc in_register piece_found)
  else if op =? DW_OP_const2u then
    '(v, lctx) ← dwarf2_parse_u2 m lctx; loc ← loc_push loc v;
    Some (LocNext lctx loc in_register piece_found)
  else if op =? DW_OP_const2s then
    '(v, lctx) ← dwarf2_parse_u2 m lctx; loc ← loc_push loc (sint16 v);
    Some (LocNext lctx loc in_register piece_found)
  else if op =? DW_OP_const4u then
    '(v, lctx) ← dwarf2_parse_u4 m lctx; loc ← loc_push loc v;
    Some (LocNext lctx loc in_register piece_found)
  else if op =? DW_OP_const4s then
    '(v, lctx) ← dwarf2_parse_u4 m lctx; loc ← loc_push loc v;
    Some (LocNext lctx loc in_register piece_found)
  else if op =? DW_OP_constu then
    '(v, lctx) ← dwarf2_leb128_as_unsigned m lctx; loc ← loc_push loc v;
    Some (LocNext lctx loc in_register piece_found)
  else if op =? DW_OP_consts then
    '(v, lctx) ← dwarf2_leb128_as_signed m lctx; loc ← loc_push loc v;
    Some (LocNext lctx loc in_register piece_found)
  else if op =? DW_OP_plus_uconst then
    '(v, lctx) ← dwarf2_leb128_as_unsigned m lctx;
    Some (LocNext lctx (uint32 (loc_top loc + v) :: tail loc)
            in_register piece_found)
  else if (DW_OP_reg0 <=? op) && (op <=? DW_OP_breg31) then
    let in_register :=
      match in_register with
      | Some r =>
          if negb piece_found || negb (op - DW_OP_reg0 =? sint32 (r + 1))
          then Some (op - DW_OP_reg0)
          else Some r
      | None => None
      end in
    if (DW_OP_breg0 <=? op) && (op <=? DW_OP_breg31) then
      '(v, lctx) ← dwarf2_leb128_as_signed m lctx; loc ← loc_push loc v;
      Some (LocNext lctx loc
              (option_map
                 (fun r => sint32 (Z.lor (uint32 r) Wine_DW_register_deref))
                 in_register)
              piece_found)
    else Some (LocNext lctx loc in_register piece_found)
  else if op =? DW_OP_fbreg then
    let in_register :=
      option_map
        (fun _ => sint32 (Z.lor Wine_DW_frame_register Wine_DW_register_deref))
        in_register in
    '(v, lctx) ← dwarf2_leb128_as_signed m lctx; loc ← loc_push loc v;
    Some (LocNext lctx loc in_register piece_found)
  else if op =? DW_OP_piece then
    '(sz, lctx) ← dwarf2_leb128_as_unsigned m lctx;
    Some (LocNext lctx loc in_register true)
  else Some (LocReturn (sint32 (loc_top loc)) in_register).

(** [while (lctx.data < lctx.end_data)].  Every turn moves the cursor
    forward by one byte at least, so as many turns as the block has bytes
    exhaust it; were the cursor still short of the end then, the loop has
    no value here. *)
Fixpoint compute_location_loop (fuel : nat) (m : memory)
  (lctx : dwarf2_traverse_context_t) (loc : list Z) (in_register : option Z)
  (piece_found : bool) : option location_step :=
  if data lctx <? end_data lctx then
    match fuel with
    | O => None
    | S n =>
        '(op, lctx) ← dwarf2_parse_byte m lctx;
        step ← compute_location_op m lctx loc in_register piece_found op;
        match step with
        | LocNext lctx loc in_register piece_found =>
            compute_location_loop n m lctx loc in_register piece_found
        | LocReturn v in_register => Some (LocReturn v in_register)
        end
    end
  else Some (LocNext lctx loc in_register piece_found).

Definition is_constant_form (f : Z) : bool :=
  (f =? DW_FORM_data1) || (f =? DW_FORM_data2) || (f =? DW_FORM_data4)
  || (f =? DW_FORM_data8) || (f =? DW_FORM_udata) || (f =? DW_FORM_sdata).

(** Takes the former content of [*offset] and, unless [in_register] is the
    null pointer ([None]), of [*in_register]; returns the result of the
    function and the new contents. *)
Definition dwarf2_compute_location (ctx : dwarf2_parse_context_t)
  (di : dwarf2_debug_info_t) (dw : Z) (offset : Z) (in_register : option Z)
  : option (Z * Z * option Z) :=
  '(found, xloc) ← dwarf2_find_attribute ctx di dw uninitialized;
  if negb found then Some (FALSE, offset, in_register)
  else
    let in_register := option_map (fun _ => Wine_DW_no_register) in_register in
    if is_constant_form (a_form xloc)
    then Some (TRUE, u_uvalue xloc, in_register)
    else
      let loc := [0] in
      if u_block_size xloc =? 0 then Some (TRUE, loc_top loc, in_register)
      else
        let lctx :=
          {| data := u_block_ptr xloc; start_data := junk;
             end_data := u_block_ptr xloc + u_block_size xloc;
             word_size := ctx_word_size ctx |} in
        step ← compute_location_loop (Z.to_nat (u_block_size xloc)) (mem ctx)
                 lctx loc in_register false;
        match step with
        | LocNext _ loc in_register _ => Some (TRUE, loc_top loc, in_register)
        | LocReturn v in_register => Some (v, offset, in_register)
        end.

(** ** The symbol builders

    An entry pointer is the key of the entry in [debug_info_table]; the
    entry is read from the table when the code reads through the pointer,
    so that a symbol stored by one path is seen by every other. *)

(** [di->symt] *)
Definition di_symt (di : Z) : M symt_ptr :=
  let* e := get_di di in ret (symt e).

Section Knot.

(** [dwarf2_load_one_entry], which the builders reach through
    [dwarf2_lookup_type]. *)
Variable load_one_entry : Z -> symt_ptr -> M unit.

Definition dwarf2_lookup_type (di : Z) : M symt_ptr :=
  let* e := get_di di in
  let* ctx := get_ctx in
  let* '(found, attr) :=
    lift (dwarf2_find_attribute ctx e DW_AT_type uninitialized) in
  if found : bool then
    let type := u_uvalue attr in
    (* a failed lookup is logged, then [type->symt] reads through null *)
    let* t := get_di type in
    do* (match symt t with
         | None => load_one_entry type None
         | Some _ => ret tt
         end) in
    di_symt type
  else ret None.

Definition dwarf2_parse_base_type (di : Z) : M symt_ptr :=
  let* e := get_di di in
  match symt e with
  | Some s => ret (Some s)
  | None =>
      let* name := dwarf2_find_name e uninitialized "base_type" in
      let* size := find_attribute_or e DW_AT_byte_size uninitialized 0 in
      let* encoding :=
        find_attribute_or e DW_AT_encoding uninitialized DW_ATE_void in
      let v := u_uvalue encoding in
      let bt :=
        if v =? DW_ATE_void then btVoid
        else if v =? DW_ATE_address then btULong
        else if v =? DW_ATE_boolean then btBool
        else if v =? DW_ATE_complex_float then btComplex
        else if v =? DW_ATE_float then btFloat
        else if v =? DW_ATE_signed then btInt
        else if v =? DW_ATE_unsigned then btUInt
        else if v =? DW_ATE_signed_char then btChar
        else if v =? DW_ATE_unsigned_char then btChar
        else btNoType in
      let* n := name_of name in
      let* s := call_new (symt_new_basic bt n (u_uvalue size)) in
      do* set_di_symt di s in
      di_symt di
  end.

Definition dwarf2_parse_typedef (di : Z) : M symt_ptr :=
  let* e := get_di di in
  match symt e with
  | Some s => ret (Some s)
  | None =>
      let* name := dwarf2_find_name e uninitialized "typedef" in
      let* ref_type := dwarf2_lookup_type di in
      do* (if u_string name =? 0 then ret tt
           else
             let* n := name_of name in
             let* s := call_new (symt_new_typedef ref_type n) in
             set_di_symt di s) in
      di_symt di
  end.

Definition dwarf2_parse_pointer_type (di : Z) : M symt_ptr :=
  let* e := get_di di in
  match symt e with
  | Some s => ret (Some s)
  | None =>
      let* size := find_attribute_or e DW_AT_byte_size uninitialized 0 in
      let* ref_type := dwarf2_lookup_type di in
      let* s := call_new (symt_new_pointer ref_type) in
      do* set_di_symt di s in
      di_symt di
  end.

(** The locals [idx_type], [min], [max] and [cnt] of
    [dwarf2_parse_array_type], which live across the turns of its loop. *)
Record array_locals := {
  idx_type : symt_ptr;
  min_ : struct_attribute;
  max_ : struct_attribute;
  cnt : struct_attribute
}.

(** One turn of the loop over the children of an array type. *)
Definition parse_array_child (l : array_locals) (child : Z) : M array_locals :=
  let* c := get_di child in
  if tag (abbrev c) =? DW_TAG_subrange_type then
    let* idx := dwarf2_lookup_type child in
    let* min := find_attribute_or c DW_AT_lower_bound (min_ l) 0 in
    let* max := find_attribute_or c DW_AT_upper_bound (max_ l) 0 in
    let* ctx := get_ctx in
    let* '(found, cnt) :=
      lift (dwarf2_find_attribute ctx c DW_AT_count (cnt l)) in
    let max :=
      if found : bool then set_uvalue max (u_uvalue min + u_uvalue cnt)
      else max in
    ret {| idx_type := idx; min_ := min; max_ := max; cnt := cnt |}
  else ret l.

Fixpoint parse_array_children (l : array_locals) (cs : list Z)
  : M array_locals :=
  match cs with
  | [] => ret l
  | child :: cs' =>
      let* l := parse_array_child l child in parse_array_children l cs'
  end.

Definition dwarf2_parse_array_type (di : Z) : M symt_ptr :=
  let* e := get_di di in
  match symt e with
  | Some s => ret (Some s)
  | None =>
      if have_child (abbrev e) =? 0 then ret None
      else
        let* ref_type := dwarf2_lookup_type di in
        let* l :=
          parse_array_children
            {| idx_type := None; min_ := uninitialized;
               max_ := uninitialized; cnt := uninitialized |}
            (children e) in
        let* s :=
          call_new (symt_new_array (u_uvalue (min_ l)) (u_uvalue (max_ l))
                      ref_type (idx_type l)) in
        do* set_di_symt di s in
        di_symt di
  end.

Definition dwarf2_parse_const_type (di : Z) : M symt_ptr :=
  let* e := get_di di in
  match symt e with
  | Some s => ret (Some s)
  | None =>
      let* ref_type := dwarf2_lookup_type di in
      do* set_di_symt di ref_type in
      ret ref_type
  end.

Definition dwarf2_parse_volatile_type (di : Z) : M symt_ptr :=
  let* e := get_di di in
  match symt e with
  | Some s => ret (Some s)
  | None =>
      let* ref_type := dwarf2_lookup_type di in
      do* set_di_symt di ref_type in
      ret ref_type
  end.

Definition dwarf2_parse_reference_type (di : Z) : M symt_ptr :=
  let* e := get_di di in
  match symt e with
  | Some s => ret (Some s)
  | None =>
      let* ref_type := dwarf2_lookup_type di in
      let* s := call_new (symt_new_pointer ref_type) in
      do* set_di_symt di s in
      di_symt di
  end.

Definition dwarf2_parse_udt_member (di : Z) (parent : symt_ptr) : M unit :=
  match parent with
  | None => fault
  | Some _ =>
      let* e := get_di di in
      let* name := dwarf2_find_name e uninitialized "udt_member" in
      let* elt_type := dwarf2_lookup_type di in
      let* ctx := get_ctx in
      let* '(_, offset, _) :=
        lift (dwarf2_compute_location ctx e DW_AT_data_member_location 0 None) in
      let* bit_size := find_attribute_or e DW_AT_bit_size uninitialized 0 in
      let* '(found, bit_offset) :=
        lift (dwarf2_find_attribute ctx e DW_AT_bit_offset uninitialized) in
      let* bit_offset :=
        if found : bool then
          let* '(found, nbytes) :=
            lift (dwarf2_find_attribute ctx e DW_AT_byte_size uninitialized) in
          let nbytes :=
            if found : bool then nbytes
            else
              set_uvalue nbytes
                (match symt_get_info_length (module ctx) elt_type with
                 | Some size => size
                 | None => 0
                 end) in
          ret (set_uvalue bit_offset
                 (u_uvalue nbytes * 8 - u_uvalue bit_offset - u_uvalue bit_size))
        else ret (set_uvalue bit_offset 0) in
      let* n := name_of name in
      call (symt_add_udt_element parent n elt_type
              (uint32 (Z.shiftl offset 3 + u_uvalue bit_offset))
              (u_uvalue bit_size))
  end.

Definition dwarf2_parse_enumerator (di : Z) (parent : symt_ptr) : M unit :=
  let* e := get_di di in
  let* name := dwarf2_find_name e uninitialized "enum_value" in
  let* value := find_attribute_or e DW_AT_const_value uninitialized 0 in
  let* n := name_of name in
  call (symt_add_enum_element parent n (u_svalue value)).

Definition dwarf2_parse_enumeration_type (di : Z) : M symt_ptr :=
  let* e := get_di di in
  match symt e with
  | Some s => ret (Some s)
  | None =>
      let* name := dwarf2_find_name e uninitialized "enum" in
      let* size := find_attribute_or e DW_AT_byte_size uninitialized 0 in
      let* n := name_of name in
      let* s := call_new (symt_new_enum n) in
      do* set_di_symt di s in
      do* (if have_child (abbrev e) =? 0 then ret tt
           else
             for_each (children e) (fun child =>
               let* c := get_di child in
               if tag (abbrev c) =? DW_TAG_enumerator then
                 let* parent := di_symt di in
                 dwarf2_parse_enumerator child parent
               else ret tt)) in
      di_symt di
  end.

Definition dwarf2_parse_udt_type (di : Z) (udt : UdtKind) : M symt_ptr :=
  let* e := get_di di in
  match symt e with
  | Some s => ret (Some s)
  | None =>
      let* name := dwarf2_find_name e uninitialized "udt" in
      let* size := find_attribute_or e DW_AT_byte_size uninitialized 0 in
      let* n := name_of name in
      let* s := call_new (symt_new_udt n (u_uvalue size) udt) in
      do* set_di_symt di s in
      do* (if have_child (abbrev e) =? 0 then ret tt
           else
             for_each (children e) (fun child =>
               let* c := get_di child in
               let t := tag (abbrev c) in
               if t =? DW_TAG_member then
                 let* parent := di_symt di in
                 dwarf2_parse_udt_member child parent
               else if t =? DW_TAG_enumeration_type then
                 do* dwarf2_parse_enumeration_type child in ret tt
               else ret tt)) in
      di_symt di
  end.

(** ** Functions and variables *)

Definition dwarf2_parse_variable (subpgm : dwarf2_subprogram_t)
  (block : symt_ptr) (di : Z) : M unit :=
  let* e := get_di di in
  let is_pmt := tag (abbrev e) =? DW_TAG_formal_parameter in
  let* param_type := dwarf2_lookup_type di in
  let* name := dwarf2_find_name e uninitialized "parameter" in
  let* ctx := get_ctx in
  let* '(found, offset, in_reg) :=
    lift (dwarf2_compute_location ctx e DW_AT_location junk (Some junk)) in
  let in_reg := default junk in_reg in
  do* (if found =? 0 then ret tt
       else
         let sel := Z.land (uint32 in_reg) (Z.lnot Wine_DW_register_deref) in
         if sel =? Wine_DW_no_register then
           let* ext := find_attribute_or e DW_AT_external uninitialized 0 in
           let* n := name_of name in
           call (symt_new_global_variable (compiland subpgm) n
                   (u_uvalue ext =? 0)
                   (uint32 (BaseOfImage (module ctx) + offset)) 0 param_type)
         else
           let in_reg :=
             if sel =? Wine_DW_frame_register
             then sint32 (Z.lor (uint32 (frame_reg subpgm))
                            Wine_DW_register_deref)
             else in_reg in
           let offset :=
             if sel =? Wine_DW_frame_register
             then uint32 (offset + frame_offset subpgm)
             else offset in
           match func subpgm with
           | None => fault
           | Some _ =>
               let* n := name_of name in
               call (symt_add_func_local (func subpgm)
                       (if is_pmt then DataIsParam else DataIsLocal)
                       (dwarf2_map_register
                          (Z.land (uint32 in_reg)
                             (Z.lnot Wine_DW_register_deref)))
                       (Z.land (uint32 in_reg) Wine_DW_register_deref)
                       offset block param_type n)
           end) in
  let* '(_, _) :=
    lift (dwarf2_find_attribute ctx e DW_AT_const_value uninitialized) in
  let* ctx := get_ctx in
  match func subpgm with
  | Some f =>
      if is_pmt && bool_decide (function_type (module ctx) f <> None) then
        call (symt_add_function_signature_parameter
                (function_type (module ctx) f) param_type)
      else ret tt
  | None => ret tt
  end.

Definition dwarf2_parse_subprogram_label (subpgm : dwarf2_subprogram_t)
  (di : Z) : M unit :=
  let* e := get_di di in
  let* low_pc := find_attribute_or e DW_AT_low_pc uninitialized 0 in
  let* name := dwarf2_find_name e uninitialized "label" in
  let* ctx := get_ctx in
  let* n := name_of name in
  call (symt_add_function_point (func subpgm) SymTagLabel
          (uint32 (BaseOfImage (module ctx) + u_uvalue low_pc)) n).

(** The recursion follows the nesting of the entries; [fuel] bounds it. *)
Fixpoint dwarf2_parse_inlined_subroutine (fuel : nat)
  (subpgm : dwarf2_subprogram_t) (di : Z) : M unit :=
  match fuel with
  | O => out_of_fuel
  | S fuel =>
      let* e := get_di di in
      if have_child (abbrev e) =? 0 then ret tt
      else
        for_each (children e) (fun child =>
          let* c := get_di child in
          let t := tag (abbrev c) in
          if t =? DW_TAG_inlined_subroutine then
            dwarf2_parse_inlined_subroutine fuel subpgm child
          else if t =? DW_TAG_label then
            dwarf2_parse_subprogram_label subpgm child
          else ret tt)
  end.

Fixpoint dwarf2_parse_subprogram_block (fuel : nat)
  (subpgm : dwarf2_subprogram_t) (parent_block : symt_ptr) (di : Z)
  : M unit :=
  match fuel with
  | O => out_of_fuel
  | S fuel =>
      let* e := get_di di in
      let* low_pc := find_attribute_or e DW_AT_low_pc uninitialized 0 in
      let* high_pc := find_attribute_or e DW_AT_high_pc uninitialized 0 in
      let* block :=
        call_new (symt_open_func_block (func subpgm) parent_block
                    (u_uvalue low_pc)
                    (uint32 (u_uvalue high_pc - u_uvalue low_pc))) in
      do* (if have_child (abbrev e) =? 0 then ret tt
           else
             for_each (children e) (fun child =>
               let* c := get_di child in
               let t := tag (abbrev c) in
               if t =? DW_TAG_inlined_subroutine then
                 dwarf2_parse_inlined_subroutine fuel subpgm child
               else if t =? DW_TAG_variable then
                 dwarf2_parse_variable subpgm block child
               else if t =? DW_TAG_lexical_block then
                 dwarf2_parse_subprogram_block fuel subpgm block child
               else ret tt)) in
      call (symt_close_func_block (func subpgm) block 0)
  end.

Definition dwarf2_parse_subprogram (fuel : nat) (di : Z)
  (compiland : symt_ptr) : M symt_ptr :=
  let* e := get_di di in
  match symt e with
  | Some s => ret (Some s)
  | None =>
      let* low_pc := find_attribute_or e DW_AT_low_pc uninitialized 0 in
      let* high_pc := find_attribute_or e DW_AT_high_pc uninitialized 0 in
      let* ctx := get_ctx in
      if 0 <=? elf_is_in_thunk_area
                 (uint32 (BaseOfImage (module ctx) + u_uvalue low_pc))
      then ret None
      else
        let* is_decl := find_attribute_or e DW_AT_declaration uninitialized 0 in
        let* inline_flags := find_attribute_or e DW_AT_inline uninitialized 0 in
        let* name := dwarf2_find_name e uninitialized "subprogram" in
        let* ret_type := dwarf2_lookup_type di in
        let* sig_type :=
          call_new (symt_new_function_signature ret_type CV_CALL_FAR_C) in
        let* func :=
          if u_uvalue is_decl =? 0 then
            let* n := name_of name in
            let* f :=
              call_new (symt_new_function compiland n
                          (uint32 (BaseOfImage (module ctx) + u_uvalue low_pc))
                          (uint32 (u_uvalue high_pc - u_uvalue low_pc))
                          sig_type) in
            do* set_di_symt di f in
            ret f
          else ret None in
        let* ctx := get_ctx in
        let* '(found, frame_offset, frame_reg) :=
          lift (dwarf2_compute_location ctx e DW_AT_frame_base junk
                  (Some junk)) in
        let frame_reg := default junk frame_reg in
        let subpgm :=
          if (found =? 0) || (frame_reg =? Wine_DW_no_register)
          then {| compiland := compiland; func := func;
                  frame_offset := 0; frame_reg := 0 |}
          else {| compiland := compiland; func := func;
                  frame_offset := frame_offset; frame_reg := frame_reg |} in
        do* (if have_child (abbrev e) =? 0 then ret tt
             else
               for_each (children e) (fun child =>
                 let* c := get_di child in
                 let t := tag (abbrev c) in
                 if (t =? DW_TAG_variable) || (t =? DW_TAG_formal_parameter)
                 then dwarf2_parse_variable subpgm None child
                 else if t =? DW_TAG_lexical_block then
                   dwarf2_parse_subprogram_block fuel subpgm None child
                 else if t =? DW_TAG_inlined_subroutine then
                   dwarf2_parse_inlined_subroutine fuel subpgm child
                 else if t =? DW_TAG_label then
                   dwarf2_parse_subprogram_label subpgm child
                 else ret tt)) in
        do* call (symt_normalize_function func) in
        di_symt di
  end.

Definition dwarf2_parse_subroutine_type (di : Z) : M symt_ptr :=
  let* e := get_di di in
  match symt e with
  | Some s => ret (Some s)
  | None =>
      let* ret_type := dwarf2_lookup_type di in
      let* sig_type :=
        call_new (symt_new_function_signature ret_type CV_CALL_FAR_C) in
      do* (if have_child (abbrev e) =? 0 then ret tt
           else
             for_each (children e) (fun child =>
               let* c := get_di child in
               if tag (abbrev c) =? DW_TAG_formal_parameter then
                 let* param := dwarf2_lookup_type child in
                 call (symt_add_function_signature_parameter sig_type param)
               else ret tt)) in
      do* set_di_symt di sig_type in
      ret sig_type
  end.

(** The body of [dwarf2_load_one_entry]. *)
Definition load_one_entry_body (fuel : nat) (di : Z) (compiland : symt_ptr)
  : M unit :=
  let* e := get_di di in
  let t := tag (abbrev e) in
  if t =? DW_TAG_typedef then
    do* dwarf2_parse_typedef di in ret tt
  else if t =? DW_TAG_base_type then
    do* dwarf2_parse_base_type di in ret tt
  else if t =? DW_TAG_pointer_type then
    do* dwarf2_parse_pointer_type di in ret tt
  else if t =? DW_TAG_class_type then
    do* dwarf2_parse_udt_type di UdtClass in ret tt
  else if t =? DW_TAG_structure_type then
    do* dwarf2_parse_udt_type di UdtStruct in ret tt
  else if t =? DW_TAG_union_type then
    do* dwarf2_parse_udt_type di UdtUnion in ret tt
  else if t =? DW_TAG_array_type then
    do* dwarf2_parse_array_type di in ret tt
  else if t =? DW_TAG_const_type then
    do* dwarf2_parse_const_type di in ret tt
  else if t =? DW_TAG_volatile_type then
    do* dwarf2_parse_volatile_type di in ret tt
  else if t =? DW_TAG_reference_type then
    do* dwarf2_parse_reference_type di in ret tt
  else if t =? DW_TAG_enumeration_type then
    do* dwarf2_parse_enumeration_type di in ret tt
  else if t =? DW_TAG_subprogram then
    do* dwarf2_parse_subprogram fuel di compiland in ret tt
  else if t =? DW_TAG_subroutine_type then
    do* dwarf2_parse_subroutine_type di in ret tt
  else if t =? DW_TAG_variable then
    dwarf2_parse_variable
      {| compiland := compiland; func := None;
         frame_offset := 0; frame_reg := 0 |}
      None di
  else ret tt.

End Knot.

Fixpoint dwarf2_load_one_entry (fuel : nat) (di : Z) (compiland : symt_ptr)
  : M unit :=
  match fuel with
  | O => out_of_fuel
  | S fuel => load_one_entry_body (dwarf2_load_one_entry fuel) fuel di compiland
  end.

(** ** The tree of entries *)

(** Modelled from the spec: [sparse_array_add] is not among the sources;
    it answers a null pointer for a key that is already present, which is
    the case its callers test or assert. *)
Definition sparse_array_add {A : Type} (t : gmap Z A) (key : Z) (a : A)
  : option (gmap Z A) :=
  match t !! key with
  | Some _ => None
  | None => Some (<[key := a]> t)
  end.

(** The inner [while (1)] of [dwarf2_parse_abbrev_set].  [fuel] is the
    number of bytes left in the section: every turn reads two at least. *)
Fixpoint parse_abbrev_attrs (fuel : nat) (m : memory)
  (abbrev_ctx : dwarf2_traverse_context_t)
  : option (list dwarf2_abbrev_entry_attr_t * dwarf2_traverse_context_t) :=
  match fuel with
  | O => None
  | S fuel =>
      '(attribute, abbrev_ctx) ← dwarf2_leb128_as_unsigned m abbrev_ctx;
      '(form, abbrev_ctx) ← dwarf2_leb128_as_unsigned m abbrev_ctx;
      if attribute =? 0 then Some ([], abbrev_ctx)
      else
        '(l, abbrev_ctx) ← parse_abbrev_attrs fuel m abbrev_ctx;
        Some ({| attribute := attribute; form := form |} :: l, abbrev_ctx)
  end.

Fixpoint parse_abbrev_entries (fuel : nat) (m : memory)
  (abbrev_ctx : dwarf2_traverse_context_t)
  (abbrev_table : gmap Z dwarf2_abbrev_entry_t)
  : option (gmap Z dwarf2_abbrev_entry_t) :=
  match fuel with
  | O => None
  | S fuel =>
      if data abbrev_ctx <? end_data abbrev_ctx then
        '(entry_code, abbrev_ctx) ← dwarf2_leb128_as_unsigned m abbrev_ctx;
        if entry_code =? 0 then Some abbrev_table
        else
          '(tag, abbrev_ctx) ← dwarf2_leb128_as_unsigned m abbrev_ctx;
          '(have_child, abbrev_ctx) ← dwarf2_parse_byte m abbrev_ctx;
          '(l, abbrev_ctx) ←
            parse_abbrev_attrs (length (bytes_at m (data abbrev_ctx))) m
              abbrev_ctx;
          abbrev_table ←
            sparse_array_add abbrev_table entry_code
              {| entry_code := entry_code; tag := tag;
                 have_child := have_child;
                 num_attr := Z.of_nat (length l); attrs := l |};
          parse_abbrev_entries fuel m abbrev_ctx abbrev_table
      else Some abbrev_table
  end.

(** Every declaration read takes four bytes at least, so the bytes of the
    section bound the turns of the loop. *)
Definition dwarf2_parse_abbrev_set (m : memory)
  (abbrev_ctx : dwarf2_traverse_context_t)
  : option (gmap Z dwarf2_abbrev_entry_t) :=
  parse_abbrev_entries (S (length (bytes_at m (data abbrev_ctx)))) m
    abbrev_ctx ∅.

Definition dwarf2_swallow_attribute (m : memory)
  (ctx : dwarf2_traverse_context_t) (abbrev_attr : dwarf2_abbrev_entry_attr_t)
  : option dwarf2_traverse_context_t :=
  let f := form abbrev_attr in
  let advance (ctx : dwarf2_traverse_context_t) (step : Z) :=
    Some (set_data ctx (data ctx + step)) in
  if (f =? DW_FORM_ref_addr) || (f =? DW_FORM_addr) then
    advance ctx (word_size ctx)
  else if (f =? DW_FORM_flag) || (f =? DW_FORM_data1) || (f =? DW_FORM_ref1)
  then advance ctx 1
  else if (f =? DW_FORM_data2) || (f =? DW_FORM_ref2) then advance ctx 2
  else if (f =? DW_FORM_data4) || (f =? DW_FORM_ref4) || (f =? DW_FORM_strp)
  then advance ctx 4
  else if (f =? DW_FORM_data8) || (f =? DW_FORM_ref8) then advance ctx 8
  else if (f =? DW_FORM_sdata) || (f =? DW_FORM_ref_udata)
          || (f =? DW_FORM_udata)
  then step ← dwarf2_leb128_length m ctx; advance ctx step
  else if f =? DW_FORM_string then
    n ← strlen m (data ctx); advance ctx (n + 1)
  else if f =? DW_FORM_block then
    '(step, ctx) ← dwarf2_leb128_as_unsigned m ctx; advance ctx step
  else if f =? DW_FORM_block1 then
    '(step, ctx) ← dwarf2_parse_byte m ctx; advance ctx step
  else if f =? DW_FORM_block2 then
    '(step, ctx) ← dwarf2_parse_u2 m ctx; advance ctx step
  else if f =? DW_FORM_block4 then
    '(step, ctx) ← dwarf2_parse_u4 m ctx; advance ctx step
  else Some ctx.

(** The loop that fills [di->data]. *)
Fixpoint swallow_attributes (m : memory) (traverse : dwarf2_traverse_context_t)
  (l : list dwarf2_abbrev_entry_attr_t)
  : option (list Z * dwarf2_traverse_context_t) :=
  match l with
  | [] => Some ([], traverse)
  | attr :: l' =>
      let p := data traverse in
      traverse ← dwarf2_swallow_attribute m traverse attr;
      '(ps, traverse) ← swallow_attributes m traverse l';
      Some (p :: ps, traverse)
  end.

(** [di->field = ...] on the entry under [key]. *)
Definition update_di (key : Z)
  (f : dwarf2_debug_info_t -> dwarf2_debug_info_t) : M unit :=
  fun ctx =>
    match debug_info_table ctx !! key with
    | Some e =>
        Done tt (set_debug_info_table ctx (<[key := f e]> (debug_info_table ctx)))
    | None => Fault
    end.

Definition set_di_data (di : dwarf2_debug_info_t) (d : list Z) :=
  {| abbrev := abbrev di; symt := symt di; di_data := d;
     children := children di |}.

(** Returns the result of the function, the cursor, and what it stored in
    [*pdi], if anything: the key of the entry, or [None] for null. *)
Fixpoint dwarf2_read_one_debug_info (fuel : nat)
  (traverse : dwarf2_traverse_context_t)
  : M (bool * dwarf2_traverse_context_t * option (option Z)) :=
  match fuel with
  | O => out_of_fuel
  | S fuel =>
      let* ctx := get_ctx in
      let offset := data traverse - address (sections ctx (section ctx)) in
      let* '(entry_code, traverse) :=
        lift (dwarf2_leb128_as_unsigned (mem ctx) traverse) in
      if entry_code =? 0 then ret (true, traverse, Some None)
      else
        match abbrev_table ctx !! entry_code with
        | None => ret (false, traverse, None)
        | Some abbrev =>
            match sparse_array_add (debug_info_table ctx) offset
                    {| abbrev := abbrev; symt := None; di_data := [];
                       children := [] |} with
            | None => ret (false, traverse, None)
            | Some t =>
                do* (fun c => Done tt (set_debug_info_table c t)) in
                let* traverse :=
                  if num_attr abbrev =? 0 then ret traverse
                  else
                    let* '(ps, traverse) :=
                      lift (swallow_attributes (mem ctx) traverse
                              (attrs abbrev)) in
                    do* update_di offset (fun e => set_di_data e ps) in
                    ret traverse in
                let* '(ok, traverse) :=
                  if have_child abbrev =? 0 then ret (true, traverse)
                  else read_children fuel offset traverse in
                if negb ok then ret (false, traverse, None)
                else
                  let* di := get_di offset in
                  let* ctx := get_ctx in
                  let* '(found, sibling) :=
                    lift (dwarf2_find_attribute ctx di DW_AT_sibling
                            uninitialized) in
                  let target :=
                    address (sections ctx (section ctx)) + u_uvalue sibling in
                  let traverse :=
                    if found && negb (data traverse =? target)
                    then set_data traverse target
                    else traverse in
                  ret (true, traverse, Some (Some offset))
            end
        end
  end

(** The [while (traverse->data < traverse->end_data)] that collects the
    children of the entry under [parent]; its result is [false] when the
    function returns [FALSE] from inside the loop. *)
with read_children (fuel : nat) (parent : Z)
  (traverse : dwarf2_traverse_context_t)
  : M (bool * dwarf2_traverse_context_t) :=
  match fuel with
  | O => out_of_fuel
  | S fuel =>
      if data traverse <? end_data traverse then
        let* '(ok, traverse, child) :=
          dwarf2_read_one_debug_info fuel traverse in
        if negb ok then ret (false, traverse)
        else
          match child with
          | Some (Some c) =>
              do* update_di parent
                    (fun e => set_children e (children e ++ [c])) in
              read_children fuel parent traverse
          | _ => ret (true, traverse)
          end
      else ret (true, traverse)
  end.

(** ** The line-number program *)

(** Modelled from the spec: [vector_at] is not among the sources; it
    answers a null pointer for a position past the end. *)
Definition vector_at {A : Type} (v : list A) (pos : Z) : option A :=
  if pos <? 0 then None else v !! Z.to_nat pos.

Definition dwarf2_set_line_number (address : Z) (v : list Z) (file line : Z)
  : M unit :=
  if file =? 0 then ret tt
  else
    match vector_at v (uint32 (file - 1)) with
    | None => ret tt
    | Some psrc =>
        let* ctx := get_ctx in
        let idx := symt_find_nearest (module ctx) address in
        if idx =? -1 then ret tt
        else
          match addr_sorttab (module ctx) idx with
          | None => fault
          | Some f =>
              match function_address (module ctx) f with
              | None => ret tt
              | Some func_address =>
                  call (symt_add_func_line (Some f) psrc line
                          (uint32 (address - func_address)))
              end
          end
    end.

(** The fields of the header that the program loop uses. *)
Record line_header := {
  insn_size : Z;
  default_stmt : Z;
  line_base : Z;
  line_range : Z;
  opcode_base : Z;
  opcode_len : Z
}.

(** The registers of one sequence. *)
Record line_registers := {
  reg_address : Z;
  reg_file : Z;
  reg_line : Z;
  reg_is_stmt : Z;
  reg_basic_block : bool;
  reg_end_sequence : bool
}.

Definition line_registers_init (h : line_header) : line_registers :=
  {| reg_address := 0; reg_file := 1; reg_line := 1;
     reg_is_stmt := default_stmt h; reg_basic_block := false;
     reg_end_sequence := false |}.

(** [for (i = 0; i < opcode_len[opcode]; i++) dwarf2_leb128_as_unsigned] *)
Fixpoint skip_leb128 (n : nat) (m : memory)
  (traverse : dwarf2_traverse_context_t) : option dwarf2_traverse_context_t :=
  match n with
  | O => Some traverse
  | S n =>
      '(_, traverse) ← dwarf2_leb128_as_unsigned m traverse;
      skip_leb128 n m traverse
  end.

(** The body of [while (!end_sequence)], after the opcode is read. *)
Definition line_program_opcode (h : line_header) (files : list Z)
  (traverse : dwarf2_traverse_context_t) (r : line_registers) (opcode : Z)
  : M (dwarf2_traverse_context_t * line_registers) :=
  let* ctx := get_ctx in
  let m := mem ctx in
  if opcode_base h <=? opcode then
    let delta := uint32 (opcode - opcode_base h) in
    if line_range h =? 0 then fault
    else
      let address :=
        uint32 (reg_address r + (delta / line_range h) * insn_size h) in
      let line :=
        uint32 (reg_line r + (line_base h + delta mod line_range h)) in
      do* dwarf2_set_line_number address files (reg_file r) line in
      ret (traverse,
           {| reg_address := address; reg_file := reg_file r;
              reg_line := line; reg_is_stmt := reg_is_stmt r;
              reg_basic_block := true;
              reg_end_sequence := reg_end_sequence r |})
  else if opcode =? DW_LNS_copy then
    do* dwarf2_set_line_number (reg_address r) files (reg_file r)
          (reg_line r) in
    ret (traverse,
         {| reg_address := reg_address r; reg_file := reg_file r;
            reg_line := reg_line r; reg_is_stmt := reg_is_stmt r;
            reg_basic_block := false;
            reg_end_sequence := reg_end_sequence r |})
  else if opcode =? DW_LNS_advance_pc then
    let* '(v, traverse) := lift (dwarf2_leb128_as_unsigned m traverse) in
    ret (traverse,
         {| reg_address := uint32 (reg_address r + insn_size h * v);
            reg_file := reg_file r; reg_line := reg_line r;
            reg_is_stmt := reg_is_stmt r;
            reg_basic_block := reg_basic_block r;
            reg_end_sequence := reg_end_sequence r |})
  else if opcode =? DW_LNS_advance_line then
    let* '(v, traverse) := lift (dwarf2_leb128_as_signed m traverse) in
    ret (traverse,
         {| reg_address := reg_address r; reg_file := reg_file r;
            reg_line := uint32 (reg_line r + v);
            reg_is_stmt := reg_is_stmt r;
            reg_basic_block := reg_basic_block r;
            reg_end_sequence := reg_end_sequence r |})
  else if opcode =? DW_LNS_set_file then
    let* '(v, traverse) := lift (dwarf2_leb128_as_unsigned m traverse) in
    ret (traverse,
         {| reg_address := reg_address r; reg_file := v;
            reg_line := reg_line r; reg_is_stmt := reg_is_stmt r;
            reg_basic_block := reg_basic_block r;
            reg_end_sequence := reg_end_sequence r |})
  else if opcode =? DW_LNS_set_column then
    let* '(_, traverse) := lift (dwarf2_leb128_as_unsigned m traverse) in
    ret (traverse, r)
  else if opcode =? DW_LNS_negate_stmt then
    ret (traverse,
         {| reg_address := reg_address r; reg_file := reg_file r;
            reg_line := reg_line r;
            reg_is_stmt := (if reg_is_stmt r =? 0 then 1 else 0);
            reg_basic_block := reg_basic_block r;
            reg_end_sequence := reg_end_sequence r |})
  else if opcode =? DW_LNS_set_basic_block then
    ret (traverse,
         {| reg_address := reg_address r; reg_file := reg_file r;
            reg_line := reg_line r; reg_is_stmt := reg_is_stmt r;
            reg_basic_block := true;
            reg_end_sequence := reg_end_sequence r |})
  else if opcode =? DW_LNS_const_add_pc then
    if line_range h =? 0 then fault
    else
      ret (traverse,
           {| reg_address :=
                uint32 (reg_address r
                        + (uint32 (255 - opcode_base h) / line_range h)
                          * insn_size h);
              reg_file := reg_file r; reg_line := reg_line r;
              reg_is_stmt := reg_is_stmt r;
              reg_basic_block := reg_basic_block r;
              reg_end_sequence := reg_end_sequence r |})
  else if opcode =? DW_LNS_fixed_advance_pc then
    let* '(v, traverse) := lift (dwarf2_parse_u2 m traverse) in
    ret (traverse,
         {| reg_address := uint32 (reg_address r + v);
            reg_file := reg_file r; reg_line := reg_line r;
            reg_is_stmt := reg_is_stmt r;
            reg_basic_block := reg_basic_block r;
            reg_end_sequence := reg_end_sequence r |})
  else if opcode =? DW_LNS_extended_op then
    let* '(_, traverse) := lift (dwarf2_leb128_as_unsigned m traverse) in
    let* '(extopcode, traverse) := lift (dwarf2_parse_byte m traverse) in
    if extopcode =? DW_LNE_end_sequence then
      do* dwarf2_set_line_number (reg_address r) files (reg_file r)
            (reg_line r) in
      ret (traverse,
           {| reg_address := reg_address r; reg_file := reg_file r;
              reg_line := reg_line r; reg_is_stmt := reg_is_stmt r;
              reg_basic_block := reg_basic_block r;
              reg_end_sequence := true |})
    else if extopcode =? DW_LNE_set_address then
      let* '(v, traverse) := lift (dwarf2_parse_addr m traverse) in
      ret (traverse,
           {| reg_address := uint32 (BaseOfImage (module ctx) + v);
              reg_file := reg_file r; reg_line := reg_line r;
              reg_is_stmt := reg_is_stmt r;
              reg_basic_block := reg_basic_block r;
              reg_end_sequence := reg_end_sequence r |})
    else if extopcode =? DW_LNE_define_file then
      let* n := lift (strlen m (data traverse)) in
      let traverse := set_data traverse (data traverse + n + 1) in
      let* traverse := lift (skip_leb128 3 m traverse) in
      ret (traverse, r)
    else ret (traverse, r)
  else
    let* n := lift (dwarf2_get_byte m (opcode_len h + opcode)) in
    let* traverse := lift (skip_leb128 (Z.to_nat n) m traverse) in
    ret (traverse, r).

(** [while (!end_sequence)]: one opcode a turn. *)
Fixpoint line_program_sequence (fuel : nat) (h : line_header)
  (files : list Z) (traverse : dwarf2_traverse_context_t)
  (r : line_registers) : M dwarf2_traverse_context_t :=
  if reg_end_sequence r then ret traverse
  else
    match fuel with
    | O => out_of_fuel
    | S fuel =>
        let* ctx := get_ctx in
        let* '(opcode, traverse) := lift (dwarf2_parse_byte (mem ctx) traverse) in
        let* '(traverse, r) := line_program_opcode h files traverse r opcode in
        line_program_sequence fuel h files traverse r
    end.

(** [while (traverse.data < traverse.end_data)]: one sequence a turn. *)
Fixpoint line_program (fuel : nat) (h : line_header) (files : list Z)
  (traverse : dwarf2_traverse_context_t) : M unit :=
  if data traverse <? end_data traverse then
    match fuel with
    | O => out_of_fuel
    | S fuel' =>
        let* traverse :=
          line_program_sequence fuel h files traverse
            (line_registers_init h) in
        line_program fuel' h files traverse
    end
  else ret tt.

(** [tmp[baselen - 1] != '/'] *)
Fixpoint ends_with_slash (s : string) : option bool :=
  match s with
  | EmptyString => None
  | String c EmptyString => Some (Ascii.eqb c "/")
  | String _ s' => ends_with_slash s'
  end.

(** The loop over the include directories; a directory is kept as the
    pointer to its text. *)
Fixpoint line_include_dirs (fuel : nat) (compile_dir : Z)
  (traverse : dwarf2_traverse_context_t) (dirs : list Z)
  : M (dwarf2_traverse_context_t * list Z) :=
  match fuel with
  | O => out_of_fuel
  | S fuel =>
      let* ctx := get_ctx in
      let m := mem ctx in
      let* first := lift (dwarf2_get_byte m (data traverse)) in
      if first =? 0 then ret (traverse, dirs)
      else
        let rel := data traverse in
        let* rellen := lift (strlen m rel) in
        let traverse := set_data traverse (data traverse + rellen + 1) in
        let* p :=
          if (first =? 47) || (compile_dir =? 0) then ret rel
          else
            let* base := lift (string_at ctx compile_dir) in
            let* reltext := lift (string_at ctx rel) in
            let* slash := lift (ends_with_slash base) in
            pool_alloc_text
              (Z.of_nat (String.length base) + 1 + rellen + 1)
              (String.append base
                 (if slash : bool then reltext
                  else String.append "/" reltext)) in
        line_include_dirs fuel compile_dir traverse (dirs ++ [p])
  end.

(** The loop over the file entries. *)
Fixpoint line_files (fuel : nat) (dirs : list Z)
  (traverse : dwarf2_traverse_context_t) (files : list Z)
  : M (dwarf2_traverse_context_t * list Z) :=
  match fuel with
  | O => out_of_fuel
  | S fuel =>
      let* ctx := get_ctx in
      let m := mem ctx in
      let* first := lift (dwarf2_get_byte m (data traverse)) in
      if first =? 0 then ret (traverse, files)
      else
        let name := data traverse in
        let* n := lift (strlen m name) in
        let traverse := set_data traverse (data traverse + n + 1) in
        let* '(dir_index, traverse) :=
          lift (dwarf2_leb128_as_unsigned m traverse) in
        let* '(mod_time, traverse) :=
          lift (dwarf2_leb128_as_unsigned m traverse) in
        let* '(length, traverse) :=
          lift (dwarf2_leb128_as_unsigned m traverse) in
        let* dir := lift (vector_at dirs dir_index) in
        let* src :=
          call_new (source_new (string_at ctx dir) (string_at ctx name)) in
        line_files fuel dirs traverse
          (files ++ [Z.of_nat (default 0%nat src)])
  end.

Definition dwarf2_parse_line_numbers (fuel : nat) (compile_dir : Z)
  (offset : Z) : M unit :=
  let* ctx := get_ctx in
  let m := mem ctx in
  if address (sections ctx section_line) =? NO_MAP then ret tt
  else
    let start := address (sections ctx section_line) + offset in
    let traverse :=
      {| data := start; start_data := start; end_data := start + 4;
         word_size := ctx_word_size ctx |} in
    let* '(length, traverse) := lift (dwarf2_parse_u4 m traverse) in
    let traverse := set_end_data traverse (start_data traverse + length) in
    let* '(version, traverse) := lift (dwarf2_parse_u2 m traverse) in
    let* '(header_len, traverse) := lift (dwarf2_parse_u4 m traverse) in
    let* '(insn_size, traverse) := lift (dwarf2_parse_byte m traverse) in
    let* '(default_stmt, traverse) := lift (dwarf2_parse_byte m traverse) in
    let* '(line_base, traverse) := lift (dwarf2_parse_byte m traverse) in
    let* '(line_range, traverse) := lift (dwarf2_parse_byte m traverse) in
    let* '(opcode_base, traverse) := lift (dwarf2_parse_byte m traverse) in
    let h :=
      {| insn_size := insn_size; default_stmt := default_stmt;
         line_base := sint8 line_base; line_range := line_range;
         opcode_base := opcode_base; opcode_len := data traverse |} in
    let traverse :=
      set_data traverse (data traverse + uint32 (opcode_base - 1)) in
    let* p :=
      if compile_dir =? 0 then pool_alloc_text 2 "." else ret compile_dir in
    let* '(traverse, dirs) :=
      line_include_dirs fuel compile_dir traverse [p] in
    let traverse := set_data traverse (data traverse + 1) in
    let* '(traverse, files) := line_files fuel dirs traverse [] in
    let traverse := set_data traverse (data traverse + 1) in
    line_program fuel h files traverse.

(** ** Compilation units *)

Record dwarf2_comp_unit_t := {
  cu_length : Z;
  cu_version : Z;
  cu_abbrev_offset : Z;
  cu_word_size : Z
}.

(** [sizeof (dwarf2_comp_unit_stream_t)]: four, two, four and one byte. *)
Definition sizeof_comp_unit_stream : Z := 11.

(** What [dwarf2_parse_compilation_unit] puts into its fresh context
    before it reads the unit. *)
Definition init_unit_context (ctx : dwarf2_parse_context_t)
  (comp_unit : dwarf2_comp_unit_t) (comp_unit_cursor : Z)
  (abbrev_table : gmap Z dwarf2_abbrev_entry_t) : dwarf2_parse_context_t :=
  {| mem := mem ctx; sections := sections ctx; section := section_debug;
     pool := {| pool_next := pool_arena; pool_strings := [] |};
     module := module ctx; abbrev_table := abbrev_table;
     debug_info_table := ∅;
     ref_offset := comp_unit_cursor - address (sections ctx section_debug);
     ctx_word_size := cu_word_size comp_unit; index := index ctx |}.

Definition dwarf2_parse_compilation_unit (fuel : nat)
  (comp_unit : dwarf2_comp_unit_t) (comp_unit_cursor : Z) : M bool :=
  if negb (cu_version comp_unit =? 2) then ret false
  else
    let* ctx := get_ctx in
    let traverse :=
      {| data := uint32 (comp_unit_cursor + sizeof_comp_unit_stream);
         start_data := uint32 (comp_unit_cursor + sizeof_comp_unit_stream);
         end_data := uint32 (comp_unit_cursor + cu_length comp_unit + 4);
         word_size := cu_word_size comp_unit |} in
    let abbrev_ctx :=
      {| data := uint32 (address (sections ctx section_abbrev)
                         + cu_abbrev_offset comp_unit);
         start_data := uint32 (address (sections ctx section_abbrev)
                               + cu_abbrev_offset comp_unit);
         end_data := address (sections ctx section_abbrev)
                     + size (sections ctx section_abbrev);
         word_size := cu_word_size comp_unit |} in
    let* abbrev_table := lift (dwarf2_parse_abbrev_set (mem ctx) abbrev_ctx) in
    do* (fun c =>
           Done tt (init_unit_context c comp_unit comp_unit_cursor
                      abbrev_table)) in
    let* '(_, traverse, pdi) := dwarf2_read_one_debug_info fuel traverse in
    match pdi with
    | Some (Some di) =>
        let* e := get_di di in
        if tag (abbrev e) =? DW_TAG_compile_unit then
          let* name := dwarf2_find_name e uninitialized "compiland" in
          let* ctx := get_ctx in
          let* '(found, comp_dir) :=
            lift (dwarf2_find_attribute ctx e DW_AT_comp_dir uninitialized) in
          let comp_dir :=
            if found : bool then comp_dir else set_string comp_dir 0 in
          let* src :=
            call_new (source_new (string_at ctx (u_string comp_dir))
                        (string_at ctx (u_string name))) in
          let* s :=
            call_new (symt_new_compiland (Z.of_nat (default 0%nat src))) in
          do* set_di_symt di s in
          do* (if have_child (abbrev e) =? 0 then ret tt
               else
                 for_each (children e) (fun child =>
                   let* c := di_symt di in
                   dwarf2_load_one_entry fuel child c)) in
          let* e := get_di di in
          let* ctx := get_ctx in
          let* '(found, stmt_list) :=
            lift (dwarf2_find_attribute ctx e DW_AT_stmt_list uninitialized) in
          do* (if found : bool then
                 dwarf2_parse_line_numbers fuel (u_string comp_dir)
                   (u_uvalue stmt_list)
               else ret tt) in
          ret true
        else ret false
    | _ => fault
    end.

Definition SymDia : Z := 7.

(** ['D' | ('W' << 8) | ('A' << 16) | ('R' << 24)] *)
Definition CVSig_DWAR : Z :=
  Z.lor (Z.lor (Z.lor 68 (Z.shiftl 87 8)) (Z.shiftl 65 16)) (Z.shiftl 82 24).

(** The header at the cursor, as [dwarf2_parse] reads it. *)
Definition read_comp_unit (m : memory) (comp_unit_cursor : Z)
  : option dwarf2_comp_unit_t :=
  length ← dwarf2_get_u4 m comp_unit_cursor;
  version ← dwarf2_get_u2 m (comp_unit_cursor + 4);
  abbrev_offset ← dwarf2_get_u4 m (comp_unit_cursor + 6);
  word_size ← dwarf2_get_byte m (comp_unit_cursor + 10);
  Some {| cu_length := length; cu_version := version;
          cu_abbrev_offset := abbrev_offset; cu_word_size := word_size |}.

(** One turn of the loop of [dwarf2_parse]: the unit at the cursor is
    handed to [dwarf2_parse_compilation_unit], whose result is dropped;
    the turn yields that result, for the record, and the next cursor. *)
Definition dwarf2_parse_unit (fuel : nat) (comp_unit_cursor : Z)
  : M (bool * Z) :=
  let* ctx := get_ctx in
  let* comp_unit := lift (read_comp_unit (mem ctx) comp_unit_cursor) in
  let* r := dwarf2_parse_compilation_unit fuel comp_unit comp_unit_cursor in
  ret (r, uint32 (comp_unit_cursor + uint32 (cu_length comp_unit + 4))).

Fixpoint dwarf2_parse_units (fuel : nat) (units : nat)
  (comp_unit_cursor end_debug : Z) : M unit :=
  if comp_unit_cursor <? end_debug then
    match units with
    | O => out_of_fuel
    | S units =>
        let* '(_, comp_unit_cursor) := dwarf2_parse_unit fuel comp_unit_cursor in
        dwarf2_parse_units fuel units comp_unit_cursor end_debug
    end
  else ret tt.

(** [load_offset] and [thunks] play no part beyond [elf_is_in_thunk_area].
    [fuel] bounds the recursion inside a unit and the number of units. *)
Definition dwarf2_parse (fuel : nat)
  (debug debug_size abbrev abbrev_size str str_size line line_size : Z)
  : M bool :=
  let section (s : dwarf2_sections) :=
    match s with
    | section_debug => {| address := debug; size := debug_size |}
    | section_abbrev => {| address := abbrev; size := abbrev_size |}
    | section_string => {| address := str; size := str_size |}
    | section_line => {| address := line; size := line_size |}
    end in
  do* (fun c =>
         Done tt
           {| mem := mem c; sections := section; section := section_debug;
              pool := pool c; module := module c;
              abbrev_table := abbrev_table c;
              debug_info_table := debug_info_table c;
              ref_offset := ref_offset c; ctx_word_size := ctx_word_size c;
              index := index c |}) in
  do* dwarf2_parse_units fuel fuel debug (debug + debug_size) in
  do* (fun c =>
         Done tt
           (set_module c
              {| BaseOfImage := BaseOfImage (module c);
                 calls := calls (module c);
                 SymType := SymDia; CVSig := CVSig_DWAR;
                 LineNumbers := true; GlobalSymbols := true;
                 TypeInfo := true; SourceIndexed := true;
                 Publics := true |})) in
  ret true.

End Reader.

(* ================================================================== *)
(** * The base-128 encoding, as the specification words it

    The reader has no encoder.  These two functions are the standard
    little-endian base-128 encodings the specification refers to: seven
    value bits a byte, least significant group first, the high bit set on
    every byte but the last; the signed form stops as soon as the rest is
    pure sign and agrees with bit 0x40 of the byte just produced. *)

Fixpoint encode_uleb128_groups (fuel : nat) (v : Z) : list Z :=
  match fuel with
  | O => []
  | S k =>
      let byte := v mod 128 in
      let v' := v / 128 in
      if v' =? 0 then [byte] else (byte + 128) :: encode_uleb128_groups k v'
  end.

Definition encode_uleb128 (v : Z) : list Z :=
  encode_uleb128_groups (S (Z.to_nat (Z.log2 v))) v.

Fixpoint encode_sleb128_groups (fuel : nat) (v : Z) : list Z :=
  match fuel with
  | O => []
  | S k =>
      let byte := v mod 128 in
      let v' := v / 128 in
      if ((v' =? 0) && (byte <? 64)) || ((v' =? -1) && (64 <=? byte))
      then [byte]
      else (byte + 128) :: encode_sleb128_groups k v'
  end.

Definition encode_sleb128 (v : Z) : list Z :=
  encode_sleb128_groups (S (Z.to_nat (Z.log2 (Z.abs v)))) v.


(* ================================================================== *)
(** * Sample inputs

    A module loaded at 0x400000 and a memory that holds, at 0x10000, a
    debug-info section with one compilation unit (a base type [int] and a
    variable [g] of that type at the address 0x1000) and, at 0x20000, the
    abbreviations the unit uses. *)

Definition sample_abbrev : list Z :=
  [0x01; 0x11; 0x01; 0x03; 0x08; 0x00; 0x00;
   0x02; 0x24; 0x00; 0x03; 0x08; 0x0b; 0x0b; 0x3e; 0x0b; 0x00; 0x00;
   0x03; 0x34; 0x00; 0x03; 0x08; 0x49; 0x13; 0x02; 0x0a; 0x00; 0x00;
   0x00].

Definition sample_debug : list Z :=
  [0x21; 0x00; 0x00; 0x00; 0x02; 0x00; 0x00; 0x00; 0x00; 0x00; 0x04;
   0x01; 0x61; 0x2e; 0x63; 0x00;
   0x02; 0x69; 0x6e; 0x74; 0x00; 0x04; 0x05;
   0x03; 0x67; 0x00; 0x10; 0x00; 0x00; 0x00;
     0x05; 0x03; 0x00; 0x10; 0x00; 0x00;
   0x00].

Definition sample_memory : memory :=
  [ {| r_base := 0x10000; r_bytes := sample_debug |};
    {| r_base := 0x20000; r_bytes := sample_abbrev |} ].

Definition sample_module : module_t :=
  {| BaseOfImage := 0x400000; calls := []; SymType := 0; CVSig := 0;
     LineNumbers := false; GlobalSymbols := false; TypeInfo := false;
     SourceIndexed := false; Publics := false |}.

(** A context as [dwarf2_parse] finds it: only the memory, the module and
    the counter of [dwarf2_find_name] matter. *)
Definition initial_context (m : memory) (md : module_t) (i : Z)
  : dwarf2_parse_context_t :=
  {| mem := m; sections := fun _ => {| address := 0; size := 0 |};
     section := section_debug;
     pool := {| pool_next := 0; pool_strings := [] |}; module := md;
     abbrev_table := ∅; debug_info_table := ∅; ref_offset := 0;
     ctx_word_size := 0; index := i |}.

(** The opcodes that have a [case] of their own in
    [dwarf2_compute_location]. *)
Definition location_op_supported (op : Z) : bool :=
  (op =? DW_OP_addr) || (op =? DW_OP_const1u) || (op =? DW_OP_const1s)
  || (op =? DW_OP_const2u) || (op =? DW_OP_const2s) || (op =? DW_OP_const4u)
  || (op =? DW_OP_const4s) || (op =? DW_OP_constu) || (op =? DW_OP_consts)
  || (op =? DW_OP_plus_uconst)
  || ((DW_OP_reg0 <=? op) && (op <=? DW_OP_breg31))
  || (op =? DW_OP_fbreg) || (op =? DW_OP_piece).

(** A run of name requests, as the builders make them one after the other:
    each asks [dwarf2_find_name] for the name of an entry under a prefix
    and reads the text of the answer. *)
Fixpoint find_names (junk : Z) (reqs : list (dwarf2_debug_info_t * string))
  : M (list (option string)) :=
  match reqs with
  | [] => ret []
  | (di, pfx) :: reqs' =>
      let* name := dwarf2_find_name di (uninitialized junk) pfx in
      let* n := name_of name in
      let* ns := find_names junk reqs' in
      ret (n :: ns)
  end.

(** An entry with no attribute at all, hence no name. *)
Definition nameless_entry (t : Z) : dwarf2_debug_info_t :=
  {| abbrev := {| entry_code := 1; tag := t; have_child := 0; num_attr := 0;
                  attrs := [] |};
     symt := None; di_data := []; children := [] |}.

(** An entry whose only attribute is a location, a [DW_FORM_block1] block
    with the given bytes, stored at 0x30000. *)
Definition location_entry : dwarf2_debug_info_t :=
  {| abbrev := {| entry_code := 1; tag := DW_TAG_variable; have_child := 0;
                  num_attr := 1;
                  attrs := [{| attribute := DW_AT_location;
                               form := DW_FORM_block1 |}] |};
     symt := None; di_data := [0x30000]; children := [] |}.

Definition location_memory (block : list Z) : memory :=
  [ {| r_base := 0x30000; r_bytes := Z.of_nat (length block) :: block |} ].

(** A unit for [struct node { struct node *next; };]: at 16 the pointer
    type, whose type is the structure at 22, whose member at 29 has the
    pointer type at 16 for its type. *)
Definition cyclic_abbrev : list Z :=
  [0x01; 0x11; 0x01; 0x03; 0x08; 0x00; 0x00;
   0x02; 0x0f; 0x00; 0x0b; 0x0b; 0x49; 0x13; 0x00; 0x00;
   0x03; 0x13; 0x01; 0x03; 0x08; 0x0b; 0x0b; 0x00; 0x00;
   0x04; 0x0d; 0x00; 0x03; 0x08; 0x49; 0x13; 0x38; 0x0a; 0x00; 0x00;
   0x00].

Definition cyclic_debug : list Z :=
  [0x28; 0x00; 0x00; 0x00; 0x02; 0x00; 0x00; 0x00; 0x00; 0x00; 0x04;
   0x01; 0x63; 0x2e; 0x63; 0x00;
   0x02; 0x04; 0x16; 0x00; 0x00; 0x00;
   0x03; 0x6e; 0x6f; 0x64; 0x65; 0x00; 0x04;
   0x04; 0x6e; 0x65; 0x78; 0x74; 0x00; 0x10; 0x00; 0x00; 0x00;
     0x02; 0x23; 0x00;
   0x00;
   0x00].

Definition cyclic_memory : memory :=
  [ {| r_base := 0x10000; r_bytes := cyclic_debug |};
    {| r_base := 0x20000; r_bytes := cyclic_abbrev |} ].


(** A unit with a const type at 16 whose type is the base type at 21,
    which comes after it. *)
Definition const_abbrev : list Z :=
  [0x01; 0x11; 0x01; 0x03; 0x08; 0x00; 0x00;
   0x02; 0x24; 0x00; 0x03; 0x08; 0x0b; 0x0b; 0x3e; 0x0b; 0x00; 0x00;
   0x03; 0x26; 0x00; 0x49; 0x13; 0x00; 0x00;
   0x00].

Definition const_debug : list Z :=
  [0x19; 0x00; 0x00; 0x00; 0x02; 0x00; 0x00; 0x00; 0x00; 0x00; 0x04;
   0x01; 0x71; 0x2e; 0x63; 0x00;
   0x03; 0x15; 0x00; 0x00; 0x00;
   0x02; 0x69; 0x6e; 0x74; 0x00; 0x04; 0x05;
   0x00].

Definition const_memory : memory :=
  [ {| r_base := 0x10000; r_bytes := const_debug |};
    {| r_base := 0x20000; r_bytes := const_abbrev |} ].

(** A unit for [int v[10];]: the base type at 16, the array type at 23
    and its subrange at 28, which has no lower bound, the upper bound 99
    and the count 10. *)
Definition array_abbrev : list Z :=
  [0x01; 0x11; 0x01; 0x03; 0x08; 0x00; 0x00;
   0x02; 0x24; 0x00; 0x03; 0x08; 0x0b; 0x0b; 0x3e; 0x0b; 0x00; 0x00;
   0x03; 0x01; 0x01; 0x49; 0x13; 0x00; 0x00;
   0x04; 0x21; 0x00; 0x49; 0x13; 0x2f; 0x0b; 0x37; 0x0b; 0x00; 0x00;
   0x00].

Definition array_debug : list Z :=
  [0x21; 0x00; 0x00; 0x00; 0x02; 0x00; 0x00; 0x00; 0x00; 0x00; 0x04;
   0x01; 0x76; 0x2e; 0x63; 0x00;
   0x02; 0x69; 0x6e; 0x74; 0x00; 0x04; 0x05;
   0x03; 0x10; 0x00; 0x00; 0x00;
   0x04; 0x10; 0x00; 0x00; 0x00; 0x63; 0x0a;
   0x00;
   0x00].

Definition array_memory : memory :=
  [ {| r_base := 0x10000; r_bytes := array_debug |};
    {| r_base := 0x20000; r_bytes := array_abbrev |} ].

(** The header of a unit of version 3 that declares the length 7, which
    its eleven bytes fill, and right after it the sample unit; the
    abbreviations of the sample unit at 0x20000. *)
Definition skipped_memory : memory :=
  [ {| r_base := 0x10000;
       r_bytes := [0x07; 0x00; 0x00; 0x00; 0x03; 0x00;
                   0x00; 0x00; 0x00; 0x00; 0x04] ++ sample_debug |};
    {| r_base := 0x20000; r_bytes := sample_abbrev |} ].

(** The context of the loop of [dwarf2_parse] over a debug-info section
    of [debug_size] bytes at 0x10000, with the abbreviations at 0x20000
    and no other section. *)
Definition loop_context (m : memory) (debug_size : Z)
  : dwarf2_parse_context_t :=
  {| mem := m;
     sections := fun s =>
       match s with
       | section_debug => {| address := 0x10000; size := debug_size |}
       | section_abbrev => {| address := 0x20000; size := 0x1000 |}
       | _ => {| address := NO_MAP; size := 0 |}
       end;
     section := section_debug;
     pool := {| pool_next := 0; pool_strings := [] |};
     module := sample_module;
     abbrev_table := ∅; debug_info_table := ∅; ref_offset := 0;
     ctx_word_size := 0; index := 0 |}.

(** The header of a unit of version 3 that declares the length
    0xFFFFFFFC, and nothing else. *)
Definition endless_memory : memory :=
  [ {| r_base := 0x10000;
       r_bytes := [0xfc; 0xff; 0xff; 0xff; 0x03; 0x00;
                   0x00; 0x00; 0x00; 0x00; 0x04] |} ].

(** The header of a unit of version 3, and nothing else. *)
Definition version3_memory : memory :=
  [ {| r_base := 0x10000;
       r_bytes := [0x30; 0x00; 0x00; 0x00; 0x03; 0x00;
                   0x00; 0x00; 0x00; 0x00; 0x04] |} ].

(** The context of [dwarf2_parse_compilation_unit] for a unit at 0x10000,
    the start of the debug-info section, with its abbreviations at 0x20000,
    at the point where the entries of the unit have been read and the
    compiland has been created: what the loop over the children of the
    unit starts from.  Without such a unit, the initial context. *)
Definition unit_entries (m : memory) (source : string)
  : dwarf2_parse_context_t :=
  let ctx :=
    {| mem := m;
       sections := fun s =>
         match s with
         | section_debug => {| address := 0x10000; size := 0x1000 |}
         | section_abbrev => {| address := 0x20000; size := 0x1000 |}
         | _ => {| address := NO_MAP; size := 0 |}
         end;
       section := section_debug;
       pool := {| pool_next := 0; pool_strings := [] |};
       module :=
         set_calls sample_module
           [source_new None (Some source); symt_new_compiland 0];
       abbrev_table := ∅; debug_info_table := ∅; ref_offset := 0;
       ctx_word_size := 0; index := 0 |} in
  default ctx
    (comp_unit ← read_comp_unit m 0x10000;
     abbrev_table ←
       dwarf2_parse_abbrev_set m
         {| data := 0x20000 + cu_abbrev_offset comp_unit;
            start_data := 0x20000 + cu_abbrev_offset comp_unit;
            end_data := 0x21000; word_size := cu_word_size comp_unit |};
     match
       (let* '(_, _, pdi) :=
          dwarf2_read_one_debug_info 0 16
            {| data := 0x10000 + sizeof_comp_unit_stream;
               start_data := 0x10000 + sizeof_comp_unit_stream;
               end_data := 0x10000 + cu_length comp_unit + 4;
               word_size := cu_word_size comp_unit |} in
        match pdi with
        | Some (Some di) => set_di_symt di (Some 1%nat)
        | _ => fault
        end)
         (init_unit_context 0x70000000 ctx comp_unit 0x10000 abbrev_table)
     with
     | Done _ c => Some c
     | _ => None
     end).

(** The entry at an offset. *)
Definition entry_at (ctx : dwarf2_parse_context_t) (di : Z)
  : dwarf2_debug_info_t :=
  default (nameless_entry 0) (debug_info_table ctx !! di).

(** A line-program header as compilers for i386 write it, and a module
    with one function at 0x401000, for which [symt_find_nearest] and the
    index answer at every address. *)
Definition sample_line_header : line_header :=
  {| insn_size := 1; default_stmt := 1; line_base := -5; line_range := 14;
     opcode_base := 13; opcode_len := 0x50000 |}.

Definition function_module : module_t :=
  set_calls sample_module
    [source_new None (Some "f.c"%string); symt_new_compiland 0;
     symt_new_function (Some 1%nat) (Some "f"%string) 0x401000 0x40 None].

(** A run of three name requests: a base type, a structure and a second
    base type, none of which has a name; and a context whose pool can
    allocate. *)
Definition mixed_requests : list (dwarf2_debug_info_t * string) :=
  [(nameless_entry DW_TAG_base_type, "base_type"%string);
   (nameless_entry DW_TAG_structure_type, "udt"%string);
   (nameless_entry DW_TAG_base_type, "base_type"%string)].

Definition pool_context (i : Z) : dwarf2_parse_context_t :=
  set_pool (initial_context [] sample_module i)
    {| pool_next := 0x70000000; pool_strings := [] |}.

(** The names answered to the requests made under one prefix, in the
    order of the requests. *)
Definition names_of_prefix (pfx : string)
  (reqs : list (dwarf2_debug_info_t * string)) (names : list (option string))
  : list (option string) :=
  omap (fun '((_, p), name) => if String.eqb p pfx then Some name else None)
    (zip reqs names).

(** As the specification words it: the N-th synthesized name of a prefix
    carries the index N, counting from [first]. *)
Definition numbered_in_sequence (first : Z) (pfx : string)
  (names : list (option string)) : Prop :=
  forall (N : nat) (name : option string),
    names !! N = Some name ->
    name = Some (String.append pfx
                   (String.append "_" (decimal (first + Z.of_nat N)))).
(* ================================================================== *)
(** * Notions used by the properties *)

(** The builders write to the context in four ways only: they store a
    symbol in an entry, append a call to the module, allocate from the
    pool and bump the counter of [dwarf2_find_name].  [extends c c'] says
    that [c'] differs from [c] in those ways at most. *)
Definition same_entry (e e' : dwarf2_debug_info_t) : Prop :=
  abbrev e' = abbrev e /\ di_data e' = di_data e /\ children e' = children e.

Record extends (c c' : dwarf2_parse_context_t) : Prop := {
  ext_mem : mem c' = mem c;
  ext_sections : sections c' = sections c;
  ext_section : section c' = section c;
  ext_abbrev_table : abbrev_table c' = abbrev_table c;
  ext_ref_offset : ref_offset c' = ref_offset c;
  ext_word_size : ctx_word_size c' = ctx_word_size c;
  ext_base : BaseOfImage (module c') = BaseOfImage (module c);
  ext_calls : exists l, calls (module c') = calls (module c) ++ l;
  ext_table : forall k,
    match debug_info_table c !! k, debug_info_table c' !! k with
    | Some e, Some e' => same_entry e e'
    | None, None => True
    | _, _ => False
    end
}.

(** A computation that, when it finishes, has only extended the context. *)
Definition preserves {A : Type} (c : M A) : Prop :=
  forall ctx a ctx', c ctx = Done a ctx' -> extends ctx ctx'.

(** Every attribute of the entry can be decoded: its raw values lie in
    the mapped memory. *)
Definition readable (ctx : dwarf2_parse_context_t) (e : dwarf2_debug_info_t)
  : Prop :=
  forall at_ attr, is_Some (dwarf2_find_attribute ctx e at_ attr).

(** A test for [readable]: whether a value decodes depends on its form
    alone, not on what the attribute held before. *)
Fixpoint attributes_readable (ctx : dwarf2_parse_context_t)
  (di : dwarf2_debug_info_t) (i : nat)
  (abbrev_attrs : list dwarf2_abbrev_entry_attr_t) : bool :=
  match abbrev_attrs with
  | [] => true
  | abbrev_attr :: next =>
      match di_data di !! i with
      | Some p =>
          match find_attribute_form ctx p
                  {| a_form := form abbrev_attr; u_word0 := 0; u_word1 := 0 |}
          with
          | Some _ => attributes_readable ctx di (S i) next
          | None => false
          end
      | None => false
      end
  end.

(** The context after a call that creates a symbol and the store of that
    symbol in the entry under [di]. *)
Definition with_new_symbol (ctx : dwarf2_parse_context_t) (c : symt_call)
  (di : Z) (e : dwarf2_debug_info_t) : dwarf2_parse_context_t :=
  set_debug_info_table
    (set_module ctx (set_calls (module ctx) (calls (module ctx) ++ [c])))
    (<[di := set_symt e (Some (length (calls (module ctx))))]>
       (debug_info_table ctx)).


(** A pointer type at [p] whose type is the structure at [s], whose one
    child, the member at [m], has the pointer type at [p] for its type;
    neither the pointer nor the structure is built yet, and the raw values
    of the three entries can be decoded. *)
Record pointer_struct_cycle (junk : Z) (ctx : dwarf2_parse_context_t)
  (p s m : Z) (eP eS eM : dwarf2_debug_info_t) : Prop := {
  cyc_pointer : debug_info_table ctx !! p = Some eP;
  cyc_pointer_tag : tag (abbrev eP) = DW_TAG_pointer_type;
  cyc_pointer_new : symt eP = None;
  cyc_pointer_readable : readable ctx eP;
  cyc_pointer_type : exists a,
    dwarf2_find_attribute ctx eP DW_AT_type (uninitialized junk)
    = Some (true, a) /\ u_uvalue a = s;
  cyc_struct : debug_info_table ctx !! s = Some eS;
  cyc_struct_tag : tag (abbrev eS) = DW_TAG_structure_type;
  cyc_struct_new : symt eS = None;
  cyc_struct_readable : readable ctx eS;
  cyc_struct_has_child : have_child (abbrev eS) <> 0;
  cyc_struct_children : children eS = [m];
  cyc_member : debug_info_table ctx !! m = Some eM;
  cyc_member_tag : tag (abbrev eM) = DW_TAG_member;
  cyc_member_readable : readable ctx eM;
  cyc_member_type : exists a,
    dwarf2_find_attribute ctx eM DW_AT_type (uninitialized junk)
    = Some (true, a) /\ u_uvalue a = p;
  cyc_member_location :
    is_Some (dwarf2_compute_location junk ctx eM DW_AT_data_member_location
               0 None)
}.

(** As the specification words it: after a unit the loop is on the next unit
    header, which lies the declared length and the four bytes of the
    length field after the header of the unit. *)
Definition advances_to_next_header (comp_unit_cursor : Z)
  (comp_unit : dwarf2_comp_unit_t) (next : Z) : Prop :=
  next = comp_unit_cursor + cu_length comp_unit + 4.

(** What [dwarf2_parse_abbrev_set] guarantees of every abbreviation it
    stores: it sits under its own code, which is not 0; [num_attr] counts
    the nodes of [attrs]; no node has the attribute 0, which ends the
    list in the section. *)
Definition abbrev_table_ok (t : gmap Z dwarf2_abbrev_entry_t) : Prop :=
  forall k a,
    t !! k = Some a ->
    entry_code a = k /\ k <> 0
    /\ num_attr a = Z.of_nat (length (attrs a))
    /\ Forall (fun x => attribute x <> 0) (attrs a).

(** What [dwarf2_read_one_debug_info] guarantees of the entries of the
    table: [di->data] has one pointer for each attribute of the
    abbreviation, and every pointer in [di->children] is the address of an
    entry of the table. *)
Definition entries_ok (ctx : dwarf2_parse_context_t) : Prop :=
  forall k e,
    debug_info_table ctx !! k = Some e ->
    length (di_data e) = length (attrs (abbrev e))
    /\ Forall (fun c => is_Some (debug_info_table ctx !! c)) (children e).

(** [c'] differs from [c] in the table of entries at most, and holds an
    entry wherever [c] holds one. *)
Definition only_entries_added (c c' : dwarf2_parse_context_t) : Prop :=
  c' = set_debug_info_table c (debug_info_table c')
  /\ forall k, is_Some (debug_info_table c !! k) ->
               is_Some (debug_info_table c' !! k).

(** The entry under [di] holds the symbol [s]. *)
Definition holds_symbol (ctx : dwarf2_parse_context_t) (di : Z) (s : nat)
  : Prop :=
  exists e, debug_info_table ctx !! di = Some e /\ symt e = Some s.

(** [c'] has the memory, the sections and the module base of [c], and
    the calls of [c] followed by further ones. *)
Definition module_grows (c c' : dwarf2_parse_context_t) : Prop :=
  mem c' = mem c /\ sections c' = sections c
  /\ BaseOfImage (module c') = BaseOfImage (module c)
  /\ exists l, calls (module c') = calls (module c) ++ l.

(** The symbol pointers among the arguments of a call. *)
Definition call_refs (c : symt_call) : list symt_ptr :=
  match c with
  | symt_new_basic _ _ _ => []
  | symt_new_typedef ref _ => [ref]
  | symt_new_pointer ref_type => [ref_type]
  | symt_new_array _ _ base idx => [base; idx]
  | symt_new_udt _ _ _ => []
  | symt_add_udt_element udt_type _ elt_type _ _ => [udt_type; elt_type]
  | symt_new_enum _ => []
  | symt_add_enum_element enum_type _ _ => [enum_type]
  | symt_new_function_signature ret_type _ => [ret_type]
  | symt_add_function_signature_parameter sig param => [sig; param]
  | symt_new_function compiland _ _ _ sig_type => [compiland; sig_type]
  | symt_add_func_local func _ _ _ _ block type _ => [func; block; type]
  | symt_open_func_block func parent _ _ => [func; parent]
  | symt_close_func_block func block _ => [func; block]
  | symt_add_function_point func _ _ _ => [func]
  | symt_normalize_function func => [func]
  | symt_new_global_variable compiland _ _ _ _ type => [compiland; type]
  | symt_new_compiland _ => []
  | source_new _ _ => []
  | symt_add_func_line func _ _ _ => [func]
  end.

(** The calls that hand back a new symbol or block.  [source_new] is not
    one of them: it hands back the index of a source file, a number. *)
Definition creates (c : symt_call) : bool :=
  match c with
  | symt_new_basic _ _ _ | symt_new_typedef _ _ | symt_new_pointer _
  | symt_new_array _ _ _ _ | symt_new_udt _ _ _ | symt_new_enum _
  | symt_new_function_signature _ _ | symt_new_function _ _ _ _ _
  | symt_open_func_block _ _ _ _ | symt_new_compiland _ =>
      true
  | _ => false
  end.

(** A pointer that is null or was handed back by one of the first [n]
    calls of [l]. *)
Definition returned_by (l : list symt_call) (n : nat) (p : symt_ptr) : Prop :=
  match p with
  | None => True
  | Some k => (k < n)%nat /\ exists c, l !! k = Some c /\ creates c = true
  end.

(** The pointers in and around the module are sound: every symbol pointer
    among the arguments of a call is null or was handed back by an
    earlier call, and so is every symbol held by an entry. *)
Definition pointers_sound (ctx : dwarf2_parse_context_t) : Prop :=
  (forall i c,
     calls (module ctx) !! i = Some c ->
     Forall (returned_by (calls (module ctx)) i) (call_refs c))
  /\ (forall k e,
        debug_info_table ctx !! k = Some e ->
        returned_by (calls (module ctx)) (length (calls (module ctx)))
          (symt e)).

(** A pointer the module knows. *)
Definition known (ctx : dwarf2_parse_context_t) (p : symt_ptr) : Prop :=
  returned_by (calls (module ctx)) (length (calls (module ctx))) p.

(** The pointers a value carries. *)
Class Pointers (A : Type) := pointers : A -> list symt_ptr.

#[export] Instance pointers_default (A : Type) : Pointers A | 100 :=
  fun _ => [].
#[export] Instance pointers_symt_ptr : Pointers symt_ptr | 1 := fun p => [p].
#[export] Instance pointers_entry : Pointers dwarf2_debug_info_t | 1 :=
  fun e => [symt e].
#[export] Instance pointers_array_locals : Pointers array_locals | 1 :=
  fun l => [idx_type l].

(** A computation that keeps the pointers sound, given that the pointers
    of [V] are known when it starts; the pointers of its result are known
    when it ends, and every pointer known before still is. *)
Definition keeps {A : Type} `{Pointers A} (V : list symt_ptr) (c : M A)
  : Prop :=
  forall ctx a ctx',
    pointers_sound ctx ->
    Forall (known ctx) V ->
    c ctx = Done a ctx' ->
    pointers_sound ctx'
    /\ (forall p, known ctx p -> known ctx' p)
    /\ Forall (known ctx') (pointers a).

(** A pointer that is null or listed in [V]. *)
Definition allowed (V : list symt_ptr) (p : symt_ptr) : Prop :=
  p = None \/ In p V.

(** A computation that leaves the module and the entries alone. *)
Definition quiet {A : Type} (c : M A) : Prop :=
  forall ctx a ctx',
    c ctx = Done a ctx' ->
    module ctx' = module ctx /\ debug_info_table ctx' = debug_info_table ctx.

(** The test of [returned_by]. *)
Definition returned_by_test (l : list symt_call) (n : nat) (p : symt_ptr)
  : bool :=
  match p with
  | None => true
  | Some k =>
      (k <? n)%nat
      && match l !! k with
         | Some c => creates c
         | None => false
         end
  end.

(** The calls [l], which start at the position [i] of [all], name sound
    pointers only. *)
Fixpoint calls_sound_test (all : list symt_call) (i : nat)
  (l : list symt_call) : bool :=
  match l with
  | [] => true
  | c :: l' =>
      forallb (returned_by_test all i) (call_refs c)
      && calls_sound_test all (S i) l'
  end.

(** The test of [pointers_sound]. *)
Definition pointers_sound_test (ctx : dwarf2_parse_context_t) : bool :=
  let l := calls (module ctx) in
  calls_sound_test l 0 l
  && forallb (fun ke => returned_by_test l (length l) (symt (snd ke)))
       (map_to_list (debug_info_table ctx)).

(** ** The nesting of the blocks *)

(** [p] is null or the first of [st]. *)
Definition top_or_null (st : list symt_ptr) (p : symt_ptr) : bool :=
  match p with
  | None => true
  | Some _ =>
      match st with
      | t :: _ => bool_decide (t = p)
      | [] => false
      end
  end.

(** What the call at the position [pos] does to the blocks that are open,
    the innermost first.  [symt_open_func_block] opens the block it hands
    back, inside the innermost open block or inside no block;
    [symt_close_func_block] closes the innermost open block;
    [symt_add_func_local] puts a variable into the innermost open block or
    into no block.  A call that does otherwise has no answer. *)
Definition block_step (pos : nat) (st : list symt_ptr) (c : symt_call)
  : option (list symt_ptr) :=
  match c with
  | symt_open_func_block _ parent _ _ =>
      if top_or_null st parent then Some (Some pos :: st) else None
  | symt_close_func_block _ block _ =>
      match st with
      | t :: st' => if bool_decide (t = block) then Some st' else None
      | [] => None
      end
  | symt_add_func_local _ _ _ _ _ block _ _ =>
      if top_or_null st block then Some st else None
  | _ => Some st
  end.

Fixpoint open_blocks_from (pos : nat) (st : list symt_ptr)
  (l : list symt_call) : option (list symt_ptr) :=
  match l with
  | [] => Some st
  | c :: l' =>
      match block_step pos st c with
      | Some st' => open_blocks_from (S pos) st' l'
      | None => None
      end
  end.

(** The blocks left open by the calls [l], made from the first on. *)
Definition open_blocks (l : list symt_call) : option (list symt_ptr) :=
  open_blocks_from 0 [] l.

(** A computation that starts with the blocks [st] open and ends with the
    blocks [post a] open, [a] being its result. *)
Definition brackets {A : Type} (st : list symt_ptr) (c : M A)
  (post : A -> list symt_ptr) : Prop :=
  forall ctx a ctx',
    open_blocks (calls (module ctx)) = Some st ->
    c ctx = Done a ctx' ->
    open_blocks (calls (module ctx')) = Some (post a).

(** A computation that leaves open the blocks it found open. *)
Definition balanced {A : Type} (st : list symt_ptr) (c : M A) : Prop :=
  brackets st c (fun _ => st).

(* ================================================================== *)
(** * Further sample inputs *)

(** A unit for [int f(int x) { ... }] and a declared [g]: the base type
    at 16; the function [f] at 23, from 0x2000 to 0x2040, with the frame
    base [DW_OP_reg5]; its parameter [x] at 40, at [DW_OP_fbreg 8]; and at
    51 the declaration of [g]. *)
Definition function_abbrev : list Z :=
  [0x01; 0x11; 0x01; 0x03; 0x08; 0x00; 0x00;
   0x02; 0x24; 0x00; 0x03; 0x08; 0x0b; 0x0b; 0x3e; 0x0b; 0x00; 0x00;
   0x03; 0x2e; 0x01; 0x03; 0x08; 0x11; 0x01; 0x12; 0x01; 0x40; 0x0a;
     0x49; 0x13; 0x00; 0x00;
   0x04; 0x05; 0x00; 0x03; 0x08; 0x49; 0x13; 0x02; 0x0a; 0x00; 0x00;
   0x05; 0x2e; 0x00; 0x03; 0x08; 0x3c; 0x0c; 0x00; 0x00;
   0x00].

Definition function_debug : list Z :=
  [0x34; 0x00; 0x00; 0x00; 0x02; 0x00; 0x00; 0x00; 0x00; 0x00; 0x04;
   0x01; 0x66; 0x2e; 0x63; 0x00;
   0x02; 0x69; 0x6e; 0x74; 0x00; 0x04; 0x05;
   0x03; 0x66; 0x00; 0x00; 0x20; 0x00; 0x00; 0x40; 0x20; 0x00; 0x00;
     0x01; 0x55; 0x10; 0x00; 0x00; 0x00;
   0x04; 0x78; 0x00; 0x10; 0x00; 0x00; 0x00; 0x02; 0x91; 0x08;
   0x00;
   0x05; 0x67; 0x00; 0x01;
   0x00].

Definition function_memory : memory :=
  [ {| r_base := 0x10000; r_bytes := function_debug |};
    {| r_base := 0x20000; r_bytes := function_abbrev |} ].

(** The context of a unit at 0x10000, with its abbreviations at 0x20000,
    at the point where [dwarf2_read_one_debug_info] is called on its first
    entry: the abbreviations are read, the table of entries is empty. *)
Definition unit_start (m : memory) : dwarf2_parse_context_t :=
  let ctx :=
    {| mem := m;
       sections := fun s =>
         match s with
         | section_debug => {| address := 0x10000; size := 0x1000 |}
         | section_abbrev => {| address := 0x20000; size := 0x1000 |}
         | _ => {| address := NO_MAP; size := 0 |}
         end;
       section := section_debug;
       pool := {| pool_next := 0; pool_strings := [] |};
       module := sample_module;
       abbrev_table := ∅; debug_info_table := ∅; ref_offset := 0;
       ctx_word_size := 0; index := 0 |} in
  init_unit_context 0x70000000 ctx
    {| cu_length := 0; cu_version := 2; cu_abbrev_offset := 0;
       cu_word_size := 4 |}
    0x10000
    (default ∅
       (dwarf2_parse_abbrev_set m
          {| data := 0x20000; start_data := 0x20000; end_data := 0x21000;
             word_size := 4 |})).

(** The cursor on the first entry of the unit at 0x10000. *)
Definition first_entry (m : memory) : dwarf2_traverse_context_t :=
  {| data := 0x1000b; start_data := 0x1000b;
     end_data := 0x10000 + Z.of_nat (length (bytes_at m 0x10000));
     word_size := 4 |}.

(** An entry whose only attribute is a constant of eight bytes. *)
Definition wide_entry : dwarf2_debug_info_t :=
  {| abbrev := {| entry_code := 1; tag := DW_TAG_variable; have_child := 0;
                  num_attr := 1;
                  attrs := [{| attribute := DW_AT_const_value;
                               form := DW_FORM_data8 |}] |};
     symt := None; di_data := [0x30000]; children := [] |}.

(** A module with the function [f] at 0x402000 and its signature. *)
Definition signature_module : module_t :=
  set_calls sample_module
    [source_new None (Some "f.c"%string); symt_new_compiland 0;
     symt_new_function_signature None CV_CALL_FAR_C;
     symt_new_function (Some 1%nat) (Some "f"%string) 0x402000 0x40
       (Some 2%nat)].

(** A unit header that declares the length 0xFFFFFFFC and the version
    3. *)
Definition wrapping_memory : memory :=
  [ {| r_base := 0x10000;
       r_bytes := [0xfc; 0xff; 0xff; 0xff; 0x03; 0x00;
                   0x00; 0x00; 0x00; 0x00; 0x04] |} ].

(** The extended opcode [DW_LNE_end_sequence], with its length 1, at
    0x50000. *)
Definition end_sequence_memory : memory :=
  [ {| r_base := 0x50000; r_bytes := [0x00; 0x01; 0x01; 0x00] |} ].

(** A unit for a function [f] with a block that holds the variable [v]
    and a block inside it that holds the variable [w]: the base type at
    16, the function at 23, the outer block at 40, [v] at 49, the inner
    block at 59 and [w] at 68. *)
Definition block_abbrev : list Z :=
  [0x01; 0x11; 0x01; 0x03; 0x08; 0x00; 0x00;
   0x02; 0x24; 0x00; 0x03; 0x08; 0x0b; 0x0b; 0x3e; 0x0b; 0x00; 0x00;
   0x03; 0x2e; 0x01; 0x03; 0x08; 0x11; 0x01; 0x12; 0x01; 0x40; 0x0a;
     0x49; 0x13; 0x00; 0x00;
   0x04; 0x0b; 0x01; 0x11; 0x01; 0x12; 0x01; 0x00; 0x00;
   0x05; 0x34; 0x00; 0x03; 0x08; 0x49; 0x13; 0x02; 0x0a; 0x00; 0x00;
   0x00].

Definition block_debug : list Z :=
  [0x4e; 0x00; 0x00; 0x00; 0x02; 0x00; 0x00; 0x00; 0x00; 0x00; 0x04;
   0x01; 0x62; 0x2e; 0x63; 0x00;
   0x02; 0x69; 0x6e; 0x74; 0x00; 0x04; 0x05;
   0x03; 0x66; 0x00; 0x00; 0x20; 0x00; 0x00; 0x40; 0x20; 0x00; 0x00;
     0x01; 0x55; 0x10; 0x00; 0x00; 0x00;
   0x04; 0x10; 0x20; 0x00; 0x00; 0x30; 0x20; 0x00; 0x00;
   0x05; 0x76; 0x00; 0x10; 0x00; 0x00; 0x00; 0x02; 0x91; 0x08;
   0x04; 0x18; 0x20; 0x00; 0x00; 0x20; 0x20; 0x00; 0x00;
   0x05; 0x77; 0x00; 0x10; 0x00; 0x00; 0x00; 0x02; 0x91; 0x0c;
   0x00; 0x00; 0x00; 0x00].

Definition block_memory : memory :=
  [ {| r_base := 0x10000; r_bytes := block_debug |};
    {| r_base := 0x20000; r_bytes := block_abbrev |} ].

(** * The memo of an entry and the graphs of types *)

(** A computation through which the entry under [di] keeps the symbol
    [s] it holds. *)
Definition stable (di : Z) (s : nat) {A : Type} (c : M A) : Prop :=
  forall ctx a ctx',
    holds_symbol ctx di s -> c ctx = Done a ctx' -> holds_symbol ctx' di s.

(** The tags of the entries that [dwarf2_parse_udt_type] builds. *)
Definition is_udt_tag (t : Z) : bool :=
  (t =? DW_TAG_class_type) || (t =? DW_TAG_structure_type)
  || (t =? DW_TAG_union_type).

(** The tag of the entry under [d], 0 without such an entry. *)
Definition tag_at (ctx : dwarf2_parse_context_t) (d : Z) : Z :=
  match debug_info_table ctx !! d with
  | Some e => tag (abbrev e)
  | None => 0
  end.

(** Every symbol made by [symt_new_udt] since [ctx0] is the symbol that
    the entry of a structure, class or union holds. *)
Definition udt_symbols_held (ctx0 ctx : dwarf2_parse_context_t) : Prop :=
  forall q name size kind,
    (length (calls (module ctx0)) <= q)%nat ->
    calls (module ctx) !! q = Some (symt_new_udt name size kind) ->
    exists d e,
      debug_info_table ctx !! d = Some e
      /\ is_udt_tag (tag (abbrev e)) = true
      /\ symt e = Some q.

(** [ctx] comes after [ctx0] and the structure symbols made in between
    are held. *)
Definition tracks (ctx0 ctx : dwarf2_parse_context_t) : Prop :=
  extends ctx0 ctx /\ udt_symbols_held ctx0 ctx.

Definition keeps_udt (ctx0 : dwarf2_parse_context_t) {A : Type} (c : M A)
  : Prop :=
  forall ctx a ctx', tracks ctx0 ctx -> c ctx = Done a ctx' -> tracks ctx0 ctx'.

(** The calls that make a structure symbol. *)
Definition is_new_udt (c : symt_call) : bool :=
  match c with
  | symt_new_udt _ _ _ => true
  | _ => false
  end.

(** ** Type graphs that can be built

    The type that an entry names: [Some (Some x)] for the entry under
    [x], [Some None] without a [DW_AT_type], [None] when the attribute
    cannot be decoded. *)
Definition type_of (junk : Z) (ctx : dwarf2_parse_context_t)
  (e : dwarf2_debug_info_t) : option (option Z) :=
  match dwarf2_find_attribute ctx e DW_AT_type (uninitialized junk) with
  | Some (true, a) => Some (Some (u_uvalue a))
  | Some (false, _) => Some None
  | None => None
  end.

(** The tags of the entries whose symbol is made from the symbol of the
    type they name. *)
Definition is_wrapper_tag (t : Z) : bool :=
  (t =? DW_TAG_typedef) || (t =? DW_TAG_pointer_type)
  || (t =? DW_TAG_const_type) || (t =? DW_TAG_volatile_type)
  || (t =? DW_TAG_reference_type).

Definition in_list (x : Z) (l : list Z) : bool := existsb (Z.eqb x) l.

(** The place of a member in its structure can be computed. *)
Definition member_located (junk : Z) (ctx : dwarf2_parse_context_t)
  (e : dwarf2_debug_info_t) : bool :=
  match dwarf2_compute_location junk ctx e DW_AT_data_member_location 0 None
  with
  | Some _ => true
  | None => false
  end.

(** The raw values of an enumeration and of its enumerators can be
    decoded. *)
Definition enumeration_ok (ctx : dwarf2_parse_context_t)
  (e : dwarf2_debug_info_t) : bool :=
  attributes_readable ctx e 0 (attrs (abbrev e))
  && ((have_child (abbrev e) =? 0)
      || forallb
           (fun c =>
              match debug_info_table ctx !! c with
              | None => false
              | Some ec =>
                  negb (tag (abbrev ec) =? DW_TAG_enumerator)
                  || attributes_readable ctx ec 0 (attrs (abbrev ec))
              end)
           (children e)).

(** The entry under [t] can be built with [h] nested calls of
    [dwarf2_load_one_entry], the entries of [built] holding a symbol
    already.  The raw values of the entry can be decoded, and the entry
    is a base type or an enumeration; or a typedef, pointer, reference,
    const or volatile type that names no type, or a type that is built or
    can be built in turn; or an array or a subroutine type that names
    such a type, and so do its subranges or its parameters; or a
    structure, class or union whose members name such a type and have a
    place.  The members are read when the structure holds its symbol: a
    member may name a type that leads back to the structure. *)
Fixpoint builds (junk : Z) (ctx : dwarf2_parse_context_t) (h : nat)
  (built : list Z) (t : Z) : bool :=
  match h with
  | O => false
  | S h =>
      match debug_info_table ctx !! t with
      | None => false
      | Some e =>
          let typed built e :=
            match type_of junk ctx e with
            | Some (Some x) => in_list x built || builds junk ctx h built x
            | Some None => true
            | None => false
            end in
          let children_typed tag_of_child :=
            forallb
              (fun c =>
                 match debug_info_table ctx !! c with
                 | None => false
                 | Some ec =>
                     negb (tag (abbrev ec) =? tag_of_child)
                     || (attributes_readable ctx ec 0 (attrs (abbrev ec))
                         && typed built ec)
                 end)
              (children e) in
          attributes_readable ctx e 0 (attrs (abbrev e))
          && (if tag (abbrev e) =? DW_TAG_base_type then true
              else if is_wrapper_tag (tag (abbrev e)) then typed built e
              else if tag (abbrev e) =? DW_TAG_enumeration_type then
                enumeration_ok ctx e
              else if tag (abbrev e) =? DW_TAG_array_type then
                (have_child (abbrev e) =? 0)
                || (typed built e && children_typed DW_TAG_subrange_type)
              else if tag (abbrev e) =? DW_TAG_subroutine_type then
                typed built e
                && ((have_child (abbrev e) =? 0)
                    || children_typed DW_TAG_formal_parameter)
              else if is_udt_tag (tag (abbrev e)) then
                (have_child (abbrev e) =? 0)
                || forallb
                     (fun c =>
                        match debug_info_table ctx !! c with
                        | None => false
                        | Some ec =>
                            if tag (abbrev ec) =? DW_TAG_member then
                              attributes_readable ctx ec 0 (attrs (abbrev ec))
                              && member_located junk ctx ec
                              && typed (t :: built) ec
                            else if tag (abbrev ec) =? DW_TAG_enumeration_type
                            then enumeration_ok ctx ec
                            else true
                        end)
                     (children e)
              else false)
      end
  end.

(** The entries of [built] hold a symbol. *)
Definition all_built (built : list Z) (ctx : dwarf2_parse_context_t) : Prop :=
  Forall (fun b => exists s, holds_symbol ctx b s) built.

(** A computation that, started in a context that satisfies [P], finishes
    in a context that satisfies [P'] with a result that satisfies [q]. *)
Definition runs {A : Type} (P : dwarf2_parse_context_t -> Prop) (c : M A)
  (P' : dwarf2_parse_context_t -> Prop) (q : A -> Prop) : Prop :=
  forall ctx, P ctx -> exists a ctx', c ctx = Done a ctx' /\ P' ctx' /\ q a.

(** The contexts that come after [ctx0] and in which the entries of
    [built] hold a symbol. *)
Definition later (ctx0 : dwarf2_parse_context_t) (built : list Z)
  (ctx : dwarf2_parse_context_t) : Prop :=
  extends ctx0 ctx /\ all_built built ctx.

(** The type that an entry names is built already, or the entry of the
    type is loaded and the loading finishes. *)
Definition resolvable (ctx0 : dwarf2_parse_context_t) (built : list Z)
  (load_one_entry : Z -> symt_ptr -> M unit) (x : Z) : Prop :=
  In x built
  \/ (is_Some (debug_info_table ctx0 !! x)
      /\ forall c,
           runs (later ctx0 built) (load_one_entry x c) (later ctx0 built)
             (fun _ => True)).

(** An enumeration that [dwarf2_parse_enumeration_type] can deal with. *)
Definition enumeration_finishes (ctx0 : dwarf2_parse_context_t)
  (e0 : dwarf2_debug_info_t) : Prop :=
  readable ctx0 e0
  /\ (have_child (abbrev e0) = 0
      \/ Forall
           (fun c =>
              exists ec,
                debug_info_table ctx0 !! c = Some ec
                /\ (tag (abbrev ec) = DW_TAG_enumerator -> readable ctx0 ec))
           (children e0)).

(** A child of a structure that [dwarf2_parse_udt_type] can deal with. *)
Definition child_finishes (junk : Z) (ctx0 : dwarf2_parse_context_t)
  (load_one_entry : Z -> symt_ptr -> M unit) (built : list Z) (c : Z)
  : Prop :=
  exists ec,
    debug_info_table ctx0 !! c = Some ec
    /\ ((tag (abbrev ec) = DW_TAG_member
         /\ readable ctx0 ec
         /\ member_located junk ctx0 ec = true
         /\ forall x, type_of junk ctx0 ec = Some (Some x) ->
                      resolvable ctx0 built load_one_entry x)
        \/ (tag (abbrev ec) = DW_TAG_enumeration_type
            /\ enumeration_finishes ctx0 ec)
        \/ (tag (abbrev ec) <> DW_TAG_member
            /\ tag (abbrev ec) <> DW_TAG_enumeration_type)).

(** A child of an array or of a subroutine type: the children of the tag
    [tag_of_child] are the ones that are read. *)
Definition typed_child (junk : Z) (ctx0 : dwarf2_parse_context_t)
  (load_one_entry : Z -> symt_ptr -> M unit) (built : list Z)
  (tag_of_child : Z) (c : Z) : Prop :=
  exists ec,
    debug_info_table ctx0 !! c = Some ec
    /\ (tag (abbrev ec) = tag_of_child ->
        readable ctx0 ec
        /\ forall x, type_of junk ctx0 ec = Some (Some x) ->
                     resolvable ctx0 built load_one_entry x).

(** What [builds] asks of an entry. *)
Definition entry_finishes (junk : Z) (ctx0 : dwarf2_parse_context_t)
  (load_one_entry : Z -> symt_ptr -> M unit) (built : list Z) (t : Z)
  (e0 : dwarf2_debug_info_t) : Prop :=
  tag (abbrev e0) = DW_TAG_base_type
  \/ (is_wrapper_tag (tag (abbrev e0)) = true
      /\ forall x, type_of junk ctx0 e0 = Some (Some x) ->
                   resolvable ctx0 built load_one_entry x)
  \/ (tag (abbrev e0) = DW_TAG_enumeration_type
      /\ enumeration_finishes ctx0 e0)
  \/ (tag (abbrev e0) = DW_TAG_array_type
      /\ (have_child (abbrev e0) = 0
          \/ ((forall x, type_of junk ctx0 e0 = Some (Some x) ->
                         resolvable ctx0 built load_one_entry x)
              /\ Forall (typed_child junk ctx0 load_one_entry built
                           DW_TAG_subrange_type) (children e0))))
  \/ (tag (abbrev e0) = DW_TAG_subroutine_type
      /\ (forall x, type_of junk ctx0 e0 = Some (Some x) ->
                    resolvable ctx0 built load_one_entry x)
      /\ (have_child (abbrev e0) = 0
          \/ Forall (typed_child junk ctx0 load_one_entry built
                       DW_TAG_formal_parameter) (children e0)))
  \/ (is_udt_tag (tag (abbrev e0)) = true
      /\ (have_child (abbrev e0) = 0
          \/ Forall (child_finishes junk ctx0 load_one_entry (t :: built))
               (children e0))).

(** ** A unit with a graph of types

    The unit for
    [struct node { int v; struct node *n; link l; struct node *a[4];
                   int ( *f)(struct node * ); enum e { x = 1 }; };]
    with [typedef struct node *const link;]: the base type at 16, the
    pointer type at 23 whose type is the structure at 29, the members at
    36, 46, 56, 66 and 76, the enumeration at 86, the typedef at 96 of
    the const type at 106 of the pointer type, the array type at 111 of
    the pointer type, and the pointer type at 123 to the subroutine type
    at 129, which takes the pointer type and answers the base type. *)
Definition graph_abbrev : list Z :=
  [0x01; 0x11; 0x01; 0x03; 0x08; 0x00; 0x00; 0x02; 0x24; 0x00; 0x03; 0x08;
   0x0b; 0x0b; 0x3e; 0x0b; 0x00; 0x00; 0x03; 0x0f; 0x00; 0x0b; 0x0b; 0x49;
   0x13; 0x00; 0x00; 0x04; 0x13; 0x01; 0x03; 0x08; 0x0b; 0x0b; 0x00; 0x00;
   0x05; 0x0d; 0x00; 0x03; 0x08; 0x49; 0x13; 0x38; 0x0a; 0x00; 0x00; 0x06;
   0x16; 0x00; 0x03; 0x08; 0x49; 0x13; 0x00; 0x00; 0x07; 0x26; 0x00; 0x49;
   0x13; 0x00; 0x00; 0x08; 0x01; 0x01; 0x49; 0x13; 0x00; 0x00; 0x09; 0x21;
   0x00; 0x49; 0x13; 0x2f; 0x0b; 0x00; 0x00; 0x0a; 0x04; 0x01; 0x03; 0x08;
   0x0b; 0x0b; 0x00; 0x00; 0x0b; 0x28; 0x00; 0x03; 0x08; 0x1c; 0x0b; 0x00;
   0x00; 0x0c; 0x15; 0x01; 0x49; 0x13; 0x00; 0x00; 0x0d; 0x05; 0x00; 0x49;
   0x13; 0x00; 0x00; 0x00].

Definition graph_debug : list Z :=
  [0x89; 0x00; 0x00; 0x00; 0x02; 0x00; 0x00; 0x00; 0x00; 0x00; 0x04; 0x01;
   0x6e; 0x2e; 0x63; 0x00; 0x02; 0x69; 0x6e; 0x74; 0x00; 0x04; 0x05; 0x03;
   0x04; 0x1d; 0x00; 0x00; 0x00; 0x04; 0x6e; 0x6f; 0x64; 0x65; 0x00; 0x20;
   0x05; 0x76; 0x00; 0x10; 0x00; 0x00; 0x00; 0x02; 0x23; 0x00; 0x05; 0x6e;
   0x00; 0x17; 0x00; 0x00; 0x00; 0x02; 0x23; 0x04; 0x05; 0x6c; 0x00; 0x60;
   0x00; 0x00; 0x00; 0x02; 0x23; 0x08; 0x05; 0x61; 0x00; 0x6f; 0x00; 0x00;
   0x00; 0x02; 0x23; 0x0c; 0x05; 0x66; 0x00; 0x7b; 0x00; 0x00; 0x00; 0x02;
   0x23; 0x1c; 0x0a; 0x65; 0x00; 0x04; 0x0b; 0x78; 0x00; 0x01; 0x00; 0x00;
   0x06; 0x6c; 0x69; 0x6e; 0x6b; 0x00; 0x6a; 0x00; 0x00; 0x00; 0x07; 0x17;
   0x00; 0x00; 0x00; 0x08; 0x17; 0x00; 0x00; 0x00; 0x09; 0x10; 0x00; 0x00;
   0x00; 0x03; 0x00; 0x03; 0x04; 0x81; 0x00; 0x00; 0x00; 0x0c; 0x10; 0x00;
   0x00; 0x00; 0x0d; 0x17; 0x00; 0x00; 0x00; 0x00; 0x00].

Definition graph_memory : memory :=
  [ {| r_base := 0x10000; r_bytes := graph_debug |};
    {| r_base := 0x20000; r_bytes := graph_abbrev |} ].
(* ================================================================== *)
(** * Properties *)

(** ** Bit-level helpers *)

Ltac is_positive_numeral p :=
  lazymatch p with
  | xH => idtac
  | xO ?q => is_positive_numeral q
  | xI ?q => is_positive_numeral q
  end.

Ltac is_Z_numeral z :=
  lazymatch z with
  | Z0 => idtac
  | Zpos ?p => is_positive_numeral p
  | Zneg ?p => is_positive_numeral p
  end.

(** Replaces every power of two with a closed exponent by its value. *)
Ltac eval_pows :=
  repeat match goal with
  | H : context [Z.pow 2 ?e] |- _ =>
      let e' := eval vm_compute in e in
      is_Z_numeral e';
      let v := eval vm_compute in (Z.pow 2 e') in
      change (Z.pow 2 e) with v in H
  | |- context [Z.pow 2 ?e] =>
      let e' := eval vm_compute in e in
      is_Z_numeral e';
      let v := eval vm_compute in (Z.pow 2 e') in
      change (Z.pow 2 e) with v
  end.


Lemma lor_disjoint (a b s : Z) :
  0 <= s -> 0 <= a < 2 ^ s -> b mod 2 ^ s = 0 -> Z.lor a b = a + b.
Proof.
  intros Hs Ha Hb.
  assert (Hland : Z.land a b = 0).
  { apply Z.bits_inj'. intros i Hi.
    rewrite Z.land_spec, Z.bits_0.
    destruct (Z.lt_ge_cases i s) as [Hlt | Hge].
    - assert (Hbi : Z.testbit b i = false).
      { rewrite <- (Z.mod_pow2_bits_low b s i) by lia. rewrite Hb. apply Z.bits_0. }
      rewrite Hbi. apply andb_false_r.
    - assert (Hai : Z.testbit a i = false).
      { destruct (Z.eq_dec a 0) as [-> | Hne]; [apply Z.bits_0 |].
        apply Z.bits_above_log2; [lia |].
        assert (Z.log2 a < s) by (apply Z.log2_lt_pow2; lia). lia. }
      rewrite Hai. reflexivity. }
  rewrite (Z.add_nocarry_lxor a b Hland). symmetry. apply Z.lxor_lor. exact Hland.
Qed.

Lemma uint32_sint32 (z : Z) : uint32 (sint32 z) = uint32 z.
Proof.
  unfold uint32, sint32.
  rewrite Zminus_mod_idemp_l.
  replace (z + 2 ^ 31 - 2 ^ 31) with z by lia. reflexivity.
Qed.

Lemma land_7f (b : Z) : Z.land b 0x7f = b mod 128.
Proof. change 0x7f with (Z.ones 7). rewrite Z.land_ones by lia. reflexivity. Qed.

Lemma land_80 (b : Z) : 0 <= b < 256 -> Z.land b 0x80 = if b <? 128 then 0 else 128.
Proof.
  intros Hb.
  assert (H : forallb (fun n => Z.land (Z.of_nat n) 0x80 =? (if Z.of_nat n <? 128 then 0 else 128))
                (seq 0 256) = true) by (vm_compute; reflexivity).
  rewrite forallb_forall in H.
  specialize (H (Z.to_nat b)). rewrite Z2Nat.id in H by lia.
  apply Z.eqb_eq, H. apply in_seq. lia.
Qed.

Lemma land_40 (b : Z) : 0 <= b < 128 -> Z.land b 0x40 = if b <? 64 then 0 else 64.
Proof.
  intros Hb.
  assert (H : forallb (fun n => Z.land (Z.of_nat n) 0x40 =? (if Z.of_nat n <? 64 then 0 else 64))
                (seq 0 128) = true) by (vm_compute; reflexivity).
  rewrite forallb_forall in H.
  specialize (H (Z.to_nat b)). rewrite Z2Nat.id in H by lia.
  apply Z.eqb_eq, H. apply in_seq. lia.
Qed.

(** ** The unsigned reader inverts the unsigned encoding *)

Lemma leb128_as_unsigned_loop_encode (fuel : nat) :
  forall (v ret n : Z) (j : Z) (rest : list Z),
    0 <= j <= 4 ->
    0 <= ret < 2 ^ (7 * j) ->
    0 <= v < 2 ^ (32 - 7 * j) ->
    v < 2 ^ Z.of_nat fuel -> (0 < fuel)%nat ->
    leb128_as_unsigned_loop (encode_uleb128_groups fuel v ++ rest) ret (7 * j) n
    = Some (ret + v * 2 ^ (7 * j), n + Z.of_nat (length (encode_uleb128_groups fuel v))).
Proof.
  induction fuel as [| k IH]; intros v ret n j rest Hj Hret Hv Hfuel Hpos; [lia |].
  cbn [encode_uleb128_groups].
  assert (Hb : 0 <= v mod 128 < 128) by (apply Z.mod_pos_bound; lia).
  assert (Hk : 2 ^ Z.of_nat (S k) = 2 * 2 ^ Z.of_nat k).
  { rewrite Nat2Z.inj_succ, Z.pow_succ_r by lia. reflexivity. }
  assert (Hshl : forall b, 0 <= b < 128 -> b * 2 ^ (7 * j) < 2 ^ 32 ->
            Z.lor ret (uint32 (int_shl b (7 * j))) = ret + b * 2 ^ (7 * j)).
  { intros b Hb0 Hb1. unfold int_shl. rewrite uint32_sint32.
    rewrite Z.mod_small by lia. rewrite Z.shiftl_mul_pow2 by lia.
    assert (0 < 2 ^ (7 * j)) by (apply Z.pow_pos_nonneg; lia).
    unfold uint32. rewrite Z.mod_small. 2:{ split; [apply Z.mul_nonneg_nonneg; lia | exact Hb1]. }
    apply (lor_disjoint ret _ (7 * j)); [lia | lia |].
    apply Z.mod_mul. lia. }
  assert (Hpow : 2 ^ (32 - 7 * j) * 2 ^ (7 * j) = 2 ^ 32).
  { rewrite <- Z.pow_add_r by lia. f_equal. lia. }
  assert (Hp0 : 0 < 2 ^ (7 * j)) by (apply Z.pow_pos_nonneg; lia).
  assert (Hj5 : j = 0 \/ j = 1 \/ j = 2 \/ j = 3 \/ j = 4) by lia.
  destruct (v / 128 =? 0) eqn:Hq.
  - apply Z.eqb_eq in Hq.
    assert (Hvb : v = v mod 128) by (pose proof (Z.div_mod v 128); lia).
    cbn [app leb128_as_unsigned_loop length].
    rewrite land_7f, Zmod_mod, (land_80 (v mod 128)) by lia.
    destruct (v mod 128 <? 128) eqn:Hlt; [| lia].
    cbn [Z.eqb]. rewrite Hshl by (try lia; rewrite <- Hvb; nia).
    rewrite <- Hvb. f_equal.
  - apply Z.eqb_neq in Hq.
    cbn [app leb128_as_unsigned_loop length].
    assert (Hland7 : Z.land (v mod 128 + 128) 0x7f = v mod 128).
    { rewrite land_7f. rewrite <- (Z.mul_1_l 128) at 2.
      rewrite Z.mod_add by lia. apply Zmod_mod. }
    rewrite Hland7, (land_80 (v mod 128 + 128)) by lia.
    destruct (v mod 128 + 128 <? 128) eqn:Hlt; [lia |].
    cbn [Z.eqb].
    assert (Hq1 : 1 <= v / 128) by (pose proof (Z.div_pos v 128); lia).
    assert (Hj3 : j <= 3).
    { destruct Hj5 as [-> | [-> | [-> | [-> | ->]]]]; try lia.
      eval_pows. Z.div_mod_to_equations. lia. }
    assert (Hsmall : (v mod 128) * 2 ^ (7 * j) < 2 ^ 32).
    { destruct Hj5 as [-> | [-> | [-> | [-> | ->]]]]; eval_pows; lia. }
    rewrite Hshl by lia.
    assert (Hsh : uint32 (7 * j + 7) = 7 * (j + 1)).
    { unfold uint32. rewrite Z.mod_small by lia. lia. }
    rewrite Hsh.
    assert (Hk0 : (0 < k)%nat).
    { destruct k; [| lia]. change (2 ^ Z.of_nat 1) with 2 in Hfuel.
      Z.div_mod_to_equations. lia. }
    rewrite IH; [| lia | | | | lia].
    + f_equal. f_equal.
      * replace (7 * (j + 1)) with (7 * j + 7) by lia.
        rewrite Z.pow_add_r by lia.
        pose proof (Z.div_mod v 128). change (2 ^ 7) with 128. nia.
      * rewrite Nat2Z.inj_succ. lia.
    + replace (7 * (j + 1)) with (7 * j + 7) by lia.
      rewrite Z.pow_add_r by lia. change (2 ^ 7) with 128. nia.
    + split; [lia |].
      destruct Hj5 as [-> | [-> | [-> | [-> | ->]]]]; eval_pows;
        Z.div_mod_to_equations; lia.
    + rewrite Hk in Hfuel. Z.div_mod_to_equations. lia.
Qed.

(** ** The signed reader inverts the signed encoding *)

Ltac split_shift Hs :=
  cbn [In] in Hs;
  destruct Hs as [<- | [<- | [<- | [<- | [<- | []]]]]].

Lemma int_shl_group (b s : Z) :
  In s [0; 7; 14; 21] -> 0 <= b < 128 -> int_shl b s = b * 2 ^ s.
Proof.
  intros Hs Hb. unfold int_shl.
  cbn [In] in Hs.
  rewrite Z.mod_small, Z.shiftl_mul_pow2 by lia.
  unfold sint32.
  destruct Hs as [<- | [<- | [<- | [<- | []]]]]; eval_pows;
    Z.div_mod_to_equations; lia.
Qed.

Lemma int_shl_top_group (v : Z) :
  -8 <= v < 8 -> int_shl (v mod 128) 28 = v * 2 ^ 28.
Proof.
  intros Hv. unfold int_shl.
  change (28 mod 32) with 28. rewrite Z.shiftl_mul_pow2 by lia.
  unfold sint32. eval_pows. Z.div_mod_to_equations. lia.
Qed.

Lemma leb128_as_signed_loop_encode (fuel : nat) :
  forall (v ret n s : Z) (rest : list Z),
    In s [0; 7; 14; 21; 28] ->
    0 <= ret < 2 ^ s ->
    - 2 ^ (31 - s) <= v < 2 ^ (31 - s) ->
    Z.abs v < 2 ^ Z.of_nat fuel -> (0 < fuel)%nat ->
    exists r byte shift,
      leb128_as_signed_loop (encode_sleb128_groups fuel v ++ rest) ret s n
      = Some (r, byte, shift, n + Z.of_nat (length (encode_sleb128_groups fuel v)))
      /\ leb128_sign_extend r byte shift = ret + v * 2 ^ s.
Proof.
  induction fuel as [| k IH]; intros v ret n s rest Hs Hret Hv Hfuel Hpos; [lia |].
  cbn [encode_sleb128_groups].
  assert (Hb : 0 <= v mod 128 < 128) by (apply Z.mod_pos_bound; lia).
  assert (Hk : 2 ^ Z.of_nat (S k) = 2 * 2 ^ Z.of_nat k).
  { rewrite Nat2Z.inj_succ, Z.pow_succ_r by lia. reflexivity. }
  assert (Hs0 : 0 <= s <= 28) by (cbn [In] in Hs; lia).
  assert (Hp0 : 0 < 2 ^ s) by (apply Z.pow_pos_nonneg; lia).
  assert (Hshift : uint32 (s + 7) = s + 7).
  { unfold uint32. apply Z.mod_small. lia. }
  destruct (((v / 128 =? 0) && (v mod 128 <? 64))
            || ((v / 128 =? -1) && (64 <=? v mod 128))) eqn:Hlast.
  - (* the last group *)
    assert (Hvr : -64 <= v < 64 /\ v mod 128 = (if v <? 0 then v + 128 else v)).
    { destruct (v <? 0) eqn:Hneg; Z.div_mod_to_equations; lia. }
    destruct Hvr as [Hvr Hbyte].
    cbn [app leb128_as_signed_loop length].
    rewrite land_7f, Zmod_mod, (land_80 (v mod 128)) by lia.
    destruct (v mod 128 <? 128) eqn:Hlt; [| lia].
    cbn [Z.eqb]. do 3 eexists. split; [reflexivity |].
    unfold leb128_sign_extend. rewrite Hshift, (land_40 (v mod 128)) by lia.
    destruct (Z.eq_dec s 28) as [-> | Hs28].
    + (* the fifth byte: its upper bits fall off, no extension *)
      eval_pows. rewrite int_shl_top_group by lia.
      cbn [Z.add Pos.add Pos.succ Z.ltb Z.compare Pos.compare Pos.compare_cont
           Z.mul Pos.mul andb].
      apply (lor_disjoint ret _ 28); [lia | eval_pows; lia |].
      apply Z.mod_mul. eval_pows. lia.
    + assert (Hs' : In s [0; 7; 14; 21]) by (cbn [In] in *; lia).
      assert (Hs21 : s <= 21) by (cbn [In] in Hs'; lia).
      rewrite int_shl_group by assumption.
      assert (Hr : Z.lor ret (v mod 128 * 2 ^ s) = ret + v mod 128 * 2 ^ s).
      { apply (lor_disjoint ret _ s); [lia | lia |]. apply Z.mod_mul. lia. }
      rewrite Hr.
      assert (Hlt32 : (s + 7 <? 4 * 8) = true) by (apply Z.ltb_lt; lia).
      rewrite Hlt32. cbn [andb].
      destruct (v mod 128 <? 64) eqn:H64; cbn [Z.eqb negb].
      * assert (v mod 128 = v) by (Z.div_mod_to_equations; lia). congruence.
      * assert (Hvm : v mod 128 = v + 128) by (Z.div_mod_to_equations; lia).
        rewrite Hvm.
        assert (Hone : sint32 (- int_shl 1 (s + 7)) = - 2 ^ (s + 7)).
        { unfold int_shl. rewrite Z.mod_small, Z.shiftl_mul_pow2 by lia.
          unfold sint32.
          cbn [In] in Hs'.
          destruct Hs' as [<- | [<- | [<- | [<- | []]]]]; eval_pows;
            reflexivity. }
        rewrite Hone.
        assert (Hpw : 2 ^ (s + 7) = 128 * 2 ^ s).
        { rewrite Z.pow_add_r by lia. change (2 ^ 7) with 128. lia. }
        rewrite (lor_disjoint _ _ (s + 7)); [| lia | nia |].
        -- nia.
        -- rewrite <- (Z.mul_1_l (2 ^ (s + 7))) at 1.
           rewrite <- Z.mul_opp_l. apply Z.mod_mul. lia.
  - (* a continuation group *)
    assert (Hout : v < -64 \/ 64 <= v).
    { apply orb_false_iff in Hlast. destruct Hlast as [H1 H2].
      apply andb_false_iff in H1. apply andb_false_iff in H2.
      rewrite !Z.eqb_neq, Z.ltb_ge in H1. rewrite Z.eqb_neq, Z.leb_gt in H2.
      Z.div_mod_to_equations. lia. }
    assert (Hs' : In s [0; 7; 14; 21]).
    { split_shift Hs; cbn [In]; auto. eval_pows. lia. }
    assert (Hs21 : s <= 21) by (cbn [In] in Hs'; lia).
    cbn [app leb128_as_signed_loop length].
    assert (Hland7 : Z.land (v mod 128 + 128) 0x7f = v mod 128).
    { rewrite land_7f. rewrite <- (Z.mul_1_l 128) at 2.
      rewrite Z.mod_add by lia. apply Zmod_mod. }
    rewrite Hland7, (land_80 (v mod 128 + 128)) by lia.
    destruct (v mod 128 + 128 <? 128) eqn:Hlt; [lia |].
    cbn [Z.eqb]. rewrite Hshift.
    rewrite int_shl_group by assumption.
    assert (Hr : Z.lor ret (v mod 128 * 2 ^ s) = ret + v mod 128 * 2 ^ s).
    { apply (lor_disjoint ret _ s); [lia | lia |]. apply Z.mod_mul. lia. }
    rewrite Hr.
    assert (Hpw : 2 ^ (s + 7) = 128 * 2 ^ s).
    { rewrite Z.pow_add_r by lia. change (2 ^ 7) with 128. lia. }
    assert (Hk0 : (0 < k)%nat).
    { destruct k; [| lia]. change (2 ^ Z.of_nat 1) with 2 in Hfuel. lia. }
    destruct (IH (v / 128) (ret + v mod 128 * 2 ^ s) (n + 1) (s + 7) rest)
      as (r & byte & shift & Hloop & Hext).
    + cbn [In] in *. lia.
    + rewrite Hpw. nia.
    + cbn [In] in Hs'.
      destruct Hs' as [<- | [<- | [<- | [<- | []]]]]; eval_pows;
        Z.div_mod_to_equations; lia.
    + rewrite Hk in Hfuel. Z.div_mod_to_equations. lia.
    + exact Hk0.
    + exists r, byte, shift. split.
      * rewrite Hloop. do 2 f_equal. rewrite Nat2Z.inj_succ. lia.
      * rewrite Hext, Hpw. Z.div_mod_to_equations. nia.
Qed.

(** C2: reading back the base-128 encoding of a 32-bit value gives the
    value, for the unsigned reader on every [u] in [0, 2^32) and for the
    signed reader on every [s] in [-2^31, 2^31), wherever the encoded
    bytes lie in memory and whatever follows them; the last byte of the
    signed encoding has bit 0x40 set exactly for a negative [s], where the
    reader extends the sign.  Both readers stop right after the encoding. *)
Theorem leb128_roundtrip (m : memory) (pu ps u s : Z) (restu rests : list Z) :
  0 <= u < 2 ^ 32 ->
  - 2 ^ 31 <= s < 2 ^ 31 ->
  bytes_at m pu = encode_uleb128 u ++ restu ->
  bytes_at m ps = encode_sleb128 s ++ rests ->
  dwarf2_get_leb128_as_unsigned m pu
  = Some (u, pu + Z.of_nat (length (encode_uleb128 u)))
  /\ dwarf2_get_leb128_as_signed m ps
     = Some (s, ps + Z.of_nat (length (encode_sleb128 s))).
Proof.
  intros Hu Hs Hbu Hbs. split.
  - unfold dwarf2_get_leb128_as_unsigned. rewrite Hbu. unfold encode_uleb128.
    pose proof (leb128_as_unsigned_loop_encode
                  (S (Z.to_nat (Z.log2 u))) u 0 0 0 restu) as H.
    change (7 * 0) with 0 in H. rewrite H; clear H.
    + cbn [mbind option_bind]. do 2 f_equal.
      change (2 ^ 0) with 1. lia.
    + lia.
    + change (2 ^ 0) with 1. lia.
    + exact Hu.
    + rewrite Nat2Z.inj_succ, Z2Nat.id by apply Z.log2_nonneg.
      destruct (Z.eq_dec u 0) as [-> | Hne]; [reflexivity |].
      apply Z.log2_spec. lia.
    + lia.
  - unfold dwarf2_get_leb128_as_signed. unfold encode_sleb128 in *.
    destruct (leb128_as_signed_loop_encode
                (S (Z.to_nat (Z.log2 (Z.abs s)))) s 0 0 0 rests)
      as (r & byte & shift & Hloop & Hext).
    + cbn [In]. auto.
    + change (2 ^ 0) with 1. lia.
    + exact Hs.
    + rewrite Nat2Z.inj_succ, Z2Nat.id by apply Z.log2_nonneg.
      destruct (Z.eq_dec (Z.abs s) 0) as [-> | Hne]; [reflexivity |].
      apply Z.log2_spec. lia.
    + lia.
    + rewrite Hbs, Hloop. cbn [mbind option_bind]. rewrite Hext.
      do 2 f_equal. change (2 ^ 0) with 1. lia.
Qed.

(** ** Addresses *)


(** ** The monad *)

Lemma bind_Done {A B : Type} (c : M A) (k : A -> M B) ctx a ctx' :
  c ctx = Done a ctx' -> bind c k ctx = k a ctx'.
Proof. intros H. unfold bind. rewrite H. reflexivity. Qed.

Lemma bind_inv {A B : Type} (c : M A) (k : A -> M B) ctx b ctx'' :
  bind c k ctx = Done b ctx'' ->
  exists a ctx', c ctx = Done a ctx' /\ k a ctx' = Done b ctx''.
Proof.
  unfold bind. destruct (c ctx) as [a ctx' | |]; [eauto | discriminate ..].
Qed.

Lemma bind_assoc {A B C : Type} (c : M A) (k1 : A -> M B) (k2 : B -> M C) ctx :
  bind (bind c k1) k2 ctx = bind c (fun a => bind (k1 a) k2) ctx.
Proof. unfold bind. destruct (c ctx); reflexivity. Qed.

(** ** What the readers answer *)

Lemma bytes_at_bytes m p : Forall (fun b => 0 <= b < 2 ^ 8) (bytes_at m p).
Proof.
  induction m as [| r m IH]; cbn [bytes_at]; [constructor |].
  destruct (_ && _); [| exact IH].
  apply List.Forall_map. apply List.Forall_forall. intros b _.
  unfold uint8. apply Z.mod_pos_bound. lia.
Qed.

Lemma get_byte_range m p v : dwarf2_get_byte m p = Some v -> 0 <= v < 2 ^ 8.
Proof.
  unfold dwarf2_get_byte. pose proof (bytes_at_bytes m p) as H.
  destruct (bytes_at m p) as [| b l]; [discriminate |].
  intros [= <-]. inversion H. assumption.
Qed.

Lemma get_u2_range m p v : dwarf2_get_u2 m p = Some v -> 0 <= v < 2 ^ 16.
Proof.
  unfold dwarf2_get_u2.
  destruct (dwarf2_get_byte m p) as [b0 |] eqn:H0; [| discriminate].
  destruct (dwarf2_get_byte m (p + 1)) as [b1 |] eqn:H1; [| discriminate].
  cbn. intros [= <-].
  apply get_byte_range in H0, H1. lia.
Qed.

Lemma get_u4_range m p v : dwarf2_get_u4 m p = Some v -> 0 <= v < 2 ^ 32.
Proof.
  unfold dwarf2_get_u4.
  destruct (dwarf2_get_byte m p) as [b0 |] eqn:H0; [| discriminate].
  destruct (dwarf2_get_byte m (p + 1)) as [b1 |] eqn:H1; [| discriminate].
  destruct (dwarf2_get_byte m (p + 2)) as [b2 |] eqn:H2; [| discriminate].
  destruct (dwarf2_get_byte m (p + 3)) as [b3 |] eqn:H3; [| discriminate].
  cbn. intros [= <-].
  apply get_byte_range in H0, H1, H2, H3. lia.
Qed.

(** ** Compilation units of another version *)

Section Units.

Variable junk : Z.
Variable elf_is_in_thunk_area : Z -> Z.
Variable symt_get_info_length : module_t -> symt_ptr -> option Z.
Variable symt_find_nearest : module_t -> Z -> Z.
Variable addr_sorttab : module_t -> Z -> symt_ptr.
Variable pool_arena : Z.

Local Abbreviation parse_compilation_unit :=
  (dwarf2_parse_compilation_unit junk elf_is_in_thunk_area
     symt_get_info_length symt_find_nearest addr_sorttab pool_arena).
Local Abbreviation parse_unit :=
  (dwarf2_parse_unit junk elf_is_in_thunk_area symt_get_info_length
     symt_find_nearest addr_sorttab pool_arena).
Local Abbreviation parse_units :=
  (dwarf2_parse_units junk elf_is_in_thunk_area symt_get_info_length
     symt_find_nearest addr_sorttab pool_arena).

(** C5, as the code has it: for a unit header whose version is not 2,
    [dwarf2_parse_compilation_unit] answers [FALSE] and leaves the context,
    hence the module and its symbols, as they were.  The turn of the loop
    of [dwarf2_parse] over that header moves the cursor by the declared
    length plus the four bytes of the length field, a sum made in the 32
    bits of a pointer; where that sum stays within the address space the
    cursor is then on the header that follows the unit.  The loop goes on
    from there: it ends when the cursor has reached the end of the
    section, and otherwise it hands the unit under the cursor to
    [dwarf2_parse_compilation_unit], so that what the calls leave is what
    that unit added.  The cursor moves in that same way after any unit,
    understood or not. *)
Theorem unsupported_version_is_skipped (fuel units : nat)
  (comp_unit : dwarf2_comp_unit_t) (comp_unit_cursor end_debug : Z)
  (ctx : dwarf2_parse_context_t) :
  read_comp_unit (mem ctx) comp_unit_cursor = Some comp_unit ->
  cu_version comp_unit <> 2 ->
  let next :=
    uint32 (comp_unit_cursor + uint32 (cu_length comp_unit + 4)) in
  parse_compilation_unit fuel comp_unit comp_unit_cursor ctx = Done false ctx
  /\ parse_unit fuel comp_unit_cursor ctx = Done (false, next) ctx
  /\ (0 <= comp_unit_cursor ->
      comp_unit_cursor + cu_length comp_unit + 4 < 2 ^ 32 ->
      next = comp_unit_cursor + cu_length comp_unit + 4)
  /\ (comp_unit_cursor < end_debug ->
      parse_units fuel (S units) comp_unit_cursor end_debug ctx
      = parse_units fuel units next end_debug ctx)
  /\ (comp_unit_cursor < end_debug ->
      end_debug <= next ->
      parse_units fuel (S units) comp_unit_cursor end_debug ctx
      = Done tt ctx)
  /\ (forall r next' ctx',
        comp_unit_cursor < end_debug ->
        next < end_debug ->
        parse_unit fuel next ctx = Done (r, next') ctx' ->
        end_debug <= next' ->
        parse_units fuel (S (S units)) comp_unit_cursor end_debug ctx
        = Done tt ctx')
  /\ (forall ctx0 comp_unit0 r next0 ctx',
        read_comp_unit (mem ctx0) comp_unit_cursor = Some comp_unit0 ->
        parse_unit fuel comp_unit_cursor ctx0 = Done (r, next0) ctx' ->
        next0
        = uint32 (comp_unit_cursor + uint32 (cu_length comp_unit0 + 4))).
Proof.
  intros Hread Hversion next.
  assert (Hcu : forall c,
    parse_compilation_unit fuel comp_unit comp_unit_cursor c = Done false c).
  { intros c. unfold dwarf2_parse_compilation_unit.
    destruct (cu_version comp_unit =? 2) eqn:E;
      [apply Z.eqb_eq in E; contradiction | reflexivity]. }
  assert (Hunit : parse_unit fuel comp_unit_cursor ctx = Done (false, next) ctx).
  { unfold dwarf2_parse_unit.
    unfold bind at 1. cbn [get_ctx]. rewrite Hread.
    unfold bind at 1. cbn [lift ret].
    unfold bind. rewrite Hcu. reflexivity. }
  assert (Hturn : comp_unit_cursor < end_debug ->
    parse_units fuel (S units) comp_unit_cursor end_debug ctx
    = parse_units fuel units next end_debug ctx).
  { intros Hlt. cbn [dwarf2_parse_units].
    apply Z.ltb_lt in Hlt. rewrite Hlt.
    unfold bind at 1. rewrite Hunit. reflexivity. }
  assert (Hend : forall n c,
    end_debug <= next -> parse_units fuel n next end_debug c = Done tt c).
  { intros n c Hge. destruct n; cbn [dwarf2_parse_units];
      (destruct (next <? end_debug) eqn:E;
       [apply Z.ltb_lt in E; lia | reflexivity]). }
  split; [apply Hcu |]. split; [exact Hunit |]. split; [| split; [| split]].
  - intros Hcursor Hfit. subst next.
    assert (Hlen : 0 <= cu_length comp_unit < 2 ^ 32).
    { unfold read_comp_unit in Hread.
      destruct (dwarf2_get_u4 (mem ctx) comp_unit_cursor) as [len |] eqn:Hlen;
        [| discriminate].
      destruct (dwarf2_get_u2 (mem ctx) (comp_unit_cursor + 4));
        [| discriminate].
      destruct (dwarf2_get_u4 (mem ctx) (comp_unit_cursor + 6));
        [| discriminate].
      destruct (dwarf2_get_byte (mem ctx) (comp_unit_cursor + 10));
        [| discriminate].
      cbn in Hread. injection Hread as <-. cbn [cu_length].
      exact (get_u4_range _ _ _ Hlen). }
    unfold uint32.
    rewrite Zplus_mod_idemp_r.
    rewrite Z.mod_small by lia. lia.
  - exact Hturn.
  - intros Hlt Hge. rewrite (Hturn Hlt). apply Hend. exact Hge.
  - split.
    + intros r next' ctx' Hlt Hnext Hrun Hge.
      cbn [dwarf2_parse_units].
      apply Z.ltb_lt in Hlt. rewrite Hlt.
      unfold bind at 1. rewrite Hunit.
      apply Z.ltb_lt in Hnext. rewrite Hnext.
      unfold bind at 1. rewrite Hrun.
      destruct units; cbn [dwarf2_parse_units];
        (destruct (next' <? end_debug) eqn:E;
         [apply Z.ltb_lt in E; lia | reflexivity]).
    + intros ctx0 comp_unit0 r next0 ctx' Hread0 Hrun.
      unfold dwarf2_parse_unit in Hrun.
      unfold bind at 1 in Hrun. cbn [get_ctx] in Hrun. rewrite Hread0 in Hrun.
      unfold bind at 1 in Hrun. cbn [lift ret] in Hrun.
      apply bind_inv in Hrun. destruct Hrun as (b & c & _ & Hret).
      unfold ret in Hret. congruence.
Qed.

End Units.

(** ** The line-number program *)

Section Lines.

Variable symt_find_nearest : module_t -> Z -> Z.
Variable addr_sorttab : module_t -> Z -> symt_ptr.

Local Abbreviation set_line_number :=
  (dwarf2_set_line_number symt_find_nearest addr_sorttab).
Local Abbreviation program_opcode :=
  (line_program_opcode symt_find_nearest addr_sorttab).
Local Abbreviation program_sequence :=
  (line_program_sequence symt_find_nearest addr_sorttab).

(** [dwarf2_set_line_number] adds one line to one function, or nothing. *)
Lemma set_line_number_calls address files file line ctx ctx' :
  set_line_number address files file line ctx = Done tt ctx' ->
  ctx' = ctx
  \/ exists f src func_address,
       vector_at files (uint32 (file - 1)) = Some src
       /\ function_address (module ctx) f = Some func_address
       /\ ctx' = set_module ctx
                   (set_calls (module ctx)
                      (calls (module ctx)
                       ++ [symt_add_func_line (Some f) src line
                             (uint32 (address - func_address))])).
Proof.
  unfold dwarf2_set_line_number.
  destruct (file =? 0); [unfold ret; intros [= <-]; auto |].
  destruct (vector_at files (uint32 (file - 1))) as [src |];
    [| unfold ret; intros [= <-]; auto].
  unfold bind, get_ctx.
  destruct (symt_find_nearest (module ctx) address =? -1);
    [unfold ret; intros [= <-]; auto |].
  destruct (addr_sorttab (module ctx) (symt_find_nearest (module ctx) address))
    as [f |]; [| discriminate].
  destruct (function_address (module ctx) f) as [fa |] eqn:Hfa;
    [| unfold ret; intros [= <-]; auto].
  unfold call. intros [= <-]. right. exists f, src, fa. auto.
Qed.

(** C4: for an opcode byte [op] at or above [opcode_base] (and a header
    whose [line_range] is not zero, without which the quotient below is a
    division by zero), with [delta = op - opcode_base], the turn of the
    interpreter adds [(delta / line_range) * insn_size] to the address and
    [line_base + delta mod line_range] to the line, both modulo 2^32, makes
    exactly one call of [dwarf2_set_line_number], at the new address, the
    file and the new line, and leaves [end_sequence] as it was: the loop
    of the sequence goes on with the next opcode.  That one call adds at
    most one line fact to the module, and all else of the context stays. *)
Theorem special_opcode_step (fuel : nat) (h : line_header) (files : list Z)
  (traverse0 traverse : dwarf2_traverse_context_t) (r : line_registers)
  (op : Z) (ctx : dwarf2_parse_context_t) :
  0 <= op < 256 ->
  0 <= opcode_base h <= op ->
  line_range h <> 0 ->
  let delta := op - opcode_base h in
  let address :=
    (reg_address r + (delta / line_range h) * insn_size h) mod 2 ^ 32 in
  let line :=
    (reg_line r + (line_base h + delta mod line_range h)) mod 2 ^ 32 in
  let r' :=
    {| reg_address := address; reg_file := reg_file r; reg_line := line;
       reg_is_stmt := reg_is_stmt r; reg_basic_block := true;
       reg_end_sequence := reg_end_sequence r |} in
  program_opcode h files traverse r op ctx
  = (do* set_line_number address files (reg_file r) line in
     ret (traverse, r')) ctx
  /\ (reg_end_sequence r = false ->
      dwarf2_parse_byte (mem ctx) traverse0 = Some (op, traverse) ->
      program_sequence (S fuel) h files traverse0 r ctx
      = (do* set_line_number address files (reg_file r) line in
         program_sequence fuel h files traverse r') ctx)
  /\ (forall res ctx',
        program_opcode h files traverse r op ctx = Done res ctx' ->
        res = (traverse, r')
        /\ (ctx' = ctx
            \/ exists f src offset,
                 ctx' = set_module ctx
                          (set_calls (module ctx)
                             (calls (module ctx)
                              ++ [symt_add_func_line (Some f) src line
                                    offset])))).
Proof.
  intros Hop Hbase Hrange delta address line r'.
  assert (Hstep : program_opcode h files traverse r op ctx
    = (do* set_line_number address files (reg_file r) line in
       ret (traverse, r')) ctx).
  { unfold line_program_opcode. unfold bind at 1. cbn [get_ctx].
    assert (Hle : (opcode_base h <=? op) = true) by (apply Z.leb_le; lia).
    rewrite Hle.
    assert (Hnz : (line_range h =? 0) = false) by (apply Z.eqb_neq; lia).
    rewrite Hnz.
    assert (Hdelta : uint32 (op - opcode_base h) = delta).
    { unfold uint32, delta. apply Z.mod_small.
      change (2 ^ 32) with 4294967296. lia. }
    rewrite Hdelta. reflexivity. }
  split; [exact Hstep |]. split.
  - intros Hend Hbyte. cbn [line_program_sequence]. rewrite Hend.
    unfold bind at 1. cbn [get_ctx].
    unfold bind at 1. rewrite Hbyte. cbn [lift ret].
    unfold bind at 1. rewrite Hstep.
    unfold bind.
    destruct (set_line_number address files (reg_file r) line ctx);
      reflexivity.
  - intros res ctx' Hrun. rewrite Hstep in Hrun.
    apply bind_inv in Hrun. destruct Hrun as ([] & c & Hset & Hret).
    unfold ret in Hret. injection Hret as <- <-.
    split; [reflexivity |].
    apply set_line_number_calls in Hset.
    destruct Hset as [-> | (f & src & fa & _ & _ & ->)]; [auto |].
    right. eauto.
Qed.

End Lines.

(** ** What the builders leave alone

    The builders write to the context in four ways only: they store a
    symbol in an entry, append a call to the module, allocate from the
    pool and bump the counter of [dwarf2_find_name].  The input, the
    shape of the tree and every call already made stay. *)

Lemma same_entry_refl e : same_entry e e.
Proof. repeat split. Qed.

Lemma same_entry_trans e1 e2 e3 :
  same_entry e1 e2 -> same_entry e2 e3 -> same_entry e1 e3.
Proof.
  intros (? & ? & ?) (? & ? & ?). repeat split; congruence.
Qed.

Lemma extends_refl c : extends c c.
Proof.
  split; try reflexivity.
  - exists []. symmetry. apply app_nil_r.
  - intros k. destruct (debug_info_table c !! k); [apply same_entry_refl | exact I].
Qed.

Lemma extends_trans c1 c2 c3 : extends c1 c2 -> extends c2 c3 -> extends c1 c3.
Proof.
  intros H12 H23. destruct H12, H23.
  split; try congruence.
  - destruct ext_calls0 as [l1 H1], ext_calls1 as [l2 H2].
    exists (l1 ++ l2). rewrite H2, H1. symmetry. apply app_assoc.
  - intros k. specialize (ext_table0 k). specialize (ext_table1 k).
    destruct (debug_info_table c1 !! k), (debug_info_table c2 !! k),
      (debug_info_table c3 !! k); try tauto.
    eapply same_entry_trans; eassumption.
Qed.

Lemma preserves_ret {A : Type} (a : A) : preserves (ret a).
Proof. intros ctx a' ctx' [= _ <-]. apply extends_refl. Qed.

Lemma preserves_bind {A B : Type} (c : M A) (k : A -> M B) :
  preserves c -> (forall a, preserves (k a)) -> preserves (bind c k).
Proof.
  intros Hc Hk ctx b ctx'' H. apply bind_inv in H.
  destruct H as (a & ctx' & H1 & H2).
  eapply extends_trans; [eapply Hc | eapply Hk]; eassumption.
Qed.

Lemma preserves_get_ctx : preserves get_ctx.
Proof. intros ctx a ctx' [= _ <-]. apply extends_refl. Qed.

Lemma preserves_fault {A : Type} : preserves (@fault A).
Proof. intros ctx a ctx' H. discriminate. Qed.

Lemma preserves_out_of_fuel {A : Type} : preserves (@out_of_fuel A).
Proof. intros ctx a ctx' H. discriminate. Qed.

Lemma preserves_lift {A : Type} (o : option A) : preserves (lift o).
Proof. destruct o; [apply preserves_ret | apply preserves_fault]. Qed.

Lemma preserves_get_di di : preserves (get_di di).
Proof.
  intros ctx a ctx'. unfold get_di.
  destruct (debug_info_table ctx !! di); [| discriminate].
  intros [= _ <-]. apply extends_refl.
Qed.

Lemma preserves_update_symt di s : preserves (set_di_symt di s).
Proof.
  intros ctx a ctx'. unfold set_di_symt.
  destruct (debug_info_table ctx !! di) as [e |] eqn:He; [| discriminate].
  intros [= _ <-]. split; try reflexivity.
  - exists []. symmetry. apply app_nil_r.
  - intros k. cbn. destruct (decide (di = k)) as [<- | Hne].
    + rewrite He, lookup_insert_eq. repeat split.
    + rewrite lookup_insert_ne by exact Hne.
      destruct (debug_info_table ctx !! k); [apply same_entry_refl | exact I].
Qed.

Lemma preserves_call_new c : preserves (call_new c).
Proof.
  intros ctx a ctx' [= _ <-]. split; try reflexivity.
  - eexists. reflexivity.
  - intros k. cbn.
    destruct (debug_info_table ctx !! k); [apply same_entry_refl | exact I].
Qed.

Lemma preserves_call c : preserves (call c).
Proof.
  intros ctx a ctx' [= _ <-]. split; try reflexivity.
  - eexists. reflexivity.
  - intros k. cbn.
    destruct (debug_info_table ctx !! k); [apply same_entry_refl | exact I].
Qed.

Lemma preserves_pool_alloc_text sz s : preserves (pool_alloc_text sz s).
Proof.
  intros ctx a ctx' [= _ <-]. split; try reflexivity.
  - exists []. symmetry. apply app_nil_r.
  - intros k. cbn.
    destruct (debug_info_table ctx !! k); [apply same_entry_refl | exact I].
Qed.

Lemma preserves_set_index (f : Z -> Z) :
  preserves (fun c => Done tt (set_index c (f (index c)))).
Proof.
  intros ctx a ctx' [= _ <-]. split; try reflexivity.
  - exists []. symmetry. apply app_nil_r.
  - intros k. cbn.
    destruct (debug_info_table ctx !! k); [apply same_entry_refl | exact I].
Qed.

Lemma preserves_for_each {A : Type} (l : list A) (f : A -> M unit) :
  (forall x, preserves (f x)) -> preserves (for_each l f).
Proof.
  intros Hf. induction l as [| x l IH]; cbn [for_each].
  - apply preserves_ret.
  - apply preserves_bind; [apply Hf | intros _; exact IH].
Qed.

(** Chews through a computation built from the pieces above. *)
Ltac preserves_step :=
  first
    [ apply preserves_ret
    | apply preserves_get_ctx
    | apply preserves_fault
    | apply preserves_out_of_fuel
    | apply preserves_lift
    | apply preserves_get_di
    | apply preserves_update_symt
    | apply preserves_call_new
    | apply preserves_call
    | apply preserves_pool_alloc_text
    | apply preserves_set_index
    | assumption
    | apply preserves_bind; [| intros ?]
    | apply preserves_for_each; intros ?
    | match goal with
      | |- preserves (if ?b then _ else _) => destruct b
      | |- preserves (match ?x with _ => _ end) => destruct x
      | |- preserves (let '(_, _) := ?x in _) => destruct x
      end ].

Ltac preserves_auto := repeat preserves_step.

(** The attribute decoder reads the input only. *)
Lemma find_attribute_extends c c' e at_ attr :
  extends c c' ->
  dwarf2_find_attribute c' e at_ attr = dwarf2_find_attribute c e at_ attr.
Proof.
  intros H. destruct H.
  unfold dwarf2_find_attribute.
  generalize 0%nat. generalize attr.
  induction (attrs (abbrev e)) as [| a l IH]; intros attr0 i; cbn [find_attribute_loop].
  - reflexivity.
  - destruct (attribute a =? at_); [| apply IH].
    unfold find_attribute_form.
    rewrite ext_mem0, ext_word_size0, ext_ref_offset0, ext_sections0.
    reflexivity.
Qed.

Lemma compute_location_extends junk c c' e dw offset in_register :
  extends c c' ->
  dwarf2_compute_location junk c' e dw offset in_register
  = dwarf2_compute_location junk c e dw offset in_register.
Proof.
  intros H. unfold dwarf2_compute_location.
  rewrite (find_attribute_extends c c') by exact H.
  destruct H. rewrite ext_mem0, ext_word_size0. reflexivity.
Qed.

Section Frame.

Variable junk : Z.
Variable elf_is_in_thunk_area : Z -> Z.
Variable symt_get_info_length : module_t -> symt_ptr -> option Z.

Lemma preserves_find_attribute_or e at_ attr dflt :
  preserves (find_attribute_or e at_ attr dflt).
Proof. unfold find_attribute_or. preserves_auto. Qed.

Lemma preserves_find_name e attr pfx : preserves (dwarf2_find_name e attr pfx).
Proof.
  unfold dwarf2_find_name. preserves_auto.
  apply (preserves_set_index (fun i => sint32 (i + 1))).
Qed.

Lemma preserves_name_of attr : preserves (name_of attr).
Proof. unfold name_of. preserves_auto. Qed.

Lemma preserves_di_symt di : preserves (di_symt di).
Proof. unfold di_symt. preserves_auto. Qed.

Create HintDb preserves.

#[local] Hint Resolve preserves_find_attribute_or preserves_find_name
  preserves_name_of preserves_di_symt : preserves.

Ltac preserves_all :=
  repeat first [ solve [auto with preserves] | preserves_step ].

Lemma preserves_parse_base_type di : preserves (dwarf2_parse_base_type junk di).
Proof. unfold dwarf2_parse_base_type. preserves_all. Qed.

Lemma preserves_parse_enumerator di parent :
  preserves (dwarf2_parse_enumerator junk di parent).
Proof. unfold dwarf2_parse_enumerator. preserves_all. Qed.

Lemma preserves_parse_enumeration_type di :
  preserves (dwarf2_parse_enumeration_type junk di).
Proof.
  pose proof preserves_parse_enumerator.
  unfold dwarf2_parse_enumeration_type. preserves_all.
Qed.

(** From here on the builders reach [dwarf2_load_one_entry]; what holds of
    it holds of them. *)
Section FrameKnot.

Variable load_one_entry : Z -> symt_ptr -> M unit.
Hypothesis preserves_load : forall di c, preserves (load_one_entry di c).

Lemma preserves_lookup_type di :
  preserves (dwarf2_lookup_type junk load_one_entry di).
Proof.
  pose proof preserves_load.
  unfold dwarf2_lookup_type. preserves_all.
Qed.

#[local] Hint Resolve preserves_lookup_type preserves_parse_base_type
  preserves_parse_enumeration_type : preserves.

Lemma preserves_parse_typedef di :
  preserves (dwarf2_parse_typedef junk load_one_entry di).
Proof. unfold dwarf2_parse_typedef. preserves_all. Qed.

Lemma preserves_parse_pointer_type di :
  preserves (dwarf2_parse_pointer_type junk load_one_entry di).
Proof. unfold dwarf2_parse_pointer_type. preserves_all. Qed.

Lemma preserves_parse_array_child l child :
  preserves (parse_array_child junk load_one_entry l child).
Proof. unfold parse_array_child. preserves_all. Qed.

Lemma preserves_parse_array_children cs : forall l,
  preserves (parse_array_children junk load_one_entry l cs).
Proof.
  induction cs as [| c cs IH]; intros l; cbn [parse_array_children].
  - apply preserves_ret.
  - apply preserves_bind; [apply preserves_parse_array_child | intros ?; apply IH].
Qed.

Lemma preserves_parse_array_type di :
  preserves (dwarf2_parse_array_type junk load_one_entry di).
Proof.
  pose proof preserves_parse_array_children.
  unfold dwarf2_parse_array_type. preserves_all.
Qed.

Lemma preserves_parse_const_type di :
  preserves (dwarf2_parse_const_type junk load_one_entry di).
Proof. unfold dwarf2_parse_const_type. preserves_all. Qed.

Lemma preserves_parse_volatile_type di :
  preserves (dwarf2_parse_volatile_type junk load_one_entry di).
Proof. unfold dwarf2_parse_volatile_type. preserves_all. Qed.

Lemma preserves_parse_reference_type di :
  preserves (dwarf2_parse_reference_type junk load_one_entry di).
Proof. unfold dwarf2_parse_reference_type. preserves_all. Qed.

Lemma preserves_parse_udt_member di parent :
  preserves
    (dwarf2_parse_udt_member junk symt_get_info_length load_one_entry di parent).
Proof. unfold dwarf2_parse_udt_member. preserves_all. Qed.

Lemma preserves_parse_udt_type di udt :
  preserves
    (dwarf2_parse_udt_type junk symt_get_info_length load_one_entry di udt).
Proof.
  pose proof preserves_parse_udt_member.
  unfold dwarf2_parse_udt_type. preserves_all.
Qed.

Lemma preserves_parse_variable subpgm block di :
  preserves (dwarf2_parse_variable junk load_one_entry subpgm block di).
Proof. unfold dwarf2_parse_variable. preserves_all. Qed.

Lemma preserves_parse_subprogram_label subpgm di :
  preserves (dwarf2_parse_subprogram_label junk subpgm di).
Proof. unfold dwarf2_parse_subprogram_label. preserves_all. Qed.

Lemma preserves_parse_inlined_subroutine fuel : forall subpgm di,
  preserves (dwarf2_parse_inlined_subroutine junk fuel subpgm di).
Proof.
  pose proof preserves_parse_subprogram_label.
  induction fuel as [| fuel IH]; intros subpgm di;
    cbn [dwarf2_parse_inlined_subroutine]; preserves_all.
Qed.

Lemma preserves_parse_subprogram_block fuel : forall subpgm parent di,
  preserves
    (dwarf2_parse_subprogram_block junk load_one_entry fuel subpgm parent di).
Proof.
  pose proof preserves_parse_inlined_subroutine.
  pose proof preserves_parse_variable.
  induction fuel as [| fuel IH]; intros subpgm parent di;
    cbn [dwarf2_parse_subprogram_block]; preserves_all.
Qed.

Lemma preserves_parse_subprogram fuel di compiland :
  preserves
    (dwarf2_parse_subprogram junk elf_is_in_thunk_area load_one_entry fuel di
       compiland).
Proof.
  pose proof preserves_parse_inlined_subroutine.
  pose proof preserves_parse_subprogram_block.
  pose proof preserves_parse_subprogram_label.
  pose proof preserves_parse_variable.
  unfold dwarf2_parse_subprogram. preserves_all.
Qed.

Lemma preserves_parse_subroutine_type di :
  preserves (dwarf2_parse_subroutine_type junk load_one_entry di).
Proof. unfold dwarf2_parse_subroutine_type. preserves_all. Qed.

Lemma preserves_load_one_entry_body fuel di compiland :
  preserves
    (load_one_entry_body junk elf_is_in_thunk_area symt_get_info_length
       load_one_entry fuel di compiland).
Proof.
  pose proof preserves_parse_typedef.
  pose proof preserves_parse_pointer_type.
  pose proof preserves_parse_udt_type.
  pose proof preserves_parse_array_type.
  pose proof preserves_parse_const_type.
  pose proof preserves_parse_volatile_type.
  pose proof preserves_parse_reference_type.
  pose proof preserves_parse_subprogram.
  pose proof preserves_parse_subroutine_type.
  pose proof preserves_parse_variable.
  unfold load_one_entry_body. preserves_all.
Qed.

End FrameKnot.

Lemma preserves_load_one_entry fuel : forall di compiland,
  preserves
    (dwarf2_load_one_entry junk elf_is_in_thunk_area symt_get_info_length
       fuel di compiland).
Proof.
  induction fuel as [| fuel IH]; intros di compiland;
    cbn [dwarf2_load_one_entry].
  - apply preserves_out_of_fuel.
  - apply preserves_load_one_entry_body. exact IH.
Qed.

End Frame.

(** ** Location expressions *)

(** An opcode without a [case] of its own ends the evaluation through
    [return loc[stk]]: the top of the stack becomes the result of the
    function. *)
Lemma unsupported_location_op m lctx loc in_register piece_found op :
  location_op_supported op = false ->
  compute_location_op m lctx loc in_register piece_found op
  = Some (LocReturn (sint32 (loc_top loc)) in_register).
Proof.
  unfold location_op_supported, compute_location_op. intros H.
  repeat (apply orb_false_iff in H; destruct H as [H ?]).
  repeat match goal with E : _ = false |- _ => rewrite E; clear E end.
  reflexivity.
Qed.

Lemma uint8_small b : 0 <= b < 256 -> uint8 b = b.
Proof. intros H. unfold uint8. apply Z.mod_small. exact H. Qed.

Lemma sint32_small v : - 2 ^ 31 <= v < 2 ^ 31 -> sint32 v = v.
Proof.
  intros H. unfold sint32. rewrite Z.mod_small; lia.
Qed.

Lemma uint32_small v : 0 <= v < 2 ^ 32 -> uint32 v = v.
Proof. intros H. unfold uint32. apply Z.mod_small. exact H. Qed.

(** C8, as the code has it: the location block [DW_OP_const1u V; 0x06]
    leaves [V] on the stack and then meets an opcode (0x06, [DW_OP_deref])
    that the evaluator does not support.  The evaluator returns [V] itself
    as its result, so that the caller sees success exactly when [V] is not
    zero, and it never writes [*offset], which keeps whatever it held
    before the call ([offset0]). *)
Theorem unsupported_opcode_returns_stack_top (junk V offset0 r0 : Z) :
  0 <= V < 256 ->
  dwarf2_compute_location junk
    (initial_context (location_memory [DW_OP_const1u; V; 0x06])
       sample_module 0)
    location_entry DW_AT_location offset0 (Some r0)
  = Some (V, offset0, Some Wine_DW_no_register).
Proof.
  intros HV.
  rewrite <- (Z2Nat.id V) by lia.
  assert (Hn : (Z.to_nat V < 256)%nat) by lia.
  generalize dependent (Z.to_nat V). clear HV V. intros n Hn.
  do 256 (destruct n as [| n]; [vm_compute; reflexivity |]).
  lia.
Qed.

(** ** Synthesized names *)

Lemma find_attribute_absent ctx e at_ attr :
  Forall (fun a => attribute a <> at_) (attrs (abbrev e)) ->
  dwarf2_find_attribute ctx e at_ attr = Some (false, attr).
Proof.
  unfold dwarf2_find_attribute. generalize 0%nat.
  induction (attrs (abbrev e)) as [| a l IH]; intros i H;
    cbn [find_attribute_loop]; [reflexivity |].
  inversion H as [| ? ? Ha Hl]; subst.
  apply Z.eqb_neq in Ha. rewrite Ha. apply IH. exact Hl.
Qed.

(** For an entry without a name attribute, [dwarf2_find_name] makes up
    the name from the prefix and the counter and moves the counter on. *)
Lemma find_name_synthesized e attr pfx ctx :
  Forall (fun a => attribute a <> DW_AT_name) (attrs (abbrev e)) ->
  0 < pool_next (pool ctx) ->
  - 2 ^ 31 <= index ctx < 2 ^ 31 - 1 ->
  exists name ctx',
    dwarf2_find_name e attr pfx ctx = Done name ctx'
    /\ name_of name ctx'
       = Done (Some (String.append pfx
                       (String.append "_" (decimal (index ctx))))) ctx'
    /\ index ctx' = index ctx + 1
    /\ pool_next (pool ctx) < pool_next (pool ctx')
    /\ module ctx' = module ctx.
Proof.
  intros Hno Hpool Hindex.
  unfold dwarf2_find_name.
  unfold bind at 1. cbn [get_ctx].
  rewrite (find_attribute_absent ctx e DW_AT_name attr Hno).
  unfold bind at 1. cbn [lift ret].
  do 2 eexists. split; [reflexivity |].
  cbn [set_index pool_alloc_text bind]. split; [| split; [| split]].
  - unfold name_of, bind, get_ctx, ret, string_at. cbn.
    destruct (pool_next (pool ctx) =? 0) eqn:E; [apply Z.eqb_eq in E; lia |].
    rewrite Z.eqb_refl. reflexivity.
  - cbn. apply sint32_small. lia.
  - cbn. lia.
  - reflexivity.
Qed.

(** C9, as the code has it: through a run of name requests for entries
    without a name attribute, every synthesized name carries the value of
    one counter, shared by all prefixes and bumped by each request: the
    [k]-th request of the run (from 0) gets the index [index ctx + k],
    whatever its prefix.  The indices of the names of any one prefix hence
    grow strictly and none is used twice, as long as the counter stays
    below 2^31. *)
Theorem synthesized_names_share_one_counter (junk : Z)
  (reqs : list (dwarf2_debug_info_t * string)) (ctx : dwarf2_parse_context_t) :
  Forall (fun '(e, _) =>
            Forall (fun a => attribute a <> DW_AT_name) (attrs (abbrev e)))
    reqs ->
  0 < pool_next (pool ctx) ->
  - 2 ^ 31 <= index ctx ->
  index ctx + Z.of_nat (length reqs) < 2 ^ 31 ->
  exists ctx',
    find_names junk reqs ctx
    = Done (imap (fun k '(_, pfx) =>
                    Some (String.append pfx
                            (String.append "_"
                               (decimal (index ctx + Z.of_nat k)))))
              reqs)
        ctx'
    /\ index ctx' = index ctx + Z.of_nat (length reqs).
Proof.
  revert ctx.
  induction reqs as [| [e pfx] reqs IH]; intros ctx Hno Hpool Hlo Hhi.
  - exists ctx. split; [reflexivity |]. cbn. lia.
  - inversion Hno as [| ? ? He Hrest]; subst.
    cbn [length] in Hhi.
    destruct (find_name_synthesized e (uninitialized junk) pfx ctx He Hpool)
      as (name & ctx1 & Hfind & Hname & Hidx & Hpool1 & _); [lia |].
    destruct (IH ctx1 Hrest) as (ctx' & Hrun & Hidx'); [lia | lia | lia |].
    exists ctx'. split.
    + cbn [find_names].
      rewrite (bind_Done _ _ _ _ _ Hfind).
      rewrite (bind_Done _ _ _ _ _ Hname).
      rewrite (bind_Done _ _ _ _ _ Hrun).
      unfold ret. f_equal. cbn [imap]. f_equal.
      * rewrite Z.add_0_r. reflexivity.
      * apply imap_ext. intros k [e' pfx'] _. cbn.
        rewrite Hidx.
        replace (index ctx + 1 + Z.of_nat k) with (index ctx + Z.of_nat (S k))
          by lia.
        reflexivity.
    + rewrite Hidx', Hidx. cbn [length]. lia.
Qed.

(** ** Running the builders *)

Lemma get_di_Done di ctx e :
  debug_info_table ctx !! di = Some e -> get_di di ctx = Done e ctx.
Proof. intros H. unfold get_di. rewrite H. reflexivity. Qed.

Lemma get_di_inv di ctx e ctx' :
  get_di di ctx = Done e ctx' ->
  ctx' = ctx /\ debug_info_table ctx !! di = Some e.
Proof.
  unfold get_di. destruct (debug_info_table ctx !! di); [| discriminate].
  intros [= <- <-]. auto.
Qed.

Lemma di_symt_Done di ctx e :
  debug_info_table ctx !! di = Some e -> di_symt di ctx = Done (symt e) ctx.
Proof.
  intros H. unfold di_symt. rewrite (bind_Done _ _ _ _ _ (get_di_Done _ _ _ H)).
  reflexivity.
Qed.

Lemma di_symt_inv di ctx s ctx' :
  di_symt di ctx = Done s ctx' ->
  ctx' = ctx /\ exists e, debug_info_table ctx !! di = Some e /\ symt e = s.
Proof.
  unfold di_symt. intros H. apply bind_inv in H.
  destruct H as (e & c & Hget & Hret).
  apply get_di_inv in Hget. destruct Hget as [-> Hget].
  unfold ret in Hret. injection Hret as <- <-. eauto.
Qed.

Lemma lift_inv {A : Type} (o : option A) ctx a ctx' :
  lift o ctx = Done a ctx' -> ctx' = ctx /\ o = Some a.
Proof.
  destruct o; cbn; [| discriminate]. unfold ret. intros [= <- <-]. auto.
Qed.

Lemma set_di_symt_Done di s ctx e :
  debug_info_table ctx !! di = Some e ->
  set_di_symt di s ctx
  = Done tt (set_debug_info_table ctx
               (<[di := set_symt e s]> (debug_info_table ctx))).
Proof. intros H. unfold set_di_symt. rewrite H. reflexivity. Qed.

(** The entries keep their place and their shape through an extension. *)
Lemma extends_lookup c c' k e :
  extends c c' -> debug_info_table c !! k = Some e ->
  exists e', debug_info_table c' !! k = Some e' /\ same_entry e e'.
Proof.
  intros H Hk. pose proof (ext_table _ _ H k) as Ht. rewrite Hk in Ht.
  destruct (debug_info_table c' !! k) as [e' |]; [eauto | contradiction].
Qed.

Lemma extends_lookup_rev c c' k e' :
  extends c c' -> debug_info_table c' !! k = Some e' ->
  exists e, debug_info_table c !! k = Some e /\ same_entry e e'.
Proof.
  intros H Hk. pose proof (ext_table _ _ H k) as Ht. rewrite Hk in Ht.
  destruct (debug_info_table c !! k) as [e |]; [eauto | contradiction].
Qed.

(** The attribute decoder looks at the schema and the raw values of an
    entry only. *)
Lemma find_attribute_same_entry c e e' at_ attr :
  same_entry e e' ->
  dwarf2_find_attribute c e' at_ attr = dwarf2_find_attribute c e at_ attr.
Proof.
  intros (Ha & Hd & _). unfold dwarf2_find_attribute. rewrite Ha.
  generalize 0%nat. generalize attr.
  induction (attrs (abbrev e)) as [| a l IH]; intros attr0 i;
    cbn [find_attribute_loop]; [reflexivity |].
  rewrite Hd. destruct (attribute a =? at_); [reflexivity | apply IH].
Qed.

Section Builders.

Variable junk : Z.
Variable elf_is_in_thunk_area : Z -> Z.
Variable symt_get_info_length : module_t -> symt_ptr -> option Z.

Local Abbreviation load :=
  (dwarf2_load_one_entry junk elf_is_in_thunk_area symt_get_info_length).
Local Abbreviation lookup_type fuel := (dwarf2_lookup_type junk (load fuel)).

Lemma lookup_type_extends fuel di ctx r ctx1 :
  lookup_type fuel di ctx = Done r ctx1 -> extends ctx ctx1.
Proof.
  apply preserves_lookup_type. intros d c. apply preserves_load_one_entry.
Qed.

(** What [dwarf2_lookup_type] answers is the symbol held, afterwards, by
    the entry that the type attribute names. *)
Lemma lookup_type_result fuel di ctx r ctx1 e a :
  lookup_type fuel di ctx = Done r ctx1 ->
  debug_info_table ctx !! di = Some e ->
  dwarf2_find_attribute ctx e DW_AT_type (uninitialized junk) = Some (true, a) ->
  exists et, debug_info_table ctx1 !! u_uvalue a = Some et /\ symt et = r.
Proof.
  intros Hrun He Ha. unfold dwarf2_lookup_type in Hrun.
  rewrite (bind_Done _ _ _ _ _ (get_di_Done _ _ _ He)) in Hrun.
  unfold bind at 1 in Hrun. cbn [get_ctx] in Hrun.
  rewrite Ha in Hrun. unfold bind at 1 in Hrun. cbn [lift ret] in Hrun.
  apply bind_inv in Hrun. destruct Hrun as (t & c1 & _ & Hrun).
  apply bind_inv in Hrun. destruct Hrun as ([] & c2 & _ & Hrun).
  apply di_symt_inv in Hrun. destruct Hrun as [-> Hrun]. exact Hrun.
Qed.

(** An entry without a type attribute has no type, and nothing happens. *)
Lemma lookup_type_absent fuel di ctx e a :
  debug_info_table ctx !! di = Some e ->
  dwarf2_find_attribute ctx e DW_AT_type (uninitialized junk) = Some (false, a) ->
  lookup_type fuel di ctx = Done None ctx.
Proof.
  intros He Ha. unfold dwarf2_lookup_type.
  rewrite (bind_Done _ _ _ _ _ (get_di_Done _ _ _ He)).
  unfold bind at 1. cbn [get_ctx]. rewrite Ha. reflexivity.
Qed.

(** A type that is already built is answered as it is. *)
Lemma lookup_type_memoized (load_one_entry : Z -> symt_ptr -> M unit)
  di ctx e a et s :
  debug_info_table ctx !! di = Some e ->
  dwarf2_find_attribute ctx e DW_AT_type (uninitialized junk) = Some (true, a) ->
  debug_info_table ctx !! u_uvalue a = Some et ->
  symt et = Some s ->
  dwarf2_lookup_type junk load_one_entry di ctx = Done (Some s) ctx.
Proof.
  intros He Ha Het Hs. unfold dwarf2_lookup_type.
  rewrite (bind_Done _ _ _ _ _ (get_di_Done _ _ _ He)).
  unfold bind at 1. cbn [get_ctx]. rewrite Ha.
  unfold bind at 1. cbn [lift ret].
  rewrite (bind_Done _ _ _ _ _ (get_di_Done _ _ _ Het)).
  rewrite Hs. unfold bind at 1. cbn [ret].
  rewrite (di_symt_Done _ _ _ Het). rewrite Hs. reflexivity.
Qed.

(** C7: a const or volatile entry that is not built yet gets, as its
    symbol, what [dwarf2_lookup_type] answers for it, which is the symbol
    of the entry its type attribute names (no symbol when it has no type
    attribute); the builder stores that very symbol in the entry and
    returns it.  The module is the one [dwarf2_lookup_type] left: the
    builder itself makes no call into the symbol table, so there is no
    symbol for the qualifier.  Where the referenced type is built already,
    the module does not change at all. *)
Theorem qualifier_is_its_referenced_type (fuel : nat)
  (ctx : dwarf2_parse_context_t) (di : Z) (e : dwarf2_debug_info_t)
  (r : symt_ptr) (ctx1 : dwarf2_parse_context_t) :
  debug_info_table ctx !! di = Some e ->
  symt e = None ->
  lookup_type fuel di ctx = Done r ctx1 ->
  exists e1 ctx',
    debug_info_table ctx1 !! di = Some e1
    /\ ctx' = set_debug_info_table ctx1
                (<[di := set_symt e1 r]> (debug_info_table ctx1))
    /\ dwarf2_parse_const_type junk (load fuel) di ctx = Done r ctx'
    /\ dwarf2_parse_volatile_type junk (load fuel) di ctx = Done r ctx'
    /\ module ctx' = module ctx1
    /\ (exists e', debug_info_table ctx' !! di = Some e' /\ symt e' = r)
    /\ (forall a,
          dwarf2_find_attribute ctx e DW_AT_type (uninitialized junk)
          = Some (true, a) ->
          (exists et,
             debug_info_table ctx' !! u_uvalue a = Some et /\ symt et = r)
          /\ (forall et s,
                debug_info_table ctx !! u_uvalue a = Some et ->
                symt et = Some s ->
                r = Some s /\ module ctx' = module ctx))
    /\ (forall a,
          dwarf2_find_attribute ctx e DW_AT_type (uninitialized junk)
          = Some (false, a) ->
          r = None /\ module ctx' = module ctx).
Proof.
  intros He Hsymt Hrun.
  pose proof (lookup_type_extends _ _ _ _ _ Hrun) as Hext.
  destruct (extends_lookup _ _ _ _ Hext He) as (e1 & He1 & _).
  exists e1. eexists. split; [exact He1 |]. split; [reflexivity |].
  assert (Hbuild : forall parse,
    parse = dwarf2_parse_const_type junk (load fuel)
    \/ parse = dwarf2_parse_volatile_type junk (load fuel) ->
    parse di ctx
    = Done r (set_debug_info_table ctx1
                (<[di := set_symt e1 r]> (debug_info_table ctx1)))).
  { intros parse [-> | ->];
      unfold dwarf2_parse_const_type, dwarf2_parse_volatile_type;
      rewrite (bind_Done _ _ _ _ _ (get_di_Done _ _ _ He)), Hsymt;
      rewrite (bind_Done _ _ _ _ _ Hrun);
      rewrite (bind_Done _ _ _ _ _ (set_di_symt_Done _ _ _ _ He1));
      reflexivity. }
  split; [apply Hbuild; auto |]. split; [apply Hbuild; auto |].
  split; [reflexivity |]. split.
  - exists (set_symt e1 r). cbn. rewrite lookup_insert_eq. auto.
  - split.
    + intros a Ha.
      destruct (lookup_type_result _ _ _ _ _ _ _ Hrun He Ha) as (et & Het & Hr).
      split.
      * cbn. destruct (decide (di = u_uvalue a)) as [<- | Hne].
        -- exists (set_symt e1 r). rewrite lookup_insert_eq. auto.
        -- exists et. rewrite lookup_insert_ne by exact Hne. auto.
      * intros et0 s Het0 Hs.
        pose proof (lookup_type_memoized (load fuel) _ _ _ _ _ _ He Ha Het0 Hs)
          as Hmemo.
        rewrite Hmemo in Hrun. injection Hrun as <- <-. auto.
    + intros a Ha.
      rewrite (lookup_type_absent _ _ _ _ _ He Ha) in Hrun.
      injection Hrun as <- <-. auto.
Qed.

End Builders.

(** ** Arrays *)

Section Arrays.

Variable junk : Z.
Variable elf_is_in_thunk_area : Z -> Z.
Variable symt_get_info_length : module_t -> symt_ptr -> option Z.

Local Abbreviation load :=
  (dwarf2_load_one_entry junk elf_is_in_thunk_area symt_get_info_length).
Local Abbreviation lookup_type fuel := (dwarf2_lookup_type junk (load fuel)).
Local Abbreviation array_children fuel :=
  (parse_array_children junk (load fuel)).

Lemma parse_array_children_app fuel l cs1 cs2 ctx :
  array_children fuel l (cs1 ++ cs2) ctx
  = (let* l1 := array_children fuel l cs1 in array_children fuel l1 cs2) ctx.
Proof.
  revert l ctx. induction cs1 as [| c cs1 IH]; intros l ctx.
  - reflexivity.
  - cbn [app parse_array_children]. rewrite bind_assoc.
    unfold bind at 1 2.
    destruct (parse_array_child junk (load fuel) l c ctx) as [l1 ctx1 | |];
      [| reflexivity ..].
    apply IH.
Qed.

Lemma array_children_extends fuel l cs ctx l1 ctx1 :
  array_children fuel l cs ctx = Done l1 ctx1 -> extends ctx ctx1.
Proof.
  apply preserves_parse_array_children.
  intros d c. apply preserves_load_one_entry.
Qed.

(** Children of another kind leave the bounds as they are. *)
Lemma parse_array_children_skip fuel l post ctx :
  Forall (fun k => exists c, debug_info_table ctx !! k = Some c
                             /\ tag (abbrev c) <> DW_TAG_subrange_type) post ->
  array_children fuel l post ctx = Done l ctx.
Proof.
  induction 1 as [| k post (c & Hc & Htag) _ IH]; cbn [parse_array_children];
    [reflexivity |].
  unfold parse_array_child.
  unfold bind at 1. rewrite (bind_Done _ _ _ _ _ (get_di_Done _ _ _ Hc)).
  apply Z.eqb_neq in Htag. rewrite Htag. cbn [ret]. exact IH.
Qed.

(** C6: take an array entry, not built yet, and the last subrange among
    its children (the only one, for an array of one dimension): the array
    symbol the builder creates has the bounds of that subrange.  Its lower
    bound is 0 when the subrange has no lower-bound attribute.  When the
    subrange has a count attribute, its upper bound is lower bound plus
    count (as C adds unsigned longs: modulo 2^32), whatever the upper-bound
    attribute says and whether there is one; without a count it is the
    upper-bound attribute, or 0 when that is absent too. *)
Theorem array_bounds_of_subrange (fuel : nat) (ctx : dwarf2_parse_context_t)
  (di : Z) (e : dwarf2_debug_info_t) (pre post : list Z) (child : Z)
  (c : dwarf2_debug_info_t) (ref_type : symt_ptr)
  (ctx1 : dwarf2_parse_context_t) (l1 : array_locals)
  (ctx2 : dwarf2_parse_context_t) (idx : symt_ptr)
  (ctx3 : dwarf2_parse_context_t)
  (has_lower has_upper has_count : bool) (lower upper count : struct_attribute) :
  debug_info_table ctx !! di = Some e ->
  symt e = None ->
  have_child (abbrev e) <> 0 ->
  children e = pre ++ child :: post ->
  debug_info_table ctx !! child = Some c ->
  tag (abbrev c) = DW_TAG_subrange_type ->
  Forall (fun k => exists c', debug_info_table ctx !! k = Some c'
                              /\ tag (abbrev c') <> DW_TAG_subrange_type) post ->
  lookup_type fuel di ctx = Done ref_type ctx1 ->
  array_children fuel
    {| idx_type := None; min_ := uninitialized junk;
       max_ := uninitialized junk; cnt := uninitialized junk |} pre ctx1
  = Done l1 ctx2 ->
  lookup_type fuel child ctx2 = Done idx ctx3 ->
  dwarf2_find_attribute ctx c DW_AT_lower_bound (min_ l1)
  = Some (has_lower, lower) ->
  dwarf2_find_attribute ctx c DW_AT_upper_bound (max_ l1)
  = Some (has_upper, upper) ->
  dwarf2_find_attribute ctx c DW_AT_count (cnt l1) = Some (has_count, count) ->
  exists lo hi ctx',
    dwarf2_parse_array_type junk (load fuel) di ctx
    = Done (Some (length (calls (module ctx3)))) ctx'
    /\ calls (module ctx')
       = calls (module ctx3) ++ [symt_new_array lo hi ref_type idx]
    /\ (has_lower = false -> lo = 0)
    /\ (has_lower = true -> lo = u_uvalue lower)
    /\ (has_count = true -> hi = (lo + u_uvalue count) mod 2 ^ 32)
    /\ (has_count = false -> has_upper = true -> hi = u_uvalue upper)
    /\ (has_count = false -> has_upper = false -> hi = 0).
Proof.
  intros He Hsymt Hchild Hchildren Hc Htag Hpost Hlook Hpre Hidx
    Hlower Hupper Hcount.
  pose proof (lookup_type_extends _ _ _ _ _ _ _ _ Hlook) as E1.
  pose proof (array_children_extends _ _ _ _ _ _ Hpre) as E2.
  pose proof (lookup_type_extends _ _ _ _ _ _ _ _ Hidx) as E3.
  pose proof (extends_trans _ _ _ E1 E2) as E02.
  pose proof (extends_trans _ _ _ E02 E3) as E03.
  destruct (extends_lookup _ _ _ _ E02 Hc) as (c2 & Hc2 & Hsame2).
  destruct (extends_lookup _ _ _ _ E03 He) as (e3 & He3 & _).
  assert (Hfind : forall at_ attr,
    dwarf2_find_attribute ctx3 c2 at_ attr
    = dwarf2_find_attribute ctx c at_ attr).
  { intros at_ attr. rewrite (find_attribute_extends ctx ctx3) by exact E03.
    apply find_attribute_same_entry. exact Hsame2. }
  set (min := if has_lower then lower else set_uvalue lower 0).
  set (max0 := if has_upper then upper else set_uvalue upper 0).
  set (max := if has_count
              then set_uvalue max0 (u_uvalue min + u_uvalue count) else max0).
  assert (Hchildrun :
    parse_array_child junk (load fuel) l1 child ctx2
    = Done {| idx_type := idx; min_ := min; max_ := max; cnt := count |} ctx3).
  { unfold parse_array_child.
    rewrite (bind_Done _ _ _ _ _ (get_di_Done _ _ _ Hc2)).
    destruct Hsame2 as (Habbrev & _). rewrite Habbrev, Htag, Z.eqb_refl.
    rewrite (bind_Done _ _ _ _ _ Hidx).
    unfold find_attribute_or.
    unfold bind at 1. unfold bind at 1. cbn [get_ctx].
    rewrite Hfind, Hlower. unfold bind at 1. cbn [lift ret].
    unfold bind at 1. unfold bind at 1. cbn [get_ctx].
    rewrite Hfind, Hupper. unfold bind at 1. cbn [lift ret].
    unfold bind at 1. cbn [get_ctx].
    rewrite Hfind, Hcount. unfold bind at 1. cbn [lift ret].
    reflexivity. }
  assert (Hpost3 : Forall (fun k =>
    exists c', debug_info_table ctx3 !! k = Some c'
               /\ tag (abbrev c') <> DW_TAG_subrange_type) post).
  { eapply Forall_impl; [exact Hpost |]. intros k (c' & Hc' & Ht').
    destruct (extends_lookup _ _ _ _ E03 Hc') as (c3 & Hc3 & (Ha3 & _)).
    exists c3. rewrite Ha3. auto. }
  exists (u_uvalue min), (u_uvalue max). eexists. split; [| split].
  - unfold dwarf2_parse_array_type.
    rewrite (bind_Done _ _ _ _ _ (get_di_Done _ _ _ He)), Hsymt.
    apply Z.eqb_neq in Hchild. rewrite Hchild.
    rewrite (bind_Done _ _ _ _ _ Hlook).
    rewrite Hchildren. unfold bind at 1.
    rewrite parse_array_children_app.
    rewrite (bind_Done _ _ _ _ _ Hpre).
    cbn [parse_array_children].
    rewrite (bind_Done _ _ _ _ _ Hchildrun).
    rewrite (parse_array_children_skip _ _ _ _ Hpost3).
    cbn [min_ max_ idx_type].
    unfold bind at 1. cbn [call_new].
    unfold bind at 1.
    erewrite set_di_symt_Done by (cbn; exact He3).
    erewrite di_symt_Done by (cbn; apply lookup_insert_eq).
    reflexivity.
  - reflexivity.
  - subst min max max0.
    repeat split; intros; subst; reflexivity.
Qed.

End Arrays.

(** ** Variables *)

Section Variables.

Variable junk : Z.
Variable elf_is_in_thunk_area : Z -> Z.
Variable symt_get_info_length : module_t -> symt_ptr -> option Z.

Local Abbreviation load :=
  (dwarf2_load_one_entry junk elf_is_in_thunk_area symt_get_info_length).
Local Abbreviation lookup_type fuel := (dwarf2_lookup_type junk (load fuel)).

(** C3: take a variable entry handed to [dwarf2_load_one_entry], as the
    children of a compilation unit are, whose location evaluates with no
    register involved ([in_reg], less its dereference bit, is
    [Wine_DW_no_register]) to the offset [A].  The builder makes exactly
    one call after resolving the type: [symt_new_global_variable], for the
    compiland, with the name of the entry, the type that was resolved, the
    address module base + [A] (an [unsigned long]: modulo 2^32) and
    [is_static] set exactly when the entry has no external attribute or
    that attribute is zero. *)
Theorem toplevel_variable_is_global (fuel : nat) (ctx : dwarf2_parse_context_t)
  (di : Z) (e : dwarf2_debug_info_t) (unit_symt : symt_ptr) (ty : symt_ptr)
  (ctx1 : dwarf2_parse_context_t) (name : struct_attribute)
  (ctx2 : dwarf2_parse_context_t) (found A reg : Z) (has_ext : bool)
  (ext : struct_attribute) :
  debug_info_table ctx !! di = Some e ->
  tag (abbrev e) = DW_TAG_variable ->
  lookup_type fuel di ctx = Done ty ctx1 ->
  dwarf2_find_name e (uninitialized junk) "parameter" ctx1 = Done name ctx2 ->
  dwarf2_compute_location junk ctx e DW_AT_location junk (Some junk)
  = Some (found, A, Some reg) ->
  found <> 0 ->
  Z.land (uint32 reg) (Z.lnot Wine_DW_register_deref) = Wine_DW_no_register ->
  dwarf2_find_attribute ctx e DW_AT_external (uninitialized junk)
  = Some (has_ext, ext) ->
  is_Some (dwarf2_find_attribute ctx e DW_AT_const_value (uninitialized junk)) ->
  exists ctx',
    load (S fuel) di unit_symt ctx = Done tt ctx'
    /\ calls (module ctx')
       = calls (module ctx1)
         ++ [symt_new_global_variable unit_symt
               (string_at ctx2 (u_string name))
               (if has_ext then u_uvalue ext =? 0 else true)
               ((BaseOfImage (module ctx) + A) mod 2 ^ 32) 0 ty].
Proof.
  intros He Htag Hlook Hname Hloc Hfound Hreg Hext [cv Hcv].
  pose proof (lookup_type_extends _ _ _ _ _ _ _ _ Hlook) as E1.
  pose proof (preserves_find_name _ _ _ _ _ _ Hname) as E2.
  pose proof (extends_trans _ _ _ E1 E2) as E02.
  eexists. split.
  - cbn [dwarf2_load_one_entry]. unfold load_one_entry_body.
    rewrite (bind_Done _ _ _ _ _ (get_di_Done _ _ _ He)). rewrite Htag.
    cbv [DW_TAG_variable DW_TAG_typedef DW_TAG_base_type DW_TAG_pointer_type
         DW_TAG_class_type DW_TAG_structure_type DW_TAG_union_type
         DW_TAG_array_type DW_TAG_const_type DW_TAG_volatile_type
         DW_TAG_reference_type DW_TAG_enumeration_type DW_TAG_subprogram
         DW_TAG_subroutine_type].
    cbn [Z.eqb Pos.eqb].
    unfold dwarf2_parse_variable.
    rewrite (bind_Done _ _ _ _ _ (get_di_Done _ _ _ He)).
    rewrite (bind_Done _ _ _ _ _ Hlook).
    rewrite (bind_Done _ _ _ _ _ Hname).
    unfold bind at 1. cbn [get_ctx].
    rewrite (compute_location_extends junk ctx ctx2) by exact E02.
    rewrite Hloc. unfold bind at 1. cbn [lift ret default].
    apply Z.eqb_neq in Hfound. rewrite Hfound. unfold id.
    rewrite Hreg, Z.eqb_refl.
    unfold find_attribute_or.
    unfold bind at 1. unfold bind at 1. unfold bind at 1. cbn [get_ctx].
    rewrite (find_attribute_extends ctx ctx2) by exact E02.
    rewrite Hext. unfold bind at 1. cbn [lift ret].
    unfold bind at 1. unfold name_of at 1. unfold bind at 1. cbn [get_ctx ret].
    unfold bind at 1. cbn [call compiland].
    rewrite (find_attribute_extends ctx ctx2) by exact E02.
    rewrite Hcv. unfold bind at 1. cbn [lift ret]. destruct cv as [b v].
    reflexivity.
  - cbn [module set_module calls set_calls].
    destruct E2 as [_ _ _ _ _ _ Hbase2 [l2 Hcalls2] _].
    destruct E1 as [_ _ _ _ _ _ Hbase1 _ _].
    assert (Hc2 : calls (module ctx2) = calls (module ctx1)).
    { unfold dwarf2_find_name in Hname.
      apply bind_inv in Hname. destruct Hname as (c0 & c1 & H0 & Hname).
      injection H0 as <- <-.
      apply bind_inv in Hname. destruct Hname as ([b a] & c1' & H1 & Hname).
      apply lift_inv in H1. destruct H1 as [-> _].
      destruct b.
      - injection Hname as _ <-. reflexivity.
      - apply bind_inv in Hname. destruct Hname as (p & c3 & H3 & Hname).
        injection H3 as _ <-.
        apply bind_inv in Hname. destruct Hname as ([] & c4 & H4 & Hname).
        injection H4 as <-. injection Hname as _ <-. reflexivity. }
    rewrite Hc2, Hbase2, Hbase1.
    destruct has_ext; reflexivity.
Qed.

End Variables.

(** ** Memoization *)

Section Memoization.

Variable junk : Z.
Variable elf_is_in_thunk_area : Z -> Z.
Variable symt_get_info_length : module_t -> symt_ptr -> option Z.

(** Every builder that answers a symbol starts by returning the symbol the
    entry holds, if it holds one, and touches nothing; so does
    [dwarf2_lookup_type] for the entry a type attribute names.  This holds
    whatever [dwarf2_load_one_entry] would do: it is not called. *)
Lemma built_symbol_is_returned (load_one_entry : Z -> symt_ptr -> M unit)
  (ctx : dwarf2_parse_context_t) (di : Z) (e : dwarf2_debug_info_t) (s : nat) :
  debug_info_table ctx !! di = Some e ->
  symt e = Some s ->
  dwarf2_parse_base_type junk di ctx = Done (Some s) ctx
  /\ dwarf2_parse_typedef junk load_one_entry di ctx = Done (Some s) ctx
  /\ dwarf2_parse_pointer_type junk load_one_entry di ctx = Done (Some s) ctx
  /\ dwarf2_parse_array_type junk load_one_entry di ctx = Done (Some s) ctx
  /\ dwarf2_parse_const_type junk load_one_entry di ctx = Done (Some s) ctx
  /\ dwarf2_parse_volatile_type junk load_one_entry di ctx = Done (Some s) ctx
  /\ dwarf2_parse_reference_type junk load_one_entry di ctx = Done (Some s) ctx
  /\ (forall udt,
        dwarf2_parse_udt_type junk symt_get_info_length load_one_entry di udt
          ctx = Done (Some s) ctx)
  /\ dwarf2_parse_enumeration_type junk di ctx = Done (Some s) ctx
  /\ (forall fuel compiland,
        dwarf2_parse_subprogram junk elf_is_in_thunk_area load_one_entry fuel
          di compiland ctx = Done (Some s) ctx)
  /\ dwarf2_parse_subroutine_type junk load_one_entry di ctx = Done (Some s) ctx
  /\ (forall referrer er a,
        debug_info_table ctx !! referrer = Some er ->
        dwarf2_find_attribute ctx er DW_AT_type (uninitialized junk)
        = Some (true, a) ->
        u_uvalue a = di ->
        dwarf2_lookup_type junk load_one_entry referrer ctx = Done (Some s) ctx).
Proof.
  intros He Hs.
  pose proof (get_di_Done _ _ _ He) as Hget.
  repeat split; intros;
    try (unfold dwarf2_parse_base_type, dwarf2_parse_typedef,
           dwarf2_parse_pointer_type, dwarf2_parse_array_type,
           dwarf2_parse_const_type, dwarf2_parse_volatile_type,
           dwarf2_parse_reference_type, dwarf2_parse_udt_type,
           dwarf2_parse_enumeration_type, dwarf2_parse_subprogram,
           dwarf2_parse_subroutine_type;
         rewrite (bind_Done _ _ _ _ _ Hget), Hs; reflexivity).
  subst di. eapply lookup_type_memoized; eassumption.
Qed.

End Memoization.

(** ** A pointer to a structure that holds a pointer to itself *)

Lemma find_attribute_form_defined ctx p a a' :
  a_form a' = a_form a ->
  is_Some (find_attribute_form ctx p a) ->
  is_Some (find_attribute_form ctx p a').
Proof.
  unfold find_attribute_form. intros ->.
  repeat match goal with
         | |- context [if ?b then _ else _] => destruct b
         end;
    try (intros _; eexists; reflexivity);
    match goal with
    | |- context [mbind _ ?r] => destruct r as [[? ?] |] || destruct r
    end;
    cbn; intros H; try (eexists; reflexivity); destruct H; discriminate.
Qed.

Lemma attributes_readable_loop ctx e at_ attr i abbrev_attrs :
  attributes_readable ctx e i abbrev_attrs = true ->
  is_Some (find_attribute_loop ctx e at_ attr i abbrev_attrs).
Proof.
  revert i. induction abbrev_attrs as [| a next IH]; intros i H.
  - eexists. reflexivity.
  - cbn [attributes_readable] in H. cbn [find_attribute_loop].
    destruct (di_data e !! i) as [p |]; [| discriminate].
    destruct (find_attribute_form ctx p _) as [v |] eqn:Hv; [| discriminate].
    destruct (attribute a =? at_); [| apply IH; exact H].
    cbn [mbind option_bind].
    destruct (find_attribute_form_defined ctx p
                {| a_form := form a; u_word0 := 0; u_word1 := 0 |}
                (set_form attr (form a)) eq_refl (ex_intro _ v Hv))
      as [v' ->].
    eexists. reflexivity.
Qed.

(** [readable] by evaluation. *)
Lemma readable_by_test ctx e :
  attributes_readable ctx e 0 (attrs (abbrev e)) = true -> readable ctx e.
Proof.
  intros H at_ attr. apply attributes_readable_loop. exact H.
Qed.


Lemma readable_extends c c' e e' :
  extends c c' -> same_entry e e' -> readable c e -> readable c' e'.
Proof.
  intros Hext Hsame Hr at_ attr.
  rewrite (find_attribute_extends c c') by exact Hext.
  rewrite (find_attribute_same_entry c e e') by exact Hsame.
  apply Hr.
Qed.

Lemma find_attribute_or_run ctx e at_ attr dflt :
  is_Some (dwarf2_find_attribute ctx e at_ attr) ->
  exists a, find_attribute_or e at_ attr dflt ctx = Done a ctx.
Proof.
  intros [[found a] H]. unfold find_attribute_or.
  unfold bind at 1. cbn [get_ctx]. rewrite H.
  unfold bind. cbn [lift ret]. eauto.
Qed.

(** [dwarf2_find_name] touches the pool and its counter only. *)
Lemma find_name_run ctx e attr pfx :
  is_Some (dwarf2_find_attribute ctx e DW_AT_name attr) ->
  exists name ctx',
    dwarf2_find_name e attr pfx ctx = Done name ctx'
    /\ extends ctx ctx'
    /\ module ctx' = module ctx
    /\ debug_info_table ctx' = debug_info_table ctx.
Proof.
  intros [[found a] H].
  assert (exists name ctx', dwarf2_find_name e attr pfx ctx = Done name ctx'
                            /\ module ctx' = module ctx
                            /\ debug_info_table ctx' = debug_info_table ctx)
    as (name & ctx' & Hrun & Hm & Ht).
  { unfold dwarf2_find_name. unfold bind at 1. cbn [get_ctx]. rewrite H.
    unfold bind at 1. cbn [lift ret].
    destruct found; do 2 eexists; (split; [reflexivity |]); split; reflexivity. }
  exists name, ctx'.
  split; [exact Hrun |].
  split; [eapply preserves_find_name; exact Hrun |].
  split; assumption.
Qed.

Section Cycle.

Variable junk : Z.
Variable elf_is_in_thunk_area : Z -> Z.
Variable symt_get_info_length : module_t -> symt_ptr -> option Z.

Local Abbreviation load :=
  (dwarf2_load_one_entry junk elf_is_in_thunk_area symt_get_info_length).
Local Abbreviation body :=
  (load_one_entry_body junk elf_is_in_thunk_area symt_get_info_length).

(** A pointer entry whose referenced type is built already: one new
    pointer symbol to that type, and no recursion. *)
Lemma parse_pointer_to_built_type (load_one_entry : Z -> symt_ptr -> M unit)
  ctx p eP a eS n :
  debug_info_table ctx !! p = Some eP ->
  symt eP = None ->
  readable ctx eP ->
  dwarf2_find_attribute ctx eP DW_AT_type (uninitialized junk) = Some (true, a) ->
  debug_info_table ctx !! u_uvalue a = Some eS ->
  symt eS = Some n ->
  dwarf2_parse_pointer_type junk load_one_entry p ctx
  = Done (Some (length (calls (module ctx))))
         (with_new_symbol ctx (symt_new_pointer (Some n)) p eP).
Proof.
  intros Hp HsP Hread Ha Hs HsS.
  unfold dwarf2_parse_pointer_type.
  rewrite (bind_Done _ _ _ _ _ (get_di_Done _ _ _ Hp)), HsP.
  destruct (find_attribute_or_run ctx eP DW_AT_byte_size (uninitialized junk) 0
              (Hread _ _)) as (sz & Hsz).
  rewrite (bind_Done _ _ _ _ _ Hsz).
  rewrite (bind_Done _ _ _ _ _
             (lookup_type_memoized junk load_one_entry _ _ _ _ _ _ Hp Ha Hs HsS)).
  unfold bind at 1. cbn [call_new].
  unfold bind at 1. erewrite set_di_symt_Done by (cbn; exact Hp).
  erewrite di_symt_Done by (cbn; apply lookup_insert_eq).
  reflexivity.
Qed.

Lemma body_pointer_type load_one_entry fuel di compiland ctx e :
  debug_info_table ctx !! di = Some e ->
  tag (abbrev e) = DW_TAG_pointer_type ->
  body load_one_entry fuel di compiland ctx
  = (do* dwarf2_parse_pointer_type junk load_one_entry di in ret tt) ctx.
Proof.
  intros He Htag. unfold load_one_entry_body.
  rewrite (bind_Done _ _ _ _ _ (get_di_Done _ _ _ He)). rewrite Htag.
  reflexivity.
Qed.

Lemma body_structure_type load_one_entry fuel di compiland ctx e :
  debug_info_table ctx !! di = Some e ->
  tag (abbrev e) = DW_TAG_structure_type ->
  body load_one_entry fuel di compiland ctx
  = (do* dwarf2_parse_udt_type junk symt_get_info_length load_one_entry di
           UdtStruct in ret tt) ctx.
Proof.
  intros He Htag. unfold load_one_entry_body.
  rewrite (bind_Done _ _ _ _ _ (get_di_Done _ _ _ He)). rewrite Htag.
  reflexivity.
Qed.

(** The member of a structure that is built, whose type is a pointer that
    is not: the pointer is built on the way, pointing to the structure,
    and the member is added with that pointer for its type. *)
Lemma member_of_built_struct fuel ctx p s m eP eS eM aM aP n :
  debug_info_table ctx !! m = Some eM ->
  readable ctx eM ->
  is_Some (dwarf2_compute_location junk ctx eM DW_AT_data_member_location
             0 None) ->
  dwarf2_find_attribute ctx eM DW_AT_type (uninitialized junk)
  = Some (true, aM) ->
  u_uvalue aM = p ->
  debug_info_table ctx !! p = Some eP ->
  tag (abbrev eP) = DW_TAG_pointer_type ->
  symt eP = None ->
  readable ctx eP ->
  dwarf2_find_attribute ctx eP DW_AT_type (uninitialized junk)
  = Some (true, aP) ->
  u_uvalue aP = s ->
  debug_info_table ctx !! s = Some eS ->
  symt eS = Some n ->
  exists ctx' name offset size,
    dwarf2_parse_udt_member junk symt_get_info_length (load (S fuel)) m
      (Some n) ctx = Done tt ctx'
    /\ extends ctx ctx'
    /\ calls (module ctx')
       = calls (module ctx)
         ++ [symt_new_pointer (Some n);
             symt_add_udt_element (Some n) name
               (Some (length (calls (module ctx)))) offset size]
    /\ debug_info_table ctx'
       = <[p := set_symt eP (Some (length (calls (module ctx))))]>
           (debug_info_table ctx).
Proof.
  intros Hm HrM [loc Hloc] HaM HpM Hp HtagP HsP HrP HaP HsA Hs HsS.
  subst p s.
  (* the name of the member *)
  destruct (find_name_run ctx eM (uninitialized junk) "udt_member" (HrM _ _))
    as (name & cA & HrunA & EA & HmodA & HtabA).
  (* the type of the member: the pointer, built on the way *)
  set (cB := with_new_symbol cA (symt_new_pointer (Some n)) (u_uvalue aM) eP).
  assert (HfindA : forall e at_ attr,
    dwarf2_find_attribute cA e at_ attr = dwarf2_find_attribute ctx e at_ attr).
  { intros. apply find_attribute_extends. exact EA. }
  assert (HpA : debug_info_table cA !! u_uvalue aM = Some eP)
    by (rewrite HtabA; exact Hp).
  assert (HrPA : readable cA eP)
    by (eapply readable_extends; [exact EA | apply same_entry_refl | exact HrP]).
  assert (Hptr : dwarf2_parse_pointer_type junk (load fuel) (u_uvalue aM) cA
                 = Done (Some (length (calls (module cA)))) cB).
  { apply (parse_pointer_to_built_type (load fuel) cA (u_uvalue aM) eP aP eS n);
      try assumption.
    - rewrite HfindA. exact HaP.
    - rewrite HtabA. exact Hs. }
  assert (Hlook : dwarf2_lookup_type junk (load (S fuel)) m cA
                  = Done (Some (length (calls (module cA)))) cB).
  { unfold dwarf2_lookup_type.
    assert (HmA : debug_info_table cA !! m = Some eM)
      by (rewrite HtabA; exact Hm).
    rewrite (bind_Done _ _ _ _ _ (get_di_Done _ _ _ HmA)).
    unfold bind at 1. cbn [get_ctx]. rewrite HfindA, HaM.
    unfold bind at 1. cbn [lift ret].
    rewrite (bind_Done _ _ _ _ _ (get_di_Done _ _ _ HpA)). rewrite HsP.
    cbn [dwarf2_load_one_entry].
    unfold bind at 1.
    rewrite (body_pointer_type _ _ _ _ _ _ HpA HtagP).
    rewrite (bind_Done _ _ _ _ _ Hptr). cbn [ret].
    erewrite di_symt_Done by (cbn; apply lookup_insert_eq).
    reflexivity. }
  assert (EB : extends ctx cB).
  { eapply extends_trans; [exact EA |].
    eapply preserves_parse_pointer_type; [| exact Hptr].
    intros d c. apply preserves_load_one_entry. }
  assert (HfindB : forall at_ attr,
    dwarf2_find_attribute cB eM at_ attr
    = dwarf2_find_attribute ctx eM at_ attr).
  { intros. apply find_attribute_extends. exact EB. }
  (* what is left of the member *)
  destruct loc as [[r offset] ir].
  destruct (find_attribute_or_run cB eM DW_AT_bit_size (uninitialized junk) 0)
    as (bit_size & Hbs); [rewrite HfindB; apply HrM |].
  destruct (HrM DW_AT_bit_offset (uninitialized junk)) as [[fo bo] Hbo].
  destruct (HrM DW_AT_byte_size (uninitialized junk)) as [[fb nb] Hnb].
  assert (Hrun : exists offset',
    dwarf2_parse_udt_member junk symt_get_info_length (load (S fuel)) m
      (Some n) ctx
    = Done tt
        (set_module cB
           (set_calls (module cB)
              (calls (module cB)
               ++ [symt_add_udt_element (Some n) (string_at cB (u_string name))
                     (Some (length (calls (module cA)))) offset'
                     (u_uvalue bit_size)])))).
  { unfold dwarf2_parse_udt_member.
    rewrite (bind_Done _ _ _ _ _ (get_di_Done _ _ _ Hm)).
    rewrite (bind_Done _ _ _ _ _ HrunA).
    rewrite (bind_Done _ _ _ _ _ Hlook).
    unfold bind at 1. cbn [get_ctx].
    rewrite (compute_location_extends junk ctx cB) by exact EB.
    rewrite Hloc. unfold bind at 1. cbn [lift ret].
    rewrite (bind_Done _ _ _ _ _ Hbs).
    rewrite HfindB, Hbo. unfold bind at 1. cbn [lift ret].
    destruct fo.
    - rewrite HfindB, Hnb.
      unfold bind at 1. unfold bind at 1. cbn [lift ret].
      unfold bind at 1. unfold name_of at 1.
      unfold bind at 1. cbn [get_ctx ret].
      eexists. reflexivity.
    - unfold bind at 1. cbn [ret].
      unfold bind at 1. unfold name_of at 1.
      unfold bind at 1. cbn [get_ctx ret].
      eexists. reflexivity. }
  destruct Hrun as (offset' & Hrun).
  eexists. exists (string_at cB (u_string name)), offset', (u_uvalue bit_size).
  split; [exact Hrun |]. split; [| split].
  - eapply preserves_parse_udt_member; [| exact Hrun].
    intros d c. apply preserves_load_one_entry.
  - cbn. rewrite HmodA, <- app_assoc. reflexivity.
  - cbn. rewrite HmodA, HtabA. reflexivity.
Qed.

(** The structure of the cycle, requested first: it is created once, the
    pointer is built on the way while the member is read, and the member
    is added. *)
Lemma struct_of_cycle fuel ctx p s m eP eS eM :
  pointer_struct_cycle junk ctx p s m eP eS eM ->
  let n := length (calls (module ctx)) in
  exists ctx' name_s size_s name_m offset_m size_m,
    dwarf2_parse_udt_type junk symt_get_info_length (load (S fuel)) s
      UdtStruct ctx = Done (Some n) ctx'
    /\ extends ctx ctx'
    /\ calls (module ctx')
       = calls (module ctx)
         ++ [symt_new_udt name_s size_s UdtStruct;
             symt_new_pointer (Some n);
             symt_add_udt_element (Some n) name_m (Some (S n)) offset_m size_m]
    /\ debug_info_table ctx'
       = <[p := set_symt eP (Some (S n))]>
           (<[s := set_symt eS (Some n)]> (debug_info_table ctx)).
Proof.
  intros [Hp HtagP HsP HrP (aP & HaP & HaPs) Hs HtagS HsS HrS Hchild Hchildren
            Hm HtagM HrM (aM & HaM & HaMp) Hloc] n.
  assert (Hps : p <> s).
  { intros ->. rewrite Hp in Hs. injection Hs as ->.
    rewrite HtagP in HtagS. discriminate. }
  assert (Hms : m <> s).
  { intros ->. rewrite Hm in Hs. injection Hs as ->.
    rewrite HtagM in HtagS. discriminate. }
  destruct (find_name_run ctx eS (uninitialized junk) "udt" (HrS _ _))
    as (name & cA & HrunA & EA & HmodA & HtabA).
  destruct (find_attribute_or_run cA eS DW_AT_byte_size (uninitialized junk) 0)
    as (size & Hsize).
  { rewrite (find_attribute_extends ctx cA) by exact EA. apply HrS. }
  set (cC := with_new_symbol cA
               (symt_new_udt (string_at cA (u_string name)) (u_uvalue size)
                  UdtStruct) s eS).
  assert (Hstart :
    (let* name := dwarf2_find_name eS (uninitialized junk) "udt" in
     let* size := find_attribute_or eS DW_AT_byte_size (uninitialized junk) 0 in
     let* nm := name_of name in
     let* sy := call_new (symt_new_udt nm (u_uvalue size) UdtStruct) in
     set_di_symt s sy) ctx = Done tt cC).
  { rewrite (bind_Done _ _ _ _ _ HrunA).
    rewrite (bind_Done _ _ _ _ _ Hsize).
    unfold bind at 1. unfold name_of at 1. unfold bind at 1. cbn [get_ctx ret].
    unfold bind at 1. cbn [call_new].
    erewrite set_di_symt_Done by (cbn; rewrite HtabA; exact Hs).
    reflexivity. }
  assert (EC : extends ctx cC).
  { eapply (preserves_bind _ _ (preserves_find_name _ _ _)); [| exact Hstart].
    intros a. preserves_auto; apply preserves_find_attribute_or
                              || apply preserves_name_of. }
  assert (HnC : length (calls (module cA)) = n) by (rewrite HmodA; reflexivity).
  assert (HtabC : debug_info_table cC
                  = <[s := set_symt eS (Some n)]> (debug_info_table ctx)).
  { subst cC. unfold with_new_symbol. cbn. rewrite HtabA, HnC. reflexivity. }
  assert (HcallsC : calls (module cC)
                    = calls (module ctx)
                      ++ [symt_new_udt (string_at cA (u_string name))
                            (u_uvalue size) UdtStruct]).
  { subst cC. unfold with_new_symbol. cbn. rewrite HmodA. reflexivity. }
  assert (HsC : debug_info_table cC !! s = Some (set_symt eS (Some n)))
    by (rewrite HtabC; apply lookup_insert_eq).
  assert (HmC : debug_info_table cC !! m = Some eM)
    by (rewrite HtabC, lookup_insert_ne by auto; exact Hm).
  assert (HpC : debug_info_table cC !! p = Some eP)
    by (rewrite HtabC, lookup_insert_ne by auto; exact Hp).
  assert (HrMC : readable cC eM)
    by (eapply readable_extends; [exact EC | apply same_entry_refl | exact HrM]).
  assert (HlocC : is_Some (dwarf2_compute_location junk cC eM
                             DW_AT_data_member_location 0 None))
    by (rewrite (compute_location_extends junk ctx cC) by exact EC; exact Hloc).
  assert (HaMC : dwarf2_find_attribute cC eM DW_AT_type (uninitialized junk)
                 = Some (true, aM))
    by (rewrite (find_attribute_extends ctx cC) by exact EC; exact HaM).
  assert (HrPC : readable cC eP)
    by (eapply readable_extends; [exact EC | apply same_entry_refl | exact HrP]).
  assert (HaPC : dwarf2_find_attribute cC eP DW_AT_type (uninitialized junk)
                 = Some (true, aP))
    by (rewrite (find_attribute_extends ctx cC) by exact EC; exact HaP).
  destruct (member_of_built_struct fuel cC p s m eP (set_symt eS (Some n)) eM
              aM aP n HmC HrMC HlocC HaMC HaMp HpC HtagP HsP HrPC HaPC HaPs
              HsC eq_refl)
    as (cD & name_m & offset_m & size_m & HrunD & ED & HcallsD & HtabD).
  assert (Hlen : length (calls (module cC)) = S n).
  { rewrite HcallsC, length_app. cbn. subst n. lia. }
  exists cD, (string_at cA (u_string name)), (u_uvalue size),
    name_m, offset_m, size_m.
  split; [| split; [| split]].
  - unfold dwarf2_parse_udt_type.
    rewrite (bind_Done _ _ _ _ _ (get_di_Done _ _ _ Hs)), HsS.
    rewrite (bind_Done _ _ _ _ _ HrunA).
    rewrite (bind_Done _ _ _ _ _ Hsize).
    unfold bind at 1. unfold name_of at 1. unfold bind at 1. cbn [get_ctx ret].
    unfold bind at 1. cbn [call_new].
    unfold bind at 1.
    erewrite set_di_symt_Done by (cbn; rewrite HtabA; exact Hs).
    fold (with_new_symbol cA
            (symt_new_udt (string_at cA (u_string name)) (u_uvalue size)
               UdtStruct) s eS).
    fold cC.
    apply Z.eqb_neq in Hchild. rewrite Hchild, Hchildren.
    cbn [for_each].
    unfold bind at 1. unfold bind at 1.
    rewrite (bind_Done _ _ _ _ _ (get_di_Done _ _ _ HmC)).
    rewrite HtagM, Z.eqb_refl.
    rewrite (bind_Done _ _ _ _ _ (di_symt_Done _ _ _ HsC)).
    cbn [symt set_symt].
    rewrite HrunD. cbn [ret].
    erewrite di_symt_Done.
    2:{ rewrite HtabD, lookup_insert_ne by auto. exact HsC. }
    reflexivity.
  - eapply extends_trans; eassumption.
  - rewrite HcallsD, Hlen, HcallsC, <- app_assoc. reflexivity.
  - rewrite HtabD, Hlen, HtabC. reflexivity.
Qed.

(** The pointer of the cycle, requested first. *)
Lemma pointer_of_cycle fuel ctx p s m eP eS eM :
  pointer_struct_cycle junk ctx p s m eP eS eM ->
  let n := length (calls (module ctx)) in
  exists ctx' name_s size_s name_m offset_m size_m,
    dwarf2_parse_pointer_type junk (load (S (S fuel))) p ctx
    = Done (Some (S (S (S n)))) ctx'
    /\ extends ctx ctx'
    /\ calls (module ctx')
       = calls (module ctx)
         ++ [symt_new_udt name_s size_s UdtStruct;
             symt_new_pointer (Some n);
             symt_add_udt_element (Some n) name_m (Some (S n)) offset_m size_m;
             symt_new_pointer (Some n)]
    /\ debug_info_table ctx'
       = <[p := set_symt eP (Some (S (S (S n))))]>
           (<[s := set_symt eS (Some n)]> (debug_info_table ctx)).
Proof.
  intros Hcyc n.
  destruct (struct_of_cycle fuel ctx p s m eP eS eM Hcyc)
    as (cS & name_s & size_s & name_m & offset_m & size_m & HrunS & ES
        & HcallsS & HtabS).
  fold n in HrunS, HcallsS, HtabS.
  destruct Hcyc as [Hp HtagP HsP HrP (aP & HaP & HaPs) Hs HtagS HsS HrS Hchild
                      Hchildren Hm HtagM HrM (aM & HaM & HaMp) Hloc].
  assert (Hps : p <> s).
  { intros ->. rewrite Hp in Hs. injection Hs as ->.
    rewrite HtagP in HtagS. discriminate. }
  destruct (find_attribute_or_run ctx eP DW_AT_byte_size (uninitialized junk) 0
              (HrP _ _)) as (sz & Hsz).
  assert (HsS' : debug_info_table cS !! s = Some (set_symt eS (Some n))).
  { rewrite HtabS, lookup_insert_ne by auto. apply lookup_insert_eq. }
  assert (HpS : debug_info_table cS !! p = Some (set_symt eP (Some (S n))))
    by (rewrite HtabS; apply lookup_insert_eq).
  assert (Hlook : dwarf2_lookup_type junk (load (S (S fuel))) p ctx
                  = Done (Some n) cS).
  { unfold dwarf2_lookup_type.
    rewrite (bind_Done _ _ _ _ _ (get_di_Done _ _ _ Hp)).
    unfold bind at 1. cbn [get_ctx]. rewrite HaP.
    unfold bind at 1. cbn [lift ret]. rewrite HaPs.
    rewrite (bind_Done _ _ _ _ _ (get_di_Done _ _ _ Hs)). rewrite HsS.
    cbn [dwarf2_load_one_entry].
    unfold bind at 1.
    rewrite (body_structure_type _ _ _ _ _ _ Hs HtagS).
    rewrite (bind_Done _ _ _ _ _ HrunS). cbn [ret].
    rewrite (di_symt_Done _ _ _ HsS'). reflexivity. }
  assert (Hlen : length (calls (module cS)) = S (S (S n))).
  { rewrite HcallsS, length_app. cbn. subst n. lia. }
  eexists. exists name_s, size_s, name_m, offset_m, size_m.
  assert (Hrun : dwarf2_parse_pointer_type junk (load (S (S fuel))) p ctx
    = Done (Some (length (calls (module cS))))
        (with_new_symbol cS (symt_new_pointer (Some n)) p
           (set_symt eP (Some (S n))))).
  { unfold dwarf2_parse_pointer_type.
    rewrite (bind_Done _ _ _ _ _ (get_di_Done _ _ _ Hp)), HsP.
    rewrite (bind_Done _ _ _ _ _ Hsz).
    rewrite (bind_Done _ _ _ _ _ Hlook).
    unfold bind at 1. cbn [call_new].
    unfold bind at 1. erewrite set_di_symt_Done by (cbn; exact HpS).
    erewrite di_symt_Done by (cbn; apply lookup_insert_eq).
    reflexivity. }
  rewrite Hlen in Hrun.
  split; [exact Hrun |]. split; [| split].
  - eapply preserves_parse_pointer_type; [| exact Hrun].
    intros d c. apply preserves_load_one_entry.
  - cbn. rewrite HcallsS, <- app_assoc. reflexivity.
  - cbn. rewrite HtabS, Hlen. rewrite insert_insert_eq. reflexivity.
Qed.

(** The pointer of the cycle, loaded: four calls, of which one
    [symt_new_udt]; the pointer is built for the member on the way and
    again for the request, and both pointer symbols point to the one
    structure symbol, which later requests answer. *)
Lemma pointer_of_cycle_loaded :
  forall (fuel : nat) (compiland : symt_ptr)
         (ctx : dwarf2_parse_context_t) (p s m : Z)
         (eP eS eM : dwarf2_debug_info_t),
  pointer_struct_cycle junk ctx p s m eP eS eM ->
  let n := length (calls (module ctx)) in
  exists ctx' name_s size_s name_m offset_m size_m,
    load (S (S (S fuel))) p compiland ctx = Done tt ctx'
    /\ calls (module ctx')
       = calls (module ctx)
         ++ [symt_new_udt name_s size_s UdtStruct;
             symt_new_pointer (Some n);
             symt_add_udt_element (Some n) name_m (Some (S n))
               offset_m size_m;
             symt_new_pointer (Some n)]
    /\ debug_info_table ctx' !! s = Some (set_symt eS (Some n))
    /\ debug_info_table ctx' !! p
       = Some (set_symt eP (Some (S (S (S n)))))
    /\ (forall load_one_entry udt,
          dwarf2_parse_udt_type junk symt_get_info_length load_one_entry
            s udt ctx' = Done (Some n) ctx')
    /\ (forall load_one_entry,
          dwarf2_lookup_type junk load_one_entry p ctx'
          = Done (Some n) ctx')
    /\ (forall load_one_entry,
          dwarf2_parse_pointer_type junk load_one_entry p ctx'
          = Done (Some (S (S (S n)))) ctx').
Proof.
  intros fuel compiland ctx p s m eP eS eM Hcyc n.
  destruct (pointer_of_cycle fuel ctx p s m eP eS eM Hcyc)
    as (ctx' & name_s & size_s & name_m & offset_m & size_m & Hrun & Hext
        & Hcalls & Htab).
  fold n in Hrun, Hcalls, Htab.
  pose proof Hcyc as
    [Hp HtagP HsP HrP (aP & HaP & HaPs) Hs HtagS HsS HrS Hchild Hchildren
       Hm HtagM HrM (aM & HaM & HaMp) Hloc].
  assert (Hps : p <> s).
  { intros ->. rewrite Hp in Hs. injection Hs as ->.
    rewrite HtagP in HtagS. discriminate. }
  assert (Hs' : debug_info_table ctx' !! s = Some (set_symt eS (Some n))).
  { rewrite Htab, lookup_insert_ne by auto. apply lookup_insert_eq. }
  assert (Hp' : debug_info_table ctx' !! p
                = Some (set_symt eP (Some (S (S (S n)))))).
  { rewrite Htab. apply lookup_insert_eq. }
  exists ctx', name_s, size_s, name_m, offset_m, size_m.
  split; [| split; [exact Hcalls | split; [exact Hs' | split; [exact Hp' |]]]].
  + cbn [dwarf2_load_one_entry].
    rewrite (body_pointer_type _ _ _ _ _ _ Hp HtagP).
    change (dwarf2_load_one_entry junk elf_is_in_thunk_area
              symt_get_info_length (S (S fuel)))
      with (load (S (S fuel))).
    rewrite (bind_Done _ _ _ _ _ Hrun). reflexivity.
  + split; [| split].
    * intros load_one_entry udt.
      apply (built_symbol_is_returned junk elf_is_in_thunk_area
               symt_get_info_length load_one_entry ctx' s _ n Hs' eq_refl).
    * intros load_one_entry.
      eapply lookup_type_memoized.
      -- exact Hp'.
      -- rewrite (find_attribute_extends ctx ctx') by exact Hext.
         rewrite (find_attribute_same_entry ctx eP) by (repeat split).
         exact HaP.
      -- rewrite HaPs. exact Hs'.
      -- reflexivity.
    * intros load_one_entry.
      apply (built_symbol_is_returned junk elf_is_in_thunk_area
               symt_get_info_length load_one_entry ctx' p _ _ Hp' eq_refl).
Qed.

End Cycle.

(* ================================================================== *)
(** * Further properties of the reader *)

(** ** The byte readers *)

Lemma leb128_length_of_unsigned bs ret shift n k v e :
  leb128_as_unsigned_loop bs ret shift n = Some (v, e) ->
  leb128_length_loop bs k = Some (k + (e - n) - 1).
Proof.
  revert ret shift n k. induction bs as [| byte bs IH]; intros ret shift n k.
  - discriminate.
  - cbn [leb128_as_unsigned_loop leb128_length_loop].
    destruct (Z.land byte 128 =? 0).
    + intros [= _ <-]. f_equal. lia.
    + intros H. rewrite (IH _ _ _ (k + 1) H). f_equal. lia.
Qed.

Lemma leb128_unsigned_of_length bs ret shift n k r :
  leb128_length_loop bs k = Some r ->
  exists v, leb128_as_unsigned_loop bs ret shift n = Some (v, n + (r - k) + 1).
Proof.
  revert ret shift n k. induction bs as [| byte bs IH]; intros ret shift n k.
  - discriminate.
  - cbn [leb128_as_unsigned_loop leb128_length_loop].
    destruct (Z.land byte 128 =? 0).
    + intros [= <-]. eexists. do 2 f_equal. lia.
    + intros H.
      destruct (IH (Z.lor ret (uint32 (int_shl (Z.land byte 127) shift)))
                  (uint32 (shift + 7)) (n + 1) _ H) as [v Hv].
      exists v. rewrite Hv. do 2 f_equal. lia.
Qed.

Lemma leb128_length_of_signed bs ret shift n k v b s e :
  leb128_as_signed_loop bs ret shift n = Some (v, b, s, e) ->
  leb128_length_loop bs k = Some (k + (e - n) - 1).
Proof.
  revert ret shift n k. induction bs as [| byte bs IH]; intros ret shift n k.
  - discriminate.
  - cbn [leb128_as_signed_loop leb128_length_loop].
    destruct (Z.land byte 128 =? 0).
    + intros [= _ _ _ <-]. f_equal. lia.
    + intros H. rewrite (IH _ _ _ (k + 1) H). f_equal. lia.
Qed.

Lemma leb128_signed_of_length bs ret shift n k r :
  leb128_length_loop bs k = Some r ->
  exists v b s,
    leb128_as_signed_loop bs ret shift n = Some (v, b, s, n + (r - k) + 1).
Proof.
  revert ret shift n k. induction bs as [| byte bs IH]; intros ret shift n k.
  - discriminate.
  - cbn [leb128_as_signed_loop leb128_length_loop].
    destruct (Z.land byte 128 =? 0).
    + intros [= <-]. do 3 eexists. do 2 f_equal. lia.
    + intros H.
      destruct (IH (Z.lor ret (int_shl (Z.land byte 127) shift))
                  (uint32 (shift + 7)) (n + 1) _ H) as (v & b & s & Hv).
      exists v, b, s. rewrite Hv. do 2 f_equal. lia.
Qed.

(** [dwarf2_leb128_length] counts exactly the bytes that either reader of
    base-128 numbers consumes at the same place: it answers [n] if and
    only if [dwarf2_leb128_as_unsigned], and likewise
    [dwarf2_leb128_as_signed], succeeds there and leaves the cursor [n]
    bytes further; all three fail together when the bytes run out before
    one without the bit 0x80.  [dwarf2_swallow_attribute] relies on this
    for the forms [DW_FORM_udata], [DW_FORM_sdata] and
    [DW_FORM_ref_udata]. *)
Theorem leb128_length_is_what_the_readers_consume (m : memory)
  (ctx : dwarf2_traverse_context_t) (n : Z) :
  (dwarf2_leb128_length m ctx = Some n
   <-> exists v,
         dwarf2_leb128_as_unsigned m ctx
         = Some (v, set_data ctx (data ctx + n)))
  /\ (dwarf2_leb128_length m ctx = Some n
      <-> exists v,
            dwarf2_leb128_as_signed m ctx
            = Some (v, set_data ctx (data ctx + n))).
Proof.
  unfold dwarf2_leb128_length, dwarf2_leb128_as_unsigned,
    dwarf2_leb128_as_signed, dwarf2_get_leb128_as_unsigned,
    dwarf2_get_leb128_as_signed.
  split; split.
  - destruct (leb128_length_loop (bytes_at m (data ctx)) 0) as [r |] eqn:Hr;
      [| discriminate].
    cbn. intros [= <-].
    destruct (leb128_unsigned_of_length _ 0 0 0 _ _ Hr) as [v Hv].
    exists v. rewrite Hv. cbn. do 3 f_equal. lia.
  - intros [v Hv].
    destruct (leb128_as_unsigned_loop (bytes_at m (data ctx)) 0 0 0)
      as [[v' e] |] eqn:Hl; [| discriminate].
    cbn in Hv. injection Hv as _ He.
    rewrite (leb128_length_of_unsigned _ _ _ _ 0 _ _ Hl). cbn.
    f_equal. lia.
  - destruct (leb128_length_loop (bytes_at m (data ctx)) 0) as [r |] eqn:Hr;
      [| discriminate].
    cbn. intros [= <-].
    destruct (leb128_signed_of_length _ 0 0 0 _ _ Hr) as (v & b & s & Hv).
    eexists. rewrite Hv. cbn. do 3 f_equal. lia.
  - intros [v Hv].
    destruct (leb128_as_signed_loop (bytes_at m (data ctx)) 0 0 0)
      as [[[[v' b] s] e] |] eqn:Hl; [| discriminate].
    cbn in Hv. injection Hv as _ He.
    rewrite (leb128_length_of_signed _ _ _ _ 0 _ _ _ _ Hl). cbn.
    f_equal. lia.
Qed.

Lemma lor_uint32_range a b :
  0 <= a < 2 ^ 32 -> 0 <= b < 2 ^ 32 -> 0 <= Z.lor a b < 2 ^ 32.
Proof.
  intros Ha Hb. split; [apply Z.lor_nonneg; lia |].
  destruct (Z.eq_dec (Z.lor a b) 0) as [-> | Hne]; [lia |].
  apply Z.log2_lt_pow2.
  - assert (0 <= Z.lor a b) by (apply Z.lor_nonneg; lia). lia.
  - rewrite Z.log2_lor by lia.
    destruct (Z.eq_dec a 0) as [-> | Ha0];
      destruct (Z.eq_dec b 0) as [-> | Hb0]; cbn [Z.log2]; try lia.
    + apply Z.max_lub_lt; [lia | apply Z.log2_lt_pow2; lia].
    + apply Z.max_lub_lt; [apply Z.log2_lt_pow2; lia | lia].
    + apply Z.max_lub_lt; apply Z.log2_lt_pow2; lia.
Qed.

Lemma land_le_r a b : 0 <= b -> 0 <= Z.land a b <= b.
Proof.
  intros Hb.
  assert (H1 : 0 <= Z.land a b) by (apply Z.land_nonneg; auto).
  assert (H2 : 0 <= Z.land (Z.lnot a) b) by (apply Z.land_nonneg; auto).
  assert (H3 : Z.land a b + Z.land (Z.lnot a) b = b).
  { rewrite Z.add_nocarry_lxor.
    - apply Z.bits_inj'. intros i Hi.
      rewrite Z.lxor_spec, !Z.land_spec, Z.lnot_spec by lia.
      destruct (Z.testbit a i), (Z.testbit b i); reflexivity.
    - apply Z.bits_inj'. intros i Hi.
      rewrite !Z.land_spec, Z.lnot_spec, Z.bits_0 by lia.
      destruct (Z.testbit a i), (Z.testbit b i); reflexivity. }
  lia.
Qed.

Lemma lor_sint32_range a b :
  - 2 ^ 31 <= a < 2 ^ 31 -> - 2 ^ 31 <= b < 2 ^ 31 ->
  - 2 ^ 31 <= Z.lor a b < 2 ^ 31.
Proof.
  intros Ha Hb.
  destruct (Z.lt_ge_cases b 0) as [Hneg | Hpos].
  - pose proof (Z.sub_lor_l_same_r a b) as H.
    pose proof (land_le_r a (Z.lnot b)) as Hl.
    unfold Z.lnot in *. rewrite <- Z.sub_1_r in *. lia.
  - destruct (Z.lt_ge_cases a 0) as [Hneg | Hpos'].
    + pose proof (Z.sub_lor_l_same_l b a) as H.
      pose proof (land_le_r b (Z.lnot a)) as Hl.
      unfold Z.lnot in *. rewrite <- Z.sub_1_r in *. lia.
    + split; [assert (0 <= Z.lor a b) by (apply Z.lor_nonneg; lia); lia |].
      destruct (Z.eq_dec (Z.lor a b) 0) as [-> | Hne]; [lia |].
      apply Z.log2_lt_pow2.
      * assert (0 <= Z.lor a b) by (apply Z.lor_nonneg; lia). lia.
      * rewrite Z.log2_lor by lia.
        destruct (Z.eq_dec a 0) as [-> | Ha0];
          destruct (Z.eq_dec b 0) as [-> | Hb0]; cbn [Z.log2]; try lia.
        -- apply Z.max_lub_lt; [lia | apply Z.log2_lt_pow2; lia].
        -- apply Z.max_lub_lt; [apply Z.log2_lt_pow2; lia | lia].
        -- apply Z.max_lub_lt; apply Z.log2_lt_pow2; lia.
Qed.

Lemma uint32_range z : 0 <= uint32 z < 2 ^ 32.
Proof. unfold uint32. apply Z.mod_pos_bound. lia. Qed.

Lemma sint32_range z : - 2 ^ 31 <= sint32 z < 2 ^ 31.
Proof.
  unfold sint32. pose proof (Z.mod_pos_bound (z + 2 ^ 31) (2 ^ 32)). lia.
Qed.

Lemma leb128_as_unsigned_loop_range bs ret shift n v e :
  0 <= ret < 2 ^ 32 ->
  leb128_as_unsigned_loop bs ret shift n = Some (v, e) ->
  0 <= v < 2 ^ 32 /\ n < e.
Proof.
  revert ret shift n. induction bs as [| byte bs IH]; intros ret shift n Hret.
  - discriminate.
  - cbn [leb128_as_unsigned_loop].
    pose proof (lor_uint32_range ret
                  (uint32 (int_shl (Z.land byte 127) shift)) Hret
                  (uint32_range _)) as Hr.
    destruct (Z.land byte 128 =? 0).
    + intros [= <- <-]. split; [exact Hr | lia].
    + intros H. apply IH in H; [| exact Hr]. lia.
Qed.

Lemma leb128_as_signed_loop_range bs ret shift n v b s e :
  - 2 ^ 31 <= ret < 2 ^ 31 ->
  leb128_as_signed_loop bs ret shift n = Some (v, b, s, e) ->
  - 2 ^ 31 <= v < 2 ^ 31 /\ n < e.
Proof.
  revert ret shift n. induction bs as [| byte bs IH]; intros ret shift n Hret.
  - discriminate.
  - cbn [leb128_as_signed_loop].
    pose proof (lor_sint32_range ret (int_shl (Z.land byte 127) shift) Hret
                  (sint32_range _)) as Hr.
    destruct (Z.land byte 128 =? 0).
    + intros [= <- _ _ <-]. split; [exact Hr | lia].
    + intros H. apply IH in H; [| exact Hr]. lia.
Qed.

Lemma get_leb128_as_unsigned_range m p v e :
  dwarf2_get_leb128_as_unsigned m p = Some (v, e) ->
  0 <= v < 2 ^ 32 /\ p < e.
Proof.
  unfold dwarf2_get_leb128_as_unsigned.
  destruct (leb128_as_unsigned_loop (bytes_at m p) 0 0 0) as [[v' n] |] eqn:H;
    [| discriminate].
  cbn. intros [= <- <-].
  apply leb128_as_unsigned_loop_range in H; [| lia]. lia.
Qed.

Lemma get_leb128_as_signed_range m p v e :
  dwarf2_get_leb128_as_signed m p = Some (v, e) ->
  - 2 ^ 31 <= v < 2 ^ 31 /\ p < e.
Proof.
  unfold dwarf2_get_leb128_as_signed.
  destruct (leb128_as_signed_loop (bytes_at m p) 0 0 0)
    as [[[[v' b] s] n] |] eqn:H; [| discriminate].
  cbn. intros [= <- <-].
  apply leb128_as_signed_loop_range in H; [| lia].
  split; [| lia]. unfold leb128_sign_extend.
  destruct (_ && _); [| lia].
  apply lor_sint32_range; [lia | apply sint32_range].
Qed.

(** ** Attributes *)

Lemma find_attribute_loop_result ctx e at_ attr i l found v :
  find_attribute_loop ctx e at_ attr i l = Some (found, v) ->
  (found = false -> v = attr /\ Forall (fun x => attribute x <> at_) l)
  /\ (found = true ->
      exists pre a post p,
        l = pre ++ a :: post
        /\ Forall (fun x => attribute x <> at_) pre
        /\ attribute a = at_
        /\ di_data e !! (i + length pre)%nat = Some p
        /\ find_attribute_form ctx p (set_form attr (form a)) = Some v).
Proof.
  revert i. induction l as [| a l IH]; intros i; cbn [find_attribute_loop].
  - intros [= <- <-]. split; [auto | discriminate].
  - destruct (attribute a =? at_) eqn:E.
    + apply Z.eqb_eq in E.
      destruct (di_data e !! i) as [p |] eqn:Hp; [| discriminate].
      cbn [mbind option_bind].
      destruct (find_attribute_form ctx p (set_form attr (form a)))
        as [v' |] eqn:Hv; [| discriminate].
      cbn [mbind option_bind]. intros [= <- <-].
      split; [discriminate |]. intros _.
      exists [], a, l, p. cbn [app length]. rewrite Nat.add_0_r.
      repeat split; auto.
    + apply Z.eqb_neq in E. intros H. apply IH in H.
      destruct H as [Hf Ht]. split.
      * intros Hfound. destruct (Hf Hfound) as [-> Hl]. auto.
      * intros Hfound.
        destruct (Ht Hfound) as (pre & a' & post & p & -> & Hpre & Ha & Hp & Hv).
        exists (a :: pre), a', post, p. cbn [app length].
        rewrite Nat.add_succ_r. cbn [Nat.add] in Hp.
        repeat split; auto.
Qed.

(** What [dwarf2_find_attribute] answers, when it answers.  [FALSE]
    means that no attribute of the abbreviation has the kind asked for,
    and then [*attr] is as it was.  [TRUE] means that the value was
    decoded, with the form of the first attribute of that kind, from
    [di->data] at the position of that first attribute; attributes of the
    same kind further down the list play no part. *)
Theorem find_attribute_takes_the_first_match (ctx : dwarf2_parse_context_t)
  (e : dwarf2_debug_info_t) (at_ : Z) (attr : struct_attribute)
  (found : bool) (v : struct_attribute) :
  dwarf2_find_attribute ctx e at_ attr = Some (found, v) ->
  (found = false ->
   v = attr /\ Forall (fun x => attribute x <> at_) (attrs (abbrev e)))
  /\ (found = true ->
      exists pre a post p,
        attrs (abbrev e) = pre ++ a :: post
        /\ Forall (fun x => attribute x <> at_) pre
        /\ attribute a = at_
        /\ di_data e !! length pre = Some p
        /\ find_attribute_form ctx p (set_form attr (form a)) = Some v).
Proof.
  unfold dwarf2_find_attribute. intros H.
  apply find_attribute_loop_result in H. exact H.
Qed.

Lemma find_attribute_first ctx e at_ attr pre a post :
  attrs (abbrev e) = pre ++ a :: post ->
  Forall (fun x => attribute x <> at_) pre ->
  attribute a = at_ ->
  dwarf2_find_attribute ctx e at_ attr
  = (p ← di_data e !! length pre;
     v ← find_attribute_form ctx p (set_form attr (form a));
     Some (true, v)).
Proof.
  unfold dwarf2_find_attribute. intros -> Hpre Ha.
  replace (length pre) with (0 + length pre)%nat by reflexivity.
  generalize 0%nat.
  induction pre as [| x pre IH]; intros i; cbn [app find_attribute_loop].
  - apply Z.eqb_eq in Ha. rewrite Ha. cbn [length]. rewrite Nat.add_0_r.
    reflexivity.
  - inversion Hpre as [| ? ? Hx Hrest]; subst.
    apply Z.eqb_neq in Hx. rewrite Hx.
    rewrite (IH Hrest (S i)). cbn [length]. rewrite Nat.add_succ_r.
    reflexivity.
Qed.

(** The forms of eight bytes, [DW_FORM_data8] and [DW_FORM_ref8], are
    reported as found but not decoded: the value is what [*attr] held
    before the call, with only the form set.  A location or a constant of
    that form hence makes [dwarf2_compute_location] answer [TRUE] with,
    for [DW_FORM_data8], the content of its uninitialised local as the
    offset. *)
Theorem eight_byte_forms_are_not_decoded (junk : Z)
  (ctx : dwarf2_parse_context_t) (e : dwarf2_debug_info_t) (at_ : Z)
  (attr : struct_attribute) (pre post : list dwarf2_abbrev_entry_attr_t)
  (a : dwarf2_abbrev_entry_attr_t) (p : Z) :
  attrs (abbrev e) = pre ++ a :: post ->
  Forall (fun x => attribute x <> at_) pre ->
  attribute a = at_ ->
  di_data e !! length pre = Some p ->
  form a = DW_FORM_data8 \/ form a = DW_FORM_ref8 ->
  dwarf2_find_attribute ctx e at_ attr
  = Some (true, set_form attr (form a))
  /\ (form a = DW_FORM_data8 ->
      forall offset in_register,
        dwarf2_compute_location junk ctx e at_ offset in_register
        = Some (TRUE, junk,
                option_map (fun _ => Wine_DW_no_register) in_register)).
Proof.
  intros Hattrs Hpre Ha Hp Hform.
  assert (Hfind : forall attr0,
    dwarf2_find_attribute ctx e at_ attr0
    = Some (true, set_form attr0 (form a))).
  { intros attr0.
    rewrite (find_attribute_first ctx e at_ attr0 pre a post Hattrs Hpre Ha).
    rewrite Hp. cbn [mbind option_bind].
    destruct Hform as [-> | ->]; reflexivity. }
  split; [apply Hfind |].
  intros Hdata8 offset in_register.
  unfold dwarf2_compute_location. rewrite Hfind, Hdata8. reflexivity.
Qed.

(** For the four block forms, [dwarf2_swallow_attribute] leaves the
    cursor exactly at the end of the block that [dwarf2_find_attribute]
    decodes at the place where the cursor was: at [block.ptr] plus
    [block.size]. *)
Theorem swallowed_block_is_the_decoded_block (ctx : dwarf2_parse_context_t)
  (traverse traverse' : dwarf2_traverse_context_t)
  (abbrev_attr : dwarf2_abbrev_entry_attr_t) (attr : struct_attribute) :
  form abbrev_attr = DW_FORM_block \/ form abbrev_attr = DW_FORM_block1
  \/ form abbrev_attr = DW_FORM_block2 \/ form abbrev_attr = DW_FORM_block4 ->
  dwarf2_swallow_attribute (mem ctx) traverse abbrev_attr = Some traverse' ->
  exists v,
    find_attribute_form ctx (data traverse)
      (set_form attr (form abbrev_attr)) = Some v
    /\ data traverse' = u_block_ptr v + u_block_size v
    /\ data traverse < u_block_ptr v
    /\ 0 <= u_block_size v.
Proof.
  unfold dwarf2_swallow_attribute, find_attribute_form.
  intros [-> | [-> | [-> | ->]]]; cbn.
  - unfold dwarf2_leb128_as_unsigned.
    destruct (dwarf2_get_leb128_as_unsigned (mem ctx) (data traverse))
      as [[sz e] |] eqn:H; [| discriminate].
    cbn. intros [= <-]. eexists. split; [reflexivity |]. cbn.
    apply get_leb128_as_unsigned_range in H.
    rewrite uint32_small by lia. lia.
  - unfold dwarf2_parse_byte.
    destruct (dwarf2_get_byte (mem ctx) (data traverse)) as [sz |] eqn:H;
      [| discriminate].
    cbn. intros [= <-]. eexists. split; [reflexivity |]. cbn.
    apply get_byte_range in H. rewrite uint32_small by lia. lia.
  - unfold dwarf2_parse_u2.
    destruct (dwarf2_get_u2 (mem ctx) (data traverse)) as [sz |] eqn:H;
      [| discriminate].
    cbn. intros [= <-]. eexists. split; [reflexivity |]. cbn.
    apply get_u2_range in H. rewrite uint32_small by lia. lia.
  - unfold dwarf2_parse_u4.
    destruct (dwarf2_get_u4 (mem ctx) (data traverse)) as [sz |] eqn:H;
      [| discriminate].
    cbn. intros [= <-]. eexists. split; [reflexivity |]. cbn.
    apply get_u4_range in H. rewrite uint32_small by lia. lia.
Qed.

(** ** Location expressions *)

Lemma loc_push_first v : loc_push [0] v = Some [uint32 v; 0].
Proof. reflexivity. Qed.

(** A block of one operation. *)
Lemma compute_location_one_op junk ctx e dw xloc offset in_register op
  lctx' loc' in_register' piece_found' :
  dwarf2_find_attribute ctx e dw (uninitialized junk) = Some (true, xloc) ->
  is_constant_form (a_form xloc) = false ->
  0 < u_block_size xloc ->
  dwarf2_get_byte (mem ctx) (u_block_ptr xloc) = Some op ->
  compute_location_op (mem ctx)
    {| data := u_block_ptr xloc + 1; start_data := junk;
       end_data := u_block_ptr xloc + u_block_size xloc;
       word_size := ctx_word_size ctx |}
    [0] (option_map (fun _ => Wine_DW_no_register) in_register) false op
  = Some (LocNext lctx' loc' in_register' piece_found') ->
  end_data lctx' <= data lctx' ->
  dwarf2_compute_location junk ctx e dw offset in_register
  = Some (TRUE, loc_top loc', in_register').
Proof.
  intros Hfind Hform Hsize Hop Hstep Hend.
  unfold dwarf2_compute_location. rewrite Hfind. cbn [mbind option_bind negb].
  rewrite Hform.
  destruct (u_block_size xloc =? 0) eqn:E; [apply Z.eqb_eq in E; lia |].
  destruct (Z.to_nat (u_block_size xloc)) as [| k] eqn:Hk; [lia |].
  cbn [compute_location_loop data end_data].
  destruct (u_block_ptr xloc <? u_block_ptr xloc + u_block_size xloc) eqn:E1;
    [| apply Z.ltb_ge in E1; lia].
  unfold dwarf2_parse_byte. cbn [data]. rewrite Hop.
  unfold set_data. cbn [mbind option_bind data start_data end_data word_size].
  rewrite Hstep. cbn [mbind option_bind].
  destruct k as [| k]; cbn [compute_location_loop];
    (destruct (data lctx' <? end_data lctx') eqn:E2;
     [apply Z.ltb_lt in E2; lia | reflexivity]).
Qed.

(** The location [DW_OP_addr A] of a unit with words of four bytes: the
    evaluator answers [TRUE] with the offset [A], the four bytes after the
    opcode read as a little-endian word, and reports that no register is
    involved. *)
Theorem location_of_an_address (junk : Z) (ctx : dwarf2_parse_context_t)
  (e : dwarf2_debug_info_t) (dw : Z) (xloc : struct_attribute)
  (A offset : Z) (in_register : option Z) :
  dwarf2_find_attribute ctx e dw (uninitialized junk) = Some (true, xloc) ->
  is_constant_form (a_form xloc) = false ->
  ctx_word_size ctx = 4 ->
  u_block_size xloc = 5 ->
  dwarf2_get_byte (mem ctx) (u_block_ptr xloc) = Some DW_OP_addr ->
  dwarf2_get_u4 (mem ctx) (u_block_ptr xloc + 1) = Some A ->
  dwarf2_compute_location junk ctx e dw offset in_register
  = Some (TRUE, A, option_map (fun _ => Wine_DW_no_register) in_register).
Proof.
  intros Hfind Hform Hws Hsize Hop HA.
  pose proof (get_u4_range _ _ _ HA) as Hrange.
  apply (compute_location_one_op junk ctx e dw xloc offset in_register
           DW_OP_addr
           {| data := u_block_ptr xloc + 1 + 4; start_data := junk;
              end_data := u_block_ptr xloc + u_block_size xloc;
              word_size := ctx_word_size ctx |}
           [A; 0] (option_map (fun _ => Wine_DW_no_register) in_register)
           false Hfind Hform); [lia | exact Hop | | cbn; lia].
  rewrite Hws. cbn. unfold dwarf2_parse_addr, dwarf2_get_addr.
  cbn. rewrite HA. cbn. rewrite loc_push_first, uint32_small by exact Hrange.
  reflexivity.
Qed.

(** The location [DW_OP_fbreg N]: the offset is [N] (as an
    [unsigned long]) and [*in_register] is the frame register with the
    dereference flag, [Wine_DW_frame_register | Wine_DW_register_deref],
    which is -2 as an [int]; a null [in_register] stays untouched. *)
Theorem location_relative_to_the_frame (junk : Z)
  (ctx : dwarf2_parse_context_t) (e : dwarf2_debug_info_t) (dw : Z)
  (xloc : struct_attribute) (N offset : Z) (in_register : option Z) :
  dwarf2_find_attribute ctx e dw (uninitialized junk) = Some (true, xloc) ->
  is_constant_form (a_form xloc) = false ->
  dwarf2_get_byte (mem ctx) (u_block_ptr xloc) = Some DW_OP_fbreg ->
  dwarf2_get_leb128_as_signed (mem ctx) (u_block_ptr xloc + 1)
  = Some (N, u_block_ptr xloc + u_block_size xloc) ->
  dwarf2_compute_location junk ctx e dw offset in_register
  = Some (TRUE, uint32 N, option_map (fun _ => -2) in_register).
Proof.
  intros Hfind Hform Hop HN.
  pose proof (get_leb128_as_signed_range _ _ _ _ HN) as Hrange.
  apply (compute_location_one_op junk ctx e dw xloc offset in_register
           DW_OP_fbreg
           {| data := u_block_ptr xloc + u_block_size xloc; start_data := junk;
              end_data := u_block_ptr xloc + u_block_size xloc;
              word_size := ctx_word_size ctx |}
           [uint32 N; 0] (option_map (fun _ => -2) in_register)
           false Hfind Hform); [lia | exact Hop | | cbn; lia].
  cbn. unfold dwarf2_leb128_as_signed. cbn. rewrite HN. cbn.
  rewrite loc_push_first. destruct in_register; reflexivity.
Qed.

(** The location [DW_OP_plus_uconst N], as compilers write it for the
    members of a structure: the offset is [N], added to the 0 the stack
    starts with, and no register is involved. *)
Theorem location_of_a_member (junk : Z) (ctx : dwarf2_parse_context_t)
  (e : dwarf2_debug_info_t) (dw : Z) (xloc : struct_attribute)
  (N offset : Z) (in_register : option Z) :
  dwarf2_find_attribute ctx e dw (uninitialized junk) = Some (true, xloc) ->
  is_constant_form (a_form xloc) = false ->
  dwarf2_get_byte (mem ctx) (u_block_ptr xloc) = Some DW_OP_plus_uconst ->
  dwarf2_get_leb128_as_unsigned (mem ctx) (u_block_ptr xloc + 1)
  = Some (N, u_block_ptr xloc + u_block_size xloc) ->
  dwarf2_compute_location junk ctx e dw offset in_register
  = Some (TRUE, N, option_map (fun _ => Wine_DW_no_register) in_register).
Proof.
  intros Hfind Hform Hop HN.
  pose proof (get_leb128_as_unsigned_range _ _ _ _ HN) as Hrange.
  apply (compute_location_one_op junk ctx e dw xloc offset in_register
           DW_OP_plus_uconst
           {| data := u_block_ptr xloc + u_block_size xloc; start_data := junk;
              end_data := u_block_ptr xloc + u_block_size xloc;
              word_size := ctx_word_size ctx |}
           [N] (option_map (fun _ => Wine_DW_no_register) in_register)
           false Hfind Hform); [lia | exact Hop | | cbn; lia].
  cbn. unfold dwarf2_leb128_as_unsigned. cbn. rewrite HN. cbn.
  change ((0 + N) mod 4294967296) with (uint32 N).
  rewrite uint32_small by lia. reflexivity.
Qed.

(** The locations in a register.  [DW_OP_regN] alone gives the offset 0
    and the register [N].  [DW_OP_bregN] with the displacement [D] gives
    the offset [D] and the dereference flag, but the register number it
    stores is [DW_OP_bregN - DW_OP_reg0], that is [32 + N], not [N]: the
    number [dwarf2_parse_variable] hands to [dwarf2_map_register] for a
    variable at [DW_OP_breg5] (ebp) is 37. *)
Theorem location_in_a_register (junk : Z) (ctx : dwarf2_parse_context_t)
  (e : dwarf2_debug_info_t) (dw : Z) (xloc : struct_attribute)
  (N offset r0 : Z) :
  dwarf2_find_attribute ctx e dw (uninitialized junk) = Some (true, xloc) ->
  is_constant_form (a_form xloc) = false ->
  0 <= N < 32 ->
  (u_block_size xloc = 1 ->
   dwarf2_get_byte (mem ctx) (u_block_ptr xloc) = Some (DW_OP_reg0 + N) ->
   dwarf2_compute_location junk ctx e dw offset (Some r0)
   = Some (TRUE, 0, Some N))
  /\ (forall D,
        dwarf2_get_byte (mem ctx) (u_block_ptr xloc) = Some (DW_OP_breg0 + N) ->
        dwarf2_get_leb128_as_signed (mem ctx) (u_block_ptr xloc + 1)
        = Some (D, u_block_ptr xloc + u_block_size xloc) ->
        exists in_reg,
          dwarf2_compute_location junk ctx e dw offset (Some r0)
          = Some (TRUE, uint32 D, Some in_reg)
          /\ Z.land (uint32 in_reg) (Z.lnot Wine_DW_register_deref) = 32 + N
          /\ Z.land (uint32 in_reg) Wine_DW_register_deref
             = Wine_DW_register_deref).
Proof.
  intros Hfind Hform HN. split.
  - intros Hsize Hop.
    apply (compute_location_one_op junk ctx e dw xloc offset (Some r0)
             (DW_OP_reg0 + N)
             {| data := u_block_ptr xloc + 1; start_data := junk;
                end_data := u_block_ptr xloc + u_block_size xloc;
                word_size := ctx_word_size ctx |}
             [0] (Some N) false Hfind Hform); [lia | exact Hop | | cbn; lia].
    assert (HN' : exists n, N = Z.of_nat n /\ (n < 32)%nat)
      by (exists (Z.to_nat N); lia).
    destruct HN' as (n & -> & Hn).
    do 32 (destruct n as [| n]; [reflexivity |]). lia.
  - intros D Hop HD.
    pose proof (get_leb128_as_signed_range _ _ _ _ HD) as Hrange.
    assert (HN' : exists n, N = Z.of_nat n /\ (n < 32)%nat)
      by (exists (Z.to_nat N); lia).
    destruct HN' as (n & -> & Hn).
    exists (sint32 (Z.lor (32 + Z.of_nat n) Wine_DW_register_deref)).
    split; [| split].
    + apply (compute_location_one_op junk ctx e dw xloc offset (Some r0)
               (DW_OP_breg0 + Z.of_nat n)
               {| data := u_block_ptr xloc + u_block_size xloc;
                  start_data := junk;
                  end_data := u_block_ptr xloc + u_block_size xloc;
                  word_size := ctx_word_size ctx |}
               [uint32 D; 0]
               (Some (sint32 (Z.lor (32 + Z.of_nat n) Wine_DW_register_deref)))
               false Hfind Hform); [lia | exact Hop | | cbn; lia].
      assert (Hrun : dwarf2_leb128_as_signed (mem ctx)
                {| data := u_block_ptr xloc + 1; start_data := junk;
                   end_data := u_block_ptr xloc + u_block_size xloc;
                   word_size := ctx_word_size ctx |}
              = Some (D, {| data := u_block_ptr xloc + u_block_size xloc;
                            start_data := junk;
                            end_data := u_block_ptr xloc + u_block_size xloc;
                            word_size := ctx_word_size ctx |})).
      { unfold dwarf2_leb128_as_signed. cbn [data]. rewrite HD. reflexivity. }
      do 32 (destruct n as [| n];
             [unfold compute_location_op; cbn [option_map];
              rewrite Hrun; cbn [mbind option_bind]; rewrite loc_push_first;
              reflexivity |]).
      lia.
    + do 32 (destruct n as [| n]; [vm_compute; reflexivity |]). lia.
    + do 32 (destruct n as [| n]; [vm_compute; reflexivity |]). lia.
Qed.


(** ** The table of abbreviations *)

Lemma parse_abbrev_attrs_nonzero fuel m abbrev_ctx l abbrev_ctx' :
  parse_abbrev_attrs fuel m abbrev_ctx = Some (l, abbrev_ctx') ->
  Forall (fun x => attribute x <> 0) l.
Proof.
  revert abbrev_ctx l abbrev_ctx'.
  induction fuel as [| fuel IH]; intros abbrev_ctx l abbrev_ctx';
    cbn [parse_abbrev_attrs]; [discriminate |].
  destruct (dwarf2_leb128_as_unsigned m abbrev_ctx) as [[a c1] |];
    [| discriminate].
  cbn [mbind option_bind].
  destruct (dwarf2_leb128_as_unsigned m c1) as [[f c2] |]; [| discriminate].
  cbn [mbind option_bind].
  destruct (a =? 0) eqn:E.
  - intros [= <- _]. constructor.
  - destruct (parse_abbrev_attrs fuel m c2) as [[l' c3] |] eqn:H;
      [| discriminate].
    cbn [mbind option_bind]. intros [= <- _].
    constructor; [cbn; apply Z.eqb_neq; exact E | eapply IH; exact H].
Qed.

Lemma parse_abbrev_entries_ok fuel m abbrev_ctx t t' :
  abbrev_table_ok t ->
  parse_abbrev_entries fuel m abbrev_ctx t = Some t' ->
  abbrev_table_ok t' /\ t ⊆ t'.
Proof.
  revert abbrev_ctx t.
  induction fuel as [| fuel IH]; intros abbrev_ctx t Hok;
    cbn [parse_abbrev_entries]; [discriminate |].
  destruct (data abbrev_ctx <? end_data abbrev_ctx);
    [| intros [= <-]; auto].
  destruct (dwarf2_leb128_as_unsigned m abbrev_ctx) as [[code c1] |];
    [| discriminate].
  cbn [mbind option_bind].
  destruct (code =? 0) eqn:E; [intros [= <-]; auto |].
  apply Z.eqb_neq in E.
  destruct (dwarf2_leb128_as_unsigned m c1) as [[tg c2] |]; [| discriminate].
  cbn [mbind option_bind].
  destruct (dwarf2_parse_byte m c2) as [[hc c3] |]; [| discriminate].
  cbn [mbind option_bind].
  destruct (parse_abbrev_attrs _ m c3) as [[l c4] |] eqn:Hl; [| discriminate].
  cbn [mbind option_bind].
  unfold sparse_array_add.
  destruct (t !! code) eqn:Hcode; [discriminate |].
  cbn [mbind option_bind]. intros H.
  apply IH in H.
  - destruct H as [Hok' Hsub]. split; [exact Hok' |].
    etransitivity; [| exact Hsub]. apply insert_subseteq. exact Hcode.
  - intros k a. destruct (Z.eq_dec k code) as [-> | Hne].
    + rewrite lookup_insert_eq. intros [= <-]. cbn.
      repeat split; auto.
      eapply parse_abbrev_attrs_nonzero. exact Hl.
    + rewrite lookup_insert_ne by auto. apply Hok.
Qed.

(** Every abbreviation that [dwarf2_parse_abbrev_set] stores sits under
    its own code, which is not 0, has in [num_attr] the number of nodes of
    its list [attrs], and has no node with the attribute 0.  A section
    with no byte before its end, or whose first code is 0, gives the empty
    table. *)
Theorem abbrev_set_is_well_formed (m : memory)
  (abbrev_ctx : dwarf2_traverse_context_t) :
  (forall t, dwarf2_parse_abbrev_set m abbrev_ctx = Some t ->
             abbrev_table_ok t)
  /\ (end_data abbrev_ctx <= data abbrev_ctx ->
      dwarf2_parse_abbrev_set m abbrev_ctx = Some ∅)
  /\ (dwarf2_get_byte m (data abbrev_ctx) = Some 0 ->
      dwarf2_parse_abbrev_set m abbrev_ctx = Some ∅).
Proof.
  unfold dwarf2_parse_abbrev_set. split; [| split].
  - intros t H. apply parse_abbrev_entries_ok in H; [apply H |].
    intros k a Hk. rewrite lookup_empty in Hk. discriminate.
  - intros H. cbn [parse_abbrev_entries].
    destruct (data abbrev_ctx <? end_data abbrev_ctx) eqn:E;
      [apply Z.ltb_lt in E; lia | reflexivity].
  - intros H. cbn [parse_abbrev_entries].
    destruct (data abbrev_ctx <? end_data abbrev_ctx); [| reflexivity].
    unfold dwarf2_leb128_as_unsigned, dwarf2_get_leb128_as_unsigned.
    unfold dwarf2_get_byte in H.
    destruct (bytes_at m (data abbrev_ctx)) as [| b bs]; [discriminate |].
    injection H as ->. reflexivity.
Qed.

(** ** The tree of entries *)

Lemma swallow_attributes_length m traverse l ps traverse' :
  swallow_attributes m traverse l = Some (ps, traverse') ->
  length ps = length l.
Proof.
  revert traverse ps traverse'.
  induction l as [| a l IH]; intros traverse ps traverse';
    cbn [swallow_attributes].
  - intros [= <- _]. reflexivity.
  - destruct (dwarf2_swallow_attribute m traverse a) as [t1 |]; [| discriminate].
    cbn [mbind option_bind].
    destruct (swallow_attributes m t1 l) as [[ps' t2] |] eqn:H; [| discriminate].
    cbn [mbind option_bind]. intros [= <- _]. cbn [length].
    f_equal. eapply IH. exact H.
Qed.

Lemma only_entries_added_refl c : only_entries_added c c.
Proof. split; [destruct c; reflexivity | auto]. Qed.

Lemma only_entries_added_trans c1 c2 c3 :
  only_entries_added c1 c2 -> only_entries_added c2 c3 ->
  only_entries_added c1 c3.
Proof.
  intros [E1 D1] [E2 D2]. split; [| auto].
  rewrite E2 at 1. rewrite E1 at 1. reflexivity.
Qed.

Lemma only_entries_added_insert c k e :
  only_entries_added c
    (set_debug_info_table c (<[k := e]> (debug_info_table c))).
Proof.
  split; [reflexivity |]. intros k0 H. cbn.
  apply lookup_insert_is_Some. destruct (Z.eq_dec k k0); auto.
Qed.

Lemma entries_ok_insert ctx k e :
  entries_ok ctx ->
  length (di_data e) = length (attrs (abbrev e)) ->
  Forall (fun c => is_Some (<[k := e]> (debug_info_table ctx) !! c))
    (children e) ->
  entries_ok (set_debug_info_table ctx (<[k := e]> (debug_info_table ctx))).
Proof.
  intros Hok Hlen Hch k0 e0. cbn [debug_info_table set_debug_info_table].
  destruct (Z.eq_dec k0 k) as [-> | Hne].
  - rewrite lookup_insert_eq. intros [= <-]. auto.
  - rewrite lookup_insert_ne by auto. intros H0.
    destruct (Hok _ _ H0) as [Hl Hc]. split; [exact Hl |].
    eapply Forall_impl; [exact Hc |]. intros c Hc0.
    apply lookup_insert_is_Some. destruct (Z.eq_dec k c); auto.
Qed.

Lemma update_di_inv key f ctx u ctx' :
  update_di key f ctx = Done u ctx' ->
  exists e, debug_info_table ctx !! key = Some e
            /\ ctx' = set_debug_info_table ctx
                        (<[key := f e]> (debug_info_table ctx)).
Proof.
  unfold update_di. destruct (debug_info_table ctx !! key) as [e |];
    [| discriminate].
  intros [= _ <-]. eauto.
Qed.

Lemma read_entries_ok junk fuel :
  (forall traverse ctx r ctx',
     abbrev_table_ok (abbrev_table ctx) ->
     entries_ok ctx ->
     dwarf2_read_one_debug_info junk fuel traverse ctx = Done r ctx' ->
     entries_ok ctx' /\ only_entries_added ctx ctx'
     /\ (forall ok tr k,
           r = (ok, tr, Some (Some k)) ->
           ok = true
           /\ k = data traverse - address (sections ctx (section ctx))
           /\ is_Some (debug_info_table ctx' !! k)))
  /\ (forall parent traverse ctx r ctx',
        abbrev_table_ok (abbrev_table ctx) ->
        entries_ok ctx ->
        is_Some (debug_info_table ctx !! parent) ->
        read_children junk fuel parent traverse ctx = Done r ctx' ->
        entries_ok ctx' /\ only_entries_added ctx ctx').
Proof.
  induction fuel as [| fuel [IHP IHQ]]; [split; intros; discriminate |].
  split.
  - intros traverse ctx r ctx' Habbrev Hok.
    cbn [dwarf2_read_one_debug_info].
    unfold bind at 1. cbn [get_ctx].
    set (offset := data traverse - address (sections ctx (section ctx))).
    unfold bind at 1.
    destruct (dwarf2_leb128_as_unsigned (mem ctx) traverse)
      as [[entry_code tr0] |]; cbn [lift ret]; [| discriminate].
    destruct (entry_code =? 0).
    { intros [= <- <-]. split; [exact Hok |].
      split; [apply only_entries_added_refl | discriminate]. }
    destruct (abbrev_table ctx !! entry_code) as [ab |] eqn:Hab.
    2:{ intros [= <- <-]. split; [exact Hok |].
        split; [apply only_entries_added_refl | discriminate]. }
    unfold sparse_array_add.
    destruct (debug_info_table ctx !! offset) eqn:Hfresh.
    { intros [= <- <-]. split; [exact Hok |].
      split; [apply only_entries_added_refl | discriminate]. }
    destruct (Habbrev _ _ Hab) as (_ & _ & Hnum & _).
    unfold bind at 1. unfold bind at 1.
    (* the entry with its data *)
    set (c1 := set_debug_info_table ctx _).
    assert (Hstep : exists ps tr1,
      (if num_attr ab =? 0 then ret tr0
       else bind (lift (swallow_attributes (mem ctx) tr0 (attrs ab)))
              (fun '(ps, traverse1) =>
                 bind (update_di offset (fun e => set_di_data e ps))
                   (fun _ => ret traverse1))) c1
      = Done tr1
          (set_debug_info_table ctx
             (<[offset := {| abbrev := ab; symt := None; di_data := ps;
                             children := [] |}]> (debug_info_table ctx)))
      /\ length ps = length (attrs ab)
      \/ (if num_attr ab =? 0 then ret tr0
          else bind (lift (swallow_attributes (mem ctx) tr0 (attrs ab)))
                 (fun '(ps, traverse1) =>
                    bind (update_di offset (fun e => set_di_data e ps))
                      (fun _ => ret traverse1))) c1 = Fault).
    { destruct (num_attr ab =? 0) eqn:En.
      - apply Z.eqb_eq in En. exists [], tr0. left. split; [reflexivity |].
        destruct (attrs ab); [reflexivity | cbn in Hnum; lia].
      - destruct (swallow_attributes (mem ctx) tr0 (attrs ab))
          as [[ps tr1] |] eqn:Hsw.
        + exists ps, tr1. left. split.
          * unfold bind at 1. cbn [lift ret]. unfold bind, update_di. subst c1.
            cbn [debug_info_table set_debug_info_table].
            rewrite lookup_insert_eq. cbn. rewrite insert_insert_eq.
            reflexivity.
          * eapply swallow_attributes_length. exact Hsw.
        + exists [], tr0. right. reflexivity. }
    destruct Hstep as (ps & tr1 & [[Hrun Hlen] | Hfault]);
      [rewrite Hrun | rewrite Hfault; discriminate].
    clear Hrun c1.
    set (c2 := set_debug_info_table ctx _).
    assert (Hok2 : entries_ok c2).
    { apply entries_ok_insert; [exact Hok | exact Hlen | constructor]. }
    assert (Hadd2 : only_entries_added ctx c2)
      by apply only_entries_added_insert.
    assert (Hpresent : is_Some (debug_info_table c2 !! offset)).
    { subst c2. cbn. rewrite lookup_insert_eq. eauto. }
    intros H. apply bind_inv in H.
    destruct H as ([ok tr2] & c3 & Hchildren & H).
    assert (H3 : entries_ok c3 /\ only_entries_added c2 c3).
    { destruct (have_child ab =? 0).
      - injection Hchildren as _ _ <-.
        split; [exact Hok2 | apply only_entries_added_refl].
      - eapply IHQ; [exact Habbrev | exact Hok2 | exact Hpresent
                    | exact Hchildren]. }
    destruct H3 as [Hok3 Hadd3].
    pose proof (only_entries_added_trans _ _ _ Hadd2 Hadd3) as Hadd.
    destruct ok; cbn [negb] in H.
    2:{ injection H as <- <-. split; [exact Hok3 |].
        split; [exact Hadd | discriminate]. }
    apply bind_inv in H. destruct H as (di & c4 & Hget & H).
    apply get_di_inv in Hget. destruct Hget as [-> Hdi].
    unfold bind at 1 in H. cbn [get_ctx] in H.
    apply bind_inv in H. destruct H as ([found sibling] & c5 & Hfind & H).
    apply lift_inv in Hfind. destruct Hfind as [-> _].
    injection H as <- <-.
    split; [exact Hok3 |]. split; [exact Hadd |].
    intros ok tr k [= <- _ <-]. eauto.
  - intros parent traverse ctx r ctx' Habbrev Hok Hparent.
    cbn [read_children].
    destruct (data traverse <? end_data traverse).
    2:{ intros [= <- <-]. split; [exact Hok | apply only_entries_added_refl]. }
    intros H. apply bind_inv in H.
    destruct H as ([[ok tr1] child] & c1 & Hone & H).
    destruct (IHP _ _ _ _ Habbrev Hok Hone) as (Hok1 & Hadd1 & Hchild).
    destruct ok; cbn [negb] in H.
    2:{ injection H as <- <-. auto. }
    destruct child as [[c |] |].
    + apply bind_inv in H. destruct H as (u & c2 & Hupd & H).
      apply update_di_inv in Hupd. destruct Hupd as (e & He & ->).
      destruct (Hchild _ _ _ eq_refl) as (_ & _ & Hchild').
      destruct (Hok1 _ _ He) as [Hl Hc].
      assert (Habbrev1 : abbrev_table_ok (abbrev_table c1)).
      { destruct Hadd1 as [-> _]. exact Habbrev. }
      eapply IHQ in H.
      * destruct H as [Hok' Hadd']. split; [exact Hok' |].
        eapply only_entries_added_trans; [exact Hadd1 |].
        eapply only_entries_added_trans; [| exact Hadd'].
        apply only_entries_added_insert.
      * exact Habbrev1.
      * apply entries_ok_insert; [exact Hok1 | exact Hl |].
        cbn [children set_children]. apply Forall_app. split.
        -- eapply Forall_impl; [exact Hc |]. intros c0 Hc0.
           apply lookup_insert_is_Some. destruct (Z.eq_dec parent c0); auto.
        -- constructor; [| constructor].
           apply lookup_insert_is_Some. destruct (Z.eq_dec parent c); auto.
      * cbn. apply lookup_insert_is_Some. auto.
    + injection H as <- <-. auto.
    + injection H as <- <-. auto.
Qed.


(** ** The symbol builders *)

Section MoreBuilders.

Variable junk : Z.
Variable elf_is_in_thunk_area : Z -> Z.
Variable symt_get_info_length : module_t -> symt_ptr -> option Z.

Local Abbreviation load :=
  (dwarf2_load_one_entry junk elf_is_in_thunk_area symt_get_info_length).

(** Building symbols changes nothing of what was read.  Whatever entry
    [dwarf2_load_one_entry] is given, when it returns, the memory, the
    sections, the table of abbreviations, the word size and the base of
    the module are as before; the table of entries has the same keys, and
    every entry has the abbreviation, the raw values and the children it
    had (only its symbol may differ); and the calls made to the symbol
    table before are still there, in order, before the new ones. *)
Theorem building_symbols_only_extends (fuel : nat) (di : Z)
  (compiland : symt_ptr) (ctx ctx' : dwarf2_parse_context_t) :
  load fuel di compiland ctx = Done tt ctx' ->
  extends ctx ctx'.
Proof.
  intros H.
  exact (preserves_load_one_entry junk elf_is_in_thunk_area
           symt_get_info_length fuel di compiland ctx tt ctx' H).
Qed.

(** A reference type is built exactly as a pointer type: for an entry
    whose byte size, if any, can be decoded, [dwarf2_parse_reference_type]
    and [dwarf2_parse_pointer_type] have the same result and the same
    effect, one [symt_new_pointer] to the referenced type. *)
Theorem reference_is_built_as_pointer
  (load_one_entry : Z -> symt_ptr -> M unit) (di : Z)
  (e : dwarf2_debug_info_t) (ctx : dwarf2_parse_context_t) :
  debug_info_table ctx !! di = Some e ->
  is_Some (dwarf2_find_attribute ctx e DW_AT_byte_size (uninitialized junk)) ->
  dwarf2_parse_reference_type junk load_one_entry di ctx
  = dwarf2_parse_pointer_type junk load_one_entry di ctx.
Proof.
  intros He Hsize.
  unfold dwarf2_parse_reference_type, dwarf2_parse_pointer_type.
  rewrite !(bind_Done _ _ _ _ _ (get_di_Done _ _ _ He)).
  destruct (symt e); [reflexivity |].
  destruct (find_attribute_or_run ctx e DW_AT_byte_size (uninitialized junk) 0
              Hsize) as [a Ha].
  rewrite (bind_Done _ _ _ _ _ Ha). reflexivity.
Qed.

(** A subprogram whose low address lies in a thunk area is dropped:
    [dwarf2_parse_subprogram] answers the null pointer, makes no call into
    the symbol table and stores no symbol, so every later request for the
    entry is answered the same way. *)
Theorem subprogram_in_thunk_area_is_dropped
  (load_one_entry : Z -> symt_ptr -> M unit) (fuel : nat) (di : Z)
  (e : dwarf2_debug_info_t) (compiland : symt_ptr)
  (ctx : dwarf2_parse_context_t) (found : bool) (low_pc : struct_attribute) :
  debug_info_table ctx !! di = Some e ->
  symt e = None ->
  dwarf2_find_attribute ctx e DW_AT_low_pc (uninitialized junk)
  = Some (found, low_pc) ->
  is_Some (dwarf2_find_attribute ctx e DW_AT_high_pc (uninitialized junk)) ->
  0 <= elf_is_in_thunk_area
         (uint32 (BaseOfImage (module ctx)
                  + (if found then u_uvalue low_pc else 0))) ->
  dwarf2_parse_subprogram junk elf_is_in_thunk_area load_one_entry fuel di
    compiland ctx
  = Done None ctx.
Proof.
  intros He Hsymt Hlow [[fh high] Hhigh] Hthunk.
  unfold dwarf2_parse_subprogram.
  rewrite (bind_Done _ _ _ _ _ (get_di_Done _ _ _ He)), Hsymt.
  unfold find_attribute_or.
  unfold bind at 1. unfold bind at 1. cbn [get_ctx]. rewrite Hlow.
  unfold bind at 1. cbn [lift ret].
  unfold bind at 1. unfold bind at 1. cbn [get_ctx]. rewrite Hhigh.
  unfold bind at 1. cbn [lift ret].
  unfold bind at 1. cbn [get_ctx].
  assert (Hv : u_uvalue (if found then low_pc else set_uvalue low_pc 0)
               = if found then u_uvalue low_pc else 0)
    by (destruct found; reflexivity).
  rewrite Hv.
  destruct (0 <=? _) eqn:E; [reflexivity | apply Z.leb_gt in E; lia].
Qed.

End MoreBuilders.

(** *** A symbol that was built is the symbol of every later request *)


Lemma di_symt_holds di c s ctx' :
  di_symt di c = Done (Some s) ctx' -> holds_symbol ctx' di s.
Proof.
  intros H. apply di_symt_inv in H. destruct H as (-> & e & He & Hs).
  exists e. auto.
Qed.

Lemma set_di_symt_holds di r c u c' s ctx' :
  set_di_symt di r c = Done u c' ->
  ret r c' = Done (Some s) ctx' ->
  holds_symbol ctx' di s.
Proof.
  unfold set_di_symt, ret.
  destruct (debug_info_table c !! di) as [e |]; [| discriminate].
  intros [= _ <-] [= -> <-].
  exists (set_symt e (Some s)). cbn. rewrite lookup_insert_eq. auto.
Qed.

(** Strips a run down to its last step. *)
Ltac last_step H :=
  repeat first
    [ match type of H with
      | bind _ _ _ = _ =>
          let H1 := fresh "Hrun" in
          apply bind_inv in H; destruct H as (? & ? & H1 & H)
      end
    | match type of H with
      | (if ?b then _ else _) _ = _ => destruct b
      | (match ?x with Some _ => _ | None => _ end) _ = _ => destruct x
      | (match ?x with pair _ _ => _ end) _ = _ => destruct x
      end ].

Section Stored.

Variable junk : Z.
Variable elf_is_in_thunk_area : Z -> Z.
Variable symt_get_info_length : module_t -> symt_ptr -> option Z.
Variable load_one_entry : Z -> symt_ptr -> M unit.

Lemma memo_holds di e s0 s ctx ctx' :
  debug_info_table ctx !! di = Some e ->
  symt e = Some s0 ->
  ret (Some s0) ctx = Done (Some s) ctx' ->
  holds_symbol ctx' di s.
Proof. intros He Hs [= <- <-]. exists e. auto. Qed.

Ltac stored :=
  let H := fresh "H" in
  let e := fresh "e" in
  let He := fresh "He" in
  intros H;
  apply bind_inv in H; destruct H as (e & ? & He & H);
  apply get_di_inv in He; destruct He as [-> He];
  destruct (symt e) eqn:?;
  [ eapply memo_holds; eauto
  | last_step H;
    first [ eapply di_symt_holds; eassumption
          | discriminate
          | eapply set_di_symt_holds; eassumption ] ].

Lemma base_type_stored di ctx s ctx' :
  dwarf2_parse_base_type junk di ctx = Done (Some s) ctx' ->
  holds_symbol ctx' di s.
Proof. unfold dwarf2_parse_base_type. stored. Qed.

Lemma typedef_stored di ctx s ctx' :
  dwarf2_parse_typedef junk load_one_entry di ctx = Done (Some s) ctx' ->
  holds_symbol ctx' di s.
Proof. unfold dwarf2_parse_typedef. stored. Qed.

Lemma pointer_type_stored di ctx s ctx' :
  dwarf2_parse_pointer_type junk load_one_entry di ctx = Done (Some s) ctx' ->
  holds_symbol ctx' di s.
Proof. unfold dwarf2_parse_pointer_type. stored. Qed.

Lemma array_type_stored di ctx s ctx' :
  dwarf2_parse_array_type junk load_one_entry di ctx = Done (Some s) ctx' ->
  holds_symbol ctx' di s.
Proof. unfold dwarf2_parse_array_type. stored. Qed.

Lemma const_type_stored di ctx s ctx' :
  dwarf2_parse_const_type junk load_one_entry di ctx = Done (Some s) ctx' ->
  holds_symbol ctx' di s.
Proof. unfold dwarf2_parse_const_type. stored. Qed.

Lemma volatile_type_stored di ctx s ctx' :
  dwarf2_parse_volatile_type junk load_one_entry di ctx = Done (Some s) ctx' ->
  holds_symbol ctx' di s.
Proof. unfold dwarf2_parse_volatile_type. stored. Qed.

Lemma reference_type_stored di ctx s ctx' :
  dwarf2_parse_reference_type junk load_one_entry di ctx = Done (Some s) ctx' ->
  holds_symbol ctx' di s.
Proof. unfold dwarf2_parse_reference_type. stored. Qed.

Lemma udt_type_stored di udt ctx s ctx' :
  dwarf2_parse_udt_type junk symt_get_info_length load_one_entry di udt ctx
  = Done (Some s) ctx' ->
  holds_symbol ctx' di s.
Proof. unfold dwarf2_parse_udt_type. stored. Qed.

Lemma enumeration_type_stored di ctx s ctx' :
  dwarf2_parse_enumeration_type junk di ctx = Done (Some s) ctx' ->
  holds_symbol ctx' di s.
Proof. unfold dwarf2_parse_enumeration_type. stored. Qed.

Lemma subprogram_stored fuel di compiland ctx s ctx' :
  dwarf2_parse_subprogram junk elf_is_in_thunk_area load_one_entry fuel di
    compiland ctx = Done (Some s) ctx' ->
  holds_symbol ctx' di s.
Proof. unfold dwarf2_parse_subprogram. stored. Qed.

Lemma subroutine_type_stored di ctx s ctx' :
  dwarf2_parse_subroutine_type junk load_one_entry di ctx = Done (Some s) ctx' ->
  holds_symbol ctx' di s.
Proof. unfold dwarf2_parse_subroutine_type. stored. Qed.

(** What a builder returns, it has stored: when one of the builders
    answers a symbol for an entry, the entry holds that symbol afterwards,
    so that the same request made again, at once or at any later point
    where the entry still holds it, is answered with the same symbol and
    changes nothing.  A null answer is not stored: an array type without
    children, a subprogram in a thunk area or a declared one are worked
    through again at each request. *)
Theorem returned_symbol_is_stored (fuel : nat) (compiland : symt_ptr)
  (udt : UdtKind) (di : Z) (ctx : dwarf2_parse_context_t) (s : nat)
  (ctx' : dwarf2_parse_context_t) :
  (dwarf2_parse_base_type junk di ctx = Done (Some s) ctx' ->
   holds_symbol ctx' di s
   /\ dwarf2_parse_base_type junk di ctx' = Done (Some s) ctx')
  /\ (dwarf2_parse_typedef junk load_one_entry di ctx = Done (Some s) ctx' ->
      holds_symbol ctx' di s
      /\ dwarf2_parse_typedef junk load_one_entry di ctx' = Done (Some s) ctx')
  /\ (dwarf2_parse_pointer_type junk load_one_entry di ctx
      = Done (Some s) ctx' ->
      holds_symbol ctx' di s
      /\ dwarf2_parse_pointer_type junk load_one_entry di ctx'
         = Done (Some s) ctx')
  /\ (dwarf2_parse_array_type junk load_one_entry di ctx
      = Done (Some s) ctx' ->
      holds_symbol ctx' di s
      /\ dwarf2_parse_array_type junk load_one_entry di ctx'
         = Done (Some s) ctx')
  /\ (dwarf2_parse_const_type junk load_one_entry di ctx
      = Done (Some s) ctx' ->
      holds_symbol ctx' di s
      /\ dwarf2_parse_const_type junk load_one_entry di ctx'
         = Done (Some s) ctx')
  /\ (dwarf2_parse_volatile_type junk load_one_entry di ctx
      = Done (Some s) ctx' ->
      holds_symbol ctx' di s
      /\ dwarf2_parse_volatile_type junk load_one_entry di ctx'
         = Done (Some s) ctx')
  /\ (dwarf2_parse_reference_type junk load_one_entry di ctx
      = Done (Some s) ctx' ->
      holds_symbol ctx' di s
      /\ dwarf2_parse_reference_type junk load_one_entry di ctx'
         = Done (Some s) ctx')
  /\ (dwarf2_parse_udt_type junk symt_get_info_length load_one_entry di udt
        ctx = Done (Some s) ctx' ->
      holds_symbol ctx' di s
      /\ dwarf2_parse_udt_type junk symt_get_info_length load_one_entry di
           udt ctx' = Done (Some s) ctx')
  /\ (dwarf2_parse_enumeration_type junk di ctx = Done (Some s) ctx' ->
      holds_symbol ctx' di s
      /\ dwarf2_parse_enumeration_type junk di ctx' = Done (Some s) ctx')
  /\ (dwarf2_parse_subprogram junk elf_is_in_thunk_area load_one_entry fuel
        di compiland ctx = Done (Some s) ctx' ->
      holds_symbol ctx' di s
      /\ dwarf2_parse_subprogram junk elf_is_in_thunk_area load_one_entry
           fuel di compiland ctx' = Done (Some s) ctx')
  /\ (dwarf2_parse_subroutine_type junk load_one_entry di ctx
      = Done (Some s) ctx' ->
      holds_symbol ctx' di s
      /\ dwarf2_parse_subroutine_type junk load_one_entry di ctx'
         = Done (Some s) ctx').
Proof.
  assert (Hagain : holds_symbol ctx' di s ->
    dwarf2_parse_base_type junk di ctx' = Done (Some s) ctx'
    /\ dwarf2_parse_typedef junk load_one_entry di ctx' = Done (Some s) ctx'
    /\ dwarf2_parse_pointer_type junk load_one_entry di ctx'
       = Done (Some s) ctx'
    /\ dwarf2_parse_array_type junk load_one_entry di ctx'
       = Done (Some s) ctx'
    /\ dwarf2_parse_const_type junk load_one_entry di ctx'
       = Done (Some s) ctx'
    /\ dwarf2_parse_volatile_type junk load_one_entry di ctx'
       = Done (Some s) ctx'
    /\ dwarf2_parse_reference_type junk load_one_entry di ctx'
       = Done (Some s) ctx'
    /\ dwarf2_parse_udt_type junk symt_get_info_length load_one_entry di
         udt ctx' = Done (Some s) ctx'
    /\ dwarf2_parse_enumeration_type junk di ctx' = Done (Some s) ctx'
    /\ dwarf2_parse_subprogram junk elf_is_in_thunk_area load_one_entry
         fuel di compiland ctx' = Done (Some s) ctx'
    /\ dwarf2_parse_subroutine_type junk load_one_entry di ctx'
       = Done (Some s) ctx').
  { intros (e & He & Hs).
    pose proof (built_symbol_is_returned junk elf_is_in_thunk_area
                  symt_get_info_length load_one_entry ctx' di e s He Hs) as H.
    repeat match goal with
           | |- _ /\ _ => split
           end; apply H. }
  repeat match goal with
         | |- _ /\ _ => split
         end; intros H;
    (assert (Hs : holds_symbol ctx' di s);
     [first [ exact (base_type_stored _ _ _ _ H)
            | exact (typedef_stored _ _ _ _ H)
            | exact (pointer_type_stored _ _ _ _ H)
            | exact (array_type_stored _ _ _ _ H)
            | exact (const_type_stored _ _ _ _ H)
            | exact (volatile_type_stored _ _ _ _ H)
            | exact (reference_type_stored _ _ _ _ H)
            | exact (udt_type_stored _ _ _ _ _ H)
            | exact (enumeration_type_stored _ _ _ _ H)
            | exact (subprogram_stored _ _ _ _ _ _ H)
            | exact (subroutine_type_stored _ _ _ _ H) ]
     | split; [exact Hs | apply (Hagain Hs)] ]).
Qed.

End Stored.

Section Members.

Variable junk : Z.
Variable elf_is_in_thunk_area : Z -> Z.
Variable symt_get_info_length : module_t -> symt_ptr -> option Z.

Local Abbreviation load :=
  (dwarf2_load_one_entry junk elf_is_in_thunk_area symt_get_info_length).
Local Abbreviation lookup_type fuel := (dwarf2_lookup_type junk (load fuel)).

(** A member of a structure is handed to [symt_add_udt_element] with its
    position and its width in bits.  The width is the bit-size attribute,
    or 0.  Without a bit-offset attribute the position is eight times the
    member location.  With one, the bit offset, which DWARF counts from
    the most significant bit of the storage unit, is turned round: the
    position is eight times the location plus [8 * n - bit_offset -
    bit_size], where [n] is the byte-size attribute of the member or, in
    its absence, the length of its type (0 when that is not known).  All
    of it is [unsigned long] arithmetic. *)
Theorem member_position_in_bits (fuel : nat) (ctx : dwarf2_parse_context_t)
  (di : Z) (e : dwarf2_debug_info_t) (parent : nat)
  (name : struct_attribute) (ctx1 : dwarf2_parse_context_t)
  (elt_type : symt_ptr) (ctx2 : dwarf2_parse_context_t)
  (found offset : Z) (has_size has_offset has_bytes : bool)
  (bit_size bit_offset nbytes : struct_attribute) :
  debug_info_table ctx !! di = Some e ->
  dwarf2_find_name e (uninitialized junk) "udt_member" ctx = Done name ctx1 ->
  lookup_type fuel di ctx1 = Done elt_type ctx2 ->
  dwarf2_compute_location junk ctx e DW_AT_data_member_location 0 None
  = Some (found, offset, None) ->
  dwarf2_find_attribute ctx e DW_AT_bit_size (uninitialized junk)
  = Some (has_size, bit_size) ->
  dwarf2_find_attribute ctx e DW_AT_bit_offset (uninitialized junk)
  = Some (has_offset, bit_offset) ->
  dwarf2_find_attribute ctx e DW_AT_byte_size (uninitialized junk)
  = Some (has_bytes, nbytes) ->
  let width := if has_size then u_uvalue bit_size else 0 in
  let n :=
    if has_bytes then u_uvalue nbytes
    else match symt_get_info_length (module ctx2) elt_type with
         | Some size => uint32 size
         | None => 0
         end in
  let position :=
    if has_offset
    then (8 * offset + (8 * n - u_uvalue bit_offset - width)) mod 2 ^ 32
    else (8 * offset) mod 2 ^ 32 in
  exists ctx',
    dwarf2_parse_udt_member junk symt_get_info_length (load fuel) di
      (Some parent) ctx = Done tt ctx'
    /\ calls (module ctx')
       = calls (module ctx2)
         ++ [symt_add_udt_element (Some parent)
               (string_at ctx2 (u_string name)) elt_type position width].
Proof.
  intros He Hname Hlook Hloc Hsize Hoffset Hbytes width n position.
  pose proof (preserves_find_name _ _ _ _ _ _ Hname) as E1.
  assert (E2 : extends ctx1 ctx2).
  { eapply preserves_lookup_type; [| exact Hlook].
    intros d c. apply preserves_load_one_entry. }
  pose proof (extends_trans _ _ _ E1 E2) as E02.
  exists (set_module ctx2
            (set_calls (module ctx2)
               (calls (module ctx2)
                ++ [symt_add_udt_element (Some parent)
                      (string_at ctx2 (u_string name)) elt_type position
                      width]))).
  split; [| reflexivity].
  unfold dwarf2_parse_udt_member.
  rewrite (bind_Done _ _ _ _ _ (get_di_Done _ _ _ He)).
  rewrite (bind_Done _ _ _ _ _ Hname).
  rewrite (bind_Done _ _ _ _ _ Hlook).
  unfold bind at 1. cbn [get_ctx].
  rewrite (compute_location_extends junk ctx ctx2) by exact E02.
  rewrite Hloc. unfold bind at 1. cbn [lift ret].
  unfold find_attribute_or.
  unfold bind at 1. unfold bind at 1. unfold bind at 1. cbn [get_ctx].
  rewrite (find_attribute_extends ctx ctx2) by exact E02.
  rewrite Hsize. unfold bind at 1. cbn [lift ret].
  rewrite (find_attribute_extends ctx ctx2) by exact E02.
  rewrite Hoffset. unfold bind at 1. cbn [lift ret].
  rewrite (find_attribute_extends ctx ctx2) by exact E02.
  rewrite Hbytes.
  assert (Hwidth : u_uvalue (if has_size then bit_size
                             else set_uvalue bit_size 0) = width)
    by (subst width; destruct has_size; reflexivity).
  rewrite Hwidth.
  assert (Hpos :
    uint32
      (Z.shiftl offset 3
       + u_uvalue
           (if has_offset
            then set_uvalue bit_offset
                   (u_uvalue
                      (if has_bytes then nbytes
                       else set_uvalue nbytes
                              match symt_get_info_length (module ctx2)
                                      elt_type with
                              | Some size => size
                              | None => 0
                              end) * 8 - u_uvalue bit_offset - width)
            else set_uvalue bit_offset 0))
    = position).
  { subst position n. rewrite Z.shiftl_mul_pow2 by lia. change (2 ^ 3) with 8.
    destruct has_offset, has_bytes; cbn [u_uvalue set_uvalue u_word0];
      unfold uint32;
      try destruct (symt_get_info_length (module ctx2) elt_type);
      rewrite ?Z.mod_mod by lia;
      try rewrite Zplus_mod_idemp_r; f_equal; try lia;
      change (0 mod 2 ^ 32) with 0; lia. }
  destruct has_offset; cbv beta iota in Hpos;
    cbv beta iota delta [bind name_of get_ctx ret lift call];
    rewrite Hpos; reflexivity.
Qed.

End Members.

(** ** The line-number program *)

Section MoreLines.

Variable symt_find_nearest : module_t -> Z -> Z.
Variable addr_sorttab : module_t -> Z -> symt_ptr.

Local Abbreviation set_line_number :=
  (dwarf2_set_line_number symt_find_nearest addr_sorttab).
Local Abbreviation program_opcode :=
  (line_program_opcode symt_find_nearest addr_sorttab).
Local Abbreviation program_sequence :=
  (line_program_sequence symt_find_nearest addr_sorttab).

(** [DW_LNS_const_add_pc] moves the address exactly as the special opcode
    255 does, and does nothing else: it records no line and leaves the
    line, the file and the flags of the sequence as they are. *)
Theorem const_add_pc_advances_as_opcode_255 (h : line_header)
  (files : list Z) (traverse : dwarf2_traverse_context_t)
  (r : line_registers) (ctx : dwarf2_parse_context_t) :
  DW_LNS_const_add_pc < opcode_base h <= 255 ->
  line_range h <> 0 ->
  exists address,
    program_opcode h files traverse r DW_LNS_const_add_pc ctx
    = Done (traverse,
            {| reg_address := address; reg_file := reg_file r;
               reg_line := reg_line r; reg_is_stmt := reg_is_stmt r;
               reg_basic_block := reg_basic_block r;
               reg_end_sequence := reg_end_sequence r |}) ctx
    /\ forall tr r255 ctx255,
         program_opcode h files traverse r 255 ctx = Done (tr, r255) ctx255 ->
         reg_address r255 = address.
Proof.
  intros Hbase Hrange.
  exists (uint32 (reg_address r
                  + (uint32 (255 - opcode_base h) / line_range h)
                    * insn_size h)).
  apply Z.eqb_neq in Hrange.
  assert (Hstd : forall op, op < opcode_base h -> (opcode_base h <=? op) = false)
    by (intros op Hop; apply Z.leb_gt; exact Hop).
  split.
  - unfold line_program_opcode. unfold bind at 1. cbn [get_ctx].
    rewrite (Hstd DW_LNS_const_add_pc) by lia.
    cbv [DW_LNS_const_add_pc DW_LNS_copy DW_LNS_advance_pc DW_LNS_advance_line
         DW_LNS_set_file DW_LNS_set_column DW_LNS_negate_stmt
         DW_LNS_set_basic_block].
    cbn [Z.eqb Pos.eqb]. rewrite Hrange. reflexivity.
  - intros tr r255 ctx255. unfold line_program_opcode.
    unfold bind at 1. cbn [get_ctx].
    destruct (opcode_base h <=? 255) eqn:E; [| apply Z.leb_gt in E; lia].
    rewrite Hrange. intros H. apply bind_inv in H.
    destruct H as (u & c & _ & H). injection H as _ <- _. reflexivity.
Qed.

(** Which opcodes record a line, and which end a sequence.  A turn of the
    interpreter leaves the context as it is or adds one
    [symt_add_func_line] to the module.  It adds none for a standard
    opcode other than [DW_LNS_copy] and [DW_LNS_extended_op]; and no
    opcode but [DW_LNS_extended_op] ends the sequence. *)
Theorem lines_come_from_three_opcodes (h : line_header) (files : list Z)
  (traverse traverse' : dwarf2_traverse_context_t)
  (r r' : line_registers) (opcode : Z) (ctx ctx' : dwarf2_parse_context_t) :
  program_opcode h files traverse r opcode ctx = Done (traverse', r') ctx' ->
  (ctx' = ctx
   \/ exists f src line offset,
        ctx' = set_module ctx
                 (set_calls (module ctx)
                    (calls (module ctx)
                     ++ [symt_add_func_line (Some f) src line offset])))
  /\ (opcode < opcode_base h -> opcode <> DW_LNS_copy ->
      opcode <> DW_LNS_extended_op -> ctx' = ctx)
  /\ (opcode <> DW_LNS_extended_op ->
      reg_end_sequence r' = reg_end_sequence r).
Proof.
  unfold line_program_opcode. unfold bind at 1. cbn [get_ctx].
  assert (Hline : forall address file line (res : dwarf2_traverse_context_t
                                                  * line_registers) c,
    bind (set_line_number address files file line) (fun _ => ret res) ctx
    = Done (traverse', r') c ->
    res = (traverse', r')
    /\ (c = ctx
        \/ exists f src line offset,
             c = set_module ctx
                   (set_calls (module ctx)
                      (calls (module ctx)
                       ++ [symt_add_func_line (Some f) src line offset])))).
  { intros address file line res c H. apply bind_inv in H.
    destruct H as ([] & c1 & Hset & H). injection H as -> ->.
    split; [reflexivity |].
    apply set_line_number_calls in Hset.
    destruct Hset as [-> | (f & src & fa & _ & _ & ->)]; [auto |].
    right. eauto. }
  destruct (opcode_base h <=? opcode) eqn:Ebase.
  { destruct (line_range h =? 0); [discriminate |].
    intros H. apply Hline in H. destruct H as [[= _ <-] H].
    split; [exact H |]. split; [| reflexivity].
    intros Hop. apply Z.leb_le in Ebase. lia. }
  destruct (opcode =? DW_LNS_copy) eqn:Ecopy.
  { intros H. apply Hline in H. destruct H as [[= _ <-] H].
    split; [exact H |]. split; [| reflexivity].
    intros _ Hne. apply Z.eqb_eq in Ecopy. contradiction. }
  repeat match goal with
         | |- context [if ?b then _ else _] => destruct b eqn:?
         end;
    intros H;
    repeat match type of H with
           | bind (lift ?o) _ _ = _ =>
               apply bind_inv in H;
               let x := fresh "x" in
               let c := fresh "c" in
               let Hl := fresh "Hl" in
               destruct H as (x & c & Hl & H);
               apply lift_inv in Hl; destruct Hl as [-> _];
               try destruct x
           | (if ?b then _ else _) _ = _ => destruct b eqn:?
           end;
    try discriminate;
    try (apply Hline in H; destruct H as [[= _ <-] H];
         split; [exact H |]; split;
         [intros _ _ Hne; exfalso; apply Hne; apply Z.eqb_eq; assumption
         | intros Hne; exfalso; apply Hne; apply Z.eqb_eq; assumption]);
    try (injection H as _ <- <-; split; [auto |]; split; [auto |];
         first [ reflexivity
               | intros Hne; exfalso; apply Hne; apply Z.eqb_eq; assumption ]).
Qed.

End MoreLines.

(** ** The driver *)

Lemma module_grows_refl c : module_grows c c.
Proof.
  repeat split. exists []. symmetry. apply app_nil_r.
Qed.

Lemma module_grows_trans c1 c2 c3 :
  module_grows c1 c2 -> module_grows c2 c3 -> module_grows c1 c3.
Proof.
  intros (M1 & S1 & B1 & l1 & C1) (M2 & S2 & B2 & l2 & C2).
  repeat split; try congruence.
  exists (l1 ++ l2). rewrite C2, C1. symmetry. apply app_assoc.
Qed.

Lemma extends_module_grows c c' : extends c c' -> module_grows c c'.
Proof. intros []. repeat split; assumption. Qed.

(** As [preserves_auto], with the lemmas of the context. *)
Ltac preserves_with :=
  repeat first
    [ match goal with H : _ |- _ => solve [apply H] end | preserves_step ].

Section Driver.

Variable junk : Z.
Variable elf_is_in_thunk_area : Z -> Z.
Variable symt_get_info_length : module_t -> symt_ptr -> option Z.
Variable symt_find_nearest : module_t -> Z -> Z.
Variable addr_sorttab : module_t -> Z -> symt_ptr.
Variable pool_arena : Z.

Local Abbreviation parse_compilation_unit :=
  (dwarf2_parse_compilation_unit junk elf_is_in_thunk_area
     symt_get_info_length symt_find_nearest addr_sorttab pool_arena).
Local Abbreviation parse_unit :=
  (dwarf2_parse_unit junk elf_is_in_thunk_area symt_get_info_length
     symt_find_nearest addr_sorttab pool_arena).
Local Abbreviation parse_units :=
  (dwarf2_parse_units junk elf_is_in_thunk_area symt_get_info_length
     symt_find_nearest addr_sorttab pool_arena).
Local Abbreviation parse :=
  (dwarf2_parse junk elf_is_in_thunk_area symt_get_info_length
     symt_find_nearest addr_sorttab pool_arena).

Lemma preserves_set_line_number address files file line :
  preserves
    (dwarf2_set_line_number symt_find_nearest addr_sorttab address files file
       line).
Proof. unfold dwarf2_set_line_number. preserves_auto. Qed.

Lemma preserves_line_program_opcode h files traverse r opcode :
  preserves
    (line_program_opcode symt_find_nearest addr_sorttab h files traverse r
       opcode).
Proof.
  pose proof preserves_set_line_number.
  unfold line_program_opcode. preserves_with.
Qed.

Lemma preserves_line_program_sequence fuel h files : forall traverse r,
  preserves
    (line_program_sequence symt_find_nearest addr_sorttab fuel h files
       traverse r).
Proof.
  pose proof preserves_line_program_opcode.
  induction fuel as [| fuel IH]; intros traverse r;
    cbn [line_program_sequence]; preserves_with.
Qed.

Lemma preserves_line_program fuel h files : forall traverse,
  preserves
    (line_program symt_find_nearest addr_sorttab fuel h files traverse).
Proof.
  pose proof preserves_line_program_sequence.
  induction fuel as [| fuel IH]; intros traverse;
    cbn [line_program]; preserves_with.
Qed.

Lemma preserves_line_include_dirs fuel compile_dir : forall traverse dirs,
  preserves (line_include_dirs fuel compile_dir traverse dirs).
Proof.
  induction fuel as [| fuel IH]; intros traverse dirs;
    cbn [line_include_dirs]; preserves_with.
Qed.

Lemma preserves_line_files fuel dirs : forall traverse files,
  preserves (line_files fuel dirs traverse files).
Proof.
  induction fuel as [| fuel IH]; intros traverse files;
    cbn [line_files]; preserves_with.
Qed.

Lemma preserves_parse_line_numbers fuel compile_dir offset :
  preserves
    (dwarf2_parse_line_numbers symt_find_nearest addr_sorttab fuel compile_dir
       offset).
Proof.
  pose proof preserves_line_program.
  pose proof preserves_line_include_dirs.
  pose proof preserves_line_files.
  unfold dwarf2_parse_line_numbers. preserves_with.
Qed.

Lemma compilation_unit_grows fuel comp_unit comp_unit_cursor ctx r ctx' :
  parse_compilation_unit fuel comp_unit comp_unit_cursor ctx = Done r ctx' ->
  module_grows ctx ctx'.
Proof.
  unfold dwarf2_parse_compilation_unit.
  destruct (negb (cu_version comp_unit =? 2)).
  { intros [= _ <-]. apply module_grows_refl. }
  unfold bind at 1. cbn [get_ctx].
  intros H. apply bind_inv in H. destruct H as (t & c0 & Hab & H).
  apply lift_inv in Hab. destruct Hab as [-> Hab].
  unfold bind at 1 in H.
  set (c1 := init_unit_context pool_arena ctx comp_unit comp_unit_cursor t) in H.
  assert (G1 : module_grows ctx c1).
  { repeat split. exists []. symmetry. apply app_nil_r. }
  apply bind_inv in H. destruct H as ([[ok tr] pdi] & c2 & Hread & H).
  assert (G2 : module_grows c1 c2).
  { eapply read_entries_ok in Hread.
    - destruct Hread as (_ & [E _] & _). rewrite E.
      repeat split. exists []. symmetry. apply app_nil_r.
    - unfold dwarf2_parse_abbrev_set in Hab.
      apply parse_abbrev_entries_ok in Hab; [apply Hab |].
      intros k a Hk. rewrite lookup_empty in Hk. discriminate.
    - intros k e Hk. cbn in Hk. rewrite lookup_empty in Hk. discriminate. }
  eapply module_grows_trans; [exact G1 |].
  eapply module_grows_trans; [exact G2 |].
  apply extends_module_grows.
  match type of H with
  | ?c c2 = Done _ _ => assert (Hp : preserves c)
  end.
  { pose proof (preserves_find_name).
    pose proof (preserves_di_symt).
    pose proof (preserves_load_one_entry junk elf_is_in_thunk_area
                  symt_get_info_length fuel).
    pose proof preserves_parse_line_numbers.
    preserves_with. }
  eapply Hp. exact H.
Qed.

Lemma parse_unit_grows fuel comp_unit_cursor ctx r ctx' :
  parse_unit fuel comp_unit_cursor ctx = Done r ctx' ->
  module_grows ctx ctx'.
Proof.
  unfold dwarf2_parse_unit. unfold bind at 1. cbn [get_ctx].
  intros H. apply bind_inv in H. destruct H as (cu & c0 & Hcu & H).
  apply lift_inv in Hcu. destruct Hcu as [-> _].
  apply bind_inv in H. destruct H as (b & c1 & Hrun & H).
  injection H as _ <-. eapply compilation_unit_grows. exact Hrun.
Qed.

Lemma parse_units_grows fuel units : forall comp_unit_cursor end_debug ctx r ctx',
  parse_units fuel units comp_unit_cursor end_debug ctx = Done r ctx' ->
  module_grows ctx ctx'.
Proof.
  induction units as [| units IH]; intros cursor end_debug ctx r ctx';
    cbn [dwarf2_parse_units]; destruct (cursor <? end_debug);
    try discriminate; try (intros [= _ <-]; apply module_grows_refl).
  intros H. apply bind_inv in H. destruct H as ([b next] & c1 & Hunit & H).
  eapply module_grows_trans.
  - eapply parse_unit_grows. exact Hunit.
  - eapply IH. exact H.
Qed.

(** [dwarf2_parse] adds to the module and takes nothing away.  When it
    returns, it returns [TRUE], whatever became of the units; the memory
    and the base of the module are as before; the calls made to the
    symbol table before are all there, in order, before the new ones; and
    the module is marked as carrying DIA symbols with the signature
    [DWAR], with lines, globals, types, sources and publics.  With an
    empty debug section it returns at once, with no call. *)
Theorem dwarf2_parse_only_adds (fuel : nat)
  (debug debug_size abbrev abbrev_size str str_size line line_size : Z)
  (ctx : dwarf2_parse_context_t) :
  (forall r ctx',
     parse fuel debug debug_size abbrev abbrev_size str str_size line
       line_size ctx = Done r ctx' ->
     r = true
     /\ mem ctx' = mem ctx
     /\ BaseOfImage (module ctx') = BaseOfImage (module ctx)
     /\ (exists l, calls (module ctx') = calls (module ctx) ++ l)
     /\ SymType (module ctx') = SymDia
     /\ CVSig (module ctx') = 0x52415744
     /\ LineNumbers (module ctx') = true
     /\ GlobalSymbols (module ctx') = true
     /\ TypeInfo (module ctx') = true
     /\ SourceIndexed (module ctx') = true
     /\ Publics (module ctx') = true)
  /\ (debug_size <= 0 ->
      exists ctx',
        parse fuel debug debug_size abbrev abbrev_size str str_size line
          line_size ctx = Done true ctx'
        /\ calls (module ctx') = calls (module ctx)).
Proof.
  unfold dwarf2_parse. split.
  - intros r ctx'. unfold bind at 1. intros H.
    apply bind_inv in H. destruct H as ([] & c1 & Hunits & H).
    apply parse_units_grows in Hunits.
    destruct Hunits as (M1 & _ & B1 & l & C1).
    cbn [mem module] in M1, B1, C1.
    unfold bind in H. injection H as <- <-.
    cbn [module set_module mem BaseOfImage calls SymType CVSig LineNumbers
         GlobalSymbols TypeInfo SourceIndexed Publics].
    repeat split; try assumption. exists l. exact C1.
  - intros Hsize. unfold bind at 1.
    assert (Hloop : forall c,
      parse_units fuel fuel debug (debug + debug_size) c = Done tt c).
    { intros c. destruct fuel; cbn [dwarf2_parse_units];
        (destruct (debug <? debug + debug_size) eqn:E;
         [apply Z.ltb_lt in E; lia | reflexivity]). }
    unfold bind at 1. rewrite Hloop. unfold bind. eexists. split; reflexivity.
Qed.


End Driver.

Section Sequences.

Variable symt_find_nearest : module_t -> Z -> Z.
Variable addr_sorttab : module_t -> Z -> symt_ptr.

Local Abbreviation set_line_number :=
  (dwarf2_set_line_number symt_find_nearest addr_sorttab).
Local Abbreviation program_sequence :=
  (line_program_sequence symt_find_nearest addr_sorttab).

(** [DW_LNE_end_sequence] closes the sequence: the line of the registers
    is recorded as it stands and the loop of the sequence ends, with the
    cursor right after the extended opcode.  The length that precedes an
    extended opcode is read and not used. *)
Theorem end_sequence_closes_the_sequence (fuel : nat) (h : line_header)
  (files : list Z) (t0 t1 t2 t3 : dwarf2_traverse_context_t) (len : Z)
  (r : line_registers) (ctx : dwarf2_parse_context_t) :
  0 < opcode_base h ->
  reg_end_sequence r = false ->
  dwarf2_parse_byte (mem ctx) t0 = Some (DW_LNS_extended_op, t1) ->
  dwarf2_leb128_as_unsigned (mem ctx) t1 = Some (len, t2) ->
  dwarf2_parse_byte (mem ctx) t2 = Some (DW_LNE_end_sequence, t3) ->
  program_sequence (S fuel) h files t0 r ctx
  = (do* set_line_number (reg_address r) files (reg_file r) (reg_line r) in
     ret t3) ctx.
Proof.
  intros Hbase Hend H0 H1 H2.
  cbn [line_program_sequence]. rewrite Hend.
  unfold bind at 1. cbn [get_ctx].
  unfold bind at 1. rewrite H0. cbn [lift ret].
  unfold bind at 1. unfold line_program_opcode.
  unfold bind at 1. cbn [get_ctx].
  destruct (opcode_base h <=? DW_LNS_extended_op) eqn:E;
    [apply Z.leb_le in E; unfold DW_LNS_extended_op in E; lia |].
  cbv [DW_LNS_extended_op DW_LNS_copy DW_LNS_advance_pc DW_LNS_advance_line
       DW_LNS_set_file DW_LNS_set_column DW_LNS_negate_stmt
       DW_LNS_set_basic_block DW_LNS_const_add_pc DW_LNS_fixed_advance_pc].
  cbn [Z.eqb].
  unfold bind at 1. rewrite H1. cbn [lift ret].
  unfold bind at 1. rewrite H2. cbn [lift ret].
  rewrite Z.eqb_refl.
  unfold bind.
  destruct (set_line_number (reg_address r) files (reg_file r) (reg_line r)
              ctx) as [[] c | |]; try reflexivity.
  cbn [ret]. destruct fuel; reflexivity.
Qed.

End Sequences.

Lemma find_name_keeps_module e attr pfx ctx name ctx1 :
  dwarf2_find_name e attr pfx ctx = Done name ctx1 ->
  module ctx1 = module ctx
  /\ debug_info_table ctx1 = debug_info_table ctx
  /\ extends ctx ctx1.
Proof.
  intros Hname.
  pose proof (preserves_find_name _ _ _ _ _ _ Hname) as E.
  split; [| split; [| exact E]];
    unfold dwarf2_find_name in Hname;
    apply bind_inv in Hname; destruct Hname as (c0 & c1 & H0 & Hname);
    injection H0 as <- <-;
    apply bind_inv in Hname; destruct Hname as ([b a] & c1' & H1 & Hname);
    apply lift_inv in H1; destruct H1 as [-> _];
    (destruct b;
     [ injection Hname as _ <-; reflexivity
     | apply bind_inv in Hname; destruct Hname as (p & c3 & H3 & Hname);
       injection H3 as _ <-;
       apply bind_inv in Hname; destruct Hname as ([] & c4 & H4 & Hname);
       injection H4 as <-; injection Hname as _ <-; reflexivity ]).
Qed.

Section BaseTypes.

Variable junk : Z.

(** A base type that is not built yet becomes one [symt_new_basic], with
    the name of the entry and its byte size (0 without one), and the
    entry holds the new symbol.  The basic type follows the encoding:
    without an encoding attribute it is [btVoid]; both character
    encodings, signed and unsigned, give [btChar]; an encoding the reader
    does not know gives [btNoType]. *)
Theorem base_type_becomes_a_basic_symbol (di : Z) (e : dwarf2_debug_info_t)
  (ctx : dwarf2_parse_context_t) (name : struct_attribute)
  (ctx1 : dwarf2_parse_context_t) (has_size has_encoding : bool)
  (size encoding : struct_attribute) :
  debug_info_table ctx !! di = Some e ->
  symt e = None ->
  dwarf2_find_name e (uninitialized junk) "base_type" ctx = Done name ctx1 ->
  dwarf2_find_attribute ctx e DW_AT_byte_size (uninitialized junk)
  = Some (has_size, size) ->
  dwarf2_find_attribute ctx e DW_AT_encoding (uninitialized junk)
  = Some (has_encoding, encoding) ->
  exists bt ctx',
    dwarf2_parse_base_type junk di ctx
    = Done (Some (length (calls (module ctx)))) ctx'
    /\ calls (module ctx')
       = calls (module ctx)
         ++ [symt_new_basic bt (string_at ctx1 (u_string name))
               (if has_size then u_uvalue size else 0)]
    /\ holds_symbol ctx' di (length (calls (module ctx)))
    /\ (has_encoding = false -> bt = btVoid)
    /\ (has_encoding = true ->
        u_uvalue encoding = DW_ATE_signed_char
        \/ u_uvalue encoding = DW_ATE_unsigned_char ->
        bt = btChar)
    /\ (has_encoding = true ->
        ~ In (u_uvalue encoding)
            [DW_ATE_void; DW_ATE_address; DW_ATE_boolean;
             DW_ATE_complex_float; DW_ATE_float; DW_ATE_signed;
             DW_ATE_unsigned; DW_ATE_signed_char; DW_ATE_unsigned_char] ->
        bt = btNoType).
Proof.
  intros He Hsymt Hname Hsize Henc.
  destruct (find_name_keeps_module _ _ _ _ _ _ Hname) as (Hmod & Htab & E1).
  pose proof He as He1. rewrite <- Htab in He1.
  set (v := u_uvalue (if has_encoding then encoding
                      else set_uvalue encoding DW_ATE_void)).
  set (bt :=
         if v =? DW_ATE_void then btVoid
         else if v =? DW_ATE_address then btULong
         else if v =? DW_ATE_boolean then btBool
         else if v =? DW_ATE_complex_float then btComplex
         else if v =? DW_ATE_float then btFloat
         else if v =? DW_ATE_signed then btInt
         else if v =? DW_ATE_unsigned then btUInt
         else if v =? DW_ATE_signed_char then btChar
         else if v =? DW_ATE_unsigned_char then btChar
         else btNoType).
  exists bt.
  exists (with_new_symbol ctx1
            (symt_new_basic bt (string_at ctx1 (u_string name))
               (if has_size then u_uvalue size else 0)) di e).
  split; [| split; [| split; [| split]]].
  - unfold dwarf2_parse_base_type.
    rewrite (bind_Done _ _ _ _ _ (get_di_Done _ _ _ He)), Hsymt.
    rewrite (bind_Done _ _ _ _ _ Hname).
    unfold find_attribute_or.
    unfold bind at 1. unfold bind at 1. cbn [get_ctx].
    rewrite (find_attribute_extends ctx ctx1) by exact E1.
    rewrite Hsize. unfold bind at 1. cbn [lift ret].
    unfold bind at 1. unfold bind at 1. cbn [get_ctx].
    rewrite (find_attribute_extends ctx ctx1) by exact E1.
    rewrite Henc. unfold bind at 1. cbn [lift ret].
    fold v. fold bt.
    unfold bind at 1. unfold name_of at 1. unfold bind at 1.
    cbn [get_ctx ret].
    unfold bind at 1. cbn [call_new].
    unfold bind at 1.
    erewrite set_di_symt_Done by (cbn; exact He1).
    erewrite di_symt_Done by (cbn; apply lookup_insert_eq).
    cbn [symt set_symt]. rewrite Hmod.
    unfold with_new_symbol. rewrite Hmod.
    replace (u_uvalue (if has_size then size else set_uvalue size 0))
      with (if has_size then u_uvalue size else 0)
      by (destruct has_size; reflexivity).
    reflexivity.
  - unfold with_new_symbol. cbn. rewrite Hmod. reflexivity.
  - eexists. unfold with_new_symbol. cbn. rewrite lookup_insert_eq.
    rewrite Hmod. split; reflexivity.
  - intros ->. reflexivity.
  - split.
    + intros -> [Hv | Hv]; subst bt v; rewrite Hv; reflexivity.
    + intros -> Hnot. subst bt v. cbn [In] in Hnot.
      repeat match goal with
             | |- context [?a =? ?b] =>
                 destruct (Z.eqb_spec a b); [exfalso; intuition congruence |]
             end.
      reflexivity.
Qed.

End BaseTypes.

Lemma land_lor_deref a :
  0 <= a < 2 ^ 32 ->
  Z.land (uint32 (sint32 (Z.lor a Wine_DW_register_deref)))
    (Z.lnot Wine_DW_register_deref)
  = Z.land a (Z.lnot Wine_DW_register_deref)
  /\ Z.land (uint32 (sint32 (Z.lor a Wine_DW_register_deref)))
       Wine_DW_register_deref
     = Wine_DW_register_deref.
Proof.
  intros Ha.
  assert (Hd : 0 <= Wine_DW_register_deref < 2 ^ 32)
    by (unfold Wine_DW_register_deref; lia).
  rewrite uint32_sint32, uint32_small by (apply lor_uint32_range; assumption).
  split; apply Z.bits_inj'; intros i Hi;
    rewrite ?Z.land_spec, ?Z.lor_spec, ?Z.lnot_spec by lia;
    destruct (Z.testbit a i), (Z.testbit Wine_DW_register_deref i);
    reflexivity.
Qed.

Section Locals.

Variable junk : Z.
Variable elf_is_in_thunk_area : Z -> Z.
Variable symt_get_info_length : module_t -> symt_ptr -> option Z.

Local Abbreviation load :=
  (dwarf2_load_one_entry junk elf_is_in_thunk_area symt_get_info_length).
Local Abbreviation lookup_type fuel := (dwarf2_lookup_type junk (load fuel)).

(** A variable or parameter of a function whose location is relative to
    the frame ([DW_OP_fbreg]) becomes a local of the function: one
    [symt_add_func_local], as a parameter for a formal parameter and as a
    local otherwise, in the frame register of the function, flagged as
    dereferenced, at the offset of the location plus the frame offset of
    the function.  A formal parameter of a function that has a signature
    is then added to that signature. *)
Theorem frame_variable_is_a_local (fuel : nat) (ctx : dwarf2_parse_context_t)
  (di : Z) (e : dwarf2_debug_info_t) (subpgm : dwarf2_subprogram_t)
  (block : symt_ptr) (f : nat) (ty : symt_ptr)
  (ctx1 : dwarf2_parse_context_t) (name : struct_attribute)
  (ctx2 : dwarf2_parse_context_t) (found A in_reg : Z) :
  debug_info_table ctx !! di = Some e ->
  func subpgm = Some f ->
  lookup_type fuel di ctx = Done ty ctx1 ->
  dwarf2_find_name e (uninitialized junk) "parameter" ctx1 = Done name ctx2 ->
  dwarf2_compute_location junk ctx e DW_AT_location junk (Some junk)
  = Some (found, A, Some in_reg) ->
  found <> 0 ->
  Z.land (uint32 in_reg) (Z.lnot Wine_DW_register_deref)
  = Wine_DW_frame_register ->
  is_Some (dwarf2_find_attribute ctx e DW_AT_const_value (uninitialized junk)) ->
  let is_pmt := tag (abbrev e) =? DW_TAG_formal_parameter in
  let local :=
    symt_add_func_local (Some f) (if is_pmt then DataIsParam else DataIsLocal)
      (dwarf2_map_register
         (Z.land (uint32 (frame_reg subpgm)) (Z.lnot Wine_DW_register_deref)))
      Wine_DW_register_deref (uint32 (A + frame_offset subpgm)) block ty
      (string_at ctx2 (u_string name)) in
  let md := set_calls (module ctx2) (calls (module ctx1) ++ [local]) in
  exists ctx',
    dwarf2_parse_variable junk (load fuel) subpgm block di ctx = Done tt ctx'
    /\ calls (module ctx')
       = calls (module ctx1) ++ local
         :: (if is_pmt && bool_decide (function_type md f <> None)
             then [symt_add_function_signature_parameter (function_type md f)
                     ty]
             else []).
Proof.
  intros He Hfunc Hlook Hname Hloc Hfound Hreg [cv Hcv] is_pmt local md.
  assert (E1 : extends ctx ctx1).
  { eapply preserves_lookup_type; [| exact Hlook].
    intros d c. apply preserves_load_one_entry. }
  destruct (find_name_keeps_module _ _ _ _ _ _ Hname) as (Hmod & _ & E2).
  pose proof (extends_trans _ _ _ E1 E2) as E02.
  destruct (land_lor_deref (uint32 (frame_reg subpgm)) (uint32_range _))
    as [Hnum Hflag].
  assert (Hmd : set_calls (module ctx2) (calls (module ctx2) ++ [local]) = md)
    by (subst md; rewrite Hmod; reflexivity).
  exists (if is_pmt && bool_decide (function_type md f <> None)
          then set_module ctx2
                 (set_calls md
                    (calls md
                     ++ [symt_add_function_signature_parameter
                           (function_type md f) ty]))
          else set_module ctx2 md).
  split.
  - unfold dwarf2_parse_variable.
    rewrite (bind_Done _ _ _ _ _ (get_di_Done _ _ _ He)).
    rewrite (bind_Done _ _ _ _ _ Hlook).
    rewrite (bind_Done _ _ _ _ _ Hname).
    unfold bind at 1. cbn [get_ctx].
    rewrite (compute_location_extends junk ctx ctx2) by exact E02.
    rewrite Hloc. unfold bind at 1. cbn [lift ret default].
    apply Z.eqb_neq in Hfound. rewrite Hfound. unfold id.
    rewrite Hreg.
    change (Wine_DW_frame_register =? Wine_DW_no_register) with false.
    rewrite Z.eqb_refl, Hfunc.
    rewrite Hnum, Hflag. fold is_pmt.
    unfold bind at 1. unfold bind at 1. unfold name_of at 1.
    unfold bind at 1. cbn [get_ctx ret].
    unfold call at 1. cbv beta iota. fold local.
    rewrite (find_attribute_extends ctx ctx2) by exact E02.
    rewrite Hcv. unfold bind at 1. cbn [lift ret]. destruct cv as [b v].
    unfold bind at 1. cbn [get_ctx module set_module]. rewrite Hmd.
    destruct (is_pmt && bool_decide (function_type md f <> None));
      reflexivity.
  - destruct (is_pmt && bool_decide (function_type md f <> None));
      cbn [module set_module calls set_calls ret call];
      subst md; cbn [calls set_calls];
      rewrite <- ?app_assoc; reflexivity.
Qed.

End Locals.

Section Declarations.

Variable junk : Z.
Variable elf_is_in_thunk_area : Z -> Z.
Variable symt_get_info_length : module_t -> symt_ptr -> option Z.

Local Abbreviation load :=
  (dwarf2_load_one_entry junk elf_is_in_thunk_area symt_get_info_length).
Local Abbreviation lookup_type fuel := (dwarf2_lookup_type junk (load fuel)).

(** A subprogram that is only declared (its declaration attribute is not
    zero) and has no children gets no function symbol: the builder
    creates a signature for it, calls [symt_normalize_function] with the
    null function, stores nothing in the entry and answers what the entry
    holds.  Since nothing is stored, each request for the entry repeats
    the two calls. *)
Theorem declared_subprogram_gets_no_function (fuel fuel' : nat) (di : Z)
  (e e2 : dwarf2_debug_info_t) (compiland : symt_ptr)
  (ctx ctx1 ctx2 : dwarf2_parse_context_t) (has_low : bool)
  (low_pc decl name : struct_attribute) (ret_type : symt_ptr) :
  debug_info_table ctx !! di = Some e ->
  symt e = None ->
  have_child (abbrev e) = 0 ->
  dwarf2_find_attribute ctx e DW_AT_low_pc (uninitialized junk)
  = Some (has_low, low_pc) ->
  is_Some (dwarf2_find_attribute ctx e DW_AT_high_pc (uninitialized junk)) ->
  elf_is_in_thunk_area
    (uint32 (BaseOfImage (module ctx)
             + (if has_low then u_uvalue low_pc else 0))) < 0 ->
  dwarf2_find_attribute ctx e DW_AT_declaration (uninitialized junk)
  = Some (true, decl) ->
  u_uvalue decl <> 0 ->
  is_Some (dwarf2_find_attribute ctx e DW_AT_inline (uninitialized junk)) ->
  dwarf2_find_name e (uninitialized junk) "subprogram" ctx = Done name ctx1 ->
  lookup_type fuel' di ctx1 = Done ret_type ctx2 ->
  debug_info_table ctx2 !! di = Some e2 ->
  is_Some (dwarf2_compute_location junk ctx e DW_AT_frame_base junk
             (Some junk)) ->
  exists ctx',
    dwarf2_parse_subprogram junk elf_is_in_thunk_area (load fuel') fuel di
      compiland ctx = Done (symt e2) ctx'
    /\ calls (module ctx')
       = calls (module ctx2)
         ++ [symt_new_function_signature ret_type CV_CALL_FAR_C;
             symt_normalize_function None]
    /\ debug_info_table ctx' = debug_info_table ctx2.
Proof.
  intros He Hsymt Hchild Hlow [[fh high] Hhigh] Hthunk Hdecl Hnz [[fi inl] Hinl]
    Hname Hlook He2 [[[fr fo] freg] Hframe].
  destruct (find_name_keeps_module _ _ _ _ _ _ Hname) as (_ & _ & E1).
  assert (E2 : extends ctx1 ctx2).
  { eapply preserves_lookup_type; [| exact Hlook].
    intros d c. apply preserves_load_one_entry. }
  pose proof (extends_trans _ _ _ E1 E2) as E02.
  eexists. split; [| split].
  - unfold dwarf2_parse_subprogram.
    rewrite (bind_Done _ _ _ _ _ (get_di_Done _ _ _ He)), Hsymt.
    unfold find_attribute_or.
    unfold bind at 1. unfold bind at 1. cbn [get_ctx]. rewrite Hlow.
    unfold bind at 1. cbn [lift ret].
    unfold bind at 1. unfold bind at 1. cbn [get_ctx]. rewrite Hhigh.
    unfold bind at 1. cbn [lift ret].
    unfold bind at 1. cbn [get_ctx].
    assert (Hv : u_uvalue (if has_low then low_pc else set_uvalue low_pc 0)
                 = if has_low then u_uvalue low_pc else 0)
      by (destruct has_low; reflexivity).
    rewrite Hv.
    destruct (0 <=? _) eqn:E; [apply Z.leb_le in E; lia |].
    unfold bind at 1. unfold bind at 1. cbn [get_ctx]. rewrite Hdecl.
    unfold bind at 1. cbn [lift ret].
    unfold bind at 1. unfold bind at 1. cbn [get_ctx]. rewrite Hinl.
    unfold bind at 1. cbn [lift ret].
    rewrite (bind_Done _ _ _ _ _ Hname).
    rewrite (bind_Done _ _ _ _ _ Hlook).
    unfold bind at 1. cbn [call_new].
    apply Z.eqb_neq in Hnz. rewrite Hnz.
    unfold bind at 1. cbn [ret].
    unfold bind at 1. cbn [get_ctx].
    erewrite compute_location_extends.
    2:{ eapply extends_trans; [exact E02 |]. apply preserves_call_new with
          (c := symt_new_function_signature ret_type CV_CALL_FAR_C)
          (a := Some (length (calls (module ctx2)))).
        reflexivity. }
    rewrite Hframe. unfold bind at 1. cbn [lift ret].
    apply Z.eqb_eq in Hchild. rewrite Hchild.
    unfold bind at 1. cbn [ret].
    unfold bind at 1. cbn [call].
    erewrite di_symt_Done by (cbn; exact He2).
    reflexivity.
  - cbn [module set_module calls set_calls]. rewrite <- app_assoc.
    reflexivity.
  - reflexivity.
Qed.

End Declarations.

(** ** Pointers to symbols *)

Lemma returned_by_app l l' n p :
  returned_by l n p -> returned_by (l ++ l') n p.
Proof.
  destruct p as [k |]; [| intros _; exact I]. intros (Hk & c & Hc & Hcr).
  split; [exact Hk |]. exists c. split; [| exact Hcr].
  apply lookup_app_l_Some. exact Hc.
Qed.

Lemma returned_by_le l n n' p :
  (n <= n')%nat -> returned_by l n p -> returned_by l n' p.
Proof.
  destruct p as [k |]; [| intros _ _; exact I].
  intros Hle (Hk & H). split; [lia | exact H].
Qed.

Lemma returned_by_test_ok l n p :
  returned_by_test l n p = true -> returned_by l n p.
Proof.
  destruct p as [k |]; [| intros _; exact I]. cbn.
  intros H. apply andb_true_iff in H. destruct H as [Hk Hc].
  apply Nat.ltb_lt in Hk. split; [exact Hk |].
  destruct (l !! k) as [c |]; [| discriminate].
  exists c. split; [reflexivity | exact Hc].
Qed.

Lemma calls_sound_test_ok all l : forall i,
  calls_sound_test all i l = true ->
  forall j c, l !! j = Some c ->
    Forall (returned_by all (i + j)) (call_refs c).
Proof.
  induction l as [| c0 l IH]; intros i H j c Hj; [discriminate Hj |].
  cbn in H. apply andb_true_iff in H. destruct H as [H0 H].
  destruct j as [| j].
  - injection Hj as <-. rewrite Nat.add_0_r.
    apply List.Forall_forall. intros p Hp.
    apply returned_by_test_ok.
    rewrite forallb_forall in H0. apply H0. exact Hp.
  - replace (i + S j)%nat with (S i + j)%nat by lia.
    apply (IH (S i) H j c). exact Hj.
Qed.

Lemma pointers_sound_by_test ctx :
  pointers_sound_test ctx = true -> pointers_sound ctx.
Proof.
  unfold pointers_sound_test. intros H.
  apply andb_true_iff in H. destruct H as [Hc Ht].
  split.
  - intros i c Hi. exact (calls_sound_test_ok _ _ 0%nat Hc i c Hi).
  - intros k e Hk. apply returned_by_test_ok.
    rewrite forallb_forall in Ht.
    apply (Ht (k, e)). apply list_elem_of_In.
    apply elem_of_map_to_list. exact Hk.
Qed.

Lemma allowed_known ctx V p :
  Forall (known ctx) V -> allowed V p -> known ctx p.
Proof.
  intros HV [-> | Hin]; [exact I |].
  rewrite List.Forall_forall in HV. apply HV. exact Hin.
Qed.

Lemma keeps_ret {A : Type} {PA : Pointers A} V (a : A) :
  Forall (allowed V) (pointers a) -> keeps V (ret a).
Proof.
  intros Ha ctx a' ctx' Hs HV [= <- <-].
  split; [exact Hs |]. split; [auto |].
  eapply Forall_impl; [exact Ha |].
  intros p. apply allowed_known. exact HV.
Qed.

Lemma keeps_bind {A B : Type} {PA : Pointers A} {PB : Pointers B} V
  (c : M A) (k : A -> M B) :
  keeps V c -> (forall a, keeps (pointers a ++ V) (k a)) ->
  keeps V (bind c k).
Proof.
  intros Hc Hk ctx b ctx'' Hs HV Hrun.
  apply bind_inv in Hrun. destruct Hrun as (a & ctx' & H1 & H2).
  destruct (Hc _ _ _ Hs HV H1) as (Hs' & Hmono & Ha).
  assert (HV' : Forall (known ctx') (pointers a ++ V)).
  { apply Forall_app. split; [exact Ha |].
    eapply Forall_impl; [exact HV |]. auto. }
  destruct (Hk a _ _ _ Hs' HV' H2) as (Hs'' & Hmono' & Hb).
  split; [exact Hs'' |]. split; [auto | exact Hb].
Qed.

Lemma keeps_fault {A : Type} {PA : Pointers A} V : keeps V (@fault A).
Proof. intros ctx a ctx' _ _ H. discriminate H. Qed.

Lemma keeps_out_of_fuel {A : Type} {PA : Pointers A} V :
  keeps V (@out_of_fuel A).
Proof. intros ctx a ctx' _ _ H. discriminate H. Qed.

Lemma keeps_quiet {A : Type} {PA : Pointers A} V (c : M A) :
  (forall a, pointers a = []) -> quiet c -> keeps V c.
Proof.
  intros Hp Hq ctx a ctx' Hs HV Hrun.
  destruct (Hq _ _ _ Hrun) as [Hm Ht].
  unfold pointers_sound, known. rewrite Hm, Ht, Hp.
  split; [exact Hs |]. split; [auto | constructor].
Qed.

Lemma quiet_ret {A : Type} (a : A) : quiet (ret a).
Proof. intros ctx a' ctx' [= <- <-]. auto. Qed.

Lemma quiet_bind {A B : Type} (c : M A) (k : A -> M B) :
  quiet c -> (forall a, quiet (k a)) -> quiet (bind c k).
Proof.
  intros Hc Hk ctx b ctx'' Hrun.
  apply bind_inv in Hrun. destruct Hrun as (a & ctx' & H1 & H2).
  destruct (Hc _ _ _ H1) as [Hm1 Ht1].
  destruct (Hk _ _ _ _ H2) as [Hm2 Ht2]. split; congruence.
Qed.

Lemma quiet_get_ctx : quiet get_ctx.
Proof. intros ctx a ctx' [= <- <-]. auto. Qed.

Lemma quiet_lift {A : Type} (o : option A) : quiet (lift o).
Proof. intros ctx a ctx' H. apply lift_inv in H. destruct H as [-> _]. auto. Qed.

Lemma quiet_get_di di : quiet (get_di di).
Proof. intros ctx a ctx' H. apply get_di_inv in H. destruct H as [-> _]. auto. Qed.

Lemma quiet_pool_alloc_text sz s : quiet (pool_alloc_text sz s).
Proof. intros ctx a ctx' [= <- <-]. auto. Qed.

Lemma quiet_find_attribute_or e at_ attr dflt :
  quiet (find_attribute_or e at_ attr dflt).
Proof.
  unfold find_attribute_or.
  apply quiet_bind; [apply quiet_get_ctx | intros c].
  apply quiet_bind; [apply quiet_lift | intros [b a]]. apply quiet_ret.
Qed.

Lemma quiet_find_name e attr pfx : quiet (dwarf2_find_name e attr pfx).
Proof.
  intros ctx a ctx' H.
  destruct (find_name_keeps_module _ _ _ _ _ _ H) as (Hm & Ht & _). auto.
Qed.

Lemma quiet_name_of attr : quiet (name_of attr).
Proof.
  unfold name_of. apply quiet_bind; [apply quiet_get_ctx | intros c].
  apply quiet_ret.
Qed.

Lemma keeps_get_di V di : keeps V (get_di di).
Proof.
  intros ctx e ctx' Hs HV H. apply get_di_inv in H. destruct H as [-> He].
  split; [exact Hs |]. split; [auto |].
  constructor; [| constructor]. exact (proj2 Hs _ _ He).
Qed.

Lemma keeps_di_symt V di : keeps V (di_symt di).
Proof.
  intros ctx s ctx' Hs HV H. apply di_symt_inv in H.
  destruct H as (-> & e & He & <-).
  split; [exact Hs |]. split; [auto |].
  constructor; [| constructor]. exact (proj2 Hs _ _ He).
Qed.

Lemma keeps_set_di_symt V di s : allowed V s -> keeps V (set_di_symt di s).
Proof.
  intros Ha ctx [] ctx' Hs HV H. unfold set_di_symt in H.
  destruct (debug_info_table ctx !! di) as [e |] eqn:He; [| discriminate].
  injection H as <-.
  split; [| split; [auto | constructor]].
  split; [exact (proj1 Hs) |].
  intros k e' Hk. cbn in Hk.
  destruct (decide (k = di)) as [-> | Hne].
  - rewrite lookup_insert_eq in Hk. injection Hk as <-. cbn.
    exact (allowed_known _ _ _ HV Ha).
  - rewrite lookup_insert_ne in Hk by congruence.
    exact (proj2 Hs _ _ Hk).
Qed.

Lemma sound_after_call ctx V c :
  pointers_sound ctx -> Forall (known ctx) V ->
  Forall (allowed V) (call_refs c) ->
  let ctx' :=
    set_module ctx (set_calls (module ctx) (calls (module ctx) ++ [c])) in
  pointers_sound ctx' /\ (forall p, known ctx p -> known ctx' p).
Proof.
  intros Hs HV Hc ctx'.
  assert (Hmono : forall p, known ctx p -> known ctx' p).
  { intros p Hp. unfold known, ctx'. cbn. rewrite length_app. cbn.
    apply returned_by_app. eapply returned_by_le; [| exact Hp]. lia. }
  split; [| exact Hmono].
  split.
  - intros i c0 Hi. unfold ctx' in *. cbn in *.
    apply lookup_app_Some in Hi. destruct Hi as [Hl | [Hge Hl]].
    + eapply Forall_impl; [exact (proj1 Hs _ _ Hl) |].
      intros p. apply returned_by_app.
    + destruct (i - length (calls (module ctx)))%nat as [| j] eqn:Ej;
        [| destruct j; discriminate Hl].
      injection Hl as <-.
      assert (i = length (calls (module ctx))) as -> by lia.
      eapply Forall_impl; [exact Hc |].
      intros p Hp. apply returned_by_app.
      exact (allowed_known _ _ _ HV Hp).
  - intros k e Hk. apply (Hmono (symt e)). exact (proj2 Hs _ _ Hk).
Qed.

Lemma keeps_call V c : Forall (allowed V) (call_refs c) -> keeps V (call c).
Proof.
  intros Hc ctx [] ctx' Hs HV [= <-].
  destruct (sound_after_call ctx V c Hs HV Hc) as [Hs' Hmono].
  split; [exact Hs' |]. split; [exact Hmono | constructor].
Qed.

Lemma keeps_call_new V c :
  Forall (allowed V) (call_refs c) -> creates c = true ->
  keeps V (call_new c).
Proof.
  intros Hc Hcr ctx s ctx' Hs HV [= <- <-].
  destruct (sound_after_call ctx V c Hs HV Hc) as [Hs' Hmono].
  split; [exact Hs' |]. split; [exact Hmono |].
  constructor; [| constructor].
  unfold known. cbn. rewrite length_app. cbn. split; [lia |].
  exists c. split; [| exact Hcr].
  rewrite lookup_app_r by lia. rewrite Nat.sub_diag. reflexivity.
Qed.

Lemma keeps_for_each {A : Type} V (l : list A) (f : A -> M unit) :
  (forall x, keeps V (f x)) -> keeps V (for_each l f).
Proof.
  intros Hf. induction l as [| x l IH]; cbn [for_each].
  - apply keeps_ret. constructor.
  - apply keeps_bind; [apply Hf |]. intros []. exact IH.
Qed.

Lemma keeps_get_ctx_function_type {B : Type} {PB : Pointers B} V (f : nat)
  (k : dwarf2_parse_context_t -> M B) :
  (forall c, keeps (function_type (module c) f :: V) (k c)) ->
  keeps V (bind get_ctx k).
Proof.
  intros Hk ctx b ctx' Hs HV Hrun. unfold bind, get_ctx in Hrun.
  apply (Hk ctx ctx b ctx' Hs); [| exact Hrun].
  constructor; [| exact HV].
  unfold known, function_type.
  destruct (calls (module ctx) !! f) as [c |] eqn:Hc; [| exact I].
  destruct c; try exact I.
  pose proof (proj1 Hs _ _ Hc) as Hrefs. cbn in Hrefs.
  apply Forall_cons in Hrefs. destruct Hrefs as [_ Hrefs].
  apply Forall_cons in Hrefs. destruct Hrefs as [Hsig _].
  eapply returned_by_le; [| exact Hsig].
  apply Nat.lt_le_incl. eapply lookup_lt_Some. exact Hc.
Qed.

Ltac allowed_solve :=
  unfold pointers, pointers_symt_ptr, pointers_entry,
    pointers_array_locals, pointers_default;
  cbn [call_refs];
  repeat first [apply List.Forall_nil | apply List.Forall_cons];
  unfold allowed in *;
  cbn [app In idx_type func compiland] in *;
  intuition (auto; congruence).

Ltac keeps_intro :=
  intros ?;
  lazymatch goal with
  | |- @keeps ?B ?PB (?l ++ ?V) ?c =>
      let l' :=
        eval cbv [pointers pointers_symt_ptr pointers_entry
                  pointers_array_locals pointers_default] in l in
      let v := eval cbn [app] in (l' ++ V) in
      change (@keeps B PB v c)
  end.

Ltac keeps_quietly l := apply keeps_quiet; [intros; reflexivity | apply l].

Ltac keeps_step :=
  lazymatch goal with
  | |- keeps _ (ret _) => apply keeps_ret; allowed_solve
  | |- keeps _ fault => apply keeps_fault
  | |- keeps _ out_of_fuel => apply keeps_out_of_fuel
  | |- keeps _ (get_di _) => apply keeps_get_di
  | |- keeps _ (di_symt _) => apply keeps_di_symt
  | |- keeps _ (set_di_symt _ _) => apply keeps_set_di_symt; allowed_solve
  | |- keeps _ (call_new _) =>
      apply keeps_call_new; [allowed_solve | reflexivity]
  | |- keeps _ (call _) => apply keeps_call; allowed_solve
  | |- keeps _ get_ctx => keeps_quietly quiet_get_ctx
  | |- keeps _ (lift _) => keeps_quietly quiet_lift
  | |- keeps _ (find_attribute_or _ _ _ _) =>
      keeps_quietly quiet_find_attribute_or
  | |- keeps _ (dwarf2_find_name _ _ _) => keeps_quietly quiet_find_name
  | |- keeps _ (name_of _) => keeps_quietly quiet_name_of
  | |- keeps _ (bind _ _) => apply keeps_bind; [| keeps_intro]
  | |- keeps _ (for_each _ _) => apply keeps_for_each; intros ?
  | |- keeps _ (if ?b then _ else _) => destruct b
  | |- keeps _ (match ?x with _ => _ end) => destruct x
  | |- keeps _ _ =>
      match goal with
      | H : _ |- _ => solve [eapply H; allowed_solve]
      end
  end.

Ltac keeps_auto := repeat keeps_step.

Ltac keeps_head :=
  lazymatch goal with
  | |- keeps _ (bind _ _) => apply keeps_bind; [solve [keeps_auto] | keeps_intro]
  | |- keeps _ (match ?x with _ => _ end) => destruct x
  end.

Section Soundness.

Variable junk : Z.
Variable elf_is_in_thunk_area : Z -> Z.
Variable symt_get_info_length : module_t -> symt_ptr -> option Z.

Lemma keeps_parse_base_type V di : keeps V (dwarf2_parse_base_type junk di).
Proof. unfold dwarf2_parse_base_type. keeps_auto. Qed.

Lemma keeps_parse_enumerator V di parent :
  allowed V parent -> keeps V (dwarf2_parse_enumerator junk di parent).
Proof. intros Hp. unfold dwarf2_parse_enumerator. keeps_auto. Qed.

Lemma keeps_parse_enumeration_type V di :
  keeps V (dwarf2_parse_enumeration_type junk di).
Proof.
  pose proof keeps_parse_enumerator.
  unfold dwarf2_parse_enumeration_type. keeps_auto.
Qed.

Section SoundKnot.

Variable load_one_entry : Z -> symt_ptr -> M unit.
Hypothesis keeps_load :
  forall V di c, allowed V c -> keeps V (load_one_entry di c).

Lemma keeps_lookup_type V di :
  keeps V (dwarf2_lookup_type junk load_one_entry di).
Proof. pose proof keeps_load. unfold dwarf2_lookup_type. keeps_auto. Qed.

Lemma keeps_parse_typedef V di :
  keeps V (dwarf2_parse_typedef junk load_one_entry di).
Proof.
  pose proof keeps_lookup_type. unfold dwarf2_parse_typedef. keeps_auto.
Qed.

Lemma keeps_parse_pointer_type V di :
  keeps V (dwarf2_parse_pointer_type junk load_one_entry di).
Proof.
  pose proof keeps_lookup_type. unfold dwarf2_parse_pointer_type. keeps_auto.
Qed.

Lemma keeps_parse_array_child V l child :
  allowed V (idx_type l) ->
  keeps V (parse_array_child junk load_one_entry l child).
Proof.
  intros Hl. pose proof keeps_lookup_type.
  unfold parse_array_child. keeps_auto.
Qed.

Lemma keeps_parse_array_children cs : forall V l,
  allowed V (idx_type l) ->
  keeps V (parse_array_children junk load_one_entry l cs).
Proof.
  induction cs as [| child cs IH]; intros V l Hl;
    cbn [parse_array_children].
  - keeps_auto.
  - apply keeps_bind; [apply keeps_parse_array_child; exact Hl |].
    keeps_intro. apply IH. allowed_solve.
Qed.

Lemma keeps_parse_array_type V di :
  keeps V (dwarf2_parse_array_type junk load_one_entry di).
Proof.
  pose proof keeps_lookup_type. pose proof keeps_parse_array_children.
  unfold dwarf2_parse_array_type. keeps_auto.
Qed.

Lemma keeps_parse_const_type V di :
  keeps V (dwarf2_parse_const_type junk load_one_entry di).
Proof.
  pose proof keeps_lookup_type. unfold dwarf2_parse_const_type. keeps_auto.
Qed.

Lemma keeps_parse_volatile_type V di :
  keeps V (dwarf2_parse_volatile_type junk load_one_entry di).
Proof.
  pose proof keeps_lookup_type. unfold dwarf2_parse_volatile_type. keeps_auto.
Qed.

Lemma keeps_parse_reference_type V di :
  keeps V (dwarf2_parse_reference_type junk load_one_entry di).
Proof.
  pose proof keeps_lookup_type. unfold dwarf2_parse_reference_type.
  keeps_auto.
Qed.

Lemma keeps_parse_udt_member V di parent :
  allowed V parent ->
  keeps V
    (dwarf2_parse_udt_member junk symt_get_info_length load_one_entry di
       parent).
Proof.
  intros Hp. pose proof keeps_lookup_type.
  unfold dwarf2_parse_udt_member. keeps_auto.
Qed.

Lemma keeps_parse_udt_type V di udt :
  keeps V
    (dwarf2_parse_udt_type junk symt_get_info_length load_one_entry di udt).
Proof.
  pose proof keeps_parse_udt_member. pose proof keeps_parse_enumeration_type.
  unfold dwarf2_parse_udt_type. keeps_auto.
Qed.

Lemma keeps_parse_subprogram_label V subpgm di :
  allowed V (func subpgm) ->
  keeps V (dwarf2_parse_subprogram_label junk subpgm di).
Proof.
  intros Hf. unfold dwarf2_parse_subprogram_label. keeps_auto.
Qed.

Lemma keeps_parse_inlined_subroutine fuel : forall V subpgm di,
  allowed V (func subpgm) ->
  keeps V (dwarf2_parse_inlined_subroutine junk fuel subpgm di).
Proof.
  pose proof keeps_parse_subprogram_label.
  induction fuel as [| fuel IH]; intros V subpgm di Hf;
    cbn [dwarf2_parse_inlined_subroutine]; keeps_auto.
Qed.

Lemma keeps_parse_variable V subpgm block di :
  allowed V (func subpgm) -> allowed V (compiland subpgm) ->
  allowed V block ->
  keeps V (dwarf2_parse_variable junk load_one_entry subpgm block di).
Proof.
  intros Hf Hc Hb. pose proof keeps_lookup_type.
  destruct subpgm as [cl fn fo fr]. cbn [func compiland] in *.
  unfold dwarf2_parse_variable.
  cbn [func compiland frame_offset frame_reg].
  do 10 keeps_head.
  destruct fn as [f |]; [| keeps_auto].
  apply (keeps_get_ctx_function_type _ f). intros c. keeps_auto.
Qed.

Lemma keeps_parse_subprogram_block fuel : forall V subpgm parent di,
  allowed V (func subpgm) -> allowed V (compiland subpgm) ->
  allowed V parent ->
  keeps V
    (dwarf2_parse_subprogram_block junk load_one_entry fuel subpgm parent di).
Proof.
  pose proof keeps_parse_inlined_subroutine.
  pose proof keeps_parse_variable.
  induction fuel as [| fuel IH]; intros V subpgm parent di Hf Hc Hp;
    cbn [dwarf2_parse_subprogram_block]; keeps_auto.
Qed.

Lemma keeps_parse_subroutine_type V di :
  keeps V (dwarf2_parse_subroutine_type junk load_one_entry di).
Proof.
  pose proof keeps_lookup_type. unfold dwarf2_parse_subroutine_type.
  keeps_auto.
Qed.

Lemma keeps_parse_subprogram V fuel di compiland :
  allowed V compiland ->
  keeps V
    (dwarf2_parse_subprogram junk elf_is_in_thunk_area load_one_entry fuel di
       compiland).
Proof.
  intros Hc.
  pose proof keeps_lookup_type.
  pose proof keeps_parse_inlined_subroutine.
  pose proof keeps_parse_subprogram_block.
  pose proof keeps_parse_subprogram_label.
  pose proof keeps_parse_variable.
  unfold dwarf2_parse_subprogram. keeps_auto.
  all: match goal with
       | |- context [if ?b then Build_dwarf2_subprogram_t _ _ _ _ else _] =>
           destruct b
       end; keeps_auto.
Qed.

Lemma keeps_load_one_entry_body V fuel di compiland :
  allowed V compiland ->
  keeps V
    (load_one_entry_body junk elf_is_in_thunk_area symt_get_info_length
       load_one_entry fuel di compiland).
Proof.
  intros Hc.
  pose proof keeps_parse_typedef.
  pose proof keeps_parse_base_type.
  pose proof keeps_parse_pointer_type.
  pose proof keeps_parse_udt_type.
  pose proof keeps_parse_array_type.
  pose proof keeps_parse_const_type.
  pose proof keeps_parse_volatile_type.
  pose proof keeps_parse_reference_type.
  pose proof keeps_parse_enumeration_type.
  pose proof keeps_parse_subprogram.
  pose proof keeps_parse_subroutine_type.
  pose proof keeps_parse_variable.
  unfold load_one_entry_body. keeps_auto.
Qed.

End SoundKnot.

Lemma keeps_load_one_entry fuel : forall V di compiland,
  allowed V compiland ->
  keeps V
    (dwarf2_load_one_entry junk elf_is_in_thunk_area symt_get_info_length
       fuel di compiland).
Proof.
  induction fuel as [| fuel IH]; intros V di compiland Hc;
    cbn [dwarf2_load_one_entry].
  - apply keeps_out_of_fuel.
  - apply keeps_load_one_entry_body; [exact IH | exact Hc].
Qed.

(** The symbol pointers stay sound through the building of symbols:
    when every pointer among the arguments of the calls made so far and
    every symbol held by an entry is null or was handed back by an
    earlier call that creates an object, and so is [compiland], the same
    holds after [dwarf2_load_one_entry], whatever the entry and its tree
    are.  No builder hands a pointer to the symbol table that the symbol
    table did not hand out. *)
Theorem symbol_pointers_stay_sound fuel di compiland ctx ctx' :
  pointers_sound ctx ->
  known ctx compiland ->
  dwarf2_load_one_entry junk elf_is_in_thunk_area symt_get_info_length
    fuel di compiland ctx = Done tt ctx' ->
  pointers_sound ctx'.
Proof.
  intros Hs Hc Hrun.
  refine (proj1 (keeps_load_one_entry fuel [compiland] di compiland _
                   ctx tt ctx' Hs _ Hrun)).
  - right. left. reflexivity.
  - constructor; [exact Hc | constructor].
Qed.

End Soundness.

Section Units.

Variable junk : Z.
Variable elf_is_in_thunk_area : Z -> Z.
Variable symt_get_info_length : module_t -> symt_ptr -> option Z.
Variable symt_find_nearest : module_t -> Z -> Z.
Variable addr_sorttab : module_t -> Z -> symt_ptr.
Variable pool_arena : Z.

Local Abbreviation parse_compilation_unit :=
  (dwarf2_parse_compilation_unit junk elf_is_in_thunk_area
     symt_get_info_length symt_find_nearest addr_sorttab pool_arena).

(** What [dwarf2_parse_compilation_unit] answers tells what it did to the
    module.  When it answers [FALSE] (the version of the unit is not 2, or
    the first entry of the unit is not a [DW_TAG_compile_unit]), the
    module is exactly as before: no call was made to the symbol table.
    When it answers [TRUE], the version is 2 and the calls it made start
    with [source_new] for the unit and [symt_new_compiland] on the source
    just made. *)
Theorem unit_result_tells_what_was_added (fuel : nat)
  (comp_unit : dwarf2_comp_unit_t) (comp_unit_cursor : Z)
  (ctx : dwarf2_parse_context_t) (r : bool) (ctx' : dwarf2_parse_context_t) :
  parse_compilation_unit fuel comp_unit comp_unit_cursor ctx = Done r ctx' ->
  if r then
    cu_version comp_unit = 2
    /\ exists dir name l,
         calls (module ctx')
         = calls (module ctx)
           ++ source_new dir name
              :: symt_new_compiland
                   (Z.of_nat (length (calls (module ctx)))) :: l
  else module ctx' = module ctx.
Proof.
  unfold dwarf2_parse_compilation_unit.
  destruct (cu_version comp_unit =? 2) eqn:Hv; cbn [negb].
  2: { intros [= <- <-]. reflexivity. }
  apply Z.eqb_eq in Hv.
  unfold bind at 1. cbn [get_ctx].
  intros H. apply bind_inv in H. destruct H as (t & c0 & Hab & H).
  apply lift_inv in Hab. destruct Hab as [-> Hab].
  unfold bind at 1 in H.
  set (c1 := init_unit_context pool_arena ctx comp_unit comp_unit_cursor t) in H.
  apply bind_inv in H. destruct H as ([[ok tr] pdi] & c2 & Hread & H).
  assert (G2 : module c2 = module ctx).
  { eapply read_entries_ok in Hread.
    - destruct Hread as (_ & [E _] & _). rewrite E. reflexivity.
    - unfold dwarf2_parse_abbrev_set in Hab.
      apply parse_abbrev_entries_ok in Hab; [apply Hab |].
      intros k a Hk. rewrite lookup_empty in Hk. discriminate.
    - intros k e Hk. cbn in Hk. rewrite lookup_empty in Hk. discriminate. }
  destruct pdi as [[di |] |]; try discriminate H.
  apply bind_inv in H. destruct H as (e & c3 & He & H).
  apply get_di_inv in He. destruct He as [-> He].
  destruct (tag (abbrev e) =? DW_TAG_compile_unit).
  2: { injection H as <- <-. exact G2. }
  apply bind_inv in H. destruct H as (name & c3 & Hname & H).
  destruct (find_name_keeps_module _ _ _ _ _ _ Hname) as (Hm3 & _ & _).
  unfold bind at 1 in H. cbn [get_ctx] in H.
  apply bind_inv in H. destruct H as ([found comp_dir] & c4 & Hdir & H).
  apply lift_inv in Hdir. destruct Hdir as [-> _].
  unfold bind at 1 in H. cbn [call_new] in H.
  unfold bind at 1 in H. cbn [call_new] in H.
  match type of H with
  | ?c ?c5 = Done _ _ =>
      assert (Hp : preserves c); [| pose proof (Hp _ _ _ H) as E; clear Hp]
  end.
  { pose proof (preserves_di_symt).
    pose proof (preserves_load_one_entry junk elf_is_in_thunk_area
                  symt_get_info_length fuel).
    pose proof (preserves_parse_line_numbers symt_find_nearest addr_sorttab).
    preserves_with. }
  assert (r = true) as ->.
  { clear E. repeat (apply bind_inv in H; destruct H as (? & ? & _ & H)).
    repeat match type of H with
           | (let '(_, _) := ?x in _) _ = _ => destruct x
           | (match ?x with _ => _ end) _ = _ => destruct x
           end;
      repeat (apply bind_inv in H; destruct H as (? & ? & _ & H));
      injection H as <- _; reflexivity. }
  split; [exact Hv |].
  destruct (ext_calls _ _ E) as [l Hl]. cbn in Hl.
  exists (string_at c3
            (u_string (if found then comp_dir else set_string comp_dir 0))),
    (string_at c3 (u_string name)), l.
  rewrite Hl, Hm3, G2. rewrite <- !app_assoc. reflexivity.
Qed.

End Units.

(** ** The nesting of the blocks *)

Lemma open_blocks_from_app l l' : forall pos st,
  open_blocks_from pos st (l ++ l')
  = match open_blocks_from pos st l with
    | Some st' => open_blocks_from (pos + length l) st' l'
    | None => None
    end.
Proof.
  induction l as [| c l IH]; intros pos st; cbn.
  - rewrite Nat.add_0_r. reflexivity.
  - destruct (block_step pos st c) as [st' |]; [| reflexivity].
    rewrite IH. replace (S pos + length l)%nat with (pos + S (length l))%nat
      by lia. reflexivity.
Qed.

Lemma open_blocks_snoc l c st :
  open_blocks l = Some st ->
  open_blocks (l ++ [c]) = block_step (length l) st c.
Proof.
  unfold open_blocks. intros H. rewrite open_blocks_from_app, H. cbn.
  destruct (block_step (length l) st c); reflexivity.
Qed.

Lemma top_or_null_head p st : top_or_null (p :: st) p = true.
Proof.
  destruct p as [n |]; [| reflexivity]. cbn.
  apply bool_decide_eq_true. reflexivity.
Qed.

Lemma brackets_bind {A B : Type} st (c : M A) (k : A -> M B) mid post :
  brackets st c mid -> (forall a, brackets (mid a) (k a) post) ->
  brackets st (bind c k) post.
Proof.
  intros Hc Hk ctx b ctx'' Hst Hrun.
  apply bind_inv in Hrun. destruct Hrun as (a & ctx' & H1 & H2).
  exact (Hk a _ _ _ (Hc _ _ _ Hst H1) H2).
Qed.

Lemma balanced_bind {A B : Type} st (c : M A) (k : A -> M B) :
  balanced st c -> (forall a, balanced st (k a)) -> balanced st (bind c k).
Proof. intros Hc Hk. exact (brackets_bind st c k _ _ Hc Hk). Qed.

Lemma balanced_ret {A : Type} st (a : A) : balanced st (ret a).
Proof. intros ctx a' ctx' Hst [= <- <-]. exact Hst. Qed.

Lemma balanced_fault {A : Type} st : balanced st (@fault A).
Proof. intros ctx a ctx' _ H. discriminate H. Qed.

Lemma balanced_out_of_fuel {A : Type} st : balanced st (@out_of_fuel A).
Proof. intros ctx a ctx' _ H. discriminate H. Qed.

Lemma balanced_quiet {A : Type} st (c : M A) : quiet c -> balanced st c.
Proof.
  intros Hq ctx a ctx' Hst Hrun.
  destruct (Hq _ _ _ Hrun) as [-> _]. exact Hst.
Qed.

Lemma quiet_di_symt di : quiet (di_symt di).
Proof.
  unfold di_symt. apply quiet_bind; [apply quiet_get_di | intros e].
  apply quiet_ret.
Qed.

Lemma balanced_set_di_symt st di s : balanced st (set_di_symt di s).
Proof.
  intros ctx [] ctx' Hst H. unfold set_di_symt in H.
  destruct (debug_info_table ctx !! di); [| discriminate].
  injection H as <-. exact Hst.
Qed.

Lemma brackets_call_new st c post :
  (forall pos, block_step pos st c = Some (post (Some pos))) ->
  brackets st (call_new c) post.
Proof.
  intros Hc ctx s ctx' Hst [= <- <-]. cbn.
  rewrite (open_blocks_snoc _ _ _ Hst). apply Hc.
Qed.

Lemma balanced_call_new st c :
  (forall pos, block_step pos st c = Some st) -> balanced st (call_new c).
Proof. intros Hc. apply brackets_call_new. exact Hc. Qed.

Lemma brackets_call st c st' :
  (forall pos, block_step pos st c = Some st') ->
  brackets st (call c) (fun _ => st').
Proof.
  intros Hc ctx [] ctx' Hst [= <-]. cbn.
  rewrite (open_blocks_snoc _ _ _ Hst). apply Hc.
Qed.

Lemma balanced_call st c :
  (forall pos, block_step pos st c = Some st) -> balanced st (call c).
Proof. intros Hc. apply brackets_call. exact Hc. Qed.

Lemma balanced_for_each {A : Type} st (l : list A) (f : A -> M unit) :
  (forall x, balanced st (f x)) -> balanced st (for_each l f).
Proof.
  intros Hf. induction l as [| x l IH]; cbn [for_each].
  - apply balanced_ret.
  - apply balanced_bind; [apply Hf | intros _; exact IH].
Qed.

Ltac block_step_solve :=
  intros ?; cbn [block_step];
  repeat match goal with
         | H : top_or_null _ _ = true |- _ => rewrite H
         end;
  rewrite ?top_or_null_head; reflexivity.

Ltac balanced_step :=
  lazymatch goal with
  | |- balanced _ (ret _) => apply balanced_ret
  | |- balanced _ fault => apply balanced_fault
  | |- balanced _ out_of_fuel => apply balanced_out_of_fuel
  | |- balanced _ (get_di _) => apply balanced_quiet, quiet_get_di
  | |- balanced _ (di_symt _) => apply balanced_quiet, quiet_di_symt
  | |- balanced _ (set_di_symt _ _) => apply balanced_set_di_symt
  | |- balanced _ (call_new _) => apply balanced_call_new; block_step_solve
  | |- balanced _ (call _) => apply balanced_call; block_step_solve
  | |- balanced _ get_ctx => apply balanced_quiet, quiet_get_ctx
  | |- balanced _ (lift _) => apply balanced_quiet, quiet_lift
  | |- balanced _ (find_attribute_or _ _ _ _) =>
      apply balanced_quiet, quiet_find_attribute_or
  | |- balanced _ (dwarf2_find_name _ _ _) =>
      apply balanced_quiet, quiet_find_name
  | |- balanced _ (name_of _) => apply balanced_quiet, quiet_name_of
  | |- balanced _ (bind _ _) => apply balanced_bind; [| intros ?]
  | |- balanced _ (for_each _ _) => apply balanced_for_each; intros ?
  | |- balanced _ (let _ := _ in _) => cbv zeta
  | |- balanced _ (if ?b then _ else _) => destruct b
  | |- balanced _ (match ?x with _ => _ end) => destruct x
  | |- balanced _ _ =>
      match goal with
      | H : _ |- _ =>
          solve [eapply H;
                 first [assumption | apply top_or_null_head | reflexivity]]
      end
  end.

Ltac balanced_auto := repeat balanced_step.

Section Nesting.

Variable junk : Z.
Variable elf_is_in_thunk_area : Z -> Z.
Variable symt_get_info_length : module_t -> symt_ptr -> option Z.

Lemma balanced_parse_base_type st di :
  balanced st (dwarf2_parse_base_type junk di).
Proof. unfold dwarf2_parse_base_type. balanced_auto. Qed.

Lemma balanced_parse_enumerator st di parent :
  balanced st (dwarf2_parse_enumerator junk di parent).
Proof. unfold dwarf2_parse_enumerator. balanced_auto. Qed.

Lemma balanced_parse_enumeration_type st di :
  balanced st (dwarf2_parse_enumeration_type junk di).
Proof.
  pose proof balanced_parse_enumerator.
  unfold dwarf2_parse_enumeration_type. balanced_auto.
Qed.

Section NestKnot.

Variable load_one_entry : Z -> symt_ptr -> M unit.
Hypothesis balanced_load :
  forall st di c, balanced st (load_one_entry di c).

Lemma balanced_lookup_type st di :
  balanced st (dwarf2_lookup_type junk load_one_entry di).
Proof. pose proof balanced_load. unfold dwarf2_lookup_type. balanced_auto. Qed.

Lemma balanced_parse_typedef st di :
  balanced st (dwarf2_parse_typedef junk load_one_entry di).
Proof.
  pose proof balanced_lookup_type. unfold dwarf2_parse_typedef. balanced_auto.
Qed.

Lemma balanced_parse_pointer_type st di :
  balanced st (dwarf2_parse_pointer_type junk load_one_entry di).
Proof.
  pose proof balanced_lookup_type. unfold dwarf2_parse_pointer_type.
  balanced_auto.
Qed.

Lemma balanced_parse_array_child st l child :
  balanced st (parse_array_child junk load_one_entry l child).
Proof.
  pose proof balanced_lookup_type. unfold parse_array_child. balanced_auto.
Qed.

Lemma balanced_parse_array_children st cs : forall l,
  balanced st (parse_array_children junk load_one_entry l cs).
Proof.
  pose proof balanced_parse_array_child.
  induction cs as [| child cs IH]; intros l; cbn [parse_array_children];
    balanced_auto.
Qed.

Lemma balanced_parse_array_type st di :
  balanced st (dwarf2_parse_array_type junk load_one_entry di).
Proof.
  pose proof balanced_lookup_type. pose proof balanced_parse_array_children.
  unfold dwarf2_parse_array_type. balanced_auto.
Qed.

Lemma balanced_parse_const_type st di :
  balanced st (dwarf2_parse_const_type junk load_one_entry di).
Proof.
  pose proof balanced_lookup_type. unfold dwarf2_parse_const_type.
  balanced_auto.
Qed.

Lemma balanced_parse_volatile_type st di :
  balanced st (dwarf2_parse_volatile_type junk load_one_entry di).
Proof.
  pose proof balanced_lookup_type. unfold dwarf2_parse_volatile_type.
  balanced_auto.
Qed.

Lemma balanced_parse_reference_type st di :
  balanced st (dwarf2_parse_reference_type junk load_one_entry di).
Proof.
  pose proof balanced_lookup_type. unfold dwarf2_parse_reference_type.
  balanced_auto.
Qed.

Lemma balanced_parse_udt_member st di parent :
  balanced st
    (dwarf2_parse_udt_member junk symt_get_info_length load_one_entry di
       parent).
Proof.
  pose proof balanced_lookup_type. unfold dwarf2_parse_udt_member.
  balanced_auto.
Qed.

Lemma balanced_parse_udt_type st di udt :
  balanced st
    (dwarf2_parse_udt_type junk symt_get_info_length load_one_entry di udt).
Proof.
  pose proof balanced_parse_udt_member.
  pose proof balanced_parse_enumeration_type.
  unfold dwarf2_parse_udt_type. balanced_auto.
Qed.

Lemma balanced_parse_variable st subpgm block di :
  top_or_null st block = true ->
  balanced st (dwarf2_parse_variable junk load_one_entry subpgm block di).
Proof.
  intros Hb. pose proof balanced_lookup_type.
  unfold dwarf2_parse_variable. balanced_auto.
Qed.

Lemma balanced_parse_subprogram_label st subpgm di :
  balanced st (dwarf2_parse_subprogram_label junk subpgm di).
Proof. unfold dwarf2_parse_subprogram_label. balanced_auto. Qed.

Lemma balanced_parse_inlined_subroutine fuel : forall st subpgm di,
  balanced st (dwarf2_parse_inlined_subroutine junk fuel subpgm di).
Proof.
  pose proof balanced_parse_subprogram_label.
  induction fuel as [| fuel IH]; intros st subpgm di;
    cbn [dwarf2_parse_inlined_subroutine]; balanced_auto.
Qed.

Lemma balanced_parse_subprogram_block fuel : forall st subpgm parent di,
  top_or_null st parent = true ->
  balanced st
    (dwarf2_parse_subprogram_block junk load_one_entry fuel subpgm parent di).
Proof.
  pose proof balanced_parse_inlined_subroutine.
  pose proof balanced_parse_variable.
  induction fuel as [| fuel IH]; intros st subpgm parent di Hp;
    cbn [dwarf2_parse_subprogram_block]; [apply balanced_out_of_fuel |].
  do 3 (apply balanced_bind; [solve [balanced_auto] | intros ?]).
  apply (brackets_bind st _ _ (fun block => block :: st)).
  - apply brackets_call_new. intros pos. cbn [block_step]. rewrite Hp.
    reflexivity.
  - intros block.
    apply (brackets_bind (block :: st) _ _ (fun _ => block :: st)).
    + change (balanced (block :: st)
                (if have_child (abbrev a) =? 0 then ret tt
                 else for_each (children a) (fun child =>
                   let* c := get_di child in
                   let t := tag (abbrev c) in
                   if t =? DW_TAG_inlined_subroutine then
                     dwarf2_parse_inlined_subroutine junk fuel subpgm child
                   else if t =? DW_TAG_variable then
                     dwarf2_parse_variable junk load_one_entry subpgm block
                       child
                   else if t =? DW_TAG_lexical_block then
                     dwarf2_parse_subprogram_block junk load_one_entry fuel
                       subpgm block child
                   else ret tt))).
      balanced_auto.
    + intros []. apply brackets_call. intros pos. cbn [block_step].
      rewrite bool_decide_eq_true_2 by reflexivity. reflexivity.
Qed.

Lemma balanced_parse_subprogram st fuel di compiland :
  balanced st
    (dwarf2_parse_subprogram junk elf_is_in_thunk_area load_one_entry fuel di
       compiland).
Proof.
  pose proof balanced_lookup_type.
  pose proof balanced_parse_inlined_subroutine.
  pose proof balanced_parse_subprogram_block.
  pose proof balanced_parse_subprogram_label.
  pose proof balanced_parse_variable.
  unfold dwarf2_parse_subprogram. balanced_auto.
Qed.

Lemma balanced_parse_subroutine_type st di :
  balanced st (dwarf2_parse_subroutine_type junk load_one_entry di).
Proof.
  pose proof balanced_lookup_type. unfold dwarf2_parse_subroutine_type.
  balanced_auto.
Qed.

Lemma balanced_load_one_entry_body st fuel di compiland :
  balanced st
    (load_one_entry_body junk elf_is_in_thunk_area symt_get_info_length
       load_one_entry fuel di compiland).
Proof.
  pose proof balanced_parse_typedef.
  pose proof balanced_parse_base_type.
  pose proof balanced_parse_pointer_type.
  pose proof balanced_parse_udt_type.
  pose proof balanced_parse_array_type.
  pose proof balanced_parse_const_type.
  pose proof balanced_parse_volatile_type.
  pose proof balanced_parse_reference_type.
  pose proof balanced_parse_enumeration_type.
  pose proof balanced_parse_subprogram.
  pose proof balanced_parse_subroutine_type.
  pose proof balanced_parse_variable.
  unfold load_one_entry_body. balanced_auto.
Qed.

End NestKnot.

Lemma balanced_load_one_entry fuel : forall st di compiland,
  balanced st
    (dwarf2_load_one_entry junk elf_is_in_thunk_area symt_get_info_length
       fuel di compiland).
Proof.
  induction fuel as [| fuel IH]; intros st di compiland;
    cbn [dwarf2_load_one_entry].
  - apply balanced_out_of_fuel.
  - apply balanced_load_one_entry_body. exact IH.
Qed.

(** The blocks of the functions nest, whatever the tree of entries is.
    When the calls made to the symbol table so far open and close blocks
    in a proper nesting and leave the blocks [st] open, the calls made
    until [dwarf2_load_one_entry] returns do so as well, and the same
    blocks are open then.  Each [symt_close_func_block] closes the
    innermost block that is open, so that every block a builder opens is
    closed by it; each [symt_open_func_block] names as the parent the
    innermost open block or none; and each [symt_add_func_local] puts
    its variable into the innermost open block or into none. *)
Theorem blocks_are_well_nested fuel di compiland ctx ctx' st :
  open_blocks (calls (module ctx)) = Some st ->
  dwarf2_load_one_entry junk elf_is_in_thunk_area symt_get_info_length
    fuel di compiland ctx = Done tt ctx' ->
  open_blocks (calls (module ctx')) = Some st.
Proof.
  intros Hst Hrun.
  exact (balanced_load_one_entry fuel st di compiland ctx tt ctx' Hst Hrun).
Qed.

End Nesting.

(** ** A symbol that is stored stays

    A builder stores a symbol in its own entry only, and only when it
    found none there on entry: a request that starts when the entry holds
    a symbol leaves it there. *)

Lemma stable_ret {A : Type} di s (a : A) : stable di s (ret a).
Proof. intros ctx a' ctx' H [= <- <-]. exact H. Qed.

Lemma stable_fault {A : Type} di s : stable di s (@fault A).
Proof. intros ctx a ctx' _ H. discriminate H. Qed.

Lemma stable_out_of_fuel {A : Type} di s : stable di s (@out_of_fuel A).
Proof. intros ctx a ctx' _ H. discriminate H. Qed.

Lemma stable_bind {A B : Type} di s (c : M A) (k : A -> M B) :
  stable di s c -> (forall a, stable di s (k a)) -> stable di s (bind c k).
Proof.
  intros Hc Hk ctx b ctx'' H Hrun.
  apply bind_inv in Hrun. destruct Hrun as (a & ctx' & H1 & H2).
  exact (Hk a _ _ _ (Hc _ _ _ H H1) H2).
Qed.

Lemma stable_table {A : Type} di s (c : M A) :
  (forall ctx a ctx',
     c ctx = Done a ctx' -> debug_info_table ctx' = debug_info_table ctx) ->
  stable di s c.
Proof.
  intros Hc ctx a ctx' (e & He & Hs) Hrun.
  exists e. rewrite (Hc _ _ _ Hrun). auto.
Qed.

Lemma stable_quiet {A : Type} di s (c : M A) : quiet c -> stable di s c.
Proof.
  intros Hq. apply stable_table. intros ctx a ctx' Hrun.
  exact (proj2 (Hq _ _ _ Hrun)).
Qed.

Lemma stable_call di s c : stable di s (call c).
Proof.
  apply stable_table. intros ctx [] ctx' H. injection H as <-. reflexivity.
Qed.

Lemma stable_call_new di s c : stable di s (call_new c).
Proof.
  apply stable_table. intros ctx a ctx' H. injection H as _ <-. reflexivity.
Qed.

Lemma stable_set_di_symt di s d x : d <> di -> stable di s (set_di_symt d x).
Proof.
  intros Hne ctx [] ctx' (e & He & Hs) Hrun. unfold set_di_symt in Hrun.
  destruct (debug_info_table ctx !! d); [| discriminate].
  injection Hrun as <-. exists e. cbn.
  rewrite lookup_insert_ne by exact Hne. auto.
Qed.

(** What is read from the entry under [di] has the symbol [s]. *)
Lemma stable_get_di_bind {B : Type} di s d (k : dwarf2_debug_info_t -> M B) :
  (forall e, (d = di -> symt e = Some s) -> stable di s (k e)) ->
  stable di s (bind (get_di d) k).
Proof.
  intros Hk ctx b ctx'' H Hrun.
  apply bind_inv in Hrun. destruct Hrun as (e & ctx' & H1 & H2).
  apply get_di_inv in H1. destruct H1 as [-> He].
  refine (Hk e _ ctx b ctx'' H H2).
  intros ->. destruct H as (e' & He' & Hs). congruence.
Qed.

Lemma stable_for_each {A : Type} di s (l : list A) (f : A -> M unit) :
  (forall x, stable di s (f x)) -> stable di s (for_each l f).
Proof.
  intros Hf. induction l as [| x l IH]; cbn [for_each].
  - apply stable_ret.
  - apply stable_bind; [apply Hf | intros _; exact IH].
Qed.

(** The entry of the builder is not the entry that holds the symbol: it
    was found without one. *)
Ltac other_entry :=
  intros ?; subst;
  repeat match goal with
         | H : ?x = ?x -> _ |- _ => specialize (H eq_refl)
         end;
  congruence.

Ltac stable_step :=
  lazymatch goal with
  | |- stable _ _ (ret _) => apply stable_ret
  | |- stable _ _ fault => apply stable_fault
  | |- stable _ _ out_of_fuel => apply stable_out_of_fuel
  | |- stable _ _ (bind (get_di _) _) => apply stable_get_di_bind; intros ? ?
  | |- stable _ _ (get_di _) => apply stable_quiet, quiet_get_di
  | |- stable _ _ (di_symt _) => apply stable_quiet, quiet_di_symt
  | |- stable _ _ (set_di_symt _ _) => apply stable_set_di_symt; other_entry
  | |- stable _ _ (call_new _) => apply stable_call_new
  | |- stable _ _ (call _) => apply stable_call
  | |- stable _ _ get_ctx => apply stable_quiet, quiet_get_ctx
  | |- stable _ _ (lift _) => apply stable_quiet, quiet_lift
  | |- stable _ _ (find_attribute_or _ _ _ _) =>
      apply stable_quiet, quiet_find_attribute_or
  | |- stable _ _ (dwarf2_find_name _ _ _) =>
      apply stable_quiet, quiet_find_name
  | |- stable _ _ (name_of _) => apply stable_quiet, quiet_name_of
  | |- stable _ _ (bind _ _) => apply stable_bind; [| intros ?]
  | |- stable _ _ (for_each _ _) => apply stable_for_each; intros ?
  | |- stable _ _ (let _ := _ in _) => cbv zeta
  | |- stable _ _ (match ?x with _ => _ end) => destruct x eqn:?
  | |- stable _ _ _ =>
      match goal with
      | H : _ |- _ => solve [apply H]
      end
  end.

Ltac stable_auto := repeat stable_step.

Section Stability.

Variable junk : Z.
Variable elf_is_in_thunk_area : Z -> Z.
Variable symt_get_info_length : module_t -> symt_ptr -> option Z.

Variable di : Z.
Variable s : nat.

Lemma stable_parse_base_type d : stable di s (dwarf2_parse_base_type junk d).
Proof. unfold dwarf2_parse_base_type. stable_auto. Qed.

Lemma stable_parse_enumerator d parent :
  stable di s (dwarf2_parse_enumerator junk d parent).
Proof. unfold dwarf2_parse_enumerator. stable_auto. Qed.

Lemma stable_parse_enumeration_type d :
  stable di s (dwarf2_parse_enumeration_type junk d).
Proof.
  pose proof stable_parse_enumerator.
  unfold dwarf2_parse_enumeration_type. stable_auto.
Qed.

Section StableKnot.

Variable load_one_entry : Z -> symt_ptr -> M unit.
Hypothesis stable_load : forall d c, stable di s (load_one_entry d c).

Lemma stable_lookup_type d :
  stable di s (dwarf2_lookup_type junk load_one_entry d).
Proof. pose proof stable_load. unfold dwarf2_lookup_type. stable_auto. Qed.

Lemma stable_parse_typedef d :
  stable di s (dwarf2_parse_typedef junk load_one_entry d).
Proof.
  pose proof stable_lookup_type. unfold dwarf2_parse_typedef. stable_auto.
Qed.

Lemma stable_parse_pointer_type d :
  stable di s (dwarf2_parse_pointer_type junk load_one_entry d).
Proof.
  pose proof stable_lookup_type. unfold dwarf2_parse_pointer_type.
  stable_auto.
Qed.

Lemma stable_parse_array_child l child :
  stable di s (parse_array_child junk load_one_entry l child).
Proof.
  pose proof stable_lookup_type. unfold parse_array_child. stable_auto.
Qed.

Lemma stable_parse_array_children cs : forall l,
  stable di s (parse_array_children junk load_one_entry l cs).
Proof.
  pose proof stable_parse_array_child.
  induction cs as [| child cs IH]; intros l; cbn [parse_array_children];
    stable_auto.
Qed.

Lemma stable_parse_array_type d :
  stable di s (dwarf2_parse_array_type junk load_one_entry d).
Proof.
  pose proof stable_lookup_type. pose proof stable_parse_array_children.
  unfold dwarf2_parse_array_type. stable_auto.
Qed.

Lemma stable_parse_const_type d :
  stable di s (dwarf2_parse_const_type junk load_one_entry d).
Proof.
  pose proof stable_lookup_type. unfold dwarf2_parse_const_type. stable_auto.
Qed.

Lemma stable_parse_volatile_type d :
  stable di s (dwarf2_parse_volatile_type junk load_one_entry d).
Proof.
  pose proof stable_lookup_type. unfold dwarf2_parse_volatile_type.
  stable_auto.
Qed.

Lemma stable_parse_reference_type d :
  stable di s (dwarf2_parse_reference_type junk load_one_entry d).
Proof.
  pose proof stable_lookup_type. unfold dwarf2_parse_reference_type.
  stable_auto.
Qed.

Lemma stable_parse_udt_member d parent :
  stable di s
    (dwarf2_parse_udt_member junk symt_get_info_length load_one_entry d
       parent).
Proof.
  pose proof stable_lookup_type. unfold dwarf2_parse_udt_member. stable_auto.
Qed.

Lemma stable_parse_udt_type d udt :
  stable di s
    (dwarf2_parse_udt_type junk symt_get_info_length load_one_entry d udt).
Proof.
  pose proof stable_parse_udt_member.
  pose proof stable_parse_enumeration_type.
  unfold dwarf2_parse_udt_type. stable_auto.
Qed.

Lemma stable_parse_variable subpgm block d :
  stable di s (dwarf2_parse_variable junk load_one_entry subpgm block d).
Proof.
  pose proof stable_lookup_type. unfold dwarf2_parse_variable. stable_auto.
Qed.

Lemma stable_parse_subprogram_label subpgm d :
  stable di s (dwarf2_parse_subprogram_label junk subpgm d).
Proof. unfold dwarf2_parse_subprogram_label. stable_auto. Qed.

Lemma stable_parse_inlined_subroutine fuel : forall subpgm d,
  stable di s (dwarf2_parse_inlined_subroutine junk fuel subpgm d).
Proof.
  pose proof stable_parse_subprogram_label.
  induction fuel as [| fuel IH]; intros subpgm d;
    cbn [dwarf2_parse_inlined_subroutine]; stable_auto.
Qed.

Lemma stable_parse_subprogram_block fuel : forall subpgm parent d,
  stable di s
    (dwarf2_parse_subprogram_block junk load_one_entry fuel subpgm parent d).
Proof.
  pose proof stable_parse_inlined_subroutine.
  pose proof stable_parse_variable.
  induction fuel as [| fuel IH]; intros subpgm parent d;
    cbn [dwarf2_parse_subprogram_block]; stable_auto.
Qed.

Lemma stable_parse_subprogram fuel d compiland :
  stable di s
    (dwarf2_parse_subprogram junk elf_is_in_thunk_area load_one_entry fuel d
       compiland).
Proof.
  pose proof stable_lookup_type.
  pose proof stable_parse_inlined_subroutine.
  pose proof stable_parse_subprogram_block.
  pose proof stable_parse_subprogram_label.
  pose proof stable_parse_variable.
  unfold dwarf2_parse_subprogram. stable_auto.
Qed.

Lemma stable_parse_subroutine_type d :
  stable di s (dwarf2_parse_subroutine_type junk load_one_entry d).
Proof.
  pose proof stable_lookup_type. unfold dwarf2_parse_subroutine_type.
  stable_auto.
Qed.

Lemma stable_load_one_entry_body fuel d compiland :
  stable di s
    (load_one_entry_body junk elf_is_in_thunk_area symt_get_info_length
       load_one_entry fuel d compiland).
Proof.
  pose proof stable_parse_typedef.
  pose proof stable_parse_base_type.
  pose proof stable_parse_pointer_type.
  pose proof stable_parse_udt_type.
  pose proof stable_parse_array_type.
  pose proof stable_parse_const_type.
  pose proof stable_parse_volatile_type.
  pose proof stable_parse_reference_type.
  pose proof stable_parse_enumeration_type.
  pose proof stable_parse_subprogram.
  pose proof stable_parse_subroutine_type.
  pose proof stable_parse_variable.
  unfold load_one_entry_body. stable_auto.
Qed.

End StableKnot.

Lemma stable_load_one_entry fuel : forall d compiland,
  stable di s
    (dwarf2_load_one_entry junk elf_is_in_thunk_area symt_get_info_length
       fuel d compiland).
Proof.
  induction fuel as [| fuel IH]; intros d compiland;
    cbn [dwarf2_load_one_entry].
  - apply stable_out_of_fuel.
  - apply stable_load_one_entry_body. exact IH.
Qed.

End Stability.

(** ** One symbol for each structure

    [dwarf2_parse_udt_type] stores the symbol it makes in its entry at
    once, and the entry of a structure is written by no other builder:
    every structure symbol is the symbol of an entry. *)

Lemma keeps_udt_ret {A : Type} ctx0 (a : A) : keeps_udt ctx0 (ret a).
Proof. intros ctx a' ctx' H [= <- <-]. exact H. Qed.

Lemma keeps_udt_fault {A : Type} ctx0 : keeps_udt ctx0 (@fault A).
Proof. intros ctx a ctx' _ H. discriminate H. Qed.

Lemma keeps_udt_out_of_fuel {A : Type} ctx0 : keeps_udt ctx0 (@out_of_fuel A).
Proof. intros ctx a ctx' _ H. discriminate H. Qed.

Lemma keeps_udt_bind {A B : Type} ctx0 (c : M A) (k : A -> M B) :
  keeps_udt ctx0 c -> (forall a, keeps_udt ctx0 (k a)) ->
  keeps_udt ctx0 (bind c k).
Proof.
  intros Hc Hk ctx b ctx'' H Hrun.
  apply bind_inv in Hrun. destruct Hrun as (a & ctx' & H1 & H2).
  exact (Hk a _ _ _ (Hc _ _ _ H H1) H2).
Qed.

Lemma keeps_udt_quiet {A : Type} ctx0 (c : M A) :
  preserves c -> quiet c -> keeps_udt ctx0 c.
Proof.
  intros Hp Hq ctx a ctx' [He Hu] Hrun.
  split; [eapply extends_trans; [exact He | exact (Hp _ _ _ Hrun)] |].
  destruct (Hq _ _ _ Hrun) as [Hm Ht].
  unfold udt_symbols_held. rewrite Hm, Ht. exact Hu.
Qed.

Lemma tracks_after_call ctx0 ctx c :
  is_new_udt c = false -> tracks ctx0 ctx ->
  tracks ctx0
    (set_module ctx (set_calls (module ctx) (calls (module ctx) ++ [c]))).
Proof.
  intros Hc [He Hu]. split.
  - eapply extends_trans; [exact He |].
    exact (preserves_call c ctx tt _ eq_refl).
  - intros q name size kind Hq Hcall. cbn in Hcall |- *.
    apply lookup_app_Some in Hcall. destruct Hcall as [Hl | [Hge Hl]].
    + exact (Hu q name size kind Hq Hl).
    + destruct (q - length (calls (module ctx)))%nat as [| j];
        [| destruct j; discriminate Hl].
      injection Hl as ->. discriminate Hc.
Qed.

Lemma keeps_udt_call ctx0 c : is_new_udt c = false -> keeps_udt ctx0 (call c).
Proof.
  intros Hc ctx [] ctx' H Hrun. injection Hrun as <-.
  apply tracks_after_call; assumption.
Qed.

Lemma keeps_udt_call_new ctx0 c :
  is_new_udt c = false -> keeps_udt ctx0 (call_new c).
Proof.
  intros Hc ctx a ctx' H Hrun. injection Hrun as _ <-.
  apply tracks_after_call; assumption.
Qed.

Lemma tag_at_extends ctx0 ctx d e :
  extends ctx0 ctx -> debug_info_table ctx !! d = Some e ->
  tag (abbrev e) = tag_at ctx0 d.
Proof.
  intros He Hd. destruct (extends_lookup_rev _ _ _ _ He Hd) as (e0 & H0 & Hs).
  unfold tag_at. rewrite H0. destruct Hs as (-> & _). reflexivity.
Qed.

Lemma keeps_udt_set_di_symt ctx0 d x :
  is_udt_tag (tag_at ctx0 d) = false -> keeps_udt ctx0 (set_di_symt d x).
Proof.
  intros Htag ctx [] ctx' [He Hu] Hrun.
  split; [eapply extends_trans;
          [exact He | exact (preserves_update_symt _ _ _ _ _ Hrun)] |].
  unfold set_di_symt in Hrun.
  destruct (debug_info_table ctx !! d) as [ed |] eqn:Hd; [| discriminate].
  injection Hrun as <-.
  intros q name size kind Hq Hcall. cbn in Hcall |- *.
  destruct (Hu q name size kind Hq Hcall) as (h & e & Hh & Hudt & Hs).
  exists h, e. split; [| auto].
  rewrite lookup_insert_ne; [exact Hh |].
  intros ->. rewrite (tag_at_extends _ _ _ _ He Hh) in Hudt. congruence.
Qed.

Lemma keeps_udt_get_di_bind {B : Type} ctx0 d
  (k : dwarf2_debug_info_t -> M B) :
  (forall e, tag (abbrev e) = tag_at ctx0 d -> keeps_udt ctx0 (k e)) ->
  keeps_udt ctx0 (bind (get_di d) k).
Proof.
  intros Hk ctx b ctx'' H Hrun.
  apply bind_inv in Hrun. destruct Hrun as (e & ctx' & H1 & H2).
  apply get_di_inv in H1. destruct H1 as [-> He].
  refine (Hk e _ ctx b ctx'' H H2).
  exact (tag_at_extends _ _ _ _ (proj1 H) He).
Qed.

Lemma keeps_udt_for_each {A : Type} ctx0 (l : list A) (f : A -> M unit) :
  (forall x, keeps_udt ctx0 (f x)) -> keeps_udt ctx0 (for_each l f).
Proof.
  intros Hf. induction l as [| x l IH]; cbn [for_each].
  - apply keeps_udt_ret.
  - apply keeps_udt_bind; [apply Hf | intros _; exact IH].
Qed.

(** The tag of the entry, from the test that chose the builder. *)
Ltac tag_solve :=
  match goal with
  | He : tag (abbrev ?e) = tag_at _ ?d,
    E : (tag (abbrev ?e) =? _) = true |- is_udt_tag (tag_at _ ?d) = _ =>
      rewrite <- He; apply Z.eqb_eq in E; rewrite E; reflexivity
  | He : tag (abbrev ?e) = tag_at _ ?d,
    E : (_ || _) = true |- is_udt_tag (tag_at _ ?d) = _ =>
      rewrite <- He; apply orb_true_iff in E; destruct E as [E | E];
      apply Z.eqb_eq in E; rewrite E; reflexivity
  end.

Ltac keeps_udt_step :=
  lazymatch goal with
  | |- keeps_udt _ (ret _) => apply keeps_udt_ret
  | |- keeps_udt _ fault => apply keeps_udt_fault
  | |- keeps_udt _ out_of_fuel => apply keeps_udt_out_of_fuel
  | |- keeps_udt _ (bind (get_di _) _) =>
      apply keeps_udt_get_di_bind; intros ? ?
  | |- keeps_udt _ (get_di _) =>
      apply keeps_udt_quiet; [apply preserves_get_di | apply quiet_get_di]
  | |- keeps_udt _ (di_symt _) =>
      apply keeps_udt_quiet; [apply preserves_di_symt | apply quiet_di_symt]
  | |- keeps_udt _ (set_di_symt _ _) =>
      apply keeps_udt_set_di_symt; first [assumption | tag_solve]
  | |- keeps_udt _ (call_new _) => apply keeps_udt_call_new; reflexivity
  | |- keeps_udt _ (call _) => apply keeps_udt_call; reflexivity
  | |- keeps_udt _ get_ctx =>
      apply keeps_udt_quiet; [apply preserves_get_ctx | apply quiet_get_ctx]
  | |- keeps_udt _ (lift _) =>
      apply keeps_udt_quiet; [apply preserves_lift | apply quiet_lift]
  | |- keeps_udt _ (find_attribute_or _ _ _ _) =>
      apply keeps_udt_quiet;
      [apply preserves_find_attribute_or | apply quiet_find_attribute_or]
  | |- keeps_udt _ (dwarf2_find_name _ _ _) =>
      apply keeps_udt_quiet;
      [apply preserves_find_name | apply quiet_find_name]
  | |- keeps_udt _ (name_of _) =>
      apply keeps_udt_quiet; [apply preserves_name_of | apply quiet_name_of]
  | |- keeps_udt _ (bind _ _) => apply keeps_udt_bind; [| intros ?]
  | |- keeps_udt _ (for_each _ _) => apply keeps_udt_for_each; intros ?
  | |- keeps_udt _ (let _ := _ in _) => cbv zeta
  | |- keeps_udt _ (match ?x with _ => _ end) => destruct x eqn:?
  | |- keeps_udt _ _ =>
      match goal with
      | H : _ |- _ => solve [apply H; first [assumption | tag_solve]]
      end
  end.

Ltac keeps_udt_auto := repeat keeps_udt_step.

Section Structures.

Variable junk : Z.
Variable elf_is_in_thunk_area : Z -> Z.
Variable symt_get_info_length : module_t -> symt_ptr -> option Z.

Variable ctx0 : dwarf2_parse_context_t.

Lemma keeps_udt_parse_base_type d :
  is_udt_tag (tag_at ctx0 d) = false ->
  keeps_udt ctx0 (dwarf2_parse_base_type junk d).
Proof. intros Ht. unfold dwarf2_parse_base_type. keeps_udt_auto. Qed.

Lemma keeps_udt_parse_enumerator d parent :
  keeps_udt ctx0 (dwarf2_parse_enumerator junk d parent).
Proof. unfold dwarf2_parse_enumerator. keeps_udt_auto. Qed.

Lemma keeps_udt_parse_enumeration_type d :
  is_udt_tag (tag_at ctx0 d) = false ->
  keeps_udt ctx0 (dwarf2_parse_enumeration_type junk d).
Proof.
  intros Ht. pose proof keeps_udt_parse_enumerator.
  unfold dwarf2_parse_enumeration_type. keeps_udt_auto.
Qed.

Section StructKnot.

Variable load_one_entry : Z -> symt_ptr -> M unit.
Hypothesis keeps_udt_load : forall d c, keeps_udt ctx0 (load_one_entry d c).

Lemma keeps_udt_lookup_type d :
  keeps_udt ctx0 (dwarf2_lookup_type junk load_one_entry d).
Proof.
  pose proof keeps_udt_load. unfold dwarf2_lookup_type. keeps_udt_auto.
Qed.

Lemma keeps_udt_parse_typedef d :
  is_udt_tag (tag_at ctx0 d) = false ->
  keeps_udt ctx0 (dwarf2_parse_typedef junk load_one_entry d).
Proof.
  intros Ht. pose proof keeps_udt_lookup_type.
  unfold dwarf2_parse_typedef. keeps_udt_auto.
Qed.

Lemma keeps_udt_parse_pointer_type d :
  is_udt_tag (tag_at ctx0 d) = false ->
  keeps_udt ctx0 (dwarf2_parse_pointer_type junk load_one_entry d).
Proof.
  intros Ht. pose proof keeps_udt_lookup_type.
  unfold dwarf2_parse_pointer_type. keeps_udt_auto.
Qed.

Lemma keeps_udt_parse_array_child l child :
  keeps_udt ctx0 (parse_array_child junk load_one_entry l child).
Proof.
  pose proof keeps_udt_lookup_type. unfold parse_array_child.
  keeps_udt_auto.
Qed.

Lemma keeps_udt_parse_array_children cs : forall l,
  keeps_udt ctx0 (parse_array_children junk load_one_entry l cs).
Proof.
  pose proof keeps_udt_parse_array_child.
  induction cs as [| child cs IH]; intros l; cbn [parse_array_children];
    keeps_udt_auto.
Qed.

Lemma keeps_udt_parse_array_type d :
  is_udt_tag (tag_at ctx0 d) = false ->
  keeps_udt ctx0 (dwarf2_parse_array_type junk load_one_entry d).
Proof.
  intros Ht. pose proof keeps_udt_lookup_type.
  pose proof keeps_udt_parse_array_children.
  unfold dwarf2_parse_array_type. keeps_udt_auto.
Qed.

Lemma keeps_udt_parse_const_type d :
  is_udt_tag (tag_at ctx0 d) = false ->
  keeps_udt ctx0 (dwarf2_parse_const_type junk load_one_entry d).
Proof.
  intros Ht. pose proof keeps_udt_lookup_type.
  unfold dwarf2_parse_const_type. keeps_udt_auto.
Qed.

Lemma keeps_udt_parse_volatile_type d :
  is_udt_tag (tag_at ctx0 d) = false ->
  keeps_udt ctx0 (dwarf2_parse_volatile_type junk load_one_entry d).
Proof.
  intros Ht. pose proof keeps_udt_lookup_type.
  unfold dwarf2_parse_volatile_type. keeps_udt_auto.
Qed.

Lemma keeps_udt_parse_reference_type d :
  is_udt_tag (tag_at ctx0 d) = false ->
  keeps_udt ctx0 (dwarf2_parse_reference_type junk load_one_entry d).
Proof.
  intros Ht. pose proof keeps_udt_lookup_type.
  unfold dwarf2_parse_reference_type. keeps_udt_auto.
Qed.

Lemma keeps_udt_parse_udt_member d parent :
  keeps_udt ctx0
    (dwarf2_parse_udt_member junk symt_get_info_length load_one_entry d
       parent).
Proof.
  pose proof keeps_udt_lookup_type. unfold dwarf2_parse_udt_member.
  keeps_udt_auto.
Qed.

(** The structure symbol is made and stored in one go. *)
Lemma tracks_new_udt ctx d e name size kind :
  tracks ctx0 ctx ->
  debug_info_table ctx !! d = Some e ->
  is_udt_tag (tag (abbrev e)) = true ->
  symt e = None ->
  tracks ctx0 (with_new_symbol ctx (symt_new_udt name size kind) d e).
Proof.
  intros [He Hu] Hd Htag Hnone. split.
  - eapply extends_trans; [exact He |].
    eapply (preserves_bind (call_new (symt_new_udt name size kind))
              (fun sy => set_di_symt d sy)).
    + apply preserves_call_new.
    + intros sy. apply preserves_update_symt.
    + unfold bind. cbn [call_new]. unfold set_di_symt. cbn. rewrite Hd.
      reflexivity.
  - intros q n sz k Hq Hcall. unfold with_new_symbol in *. cbn in Hcall |- *.
    apply lookup_app_Some in Hcall. destruct Hcall as [Hl | [Hge Hl]].
    + destruct (Hu q n sz k Hq Hl) as (h & eh & Hh & Hudt & Hs).
      exists h, eh. split; [| auto].
      rewrite lookup_insert_ne; [exact Hh |]. intros ->. congruence.
    + destruct (q - length (calls (module ctx)))%nat as [| j] eqn:Ej;
        [| destruct j; discriminate Hl].
      exists d, (set_symt e (Some (length (calls (module ctx))))).
      rewrite lookup_insert_eq. cbn. split; [reflexivity |].
      split; [exact Htag |]. f_equal. lia.
Qed.

Lemma keeps_udt_parse_udt_type d udt :
  is_udt_tag (tag_at ctx0 d) = true ->
  keeps_udt ctx0
    (dwarf2_parse_udt_type junk symt_get_info_length load_one_entry d udt).
Proof.
  intros Ht ctx a ctx' Htr Hrun. unfold dwarf2_parse_udt_type in Hrun.
  apply bind_inv in Hrun. destruct Hrun as (e & c0 & He & Hrun).
  apply get_di_inv in He. destruct He as [-> He].
  destruct (symt e) as [sy |] eqn:Hsy.
  { injection Hrun as _ <-. exact Htr. }
  apply bind_inv in Hrun. destruct Hrun as (name & c1 & Hname & Hrun).
  destruct (find_name_keeps_module _ _ _ _ _ _ Hname) as (Hm1 & Ht1 & E1).
  apply bind_inv in Hrun. destruct Hrun as (size & c2 & Hsize & Hrun).
  pose proof (quiet_find_attribute_or _ _ _ _ _ _ _ Hsize) as [Hm2 Ht2].
  pose proof (preserves_find_attribute_or _ _ _ _ _ _ _ Hsize) as E2.
  apply bind_inv in Hrun. destruct Hrun as (n & c3 & Hn & Hrun).
  pose proof (quiet_name_of _ _ _ _ Hn) as [Hm3 Ht3].
  pose proof (preserves_name_of _ _ _ _ Hn) as E3.
  assert (Htr3 : tracks ctx0 c3).
  { destruct Htr as [E0 Hu]. split.
    - eapply extends_trans; [exact E0 |].
      eapply extends_trans; [exact E1 |].
      eapply extends_trans; [exact E2 | exact E3].
    - unfold udt_symbols_held. rewrite Hm3, Ht3, Hm2, Ht2, Hm1, Ht1.
      exact Hu. }
  assert (He3 : debug_info_table c3 !! d = Some e)
    by (rewrite Ht3, Ht2, Ht1; exact He).
  assert (Htag : is_udt_tag (tag (abbrev e)) = true)
    by (rewrite (tag_at_extends _ _ _ _ (proj1 Htr) He); exact Ht).
  unfold bind at 1 in Hrun. cbn [call_new] in Hrun.
  unfold bind at 1 in Hrun.
  erewrite set_di_symt_Done in Hrun by (cbn; exact He3).
  pose proof (tracks_new_udt c3 d e n (u_uvalue size) udt Htr3 He3 Htag Hsy)
    as Htr4.
  unfold with_new_symbol in Htr4.
  revert Hrun. generalize dependent Htr4.
  match goal with
  | |- tracks _ ?c4 -> ?k ?c4' = _ -> _ =>
      change c4' with c4; generalize c4
  end.
  intros c4 Htr4 Hrun.
  assert (Hrest : forall cs,
    keeps_udt ctx0
      (do* (if have_child (abbrev e) =? 0 then ret tt
            else
              for_each cs (fun child =>
                let* c := get_di child in
                let t := tag (abbrev c) in
                if t =? DW_TAG_member then
                  let* parent := di_symt d in
                  dwarf2_parse_udt_member junk symt_get_info_length
                    load_one_entry child parent
                else if t =? DW_TAG_enumeration_type then
                  do* dwarf2_parse_enumeration_type junk child in ret tt
                else ret tt)) in
       di_symt d)).
  { intros cs. pose proof keeps_udt_parse_udt_member.
    pose proof keeps_udt_parse_enumeration_type. keeps_udt_auto. }
  exact (Hrest _ _ _ _ Htr4 Hrun).
Qed.

Lemma keeps_udt_parse_variable subpgm block d :
  keeps_udt ctx0 (dwarf2_parse_variable junk load_one_entry subpgm block d).
Proof.
  pose proof keeps_udt_lookup_type. unfold dwarf2_parse_variable.
  keeps_udt_auto.
Qed.

Lemma keeps_udt_parse_subprogram_label subpgm d :
  keeps_udt ctx0 (dwarf2_parse_subprogram_label junk subpgm d).
Proof. unfold dwarf2_parse_subprogram_label. keeps_udt_auto. Qed.

Lemma keeps_udt_parse_inlined_subroutine fuel : forall subpgm d,
  keeps_udt ctx0 (dwarf2_parse_inlined_subroutine junk fuel subpgm d).
Proof.
  pose proof keeps_udt_parse_subprogram_label.
  induction fuel as [| fuel IH]; intros subpgm d;
    cbn [dwarf2_parse_inlined_subroutine]; keeps_udt_auto.
Qed.

Lemma keeps_udt_parse_subprogram_block fuel : forall subpgm parent d,
  keeps_udt ctx0
    (dwarf2_parse_subprogram_block junk load_one_entry fuel subpgm parent d).
Proof.
  pose proof keeps_udt_parse_inlined_subroutine.
  pose proof keeps_udt_parse_variable.
  induction fuel as [| fuel IH]; intros subpgm parent d;
    cbn [dwarf2_parse_subprogram_block]; keeps_udt_auto.
Qed.

Lemma keeps_udt_parse_subprogram fuel d compiland :
  is_udt_tag (tag_at ctx0 d) = false ->
  keeps_udt ctx0
    (dwarf2_parse_subprogram junk elf_is_in_thunk_area load_one_entry fuel d
       compiland).
Proof.
  intros Ht.
  pose proof keeps_udt_lookup_type.
  pose proof keeps_udt_parse_inlined_subroutine.
  pose proof keeps_udt_parse_subprogram_block.
  pose proof keeps_udt_parse_subprogram_label.
  pose proof keeps_udt_parse_variable.
  unfold dwarf2_parse_subprogram. keeps_udt_auto.
Qed.

Lemma keeps_udt_parse_subroutine_type d :
  is_udt_tag (tag_at ctx0 d) = false ->
  keeps_udt ctx0 (dwarf2_parse_subroutine_type junk load_one_entry d).
Proof.
  intros Ht. pose proof keeps_udt_lookup_type.
  unfold dwarf2_parse_subroutine_type. keeps_udt_auto.
Qed.

Lemma keeps_udt_load_one_entry_body fuel d compiland :
  keeps_udt ctx0
    (load_one_entry_body junk elf_is_in_thunk_area symt_get_info_length
       load_one_entry fuel d compiland).
Proof.
  pose proof keeps_udt_parse_typedef.
  pose proof keeps_udt_parse_base_type.
  pose proof keeps_udt_parse_pointer_type.
  pose proof keeps_udt_parse_udt_type.
  pose proof keeps_udt_parse_array_type.
  pose proof keeps_udt_parse_const_type.
  pose proof keeps_udt_parse_volatile_type.
  pose proof keeps_udt_parse_reference_type.
  pose proof keeps_udt_parse_enumeration_type.
  pose proof keeps_udt_parse_subprogram.
  pose proof keeps_udt_parse_subroutine_type.
  pose proof keeps_udt_parse_variable.
  unfold load_one_entry_body. keeps_udt_auto.
Qed.

End StructKnot.

Lemma keeps_udt_load_one_entry fuel : forall d compiland,
  keeps_udt ctx0
    (dwarf2_load_one_entry junk elf_is_in_thunk_area symt_get_info_length
       fuel d compiland).
Proof.
  induction fuel as [| fuel IH]; intros d compiland;
    cbn [dwarf2_load_one_entry].
  - apply keeps_udt_out_of_fuel.
  - apply keeps_udt_load_one_entry_body. exact IH.
Qed.

End Structures.

(** ** Type graphs that can be built *)

Lemma runs_bind {A B : Type} P P1 P2 (q : A -> Prop) (r : B -> Prop)
  (c : M A) (k : A -> M B) :
  runs P c P1 q -> (forall a, q a -> runs P1 (k a) P2 r) ->
  runs P (bind c k) P2 r.
Proof.
  intros Hc Hk ctx HP.
  destruct (Hc ctx HP) as (a & ctx1 & Hrun & HP1 & Hq).
  destruct (Hk a Hq ctx1 HP1) as (b & ctx2 & Hrun2 & HP2 & Hr).
  exists b, ctx2. split; [| auto].
  unfold bind. rewrite Hrun. exact Hrun2.
Qed.

Lemma runs_ret {A : Type} P (q : A -> Prop) (a : A) :
  q a -> runs P (ret a) P q.
Proof. intros Hq ctx HP. exists a, ctx. auto. Qed.

Lemma runs_done {A : Type} P (a : A) : runs P (ret a) P (fun _ => True).
Proof. apply runs_ret. exact I. Qed.

Lemma runs_weaken {A : Type} P P' P'' (q q' : A -> Prop) (c : M A) :
  runs P c P' q -> (forall ctx, P' ctx -> P'' ctx) ->
  (forall a, q a -> q' a) -> runs P c P'' q'.
Proof.
  intros Hc HP Hq ctx H.
  destruct (Hc ctx H) as (a & ctx' & Hrun & H' & Ha).
  exists a, ctx'. split; [exact Hrun |]. split; [apply HP | apply Hq]; assumption.
Qed.

Lemma runs_pre {A : Type} P0 P P' (q : A -> Prop) (c : M A) :
  (forall ctx, P0 ctx -> P ctx) -> runs P c P' q -> runs P0 c P' q.
Proof. intros H0 Hc ctx H. exact (Hc ctx (H0 ctx H)). Qed.

Lemma runs_get_ctx_bind {B : Type} P P' (r : B -> Prop)
  (k : dwarf2_parse_context_t -> M B) :
  (forall c, P c -> runs (fun ctx => ctx = c) (k c) P' r) ->
  runs P (bind get_ctx k) P' r.
Proof.
  intros Hk ctx HP. unfold bind, get_ctx. exact (Hk ctx HP ctx eq_refl).
Qed.

Lemma runs_lift {A : Type} P (o : option A) :
  is_Some o -> runs P (lift o) P (fun a => o = Some a).
Proof. intros [a ->] ctx HP. exists a, ctx. auto. Qed.

Lemma runs_for_each {A : Type} P (l : list A) (f : A -> M unit) :
  Forall (fun x => runs P (f x) P (fun _ => True)) l ->
  runs P (for_each l f) P (fun _ => True).
Proof.
  induction 1 as [| x l Hx Hl IH]; cbn [for_each].
  - apply runs_done.
  - eapply runs_bind; [exact Hx | intros _ _; exact IH].
Qed.

Lemma compute_location_same_entry junk c e e' dw offset in_register :
  same_entry e e' ->
  dwarf2_compute_location junk c e' dw offset in_register
  = dwarf2_compute_location junk c e dw offset in_register.
Proof.
  intros H. unfold dwarf2_compute_location.
  rewrite (find_attribute_same_entry c e e') by exact H. reflexivity.
Qed.

Lemma all_built_table built ctx ctx' :
  debug_info_table ctx' = debug_info_table ctx ->
  all_built built ctx -> all_built built ctx'.
Proof.
  intros Ht. unfold all_built, holds_symbol. rewrite Ht. auto.
Qed.

Section Termination.

Variable junk : Z.
Variable elf_is_in_thunk_area : Z -> Z.
Variable symt_get_info_length : module_t -> symt_ptr -> option Z.

(** The context in which the graph was found good. *)
Variable ctx0 : dwarf2_parse_context_t.

Local Abbreviation load :=
  (dwarf2_load_one_entry junk elf_is_in_thunk_area symt_get_info_length).

Lemma later_after {A : Type} built (c : M A) ctx a ctx' :
  preserves c -> (forall d s, stable d s c) ->
  later ctx0 built ctx -> c ctx = Done a ctx' -> later ctx0 built ctx'.
Proof.
  intros Hp Hs [He Hb] Hrun. split.
  - eapply extends_trans; [exact He | exact (Hp _ _ _ Hrun)].
  - eapply Forall_impl; [exact Hb |].
    intros b [s Hh]. exists s. exact (Hs b s _ _ _ Hh Hrun).
Qed.

(** A computation that finishes, and keeps what every computation of the
    reader keeps. *)
Lemma runs_later {A : Type} built (c : M A) :
  preserves c -> (forall d s, stable d s c) ->
  (forall ctx, later ctx0 built ctx -> exists a ctx', c ctx = Done a ctx') ->
  runs (later ctx0 built) c (later ctx0 built) (fun _ => True).
Proof.
  intros Hp Hs Hf ctx H. destruct (Hf ctx H) as (a & ctx' & Hrun).
  exists a, ctx'. split; [exact Hrun |]. split; [| exact I].
  exact (later_after built c ctx a ctx' Hp Hs H Hrun).
Qed.

Lemma finishes {A : Type} P P' (q : A -> Prop) (c : M A) ctx :
  runs P c P' q -> P ctx -> exists a ctx', c ctx = Done a ctx'.
Proof. intros Hc H. destruct (Hc ctx H) as (a & ctx' & Hrun & _). eauto. Qed.

Lemma runs_get_di built d e0 :
  debug_info_table ctx0 !! d = Some e0 ->
  runs (later ctx0 built) (get_di d) (later ctx0 built)
    (fun e => same_entry e0 e /\ (symt e = None -> ~ In d built)).
Proof.
  intros H0 ctx [He Hb].
  destruct (extends_lookup _ _ _ _ He H0) as (e & Hd & Hsame).
  exists e, ctx. split; [apply get_di_Done; exact Hd |].
  split; [split; assumption |]. split; [exact Hsame |].
  intros Hnone Hin.
  unfold all_built in Hb. rewrite List.Forall_forall in Hb.
  destruct (Hb d Hin) as (s & e' & He' & Hs). congruence.
Qed.

Lemma runs_get_di_built built d :
  In d built ->
  runs (later ctx0 built) (get_di d) (later ctx0 built) (fun e => is_Some (symt e)).
Proof.
  intros Hin ctx [He Hb].
  pose proof Hb as Hb'. unfold all_built in Hb'.
  rewrite List.Forall_forall in Hb'.
  destruct (Hb' d Hin) as (s & e & Hd & Hs).
  exists e, ctx. split; [apply get_di_Done; exact Hd |].
  split; [split; assumption |]. rewrite Hs. eauto.
Qed.

Lemma runs_di_symt built d :
  is_Some (debug_info_table ctx0 !! d) ->
  runs (later ctx0 built) (di_symt d) (later ctx0 built)
    (fun s => In d built -> is_Some s).
Proof.
  intros [e0 H0] ctx [He Hb].
  destruct (extends_lookup _ _ _ _ He H0) as (e & Hd & Hsame).
  exists (symt e), ctx. split; [apply di_symt_Done; exact Hd |].
  split; [split; assumption |].
  intros Hin. unfold all_built in Hb. rewrite List.Forall_forall in Hb.
  destruct (Hb d Hin) as (s & e' & He' & Hs).
  assert (e' = e) as -> by congruence. rewrite Hs. eauto.
Qed.

Lemma runs_find_name built e0 e attr pfx :
  readable ctx0 e0 -> same_entry e0 e ->
  runs (later ctx0 built) (dwarf2_find_name e attr pfx) (later ctx0 built)
    (fun _ => True).
Proof.
  intros Hr Hsame ctx [He Hb].
  destruct (find_name_run ctx e attr pfx) as (name & ctx' & Hrun & E & Hm & Ht).
  { exact (readable_extends _ _ _ _ He Hsame Hr _ _). }
  exists name, ctx'. split; [exact Hrun |]. split; [| exact I].
  split; [eapply extends_trans; eassumption |].
  exact (all_built_table _ _ _ Ht Hb).
Qed.

Lemma runs_find_attribute_or built e0 e at_ attr dflt :
  readable ctx0 e0 -> same_entry e0 e ->
  runs (later ctx0 built) (find_attribute_or e at_ attr dflt) (later ctx0 built)
    (fun _ => True).
Proof.
  intros Hr Hsame ctx [He Hb].
  destruct (find_attribute_or_run ctx e at_ attr dflt) as (a & Hrun).
  { exact (readable_extends _ _ _ _ He Hsame Hr _ _). }
  exists a, ctx. split; [exact Hrun |]. split; [split; assumption | exact I].
Qed.

Lemma runs_name_of P attr : runs P (name_of attr) P (fun _ => True).
Proof. intros ctx H. eexists. exists ctx. split; [reflexivity | auto]. Qed.

Lemma later_call built ctx c :
  later ctx0 built ctx ->
  later ctx0 built
    (set_module ctx (set_calls (module ctx) (calls (module ctx) ++ [c]))).
Proof.
  intros [He Hb]. split.
  - eapply extends_trans; [exact He |].
    exact (preserves_call c ctx tt _ eq_refl).
  - apply (all_built_table built ctx); [reflexivity | exact Hb].
Qed.

Lemma runs_call_new built c :
  runs (later ctx0 built) (call_new c) (later ctx0 built) (fun s => is_Some s).
Proof.
  intros ctx H. eexists. eexists. split; [reflexivity |].
  split; [apply later_call; exact H | eauto].
Qed.

Lemma runs_call built c :
  runs (later ctx0 built) (call c) (later ctx0 built) (fun _ => True).
Proof.
  intros ctx H. eexists. eexists. split; [reflexivity |].
  split; [apply later_call; exact H | exact I].
Qed.

Lemma runs_set_di_symt built d x :
  is_Some (debug_info_table ctx0 !! d) -> ~ In d built ->
  runs (later ctx0 built) (set_di_symt d x) (later ctx0 built) (fun _ => True).
Proof.
  intros [e0 H0] Hnot ctx [He Hb].
  destruct (extends_lookup _ _ _ _ He H0) as (e & Hd & Hsame).
  eexists. eexists. split; [apply (set_di_symt_Done _ _ _ _ Hd) |].
  split; [| exact I]. split.
  - eapply extends_trans; [exact He |].
    exact (preserves_update_symt d x ctx tt _ (set_di_symt_Done _ _ _ _ Hd)).
  - unfold all_built in *. rewrite List.Forall_forall in *.
    intros b Hin. destruct (Hb b Hin) as (s & eb & Heb & Hs).
    exists s, eb. cbn. rewrite lookup_insert_ne; [auto |].
    intros ->. contradiction.
Qed.

(** The entry that has got its symbol counts as built from then on. *)
Lemma runs_set_di_symt_built built d q :
  is_Some (debug_info_table ctx0 !! d) -> ~ In d built ->
  runs (later ctx0 built) (set_di_symt d (Some q)) (later ctx0 (d :: built))
    (fun _ => True).
Proof.
  intros H0 Hnot ctx H.
  destruct (runs_set_di_symt built d (Some q) H0 Hnot ctx H)
    as ([] & ctx' & Hrun & [He Hb] & _).
  exists tt, ctx'. split; [exact Hrun |]. split; [| exact I].
  split; [exact He |]. constructor; [| exact Hb].
  exists q. eapply set_di_symt_holds; [exact Hrun | reflexivity].
Qed.

Lemma later_weaken built d ctx : later ctx0 (d :: built) ctx -> later ctx0 built ctx.
Proof. intros [He Hb]. split; [exact He |]. inversion Hb. assumption. Qed.

Lemma runs_di_symt_built built d :
  In d built ->
  runs (later ctx0 built) (di_symt d) (later ctx0 built) (fun s => is_Some s).
Proof.
  intros Hin ctx [He Hb].
  pose proof Hb as Hb'. unfold all_built in Hb'.
  rewrite List.Forall_forall in Hb'.
  destruct (Hb' d Hin) as (s & e & Hd & Hs).
  exists (symt e), ctx. split; [apply di_symt_Done; exact Hd |].
  split; [split; assumption |]. rewrite Hs. eauto.
Qed.

(** The attribute of an entry, read in a later context. *)
Lemma find_attribute_later built c e0 e at_ attr :
  later ctx0 built c -> same_entry e0 e ->
  dwarf2_find_attribute c e at_ attr = dwarf2_find_attribute ctx0 e0 at_ attr.
Proof.
  intros [He _] Hsame.
  rewrite (find_attribute_extends ctx0 c) by exact He.
  apply find_attribute_same_entry. exact Hsame.
Qed.

Ltac step L := eapply runs_bind; [L |].

Section Finishing.

Variable load_one_entry : Z -> symt_ptr -> M unit.

Lemma runs_lookup_type built d e0 :
  debug_info_table ctx0 !! d = Some e0 ->
  readable ctx0 e0 ->
  (forall x, type_of junk ctx0 e0 = Some (Some x) ->
             resolvable ctx0 built load_one_entry x) ->
  runs (later ctx0 built) (dwarf2_lookup_type junk load_one_entry d) (later ctx0 built)
    (fun _ => True).
Proof.
  intros H0 Hr Hty. unfold dwarf2_lookup_type.
  step ltac:(apply (runs_get_di built d e0 H0)). intros e [Hsame _].
  apply runs_get_ctx_bind. intros c Hc.
  apply (runs_pre _ (later ctx0 built)); [intros ? ->; exact Hc |].
  destruct (Hr DW_AT_type (uninitialized junk)) as [[found attr] Hfa].
  step ltac:(apply runs_lift;
             rewrite (find_attribute_later built c e0 e) by assumption;
             rewrite Hfa; eauto).
  intros [f a] Heq.
  rewrite (find_attribute_later built c e0 e) in Heq by assumption.
  rewrite Hfa in Heq. injection Heq as <- <-.
  destruct found; [| apply runs_done].
  cbv zeta.
  destruct (Hty (u_uvalue attr)) as [Hin | [[ex Hx] Hload]].
  { unfold type_of. rewrite Hfa. reflexivity. }
  - step ltac:(apply runs_get_di_built; exact Hin). intros t [sy Hsy].
    rewrite Hsy.
    step ltac:(apply runs_done). intros _ _.
    eapply runs_weaken; [apply runs_di_symt_built; exact Hin | auto | auto].
  - step ltac:(apply (runs_get_di built _ ex Hx)). intros t _.
    step ltac:(destruct (symt t); [apply runs_done | apply Hload]).
    intros _ _.
    eapply runs_weaken; [apply runs_di_symt; eauto | auto | auto].
Qed.


Lemma runs_parse_base_type built d e0 :
  debug_info_table ctx0 !! d = Some e0 ->
  readable ctx0 e0 ->
  runs (later ctx0 built) (dwarf2_parse_base_type junk d) (later ctx0 built)
    (fun _ => True).
Proof.
  intros H0 Hr. unfold dwarf2_parse_base_type.
  step ltac:(apply (runs_get_di built d e0 H0)). intros e [Hsame Hnb].
  destruct (symt e); [apply runs_done |]. specialize (Hnb eq_refl).
  step ltac:(apply (runs_find_name built e0); assumption). intros name _.
  step ltac:(apply (runs_find_attribute_or built e0); assumption).
  intros size _.
  step ltac:(apply (runs_find_attribute_or built e0); assumption).
  intros encoding _. cbv zeta.
  step ltac:(apply runs_name_of). intros n _.
  step ltac:(apply runs_call_new). intros sy _.
  step ltac:(apply runs_set_di_symt; [eauto | assumption]). intros _ _.
  eapply runs_weaken; [apply runs_di_symt; eauto | auto | auto].
Qed.

Lemma runs_parse_typedef built d e0 :
  debug_info_table ctx0 !! d = Some e0 ->
  readable ctx0 e0 ->
  (forall x, type_of junk ctx0 e0 = Some (Some x) ->
             resolvable ctx0 built load_one_entry x) ->
  runs (later ctx0 built) (dwarf2_parse_typedef junk load_one_entry d)
    (later ctx0 built) (fun _ => True).
Proof.
  intros H0 Hr Hty. unfold dwarf2_parse_typedef.
  step ltac:(apply (runs_get_di built d e0 H0)). intros e [Hsame Hnb].
  destruct (symt e); [apply runs_done |]. specialize (Hnb eq_refl).
  step ltac:(apply (runs_find_name built e0); assumption). intros name _.
  step ltac:(apply (runs_lookup_type built d e0); assumption).
  intros ref_type _.
  step ltac:(destruct (u_string name =? 0);
             [apply runs_done |
              step ltac:(apply runs_name_of); intros n _;
              step ltac:(apply runs_call_new); intros sy _;
              apply runs_set_di_symt; [eauto | assumption]]).
  intros _ _.
  eapply runs_weaken; [apply runs_di_symt; eauto | auto | auto].
Qed.

Lemma runs_parse_pointer_type built d e0 :
  debug_info_table ctx0 !! d = Some e0 ->
  readable ctx0 e0 ->
  (forall x, type_of junk ctx0 e0 = Some (Some x) ->
             resolvable ctx0 built load_one_entry x) ->
  runs (later ctx0 built) (dwarf2_parse_pointer_type junk load_one_entry d)
    (later ctx0 built) (fun _ => True).
Proof.
  intros H0 Hr Hty. unfold dwarf2_parse_pointer_type.
  step ltac:(apply (runs_get_di built d e0 H0)). intros e [Hsame Hnb].
  destruct (symt e); [apply runs_done |]. specialize (Hnb eq_refl).
  step ltac:(apply (runs_find_attribute_or built e0); assumption).
  intros size _.
  step ltac:(apply (runs_lookup_type built d e0); assumption).
  intros ref_type _.
  step ltac:(apply runs_call_new). intros sy _.
  step ltac:(apply runs_set_di_symt; [eauto | assumption]). intros _ _.
  eapply runs_weaken; [apply runs_di_symt; eauto | auto | auto].
Qed.

Lemma runs_parse_reference_type built d e0 :
  debug_info_table ctx0 !! d = Some e0 ->
  readable ctx0 e0 ->
  (forall x, type_of junk ctx0 e0 = Some (Some x) ->
             resolvable ctx0 built load_one_entry x) ->
  runs (later ctx0 built) (dwarf2_parse_reference_type junk load_one_entry d)
    (later ctx0 built) (fun _ => True).
Proof.
  intros H0 Hr Hty. unfold dwarf2_parse_reference_type.
  step ltac:(apply (runs_get_di built d e0 H0)). intros e [Hsame Hnb].
  destruct (symt e); [apply runs_done |]. specialize (Hnb eq_refl).
  step ltac:(apply (runs_lookup_type built d e0); assumption).
  intros ref_type _.
  step ltac:(apply runs_call_new). intros sy _.
  step ltac:(apply runs_set_di_symt; [eauto | assumption]). intros _ _.
  eapply runs_weaken; [apply runs_di_symt; eauto | auto | auto].
Qed.

Lemma runs_parse_const_type built d e0 :
  debug_info_table ctx0 !! d = Some e0 ->
  readable ctx0 e0 ->
  (forall x, type_of junk ctx0 e0 = Some (Some x) ->
             resolvable ctx0 built load_one_entry x) ->
  runs (later ctx0 built) (dwarf2_parse_const_type junk load_one_entry d)
    (later ctx0 built) (fun _ => True).
Proof.
  intros H0 Hr Hty. unfold dwarf2_parse_const_type.
  step ltac:(apply (runs_get_di built d e0 H0)). intros e [Hsame Hnb].
  destruct (symt e); [apply runs_done |]. specialize (Hnb eq_refl).
  step ltac:(apply (runs_lookup_type built d e0); assumption).
  intros ref_type _.
  step ltac:(apply runs_set_di_symt; [eauto | assumption]). intros _ _.
  apply runs_done.
Qed.

Lemma runs_parse_volatile_type built d e0 :
  debug_info_table ctx0 !! d = Some e0 ->
  readable ctx0 e0 ->
  (forall x, type_of junk ctx0 e0 = Some (Some x) ->
             resolvable ctx0 built load_one_entry x) ->
  runs (later ctx0 built) (dwarf2_parse_volatile_type junk load_one_entry d)
    (later ctx0 built) (fun _ => True).
Proof.
  intros H0 Hr Hty. unfold dwarf2_parse_volatile_type.
  step ltac:(apply (runs_get_di built d e0 H0)). intros e [Hsame Hnb].
  destruct (symt e); [apply runs_done |]. specialize (Hnb eq_refl).
  step ltac:(apply (runs_lookup_type built d e0); assumption).
  intros ref_type _.
  step ltac:(apply runs_set_di_symt; [eauto | assumption]). intros _ _.
  apply runs_done.
Qed.

Lemma runs_parse_udt_member built d e0 parent :
  debug_info_table ctx0 !! d = Some e0 ->
  readable ctx0 e0 ->
  member_located junk ctx0 e0 = true ->
  (forall x, type_of junk ctx0 e0 = Some (Some x) ->
             resolvable ctx0 built load_one_entry x) ->
  is_Some parent ->
  runs (later ctx0 built)
    (dwarf2_parse_udt_member junk symt_get_info_length load_one_entry d
       parent)
    (later ctx0 built) (fun _ => True).
Proof.
  intros H0 Hr Hloc Hty [p ->]. unfold dwarf2_parse_udt_member.
  step ltac:(apply (runs_get_di built d e0 H0)). intros e [Hsame _].
  step ltac:(apply (runs_find_name built e0); assumption). intros name _.
  step ltac:(apply (runs_lookup_type built d e0); assumption).
  intros elt_type _.
  apply runs_get_ctx_bind. intros c Hc.
  apply (runs_pre _ (later ctx0 built)); [intros ? ->; exact Hc |].
  assert (Hfind : forall at_ attr,
    dwarf2_find_attribute c e at_ attr
    = dwarf2_find_attribute ctx0 e0 at_ attr).
  { intros. apply (find_attribute_later built); assumption. }
  step ltac:(apply runs_lift;
             rewrite (compute_location_extends junk ctx0 c) by apply Hc;
             rewrite (compute_location_same_entry junk ctx0 e0 e)
               by assumption;
             unfold member_located in Hloc;
             destruct (dwarf2_compute_location junk ctx0 e0
                         DW_AT_data_member_location 0 None);
             [eauto | discriminate]).
  intros [[r offset] ir] _.
  step ltac:(apply (runs_find_attribute_or built e0); assumption).
  intros bit_size _.
  step ltac:(apply runs_lift; rewrite Hfind; apply Hr).
  intros [found bit_offset] _.
  step ltac:(destruct found;
             [step ltac:(apply runs_lift; rewrite Hfind; apply Hr);
              intros [fb nbytes] _; apply runs_done
             | apply runs_done]).
  intros bo _.
  step ltac:(apply runs_name_of). intros n _.
  apply runs_call.
Qed.

Ltac eval_tests :=
  repeat match goal with
         | |- context [?a =? ?b] =>
             let v := eval vm_compute in (a =? b) in
             progress change (a =? b) with v
         end;
  cbv beta iota.

Lemma runs_parse_enumerator built d e0 parent :
  debug_info_table ctx0 !! d = Some e0 ->
  readable ctx0 e0 ->
  runs (later ctx0 built) (dwarf2_parse_enumerator junk d parent)
    (later ctx0 built) (fun _ => True).
Proof.
  intros H0 Hr. unfold dwarf2_parse_enumerator.
  step ltac:(apply (runs_get_di built d e0 H0)). intros e [Hsame _].
  step ltac:(apply (runs_find_name built e0); assumption). intros name _.
  step ltac:(apply (runs_find_attribute_or built e0); assumption).
  intros value _.
  step ltac:(apply runs_name_of). intros n _.
  apply runs_call.
Qed.

Lemma runs_parse_enumeration_type built d e0 :
  debug_info_table ctx0 !! d = Some e0 ->
  enumeration_finishes ctx0 e0 ->
  runs (later ctx0 built) (dwarf2_parse_enumeration_type junk d)
    (later ctx0 built) (fun _ => True).
Proof.
  intros H0 [Hr Hch]. unfold dwarf2_parse_enumeration_type.
  step ltac:(apply (runs_get_di built d e0 H0)). intros e [Hsame Hnb].
  destruct (symt e); [apply runs_done |]. specialize (Hnb eq_refl).
  step ltac:(apply (runs_find_name built e0); assumption). intros name _.
  step ltac:(apply (runs_find_attribute_or built e0); assumption).
  intros size _.
  step ltac:(apply runs_name_of). intros n _.
  step ltac:(apply runs_call_new). intros sy _.
  step ltac:(apply runs_set_di_symt; [eauto | assumption]). intros _ _.
  destruct Hsame as (Hab & _ & Hchildren). rewrite Hab, Hchildren.
  step ltac:(
    destruct (have_child (abbrev e0) =? 0) eqn:Hhave;
    [apply runs_done |
     apply runs_for_each;
     destruct Hch as [Hch | Hch];
     [apply Z.eqb_neq in Hhave; contradiction |];
     eapply Forall_impl; [exact Hch |];
     intros child (ec & Hc0 & Hkind);
     step ltac:(apply (runs_get_di built child ec Hc0));
     intros c [Hsc _]; destruct Hsc as (Habc & _); rewrite Habc;
     destruct (tag (abbrev ec) =? DW_TAG_enumerator) eqn:Etag;
     [apply Z.eqb_eq in Etag;
      step ltac:(apply (runs_di_symt built d); eauto);
      intros parent _;
      apply (runs_parse_enumerator built child ec); auto
     | apply runs_done]]).
  intros _ _.
  eapply runs_weaken; [apply runs_di_symt; eauto | auto | auto].
Qed.

Lemma runs_parse_udt_type built d e0 udt :
  debug_info_table ctx0 !! d = Some e0 ->
  readable ctx0 e0 ->
  have_child (abbrev e0) = 0
  \/ Forall (child_finishes junk ctx0 load_one_entry (d :: built)) (children e0) ->
  runs (later ctx0 built)
    (dwarf2_parse_udt_type junk symt_get_info_length load_one_entry d udt)
    (later ctx0 built) (fun _ => True).
Proof.
  intros H0 Hr Hch. unfold dwarf2_parse_udt_type.
  step ltac:(apply (runs_get_di built d e0 H0)). intros e [Hsame Hnb].
  destruct (symt e); [apply runs_done |]. specialize (Hnb eq_refl).
  step ltac:(apply (runs_find_name built e0); assumption). intros name _.
  step ltac:(apply (runs_find_attribute_or built e0); assumption).
  intros size _.
  step ltac:(apply runs_name_of). intros n _.
  step ltac:(apply runs_call_new). intros sy [q ->].
  step ltac:(apply runs_set_di_symt_built; [eauto | assumption]).
  intros _ _.
  apply (runs_weaken (later ctx0 (d :: built)) (later ctx0 (d :: built)) (later ctx0 built)
           (fun _ => True) (fun _ => True));
    [| apply later_weaken | auto].
  destruct Hsame as (Hab & _ & Hchildren). rewrite Hab, Hchildren.
  step ltac:(
    destruct (have_child (abbrev e0) =? 0) eqn:Hhave;
    [apply runs_done |
     apply runs_for_each;
     destruct Hch as [Hch | Hch];
     [apply Z.eqb_neq in Hhave; contradiction |];
     eapply Forall_impl; [exact Hch |];
     intros child (ec & Hc0 & Hkind);
     step ltac:(apply (runs_get_di (d :: built) child ec Hc0));
     intros c [Hsc _]; destruct Hsc as (Habc & _); rewrite Habc; cbv zeta;
     destruct Hkind as [(Htag & Hrc & Hlc & Htc) | [(Htag & Hen) | (Hnm & Hne)]];
     [rewrite Htag; cbn [Z.eqb Pos.eqb DW_TAG_member];
      step ltac:(apply (runs_di_symt_built (d :: built)); left; reflexivity);
      intros parent Hparent;
      apply (runs_parse_udt_member (d :: built) child ec); assumption
     | rewrite Htag; eval_tests;
       step ltac:(apply (runs_parse_enumeration_type (d :: built) child ec);
                  assumption);
       intros; apply runs_done
     | apply Z.eqb_neq in Hnm; apply Z.eqb_neq in Hne;
       rewrite Hnm, Hne; apply runs_done]]).
  intros _ _.
  eapply runs_weaken; [apply runs_di_symt; eauto | auto | auto].
Qed.

Lemma runs_parse_array_child built l child :
  typed_child junk ctx0 load_one_entry built DW_TAG_subrange_type child ->
  runs (later ctx0 built) (parse_array_child junk load_one_entry l child)
    (later ctx0 built) (fun _ => True).
Proof.
  intros (ec & Hc0 & Hkind). unfold parse_array_child.
  step ltac:(apply (runs_get_di built child ec Hc0)). intros c [Hsame _].
  pose proof Hsame as (Hab & _). rewrite Hab.
  destruct (tag (abbrev ec) =? DW_TAG_subrange_type) eqn:Etag;
    [| apply runs_done].
  apply Z.eqb_eq in Etag. destruct (Hkind Etag) as [Hr Hty].
  step ltac:(apply (runs_lookup_type built child ec); assumption).
  intros idx _.
  step ltac:(apply (runs_find_attribute_or built ec); assumption).
  intros min _.
  step ltac:(apply (runs_find_attribute_or built ec); assumption).
  intros max _.
  apply runs_get_ctx_bind. intros cx Hcx.
  apply (runs_pre _ (later ctx0 built)); [intros ? ->; exact Hcx |].
  step ltac:(apply runs_lift;
             rewrite (find_attribute_later built cx ec c) by assumption;
             apply Hr).
  intros [found cnt] _. apply runs_done.
Qed.

Lemma runs_parse_array_children built cs : forall l,
  Forall (typed_child junk ctx0 load_one_entry built DW_TAG_subrange_type)
    cs ->
  runs (later ctx0 built) (parse_array_children junk load_one_entry l cs)
    (later ctx0 built) (fun _ => True).
Proof.
  induction cs as [| child cs IH]; intros l Hall; cbn [parse_array_children].
  - apply runs_done.
  - inversion Hall as [| ? ? Hchild Hrest]; subst.
    step ltac:(apply runs_parse_array_child; exact Hchild).
    intros l' _. apply IH. exact Hrest.
Qed.

Lemma runs_parse_array_type built d e0 :
  debug_info_table ctx0 !! d = Some e0 ->
  readable ctx0 e0 ->
  have_child (abbrev e0) = 0
  \/ ((forall x, type_of junk ctx0 e0 = Some (Some x) ->
                 resolvable ctx0 built load_one_entry x)
      /\ Forall (typed_child junk ctx0 load_one_entry built
                   DW_TAG_subrange_type) (children e0)) ->
  runs (later ctx0 built) (dwarf2_parse_array_type junk load_one_entry d)
    (later ctx0 built) (fun _ => True).
Proof.
  intros H0 Hr Hch. unfold dwarf2_parse_array_type.
  step ltac:(apply (runs_get_di built d e0 H0)). intros e [Hsame Hnb].
  destruct (symt e); [apply runs_done |]. specialize (Hnb eq_refl).
  destruct Hsame as (Hab & _ & Hchildren). rewrite Hab, Hchildren.
  destruct (have_child (abbrev e0) =? 0) eqn:Hhave; [apply runs_done |].
  destruct Hch as [Hch | [Hty Hch]];
    [apply Z.eqb_neq in Hhave; contradiction |].
  step ltac:(apply (runs_lookup_type built d e0); assumption).
  intros ref_type _.
  step ltac:(apply runs_parse_array_children; exact Hch). intros l _.
  step ltac:(apply runs_call_new). intros sy _.
  step ltac:(apply runs_set_di_symt; [eauto | assumption]). intros _ _.
  eapply runs_weaken; [apply runs_di_symt; eauto | auto | auto].
Qed.

Lemma runs_parse_subroutine_type built d e0 :
  debug_info_table ctx0 !! d = Some e0 ->
  readable ctx0 e0 ->
  (forall x, type_of junk ctx0 e0 = Some (Some x) ->
             resolvable ctx0 built load_one_entry x) ->
  have_child (abbrev e0) = 0
  \/ Forall (typed_child junk ctx0 load_one_entry built
               DW_TAG_formal_parameter) (children e0) ->
  runs (later ctx0 built) (dwarf2_parse_subroutine_type junk load_one_entry d)
    (later ctx0 built) (fun _ => True).
Proof.
  intros H0 Hr Hty Hch. unfold dwarf2_parse_subroutine_type.
  step ltac:(apply (runs_get_di built d e0 H0)). intros e [Hsame Hnb].
  destruct (symt e); [apply runs_done |]. specialize (Hnb eq_refl).
  step ltac:(apply (runs_lookup_type built d e0); assumption).
  intros ret_type _.
  step ltac:(apply runs_call_new). intros sig_type _.
  destruct Hsame as (Hab & _ & Hchildren). rewrite Hab, Hchildren.
  step ltac:(
    destruct (have_child (abbrev e0) =? 0) eqn:Hhave;
    [apply runs_done |
     apply runs_for_each;
     destruct Hch as [Hch | Hch];
     [apply Z.eqb_neq in Hhave; contradiction |];
     eapply Forall_impl; [exact Hch |];
     intros child (ec & Hc0 & Hkind);
     step ltac:(apply (runs_get_di built child ec Hc0));
     intros c [Hsc _]; destruct Hsc as (Habc & _); rewrite Habc;
     destruct (tag (abbrev ec) =? DW_TAG_formal_parameter) eqn:Etag;
     [apply Z.eqb_eq in Etag; destruct (Hkind Etag) as [Hrc Htc];
      step ltac:(apply (runs_lookup_type built child ec); assumption);
      intros param _; apply runs_call
     | apply runs_done]]).
  intros _ _.
  step ltac:(apply runs_set_di_symt; [eauto | assumption]). intros _ _.
  apply runs_done.
Qed.

Ltac one_tag H :=
  repeat (apply orb_true_iff in H; destruct H as [H | H]);
  apply Z.eqb_eq in H; rewrite H; eval_tests.

Lemma runs_load_one_entry_body built fuel t compiland e0 :
  debug_info_table ctx0 !! t = Some e0 ->
  readable ctx0 e0 ->
  entry_finishes junk ctx0 load_one_entry built t e0 ->
  runs (later ctx0 built)
    (load_one_entry_body junk elf_is_in_thunk_area symt_get_info_length
       load_one_entry fuel t compiland)
    (later ctx0 built) (fun _ => True).
Proof.
  intros H0 Hr Hkind. unfold load_one_entry_body.
  step ltac:(apply (runs_get_di built t e0 H0)). intros e [(Hab & _) _].
  rewrite Hab. cbv zeta.
  destruct Hkind
    as [Htag | [[Htag Hty] | [[Htag Hen] | [[Htag Hch] | [(Htag & Hty & Hch)
        | [Htag Hch]]]]]].
  - rewrite Htag. eval_tests.
    step ltac:(apply (runs_parse_base_type built t e0); assumption).
    intros; apply runs_done.
  - unfold is_wrapper_tag in Htag. one_tag Htag.
    + step ltac:(apply (runs_parse_typedef built t e0); assumption).
      intros; apply runs_done.
    + step ltac:(apply (runs_parse_pointer_type built t e0); assumption).
      intros; apply runs_done.
    + step ltac:(apply (runs_parse_const_type built t e0); assumption).
      intros; apply runs_done.
    + step ltac:(apply (runs_parse_volatile_type built t e0); assumption).
      intros; apply runs_done.
    + step ltac:(apply (runs_parse_reference_type built t e0); assumption).
      intros; apply runs_done.
  - rewrite Htag. eval_tests.
    step ltac:(apply (runs_parse_enumeration_type built t e0); assumption).
    intros; apply runs_done.
  - rewrite Htag. eval_tests.
    step ltac:(apply (runs_parse_array_type built t e0); assumption).
    intros; apply runs_done.
  - rewrite Htag. eval_tests.
    step ltac:(apply (runs_parse_subroutine_type built t e0); assumption).
    intros; apply runs_done.
  - unfold is_udt_tag in Htag. one_tag Htag;
      (step ltac:(apply (runs_parse_udt_type built t e0); assumption);
       intros; apply runs_done).
Qed.

End Finishing.

Lemma in_list_In x l : in_list x l = true -> In x l.
Proof.
  unfold in_list. intros H. apply existsb_exists in H.
  destruct H as (y & Hy & E). apply Z.eqb_eq in E. subst. exact Hy.
Qed.

Lemma builds_in_table h built t :
  builds junk ctx0 h built t = true ->
  is_Some (debug_info_table ctx0 !! t).
Proof.
  destruct h; cbn [builds]; [discriminate |].
  destruct (debug_info_table ctx0 !! t); [eauto | discriminate].
Qed.

Lemma enumeration_ok_finishes e :
  enumeration_ok ctx0 e = true -> enumeration_finishes ctx0 e.
Proof.
  unfold enumeration_ok. intros H.
  apply andb_true_iff in H. destruct H as [Hr Hch].
  split; [apply readable_by_test; exact Hr |].
  apply orb_true_iff in Hch. destruct Hch as [Hnone | Hall].
  { left. apply Z.eqb_eq. exact Hnone. }
  right. rewrite forallb_forall in Hall. apply List.Forall_forall.
  intros c Hc. specialize (Hall c Hc).
  destruct (debug_info_table ctx0 !! c) as [ec |] eqn:Hec; [| discriminate].
  exists ec. split; [first [exact Hec | reflexivity] |]. intros Htag.
  rewrite Htag in Hall. cbn in Hall. apply readable_by_test. exact Hall.
Qed.

(** A graph that [builds] accepts is loaded to the end, whatever has been
    built of it in the meantime. *)
Lemma builds_runs h : forall built t fuel compiland,
  builds junk ctx0 h built t = true ->
  (h <= fuel)%nat ->
  runs (later ctx0 built) (load fuel t compiland) (later ctx0 built)
    (fun _ => True).
Proof.
  induction h as [| h IH]; intros built t fuel compiland Hb Hfuel;
    [discriminate |].
  destruct fuel as [| fuel]; [lia |].
  assert (Hres : forall bs e,
    match type_of junk ctx0 e with
    | Some (Some x) => in_list x bs || builds junk ctx0 h bs x
    | Some None => true
    | None => false
    end = true ->
    forall x, type_of junk ctx0 e = Some (Some x) ->
              resolvable ctx0 bs (load fuel) x).
  { intros bs e Ht x Hx. rewrite Hx in Ht.
    apply orb_true_iff in Ht. destruct Ht as [Hin | Hbx].
    - left. apply in_list_In. exact Hin.
    - right. split; [exact (builds_in_table _ _ _ Hbx) |].
      intros c. apply IH; [exact Hbx | lia]. }
  assert (Hkids : forall tg cs,
    forallb
      (fun c =>
         match debug_info_table ctx0 !! c with
         | None => false
         | Some ec =>
             negb (tag (abbrev ec) =? tg)
             || (attributes_readable ctx0 ec 0 (attrs (abbrev ec))
                 && match type_of junk ctx0 ec with
                    | Some (Some x) =>
                        in_list x built || builds junk ctx0 h built x
                    | Some None => true
                    | None => false
                    end)
         end) cs = true ->
    Forall (typed_child junk ctx0 (load fuel) built tg) cs).
  { intros tg cs Hall. rewrite forallb_forall in Hall.
    apply List.Forall_forall. intros c Hc. specialize (Hall c Hc).
    destruct (debug_info_table ctx0 !! c) as [ec |] eqn:Hec; [| discriminate].
    exists ec. split; [first [exact Hec | reflexivity] |]. intros Htag.
    rewrite <- Htag, Z.eqb_refl in Hall. cbn [negb orb] in Hall.
    apply andb_true_iff in Hall. destruct Hall as [Hrc Htc].
    split; [apply readable_by_test; exact Hrc | apply Hres; exact Htc]. }
  cbn [dwarf2_load_one_entry]. cbn [builds] in Hb.
  destruct (debug_info_table ctx0 !! t) as [e0 |] eqn:H0; [| discriminate].
  apply andb_true_iff in Hb. destruct Hb as [Hread Hkind].
  apply (runs_load_one_entry_body (load fuel) built fuel t compiland e0 H0).
  { apply readable_by_test. exact Hread. }
  destruct (tag (abbrev e0) =? DW_TAG_base_type) eqn:Ebase;
    [left; apply Z.eqb_eq; exact Ebase |].
  right.
  destruct (is_wrapper_tag (tag (abbrev e0))) eqn:Ewrap.
  { left. split; [first [exact Ewrap | reflexivity] |]. apply Hres.
    exact Hkind. }
  right.
  destruct (tag (abbrev e0) =? DW_TAG_enumeration_type) eqn:Eenum.
  { left. split; [apply Z.eqb_eq; exact Eenum |].
    apply enumeration_ok_finishes. exact Hkind. }
  right.
  destruct (tag (abbrev e0) =? DW_TAG_array_type) eqn:Earray.
  { left. split; [apply Z.eqb_eq; exact Earray |].
    apply orb_true_iff in Hkind. destruct Hkind as [Hnone | Hkind].
    { left. apply Z.eqb_eq. exact Hnone. }
    right. apply andb_true_iff in Hkind. destruct Hkind as [Hty Hall].
    split; [apply Hres; exact Hty | apply Hkids; exact Hall]. }
  right.
  destruct (tag (abbrev e0) =? DW_TAG_subroutine_type) eqn:Esub.
  { left. split; [apply Z.eqb_eq; exact Esub |].
    apply andb_true_iff in Hkind. destruct Hkind as [Hty Hkind].
    split; [apply Hres; exact Hty |].
    apply orb_true_iff in Hkind. destruct Hkind as [Hnone | Hall].
    { left. apply Z.eqb_eq. exact Hnone. }
    right. apply Hkids. exact Hall. }
  right.
  destruct (is_udt_tag (tag (abbrev e0))) eqn:Eudt; [| discriminate].
  split; [first [exact Eudt | reflexivity] |].
  apply orb_true_iff in Hkind. destruct Hkind as [Hnone | Hall].
  { left. apply Z.eqb_eq. exact Hnone. }
  right. rewrite forallb_forall in Hall. apply List.Forall_forall.
  intros c Hc. specialize (Hall c Hc).
  destruct (debug_info_table ctx0 !! c) as [ec |] eqn:Hec; [| discriminate].
  exists ec. split; [exact Hec |].
  destruct (tag (abbrev ec) =? DW_TAG_member) eqn:Emember.
  - left. apply Z.eqb_eq in Emember.
    apply andb_true_iff in Hall. destruct Hall as [Hall Htyped].
    apply andb_true_iff in Hall. destruct Hall as [Hrc Hloc].
    split; [exact Emember |]. split; [apply readable_by_test; exact Hrc |].
    split; [exact Hloc |]. apply Hres. exact Htyped.
  - right. apply Z.eqb_neq in Emember.
    destruct (tag (abbrev ec) =? DW_TAG_enumeration_type) eqn:Een.
    + left. split; [apply Z.eqb_eq; exact Een |].
      apply enumeration_ok_finishes. exact Hall.
    + right. split; [exact Emember |]. apply Z.eqb_neq. exact Een.
Qed.

End Termination.

(** ** What a pointer to a structure leaves *)

Section Results.

Variable junk : Z.
Variable elf_is_in_thunk_area : Z -> Z.
Variable symt_get_info_length : module_t -> symt_ptr -> option Z.

Local Abbreviation load :=
  (dwarf2_load_one_entry junk elf_is_in_thunk_area symt_get_info_length).

Lemma find_attribute_or_same e at_ attr dflt ctx a ctx' :
  find_attribute_or e at_ attr dflt ctx = Done a ctx' -> ctx' = ctx.
Proof.
  unfold find_attribute_or. unfold bind at 1. cbn [get_ctx].
  intros H. apply bind_inv in H. destruct H as ([f x] & c & Hl & Hr).
  apply lift_inv in Hl. destruct Hl as [-> _].
  injection Hr as _ <-. reflexivity.
Qed.

Lemma extends_call c c' q x :
  extends c c' -> calls (module c) !! q = Some x ->
  calls (module c') !! q = Some x.
Proof.
  intros He Hq. destruct (ext_calls _ _ He) as [l ->].
  apply lookup_app_l_Some. exact Hq.
Qed.

(** The structure that had no symbol holds, when its builder returns, the
    symbol that [symt_new_udt] made for it, the first call of the
    builder. *)
Lemma udt_type_built fuel d udt ctx a ctx' e :
  dwarf2_parse_udt_type junk symt_get_info_length (load fuel) d udt ctx
  = Done a ctx' ->
  debug_info_table ctx !! d = Some e ->
  symt e = None ->
  exists name size,
    holds_symbol ctx' d (length (calls (module ctx)))
    /\ calls (module ctx') !! length (calls (module ctx))
       = Some (symt_new_udt name size udt).
Proof.
  intros Hrun He Hsy. unfold dwarf2_parse_udt_type in Hrun.
  rewrite (bind_Done _ _ _ _ _ (get_di_Done _ _ _ He)), Hsy in Hrun.
  apply bind_inv in Hrun. destruct Hrun as (name & c1 & Hname & Hrun).
  destruct (find_name_keeps_module _ _ _ _ _ _ Hname) as (Hm1 & Ht1 & _).
  apply bind_inv in Hrun. destruct Hrun as (size & c2 & Hsize & Hrun).
  pose proof (quiet_find_attribute_or _ _ _ _ _ _ _ Hsize) as [Hm2 Ht2].
  apply bind_inv in Hrun. destruct Hrun as (n & c3 & Hn & Hrun).
  pose proof (quiet_name_of _ _ _ _ Hn) as [Hm3 Ht3].
  assert (He3 : debug_info_table c3 !! d = Some e)
    by (rewrite Ht3, Ht2, Ht1; exact He).
  assert (Hlen : length (calls (module c3)) = length (calls (module ctx)))
    by (rewrite Hm3, Hm2, Hm1; reflexivity).
  unfold bind at 1 in Hrun. cbn [call_new] in Hrun.
  unfold bind at 1 in Hrun.
  erewrite set_di_symt_Done in Hrun by (cbn; exact He3).
  rewrite Hlen in Hrun.
  match type of Hrun with
  | ?k ?c4 = _ =>
      assert (H4 : holds_symbol c4 d (length (calls (module ctx)))
                   /\ calls (module c4) !! length (calls (module ctx))
                      = Some (symt_new_udt n (u_uvalue size) udt));
      [| assert (Hk : preserves k /\ stable d (length (calls (module ctx))) k)]
  end.
  { split.
    - eexists. cbn. rewrite lookup_insert_eq. split; reflexivity.
    - cbn. rewrite <- Hlen. rewrite lookup_app_r by lia.
      rewrite Nat.sub_diag. reflexivity. }
  { split.
    - pose proof (preserves_parse_udt_member junk symt_get_info_length
                    (load fuel)
                    (preserves_load_one_entry junk elf_is_in_thunk_area
                       symt_get_info_length fuel)).
      pose proof (preserves_parse_enumeration_type junk).
      pose proof preserves_di_symt.
      preserves_with.
    - pose proof (stable_parse_udt_member junk symt_get_info_length d
                    (length (calls (module ctx))) (load fuel)
                    (stable_load_one_entry junk elf_is_in_thunk_area
                       symt_get_info_length d (length (calls (module ctx)))
                       fuel)).
      pose proof (stable_parse_enumeration_type junk d
                    (length (calls (module ctx)))).
      stable_auto. }
  destruct H4 as [Hh Hc]. destruct Hk as [Hp Hs].
  exists n, (u_uvalue size). split.
  - exact (Hs _ _ _ Hh Hrun).
  - exact (extends_call _ _ _ _ (Hp _ _ _ Hrun) Hc).
Qed.

(** An entry of a structure, class or union is handed to
    [dwarf2_parse_udt_type]. *)
Lemma load_udt fuel d compiland ctx ctx' e :
  load (S fuel) d compiland ctx = Done tt ctx' ->
  debug_info_table ctx !! d = Some e ->
  is_udt_tag (tag (abbrev e)) = true ->
  exists udt a,
    dwarf2_parse_udt_type junk symt_get_info_length (load fuel) d udt ctx
    = Done a ctx'.
Proof.
  intros Hrun He Htag. cbn [dwarf2_load_one_entry] in Hrun.
  unfold load_one_entry_body in Hrun.
  rewrite (bind_Done _ _ _ _ _ (get_di_Done _ _ _ He)) in Hrun.
  cbv zeta in Hrun. unfold is_udt_tag in Htag.
  repeat (apply orb_true_iff in Htag; destruct Htag as [Htag | Htag]);
    apply Z.eqb_eq in Htag; rewrite Htag in Hrun;
    repeat match type of Hrun with
           | context [?a =? ?b] =>
               let v := eval vm_compute in (a =? b) in
               progress change (a =? b) with v in Hrun
           end;
    cbv beta iota in Hrun;
    apply bind_inv in Hrun; destruct Hrun as (a & c1 & Hrun & Hret);
    injection Hret as <-; eauto.
Qed.

(** The type of an entry that names an entry without a symbol: that
    entry is loaded, and what it holds then is the answer. *)
Lemma lookup_type_loads (load_one_entry : Z -> symt_ptr -> M unit)
  d ctx ref ctx1 e a et :
  dwarf2_lookup_type junk load_one_entry d ctx = Done ref ctx1 ->
  debug_info_table ctx !! d = Some e ->
  dwarf2_find_attribute ctx e DW_AT_type (uninitialized junk)
  = Some (true, a) ->
  debug_info_table ctx !! u_uvalue a = Some et ->
  symt et = None ->
  load_one_entry (u_uvalue a) None ctx = Done tt ctx1
  /\ di_symt (u_uvalue a) ctx1 = Done ref ctx1.
Proof.
  intros Hrun He Ha Het Hnone. unfold dwarf2_lookup_type in Hrun.
  rewrite (bind_Done _ _ _ _ _ (get_di_Done _ _ _ He)) in Hrun.
  unfold bind at 1 in Hrun. cbn [get_ctx] in Hrun. rewrite Ha in Hrun.
  unfold bind at 1 in Hrun. cbn [lift ret] in Hrun. cbv zeta in Hrun.
  rewrite (bind_Done _ _ _ _ _ (get_di_Done _ _ _ Het)), Hnone in Hrun.
  apply bind_inv in Hrun. destruct Hrun as ([] & c1 & Hload & Hsy).
  pose proof (di_symt_inv _ _ _ _ Hsy) as [-> _]. auto.
Qed.

(** The pointer that had no symbol: its type is looked up, then the
    pointer symbol is made and stored. *)
Lemma pointer_type_built (load_one_entry : Z -> symt_ptr -> M unit)
  d ctx a ctx' e :
  dwarf2_parse_pointer_type junk load_one_entry d ctx = Done a ctx' ->
  debug_info_table ctx !! d = Some e ->
  symt e = None ->
  exists ref ctx1 e1,
    dwarf2_lookup_type junk load_one_entry d ctx = Done ref ctx1
    /\ debug_info_table ctx1 !! d = Some e1
    /\ ctx' = with_new_symbol ctx1 (symt_new_pointer ref) d e1.
Proof.
  intros Hrun He Hnone. unfold dwarf2_parse_pointer_type in Hrun.
  rewrite (bind_Done _ _ _ _ _ (get_di_Done _ _ _ He)), Hnone in Hrun.
  apply bind_inv in Hrun. destruct Hrun as (size & c0 & Hsize & Hrun).
  pose proof (find_attribute_or_same _ _ _ _ _ _ _ Hsize) as ->.
  apply bind_inv in Hrun. destruct Hrun as (ref & c1 & Hlook & Hrun).
  unfold bind at 1 in Hrun. cbn [call_new] in Hrun.
  apply bind_inv in Hrun. destruct Hrun as ([] & c2 & Hset & Hsy).
  pose proof (di_symt_inv _ _ _ _ Hsy) as [-> _].
  unfold set_di_symt in Hset. cbn in Hset.
  destruct (debug_info_table c1 !! d) as [e1 |] eqn:H1; [| discriminate].
  injection Hset as <-.
  exists ref, c1, e1. split; [exact Hlook |]. split; [exact H1 |].
  reflexivity.
Qed.

Lemma type_of_found ctx e x :
  type_of junk ctx e = Some (Some x) ->
  exists a,
    dwarf2_find_attribute ctx e DW_AT_type (uninitialized junk)
    = Some (true, a)
    /\ u_uvalue a = x.
Proof.
  unfold type_of.
  destruct (dwarf2_find_attribute ctx e DW_AT_type (uninitialized junk))
    as [[[] a] |]; try discriminate.
  intros [= <-]. eauto.
Qed.

(** What the request for a pointer to a structure leaves when it returns,
    neither holding a symbol before: the structure holds the symbol of
    the first call made, a [symt_new_udt], and the pointer holds a
    pointer symbol to that symbol. *)
Lemma pointer_to_structure_built fuel compiland ctx ctx' p eP s eS :
  debug_info_table ctx !! p = Some eP ->
  tag (abbrev eP) = DW_TAG_pointer_type ->
  symt eP = None ->
  type_of junk ctx eP = Some (Some s) ->
  debug_info_table ctx !! s = Some eS ->
  is_udt_tag (tag (abbrev eS)) = true ->
  symt eS = None ->
  load fuel p compiland ctx = Done tt ctx' ->
  let q := length (calls (module ctx)) in
  exists name size kind r,
    calls (module ctx') !! q = Some (symt_new_udt name size kind)
    /\ holds_symbol ctx' s q
    /\ holds_symbol ctx' p r
    /\ calls (module ctx') !! r = Some (symt_new_pointer (Some q)).
Proof.
  intros Hp HtagP HnP Hty Hs HtagS HnS Hrun q.
  destruct (type_of_found _ _ _ Hty) as (a & Ha & <-).
  destruct fuel as [| fuel]; [discriminate Hrun |].
  cbn [dwarf2_load_one_entry] in Hrun.
  rewrite (body_pointer_type _ _ _ _ _ _ _ _ _ Hp HtagP) in Hrun.
  apply bind_inv in Hrun. destruct Hrun as (r0 & c2 & Hrun & Hret).
  injection Hret as <-.
  destruct (pointer_type_built _ _ _ _ _ _ Hrun Hp HnP)
    as (ref & c1 & e1 & Hlook & H1 & ->).
  destruct (lookup_type_loads _ _ _ _ _ _ _ _ Hlook Hp Ha Hs HnS)
    as [Hload Hsy].
  destruct fuel as [| fuel]; [discriminate Hload |].
  destruct (load_udt _ _ _ _ _ _ Hload Hs HtagS) as (udt & a' & Hudt).
  destruct (udt_type_built _ _ _ _ _ _ _ Hudt Hs HnS)
    as (name & size & Hh & Hc).
  fold q in Hh, Hc.
  apply di_symt_inv in Hsy. destruct Hsy as (_ & es & Hes & <-).
  destruct Hh as (es' & Hes' & Hq).
  assert (es' = es) as -> by congruence.
  assert (Hps : p <> u_uvalue a).
  { intros E. rewrite E in Hp. rewrite Hp in Hs. injection Hs as ->.
    rewrite HtagP in HtagS. discriminate. }
  exists name, size, udt, (length (calls (module c1))).
  unfold with_new_symbol, holds_symbol.
  cbn [debug_info_table module calls set_debug_info_table set_module
       set_calls]. rewrite Hq.
  split; [apply lookup_app_l_Some; exact Hc |].
  split; [exists es; rewrite lookup_insert_ne by exact Hps; auto |].
  split.
  - eexists. rewrite lookup_insert_eq. split; reflexivity.
  - rewrite lookup_app_r by lia. rewrite Nat.sub_diag. reflexivity.
Qed.

End Results.

(** ** The memo of an entry *)

Section Reuse.

Variable junk : Z.
Variable elf_is_in_thunk_area : Z -> Z.
Variable symt_get_info_length : module_t -> symt_ptr -> option Z.

Local Abbreviation load :=
  (dwarf2_load_one_entry junk elf_is_in_thunk_area symt_get_info_length).


End Reuse.
(* ================================================================== *)
(** * The properties at sample inputs *)

(** 624485 and -123456, the one after the other at 0x1000. *)
Lemma leb128_roundtrip_witness :
  dwarf2_get_leb128_as_unsigned
    [ {| r_base := 0x1000; r_bytes := [0xE5; 0x8E; 0x26; 0xC0; 0xBB; 0x78; 0x00] |} ]
    0x1000 = Some (624485, 0x1003)
  /\ dwarf2_get_leb128_as_signed
       [ {| r_base := 0x1000; r_bytes := [0xE5; 0x8E; 0x26; 0xC0; 0xBB; 0x78; 0x00] |} ]
       0x1003 = Some (-123456, 0x1006).
Proof.
  apply (leb128_roundtrip
           [ {| r_base := 0x1000;
                r_bytes := [0xE5; 0x8E; 0x26; 0xC0; 0xBB; 0x78; 0x00] |} ]
           0x1000 0x1003 624485 (-123456) [0xC0; 0xBB; 0x78; 0x00] [0x00]).
  - lia.
  - lia.
  - reflexivity.
  - reflexivity.
Defined.



(** [DW_OP_const1u 5; DW_OP_deref], with 77 in [*offset] before the call. *)
Lemma unsupported_opcode_returns_stack_top_witness :
  dwarf2_compute_location 0
    (initial_context (location_memory [DW_OP_const1u; 5; 0x06]) sample_module 0)
    location_entry DW_AT_location 77 (Some 9)
  = Some (5, 77, Some Wine_DW_no_register).
Proof.
  apply (unsupported_opcode_returns_stack_top 0 5 77 9). lia.
Defined.

(** A header of version 3 and length 7 at 0x10000, and the sample unit
    after it: the loop passes over the first and the calls it leaves are
    those of the sample unit. *)
Lemma unsupported_version_is_skipped_witness :
  exists ctx',
    dwarf2_parse_units 0 (fun _ => -1) (fun _ _ => None) (fun _ _ => -1)
      (fun _ _ => None) 0x70000000 10 2 0x10000 0x10030
      (loop_context skipped_memory 0x30)
    = Done tt ctx'
    /\ calls (module ctx')
       = [source_new None (Some "a.c"%string); symt_new_compiland 0;
          symt_new_basic btInt (Some "int"%string) 4;
          symt_new_global_variable (Some 1%nat) (Some "g"%string) true
            0x401000 0 (Some 2%nat)].
Proof.
  destruct (dwarf2_parse_unit 0 (fun _ => -1) (fun _ _ => None)
              (fun _ _ => -1) (fun _ _ => None) 0x70000000 10 0x1000b
              (loop_context skipped_memory 0x30))
    as [[r next'] ctx' | |] eqn:Hrun; [| vm_compute in Hrun; discriminate ..].
  assert (Hnext : next' = 0x10030 /\ calls (module ctx')
       = [source_new None (Some "a.c"%string); symt_new_compiland 0;
          symt_new_basic btInt (Some "int"%string) 4;
          symt_new_global_variable (Some 1%nat) (Some "g"%string) true
            0x401000 0 (Some 2%nat)]).
  { vm_compute in Hrun. injection Hrun as _ <- <-. split; reflexivity. }
  destruct Hnext as [-> Hcalls].
  exists ctx'. split; [| exact Hcalls].
  destruct (unsupported_version_is_skipped 0 (fun _ => -1) (fun _ _ => None)
              (fun _ _ => -1) (fun _ _ => None) 0x70000000 10 0
              {| cu_length := 7; cu_version := 3; cu_abbrev_offset := 0;
                 cu_word_size := 4 |}
              0x10000 0x10030 (loop_context skipped_memory 0x30)
              eq_refl ltac:(cbn; lia))
    as (_ & _ & _ & _ & _ & Hloop & _).
  apply (Hloop r 0x10030 ctx').
  - lia.
  - vm_compute. reflexivity.
  - exact Hrun.
  - lia.
Defined.

(** C5, as the specification has it, fails for a header of version 3 that
    declares the length 0xFFFFFFFC: the length plus four is 0 in 32 bits,
    so the turn of the loop leaves the cursor where it was, on the same
    header and not on a next one. *)
Lemma skipped_unit_need_not_advance :
  read_comp_unit endless_memory 0x10000
  = Some {| cu_length := 0xFFFFFFFC; cu_version := 3; cu_abbrev_offset := 0;
            cu_word_size := 4 |}
  /\ dwarf2_parse_unit 0 (fun _ => -1) (fun _ _ => None) (fun _ _ => -1)
       (fun _ _ => None) 0x70000000 4 0x10000
       (initial_context endless_memory sample_module 0)
     = Done (false, 0x10000) (initial_context endless_memory sample_module 0)
  /\ ~ advances_to_next_header 0x10000
         {| cu_length := 0xFFFFFFFC; cu_version := 3; cu_abbrev_offset := 0;
            cu_word_size := 4 |}
         0x10000
  /\ ~ 0x10000 < 0x10000.
Proof.
  split; [reflexivity |]. split; [vm_compute; reflexivity |].
  split; [| lia].
  unfold advances_to_next_header. cbn [cu_length]. lia.
Qed.

(** The opcode 0x4b under the sample header: the address moves on by 4
    and the line by 1. *)
Lemma special_opcode_step_witness :
  line_program_opcode (fun _ _ => 0) (fun _ _ => Some 2%nat)
    sample_line_header [0]
    {| data := 0x50021; start_data := 0x50000; end_data := 0x50040;
       word_size := 4 |}
    {| reg_address := 0x401010; reg_file := 1; reg_line := 10;
       reg_is_stmt := 1; reg_basic_block := false;
       reg_end_sequence := false |}
    0x4b (initial_context [] function_module 0)
  = Done
      ({| data := 0x50021; start_data := 0x50000; end_data := 0x50040;
          word_size := 4 |},
       {| reg_address := 0x401014; reg_file := 1; reg_line := 11;
          reg_is_stmt := 1; reg_basic_block := true;
          reg_end_sequence := false |})
      (initial_context []
         (set_calls function_module
            (calls function_module
             ++ [symt_add_func_line (Some 2%nat) 0 11 0x14])) 0).
Proof.
  destruct (special_opcode_step (fun _ _ => 0) (fun _ _ => Some 2%nat) 0
              sample_line_header [0]
              {| data := 0x50020; start_data := 0x50000; end_data := 0x50040;
                 word_size := 4 |}
              {| data := 0x50021; start_data := 0x50000; end_data := 0x50040;
                 word_size := 4 |}
              {| reg_address := 0x401010; reg_file := 1; reg_line := 10;
                 reg_is_stmt := 1; reg_basic_block := false;
                 reg_end_sequence := false |}
              0x4b (initial_context [] function_module 0))
    as (H & _ & _).
  - lia.
  - cbn. lia.
  - cbn. lia.
  - rewrite H. reflexivity.
Defined.

(** A base type, a structure and a base type, from a counter at 0. *)
Lemma synthesized_names_share_one_counter_witness :
  exists ctx',
    find_names 0
      [(nameless_entry DW_TAG_base_type, "base_type"%string);
       (nameless_entry DW_TAG_structure_type, "udt"%string);
       (nameless_entry DW_TAG_base_type, "base_type"%string)]
      (set_pool (initial_context [] sample_module 0)
         {| pool_next := 0x70000000; pool_strings := [] |})
    = Done [Some "base_type_0"%string; Some "udt_1"%string;
            Some "base_type_2"%string] ctx'
    /\ index ctx' = 3.
Proof.
  apply (synthesized_names_share_one_counter 0
           [(nameless_entry DW_TAG_base_type, "base_type"%string);
            (nameless_entry DW_TAG_structure_type, "udt"%string);
            (nameless_entry DW_TAG_base_type, "base_type"%string)]
           (set_pool (initial_context [] sample_module 0)
              {| pool_next := 0x70000000; pool_strings := [] |})).
  - repeat constructor.
  - reflexivity.
  - cbn. lia.
  - cbn. lia.
Defined.

(** The variable [g] of the sample unit, at [DW_OP_addr 0x1000]. *)
Lemma toplevel_variable_is_global_witness :
  exists ctx',
    dwarf2_load_one_entry 0 (fun _ => -1) (fun _ _ => None) 2 23 (Some 1%nat)
      (unit_entries sample_memory "a.c")
    = Done tt ctx'
    /\ calls (module ctx')
       = [source_new None (Some "a.c"%string); symt_new_compiland 0;
          symt_new_basic btInt (Some "int"%string) 4;
          symt_new_global_variable (Some 1%nat) (Some "g"%string) true
            0x401000 0 (Some 2%nat)].
Proof.
  edestruct (toplevel_variable_is_global 0 (fun _ => -1) (fun _ _ => None) 1
               (unit_entries sample_memory "a.c") 23
               (entry_at (unit_entries sample_memory "a.c") 23)
               (Some 1%nat))
    as (ctx' & Hrun & Hcalls).
  - vm_compute. reflexivity.
  - vm_compute. reflexivity.
  - vm_compute. reflexivity.
  - vm_compute. reflexivity.
  - vm_compute. reflexivity.
  - vm_compute. discriminate.
  - vm_compute. reflexivity.
  - vm_compute. reflexivity.
  - vm_compute. eexists. reflexivity.
  - exists ctx'. split; [exact Hrun |]. rewrite Hcalls. vm_compute. reflexivity.
Defined.

(** The array of the unit for [int v[10];]: no lower bound, the upper
    bound 99 and the count 10 give the bounds 0 and 10. *)
Lemma array_bounds_of_subrange_witness :
  exists ctx',
    dwarf2_parse_array_type 0
      (dwarf2_load_one_entry 0 (fun _ => -1) (fun _ _ => None) 2) 23
      (unit_entries array_memory "v.c")
    = Done (Some 3%nat) ctx'
    /\ calls (module ctx')
       = [source_new None (Some "v.c"%string); symt_new_compiland 0;
          symt_new_basic btInt (Some "int"%string) 4;
          symt_new_array 0 10 (Some 2%nat) (Some 2%nat)].
Proof.
  edestruct (array_bounds_of_subrange 0 (fun _ => -1) (fun _ _ => None) 2
               (unit_entries array_memory "v.c") 23
               (entry_at (unit_entries array_memory "v.c") 23)
               [] [] 28
               (entry_at (unit_entries array_memory "v.c") 28))
    as (lo & hi & ctx' & Hrun & Hcalls & Hlo & _ & Hhi & _).
  - vm_compute. reflexivity.
  - vm_compute. reflexivity.
  - vm_compute. discriminate.
  - vm_compute. reflexivity.
  - vm_compute. reflexivity.
  - vm_compute. reflexivity.
  - constructor.
  - vm_compute. reflexivity.
  - vm_compute. reflexivity.
  - vm_compute. reflexivity.
  - vm_compute. reflexivity.
  - vm_compute. reflexivity.
  - vm_compute. reflexivity.
  - exists ctx'. split; [exact Hrun |].
    rewrite Hcalls, Hhi, Hlo by reflexivity. vm_compute. reflexivity.
Defined.

(** The const type at 16 of the unit whose base type comes after it, at
    21: both entries end up with the symbol of the base type. *)
Lemma qualifier_is_its_referenced_type_witness :
  exists ctx',
    dwarf2_parse_const_type 0
      (dwarf2_load_one_entry 0 (fun _ => -1) (fun _ _ => None) 2) 16
      (unit_entries const_memory "q.c")
    = Done (Some 2%nat) ctx'
    /\ dwarf2_parse_volatile_type 0
         (dwarf2_load_one_entry 0 (fun _ => -1) (fun _ _ => None) 2) 16
         (unit_entries const_memory "q.c")
       = Done (Some 2%nat) ctx'
    /\ calls (module ctx')
       = [source_new None (Some "q.c"%string); symt_new_compiland 0;
          symt_new_basic btInt (Some "int"%string) 4]
    /\ symt (entry_at ctx' 16) = Some 2%nat
    /\ symt (entry_at ctx' 21) = Some 2%nat.
Proof.
  edestruct (qualifier_is_its_referenced_type 0 (fun _ => -1)
               (fun _ _ => None) 2 (unit_entries const_memory "q.c") 16
               (entry_at (unit_entries const_memory "q.c") 16))
    as (e1 & ctx' & He1 & Hctx' & Hconst & Hvolatile & Hmodule & _).
  - vm_compute. reflexivity.
  - vm_compute. reflexivity.
  - vm_compute. reflexivity.
  - exists ctx'. split; [exact Hconst |]. split; [exact Hvolatile |].
    rewrite Hmodule.
    vm_compute in He1. injection He1 as <-.
    rewrite Hctx'. vm_compute. auto.
Defined.


(** C9, as the specification has it, fails on a run of three requests, for
    a base type, a structure and a base type again, from a counter at 0:
    the names are [base_type_0], [udt_1] and [base_type_2], so the second
    name of a base type carries 2, whether the numbering of the names of a
    prefix is taken to start at 0 or at 1. *)
Lemma base_type_names_skip_indices :
  exists ctx',
    find_names 0 mixed_requests (pool_context 0)
    = Done [Some "base_type_0"%string; Some "udt_1"%string;
            Some "base_type_2"%string] ctx'
    /\ ~ numbered_in_sequence 0 "base_type"
           (names_of_prefix "base_type" mixed_requests
              [Some "base_type_0"%string; Some "udt_1"%string;
               Some "base_type_2"%string])
    /\ ~ numbered_in_sequence 1 "base_type"
           (names_of_prefix "base_type" mixed_requests
              [Some "base_type_0"%string; Some "udt_1"%string;
               Some "base_type_2"%string]).
Proof.
  eexists. split; [vm_compute; reflexivity |]. split.
  - intros H. specialize (H 1%nat _ eq_refl). vm_compute in H. discriminate.
  - intros H. specialize (H 0%nat _ eq_refl). vm_compute in H. discriminate.
Qed.

(* ================================================================== *)
(** * The further properties at sample inputs *)

(** The type attribute of the variable [g] of the sample unit, the second
    of its three attributes. *)
Lemma find_attribute_takes_the_first_match_witness :
  exists pre a post p,
    attrs (abbrev (entry_at (unit_entries sample_memory "a.c") 23))
    = pre ++ a :: post
    /\ Forall (fun x => attribute x <> DW_AT_type) pre
    /\ attribute a = DW_AT_type
    /\ di_data (entry_at (unit_entries sample_memory "a.c") 23) !! length pre
       = Some p
    /\ find_attribute_form (unit_entries sample_memory "a.c") p
         (set_form (uninitialized 0) (form a))
       = Some {| a_form := DW_FORM_ref4; u_word0 := 16; u_word1 := 0 |}.
Proof.
  destruct (find_attribute_takes_the_first_match
              (unit_entries sample_memory "a.c")
              (entry_at (unit_entries sample_memory "a.c") 23)
              DW_AT_type (uninitialized 0) true
              {| a_form := DW_FORM_ref4; u_word0 := 16; u_word1 := 0 |})
    as [_ H].
  - vm_compute. reflexivity.
  - exact (H eq_refl).
Defined.

(** A constant of form [DW_FORM_data8], asked for with 7 in the
    uninitialised locals. *)
Lemma eight_byte_forms_are_not_decoded_witness :
  dwarf2_find_attribute (initial_context [] sample_module 0) wide_entry
    DW_AT_const_value (uninitialized 7)
  = Some (true, {| a_form := DW_FORM_data8; u_word0 := 7; u_word1 := 7 |})
  /\ dwarf2_compute_location 7 (initial_context [] sample_module 0)
       wide_entry DW_AT_const_value 77 None
     = Some (TRUE, 7, None).
Proof.
  destruct (eight_byte_forms_are_not_decoded 7
              (initial_context [] sample_module 0) wide_entry
              DW_AT_const_value (uninitialized 7) [] []
              {| attribute := DW_AT_const_value; form := DW_FORM_data8 |}
              0x30000) as [H1 H2].
  - reflexivity.
  - constructor.
  - reflexivity.
  - reflexivity.
  - left. reflexivity.
  - split; [exact H1 | exact (H2 eq_refl 77 None)].
Defined.

(** A block of form [DW_FORM_block1] with five bytes at 0x30000. *)
Lemma swallowed_block_is_the_decoded_block_witness :
  exists v,
    find_attribute_form
      (initial_context (location_memory [DW_OP_addr; 0; 0x10; 0; 0])
         sample_module 0)
      0x30000 (set_form (uninitialized 0) DW_FORM_block1) = Some v
    /\ 0x30006 = u_block_ptr v + u_block_size v
    /\ 0x30000 < u_block_ptr v
    /\ 0 <= u_block_size v.
Proof.
  apply (swallowed_block_is_the_decoded_block
           (initial_context (location_memory [DW_OP_addr; 0; 0x10; 0; 0])
              sample_module 0)
           {| data := 0x30000; start_data := 0x30000; end_data := 0x30006;
              word_size := 4 |}
           {| data := 0x30006; start_data := 0x30000; end_data := 0x30006;
              word_size := 4 |}
           {| attribute := DW_AT_location; form := DW_FORM_block1 |}
           (uninitialized 0)).
  - right. left. reflexivity.
  - reflexivity.
Defined.

(** The location of the variable [g] of the sample unit. *)
Lemma location_of_an_address_witness :
  dwarf2_compute_location 0 (unit_entries sample_memory "a.c")
    (entry_at (unit_entries sample_memory "a.c") 23) DW_AT_location 77
    (Some 9)
  = Some (TRUE, 0x1000, Some Wine_DW_no_register).
Proof.
  apply (location_of_an_address 0 (unit_entries sample_memory "a.c")
           (entry_at (unit_entries sample_memory "a.c") 23) DW_AT_location
           {| a_form := DW_FORM_block1; u_word0 := 5; u_word1 := 0x1001f |}
           0x1000 77 (Some 9)).
  - vm_compute. reflexivity.
  - reflexivity.
  - vm_compute. reflexivity.
  - reflexivity.
  - vm_compute. reflexivity.
  - vm_compute. reflexivity.
Defined.

(** The location [DW_OP_fbreg -4]. *)
Lemma location_relative_to_the_frame_witness :
  dwarf2_compute_location 0
    (initial_context (location_memory [DW_OP_fbreg; 0x7c]) sample_module 0)
    location_entry DW_AT_location 77 (Some 9)
  = Some (TRUE, 0xFFFFFFFC, Some (-2)).
Proof.
  apply (location_relative_to_the_frame 0
           (initial_context (location_memory [DW_OP_fbreg; 0x7c])
              sample_module 0)
           location_entry DW_AT_location
           {| a_form := DW_FORM_block1; u_word0 := 2; u_word1 := 0x30001 |}
           (-4) 77 (Some 9)).
  - vm_compute. reflexivity.
  - reflexivity.
  - vm_compute. reflexivity.
  - vm_compute. reflexivity.
Defined.

(** The location [DW_OP_plus_uconst 8]. *)
Lemma location_of_a_member_witness :
  dwarf2_compute_location 0
    (initial_context (location_memory [DW_OP_plus_uconst; 0x08])
       sample_module 0)
    location_entry DW_AT_location 0 None
  = Some (TRUE, 8, None).
Proof.
  apply (location_of_a_member 0
           (initial_context (location_memory [DW_OP_plus_uconst; 0x08])
              sample_module 0)
           location_entry DW_AT_location
           {| a_form := DW_FORM_block1; u_word0 := 2; u_word1 := 0x30001 |}
           8 0 None).
  - vm_compute. reflexivity.
  - reflexivity.
  - vm_compute. reflexivity.
  - vm_compute. reflexivity.
Defined.

(** The location [DW_OP_breg5 8]: the register number stored is 37. *)
Lemma location_in_a_register_witness :
  exists in_reg,
    dwarf2_compute_location 0
      (initial_context (location_memory [DW_OP_breg0 + 5; 0x08])
         sample_module 0)
      location_entry DW_AT_location 77 (Some 9)
    = Some (TRUE, 8, Some in_reg)
    /\ Z.land (uint32 in_reg) (Z.lnot Wine_DW_register_deref) = 37
    /\ Z.land (uint32 in_reg) Wine_DW_register_deref
       = Wine_DW_register_deref.
Proof.
  destruct (location_in_a_register 0
              (initial_context (location_memory [DW_OP_breg0 + 5; 0x08])
                 sample_module 0)
              location_entry DW_AT_location
              {| a_form := DW_FORM_block1; u_word0 := 2; u_word1 := 0x30001 |}
              5 77 9) as [_ H].
  - vm_compute. reflexivity.
  - reflexivity.
  - lia.
  - apply (H 8).
    + vm_compute. reflexivity.
    + vm_compute. reflexivity.
Defined.

(** The abbreviations of the unit with a function. *)
Lemma abbrev_set_is_well_formed_witness :
  abbrev_table_ok (abbrev_table (unit_start function_memory)).
Proof.
  apply (proj1 (abbrev_set_is_well_formed function_memory
                  {| data := 0x20000; start_data := 0x20000;
                     end_data := 0x21000; word_size := 4 |})).
  vm_compute. reflexivity.
Defined.


(** The pointer of the unit for [struct node { struct node *next; };]. *)
Lemma building_symbols_only_extends_witness :
  exists ctx',
    dwarf2_load_one_entry 0 (fun _ => -1) (fun _ _ => None) 3 16 (Some 1%nat)
      (unit_entries cyclic_memory "c.c") = Done tt ctx'
    /\ extends (unit_entries cyclic_memory "c.c") ctx'.
Proof.
  destruct (dwarf2_load_one_entry 0 (fun _ => -1) (fun _ _ => None) 3 16
              (Some 1%nat) (unit_entries cyclic_memory "c.c"))
    as [[] ctx' | |] eqn:Hrun; [| vm_compute in Hrun; discriminate ..].
  exists ctx'. split; [reflexivity |].
  exact (building_symbols_only_extends 0 (fun _ => -1) (fun _ _ => None) 3 16
           (Some 1%nat) (unit_entries cyclic_memory "c.c") ctx' Hrun).
Defined.

(** The pointer type of the same unit, built as a reference. *)
Lemma reference_is_built_as_pointer_witness :
  dwarf2_parse_reference_type 0
    (dwarf2_load_one_entry 0 (fun _ => -1) (fun _ _ => None) 3) 16
    (unit_entries cyclic_memory "c.c")
  = dwarf2_parse_pointer_type 0
      (dwarf2_load_one_entry 0 (fun _ => -1) (fun _ _ => None) 3) 16
      (unit_entries cyclic_memory "c.c").
Proof.
  apply (reference_is_built_as_pointer 0
           (dwarf2_load_one_entry 0 (fun _ => -1) (fun _ _ => None) 3) 16
           (entry_at (unit_entries cyclic_memory "c.c") 16)).
  - vm_compute. reflexivity.
  - vm_compute. eexists. reflexivity.
Defined.

(** The function [f], when every address lies in a thunk area. *)
Lemma subprogram_in_thunk_area_is_dropped_witness :
  dwarf2_parse_subprogram 0 (fun _ => 0)
    (dwarf2_load_one_entry 0 (fun _ => 0) (fun _ _ => None) 3) 3 23
    (Some 1%nat) (unit_entries function_memory "f.c")
  = Done None (unit_entries function_memory "f.c").
Proof.
  apply (subprogram_in_thunk_area_is_dropped 0 (fun _ => 0)
           (dwarf2_load_one_entry 0 (fun _ => 0) (fun _ _ => None) 3) 3 23
           (entry_at (unit_entries function_memory "f.c") 23) (Some 1%nat)
           (unit_entries function_memory "f.c") true
           {| a_form := DW_FORM_addr; u_word0 := 0x2000; u_word1 := 0 |}).
  - vm_compute. reflexivity.
  - vm_compute. reflexivity.
  - vm_compute. reflexivity.
  - vm_compute. eexists. reflexivity.
  - lia.
Defined.

(** The base type of the sample unit, built and asked for again. *)
Lemma returned_symbol_is_stored_witness :
  exists ctx',
    dwarf2_parse_base_type 0 16 (unit_entries sample_memory "a.c")
    = Done (Some 2%nat) ctx'
    /\ holds_symbol ctx' 16 2
    /\ dwarf2_parse_base_type 0 16 ctx' = Done (Some 2%nat) ctx'.
Proof.
  destruct (dwarf2_parse_base_type 0 16 (unit_entries sample_memory "a.c"))
    as [s ctx' | |] eqn:Hrun; [| vm_compute in Hrun; discriminate ..].
  assert (Hs : s = Some 2%nat).
  { vm_compute in Hrun. injection Hrun as <- _. reflexivity. }
  subst s. exists ctx'. split; [reflexivity |].
  exact (proj1 (returned_symbol_is_stored 0 (fun _ => -1) (fun _ _ => None)
                  (fun _ _ => fault) 0 None UdtStruct 16
                  (unit_entries sample_memory "a.c") 2 ctx') Hrun).
Defined.

(** The member [next] of [struct node], at [DW_OP_plus_uconst 0]. *)
Lemma member_position_in_bits_witness :
  exists ctx',
    dwarf2_parse_udt_member 0 (fun _ _ => None)
      (dwarf2_load_one_entry 0 (fun _ => -1) (fun _ _ => None) 5) 29
      (Some 7%nat) (unit_entries cyclic_memory "c.c") = Done tt ctx'
    /\ calls (module ctx')
       = [source_new None (Some "c.c"%string); symt_new_compiland 0;
          symt_new_udt (Some "node"%string) 4 UdtStruct;
          symt_new_pointer (Some 2%nat);
          symt_add_udt_element (Some 2%nat) (Some "next"%string)
            (Some 3%nat) 0 0;
          symt_new_pointer (Some 2%nat);
          symt_add_udt_element (Some 7%nat) (Some "next"%string)
            (Some 5%nat) 0 0].
Proof.
  edestruct (member_position_in_bits 0 (fun _ => -1) (fun _ _ => None) 5
               (unit_entries cyclic_memory "c.c") 29
               (entry_at (unit_entries cyclic_memory "c.c") 29) 7)
    as (ctx' & Hrun & Hcalls).
  - vm_compute. reflexivity.
  - vm_compute. reflexivity.
  - vm_compute. reflexivity.
  - vm_compute. reflexivity.
  - vm_compute. reflexivity.
  - vm_compute. reflexivity.
  - vm_compute. reflexivity.
  - exists ctx'. split; [exact Hrun |]. rewrite Hcalls. vm_compute.
    reflexivity.
Defined.

(** Under the sample header, (255 - 13) / 14 is 17. *)
Lemma const_add_pc_advances_as_opcode_255_witness :
  exists address,
    line_program_opcode (fun _ _ => 0) (fun _ _ => Some 2%nat)
      sample_line_header [0]
      {| data := 0x50021; start_data := 0x50000; end_data := 0x50040;
         word_size := 4 |}
      {| reg_address := 0x401010; reg_file := 1; reg_line := 10;
         reg_is_stmt := 1; reg_basic_block := false;
         reg_end_sequence := false |}
      DW_LNS_const_add_pc (initial_context [] function_module 0)
    = Done ({| data := 0x50021; start_data := 0x50000; end_data := 0x50040;
               word_size := 4 |},
            {| reg_address := address; reg_file := 1; reg_line := 10;
               reg_is_stmt := 1; reg_basic_block := false;
               reg_end_sequence := false |})
        (initial_context [] function_module 0)
    /\ forall tr r255 ctx255,
         line_program_opcode (fun _ _ => 0) (fun _ _ => Some 2%nat)
           sample_line_header [0]
           {| data := 0x50021; start_data := 0x50000; end_data := 0x50040;
              word_size := 4 |}
           {| reg_address := 0x401010; reg_file := 1; reg_line := 10;
              reg_is_stmt := 1; reg_basic_block := false;
              reg_end_sequence := false |}
           255 (initial_context [] function_module 0)
         = Done (tr, r255) ctx255 ->
         reg_address r255 = address.
Proof.
  apply (const_add_pc_advances_as_opcode_255 (fun _ _ => 0)
           (fun _ _ => Some 2%nat) sample_line_header [0]
           {| data := 0x50021; start_data := 0x50000; end_data := 0x50040;
              word_size := 4 |}
           {| reg_address := 0x401010; reg_file := 1; reg_line := 10;
              reg_is_stmt := 1; reg_basic_block := false;
              reg_end_sequence := false |}
           (initial_context [] function_module 0)).
  - split; [reflexivity | discriminate].
  - discriminate.
Defined.

(** [DW_LNS_negate_stmt] under the sample header. *)
Lemma lines_come_from_three_opcodes_witness :
  (initial_context [] function_module 0
   = initial_context [] function_module 0
   \/ exists f src line offset,
        initial_context [] function_module 0
        = set_module (initial_context [] function_module 0)
            (set_calls (module (initial_context [] function_module 0))
               (calls (module (initial_context [] function_module 0))
                ++ [symt_add_func_line (Some f) src line offset])))
  /\ (DW_LNS_negate_stmt < opcode_base sample_line_header ->
      DW_LNS_negate_stmt <> DW_LNS_copy ->
      DW_LNS_negate_stmt <> DW_LNS_extended_op ->
      initial_context [] function_module 0
      = initial_context [] function_module 0)
  /\ (DW_LNS_negate_stmt <> DW_LNS_extended_op -> false = false).
Proof.
  apply (lines_come_from_three_opcodes (fun _ _ => 0)
           (fun _ _ => Some 2%nat) sample_line_header [0]
           {| data := 0x50021; start_data := 0x50000; end_data := 0x50040;
              word_size := 4 |}
           {| data := 0x50021; start_data := 0x50000; end_data := 0x50040;
              word_size := 4 |}
           {| reg_address := 0x401010; reg_file := 1; reg_line := 10;
              reg_is_stmt := 1; reg_basic_block := false;
              reg_end_sequence := false |}
           {| reg_address := 0x401010; reg_file := 1; reg_line := 10;
              reg_is_stmt := 0; reg_basic_block := false;
              reg_end_sequence := false |}
           DW_LNS_negate_stmt (initial_context [] function_module 0)
           (initial_context [] function_module 0)).
  reflexivity.
Defined.

(** The end of a sequence at 0x50000. *)
Lemma end_sequence_closes_the_sequence_witness :
  line_program_sequence (fun _ _ => 0) (fun _ _ => Some 2%nat) 1
    sample_line_header [0]
    {| data := 0x50000; start_data := 0x50000; end_data := 0x50003;
       word_size := 4 |}
    {| reg_address := 0x401010; reg_file := 1; reg_line := 10;
       reg_is_stmt := 1; reg_basic_block := false;
       reg_end_sequence := false |}
    (initial_context end_sequence_memory function_module 0)
  = Done {| data := 0x50003; start_data := 0x50000; end_data := 0x50003;
            word_size := 4 |}
      (initial_context end_sequence_memory
         (set_calls function_module
            (calls function_module
             ++ [symt_add_func_line (Some 2%nat) 0 10 0x10])) 0).
Proof.
  rewrite (end_sequence_closes_the_sequence (fun _ _ => 0)
             (fun _ _ => Some 2%nat) 0 sample_line_header [0]
             {| data := 0x50000; start_data := 0x50000; end_data := 0x50003;
                word_size := 4 |}
             {| data := 0x50001; start_data := 0x50000; end_data := 0x50003;
                word_size := 4 |}
             {| data := 0x50002; start_data := 0x50000; end_data := 0x50003;
                word_size := 4 |}
             {| data := 0x50003; start_data := 0x50000; end_data := 0x50003;
                word_size := 4 |}
             1).
  - reflexivity.
  - cbn. lia.
  - reflexivity.
  - reflexivity.
  - reflexivity.
  - reflexivity.
Defined.

(** The sample unit, parsed from a module with no symbol. *)
Lemma dwarf2_parse_only_adds_witness :
  exists ctx',
    dwarf2_parse 0 (fun _ => -1) (fun _ _ => None) (fun _ _ => -1)
      (fun _ _ => None) 0x70000000 10 0x10000 37 0x20000 30 NO_MAP 0 NO_MAP 0
      (initial_context sample_memory sample_module 0)
    = Done true ctx'
    /\ BaseOfImage (module ctx') = 0x400000
    /\ (exists l, calls (module ctx') = [] ++ l)
    /\ SymType (module ctx') = SymDia.
Proof.
  destruct (dwarf2_parse 0 (fun _ => -1) (fun _ _ => None) (fun _ _ => -1)
              (fun _ _ => None) 0x70000000 10 0x10000 37 0x20000 30 NO_MAP 0
              NO_MAP 0 (initial_context sample_memory sample_module 0))
    as [r ctx' | |] eqn:Hrun; [| vm_compute in Hrun; discriminate ..].
  destruct (proj1 (dwarf2_parse_only_adds 0 (fun _ => -1) (fun _ _ => None)
                     (fun _ _ => -1) (fun _ _ => None) 0x70000000 10 0x10000
                     37 0x20000 30 NO_MAP 0 NO_MAP 0
                     (initial_context sample_memory sample_module 0))
              r ctx' Hrun)
    as (-> & _ & Hbase & Hcalls & Htype & _).
  exists ctx'. split; [reflexivity |]. split; [exact Hbase |].
  split; [exact Hcalls | exact Htype].
Defined.


(** The base type [int] of the sample unit. *)
Lemma base_type_becomes_a_basic_symbol_witness :
  exists bt ctx',
    dwarf2_parse_base_type 0 16 (unit_entries sample_memory "a.c")
    = Done (Some 2%nat) ctx'
    /\ calls (module ctx')
       = [source_new None (Some "a.c"%string); symt_new_compiland 0;
          symt_new_basic bt (Some "int"%string) 4]
    /\ holds_symbol ctx' 16 2.
Proof.
  edestruct (base_type_becomes_a_basic_symbol 0 16
               (entry_at (unit_entries sample_memory "a.c") 16)
               (unit_entries sample_memory "a.c"))
    as (bt & ctx' & Hrun & Hcalls & Hholds & _).
  - vm_compute. reflexivity.
  - vm_compute. reflexivity.
  - vm_compute. reflexivity.
  - vm_compute. reflexivity.
  - vm_compute. reflexivity.
  - exists bt, ctx'. split; [exact Hrun |]. split; [| exact Hholds].
    rewrite Hcalls. vm_compute. reflexivity.
Defined.

(** The parameter [x] of [f], at [DW_OP_fbreg 8] in a function whose
    frame register is 5 (ebp). *)
Lemma frame_variable_is_a_local_witness :
  exists ctx',
    dwarf2_parse_variable 0
      (dwarf2_load_one_entry 0 (fun _ => -1) (fun _ _ => None) 3)
      {| compiland := Some 1%nat; func := Some 3%nat; frame_offset := 0;
         frame_reg := 5 |}
      None 40
      (set_module (unit_entries function_memory "f.c") signature_module)
    = Done tt ctx'
    /\ calls (module ctx')
       = calls signature_module
         ++ [symt_new_basic btInt (Some "int"%string) 4;
             symt_add_func_local (Some 3%nat) DataIsParam CV_REG_EBP
               Wine_DW_register_deref 8 None (Some 4%nat)
               (Some "x"%string);
             symt_add_function_signature_parameter (Some 2%nat)
               (Some 4%nat)].
Proof.
  edestruct (frame_variable_is_a_local 0 (fun _ => -1) (fun _ _ => None) 3
               (set_module (unit_entries function_memory "f.c")
                  signature_module)
               40 (entry_at (unit_entries function_memory "f.c") 40)
               {| compiland := Some 1%nat; func := Some 3%nat;
                  frame_offset := 0; frame_reg := 5 |}
               None 3)
    as (ctx' & Hrun & Hcalls).
  - vm_compute. reflexivity.
  - reflexivity.
  - vm_compute. reflexivity.
  - vm_compute. reflexivity.
  - vm_compute. reflexivity.
  - vm_compute. discriminate.
  - vm_compute. reflexivity.
  - vm_compute. eexists. reflexivity.
  - exists ctx'. split; [exact Hrun |]. rewrite Hcalls. vm_compute.
    reflexivity.
Defined.

(** The declaration of [g]. *)
Lemma declared_subprogram_gets_no_function_witness :
  exists ctx',
    dwarf2_parse_subprogram 0 (fun _ => -1)
      (dwarf2_load_one_entry 0 (fun _ => -1) (fun _ _ => None) 3) 3 51
      (Some 1%nat) (unit_entries function_memory "f.c")
    = Done None ctx'
    /\ calls (module ctx')
       = [source_new None (Some "f.c"%string); symt_new_compiland 0;
          symt_new_function_signature None CV_CALL_FAR_C;
          symt_normalize_function None].
Proof.
  edestruct (declared_subprogram_gets_no_function 0 (fun _ => -1)
               (fun _ _ => None) 3 3 51
               (entry_at (unit_entries function_memory "f.c") 51)
               (entry_at (unit_entries function_memory "f.c") 51)
               (Some 1%nat) (unit_entries function_memory "f.c"))
    as (ctx' & Hrun & Hcalls & _).
  - vm_compute. reflexivity.
  - vm_compute. reflexivity.
  - vm_compute. reflexivity.
  - vm_compute. reflexivity.
  - vm_compute. eexists. reflexivity.
  - vm_compute. reflexivity.
  - vm_compute. reflexivity.
  - vm_compute. discriminate.
  - vm_compute. eexists. reflexivity.
  - vm_compute. reflexivity.
  - vm_compute. reflexivity.
  - vm_compute. reflexivity.
  - vm_compute. eexists. reflexivity.
  - exists ctx'. split; [exact Hrun |]. rewrite Hcalls. vm_compute.
    reflexivity.
Defined.

(** The function [f] of the sample unit, with its parameter. *)
Lemma symbol_pointers_stay_sound_witness :
  exists ctx',
    dwarf2_load_one_entry 0 (fun _ => -1) (fun _ _ => None) 5 23
      (Some 1%nat) (unit_entries function_memory "f.c") = Done tt ctx'
    /\ pointers_sound ctx'.
Proof.
  destruct (dwarf2_load_one_entry 0 (fun _ => -1) (fun _ _ => None) 5 23
              (Some 1%nat) (unit_entries function_memory "f.c"))
    as [[] ctx' | |] eqn:Hrun; [| vm_compute in Hrun; discriminate ..].
  exists ctx'. split; [reflexivity |].
  apply (symbol_pointers_stay_sound 0 (fun _ => -1) (fun _ _ => None) 5 23
           (Some 1%nat) (unit_entries function_memory "f.c") ctx').
  - apply pointers_sound_by_test. vm_compute. reflexivity.
  - vm_compute. split; [lia |]. eexists. split; reflexivity.
  - exact Hrun.
Defined.

(** The sample unit with the function [f]. *)
Lemma unit_result_tells_what_was_added_witness :
  exists ctx',
    dwarf2_parse_compilation_unit 0 (fun _ => -1) (fun _ _ => None)
      (fun _ _ => -1) (fun _ _ => None) 0x70000000 10
      {| cu_length := 0x34; cu_version := 2; cu_abbrev_offset := 0;
         cu_word_size := 4 |}
      0x10000 (unit_start function_memory)
    = Done true ctx'
    /\ exists dir name l,
         calls (module ctx')
         = [] ++ source_new dir name :: symt_new_compiland 0 :: l.
Proof.
  destruct (dwarf2_parse_compilation_unit 0 (fun _ => -1) (fun _ _ => None)
              (fun _ _ => -1) (fun _ _ => None) 0x70000000 10
              {| cu_length := 0x34; cu_version := 2; cu_abbrev_offset := 0;
                 cu_word_size := 4 |}
              0x10000 (unit_start function_memory))
    as [r ctx' | |] eqn:Hrun; [| vm_compute in Hrun; discriminate ..].
  pose proof (unit_result_tells_what_was_added 0 (fun _ => -1)
                (fun _ _ => None) (fun _ _ => -1) (fun _ _ => None)
                0x70000000 10 _ _ _ r ctx' Hrun) as H.
  destruct r; [| vm_compute in Hrun; discriminate].
  exists ctx'. split; [reflexivity |]. exact (proj2 H).
Defined.

(** The function [f] with a block and a block inside it. *)
Lemma blocks_are_well_nested_witness :
  exists ctx',
    dwarf2_load_one_entry 0 (fun _ => -1) (fun _ _ => None) 6 23
      (Some 1%nat) (unit_entries block_memory "b.c") = Done tt ctx'
    /\ open_blocks (calls (module ctx')) = Some [].
Proof.
  destruct (dwarf2_load_one_entry 0 (fun _ => -1) (fun _ _ => None) 6 23
              (Some 1%nat) (unit_entries block_memory "b.c"))
    as [[] ctx' | |] eqn:Hrun; [| vm_compute in Hrun; discriminate ..].
  exists ctx'. split; [reflexivity |].
  apply (blocks_are_well_nested 0 (fun _ => -1) (fun _ _ => None) 6 23
           (Some 1%nat) (unit_entries block_memory "b.c") ctx' []).
  - vm_compute. reflexivity.
  - exact Hrun.
Defined.
